(** * Background remover: local segmentation engine

    Shallow embedding of the heuristic (local, model-free) segmentation
    pipeline of [BackgroundRemover] and the properties its specification
    states about it.

    Numbers.  A JavaScript number is an IEEE-754 binary64 value and is
    modelled by Rocq's primitive [float]; a store into a [Float32Array]
    rounds through [Js.fround].  Numbers that the program only ever uses
    as array indices, dimensions, counters, byte values or radii are
    integers far below 2^53, where binary64 arithmetic is exact; they are
    modelled in [Z]; the blur radius, which is computed from an option,
    is first checked to be one.  Reading a typed array outside its bounds
    yields [undefined] (modelled by [None]); writing outside its bounds
    is ignored. *)

From Stdlib Require Import ZArith Floats Lia List Bool.
From stdpp Require Import base list list_numbers sorting strings.

Set Warnings "-inexact-float".
Open Scope Z_scope.

(** ** JavaScript values and built-ins *)

Module Js.

(** An integer as a number; exact below 2^53. *)
Definition Z2F (z : Z) : float :=
  match z with
  | Z0 => zero
  | Zpos _ => of_uint63 (Uint63.of_Z z)
  | Zneg p => (- of_uint63 (Uint63.of_Z (Zpos p)))%float
  end.

(** The integer held by an integer-valued number (truncation otherwise). *)
Definition toZ (x : float) : Z :=
  match Prim2SF x with
  | S754_finite s m e =>
      if 0 <=? e then cond_Zopp s (Zpos m) * 2 ^ e
      else Z.quot (cond_Zopp s (Zpos m)) (2 ^ (- e))
  | _ => 0
  end.

(** [ToNumber] of an element read from an integer typed array. *)
Definition num (v : option Z) : float :=
  match v with Some z => Z2F z | None => nan end.

(** [ToNumber] of an element read from a float typed array. *)
Definition numf (v : option float) : float :=
  match v with Some x => x | None => nan end.

(** [ToBoolean] on a number: [NaN], [+0] and [-0] are falsy. *)
Definition truthy (x : float) : bool :=
  negb (is_nan x || PrimFloat.eqb x 0%float).

(** [ToBoolean] of an element read from an integer typed array. *)
Definition truthyZ (v : option Z) : bool :=
  match v with Some z => negb (z =? 0) | None => false end.

(** [Math.max(a, b)]: [NaN] if either is [NaN]; [+0] is larger than [-0]. *)
Definition Math_max (a b : float) : float :=
  if is_nan a || is_nan b then nan
  else if PrimFloat.ltb a b then b
  else if PrimFloat.ltb b a then a
  else if get_sign a then b else a.

(** [Math.min(a, b)]: [NaN] if either is [NaN]; [-0] is smaller than [+0]. *)
Definition Math_min (a b : float) : float :=
  if is_nan a || is_nan b then nan
  else if PrimFloat.ltb a b then a
  else if PrimFloat.ltb b a then b
  else if get_sign a then a else b.

(** [Math.round]: the integer nearest to [x], ties towards +infinity,
    computed exactly from the mantissa and exponent of [x]. *)
Definition Math_round (x : float) : float :=
  match Prim2SF x with
  | S754_finite s m e =>
      if 0 <=? e then x
      else
        let r := (2 * cond_Zopp s (Zpos m) + 2 ^ (- e)) / 2 ^ (1 - e) in
        if r =? 0 then (if s then neg_zero else zero) else Z2F r
  | _ => x
  end.

Definition Math_floor (x : float) : float :=
  match Prim2SF x with
  | S754_finite s m e =>
      if 0 <=? e then x
      else
        let r := cond_Zopp s (Zpos m) / 2 ^ (- e) in
        if r =? 0 then zero else Z2F r
  | _ => x
  end.

Definition Math_ceil (x : float) : float :=
  match Prim2SF x with
  | S754_finite s m e =>
      if 0 <=? e then x
      else
        let r := - ((- cond_Zopp s (Zpos m)) / 2 ^ (- e)) in
        if r =? 0 then (if s then neg_zero else zero) else Z2F r
  | _ => x
  end.

(** [Math.fround]: rounding to binary32 (precision 24, maximal exponent
    128), ties to even; what a store into a [Float32Array] does. *)
Definition fround (x : float) : float :=
  match Prim2SF x with
  | S754_finite s m e => SF2Prim (binary_round 24 128 s m e)
  | _ => x
  end.

(** [arr[i]] on a typed array. *)
Definition aget {A} (arr : list A) (i : Z) : option A :=
  if i <? 0 then None else arr !! Z.to_nat i.

(** [arr[i] = v] on a typed array: ignored outside the bounds. *)
Definition aset {A} (arr : list A) (i : Z) (v : A) : list A :=
  if i <? 0 then arr else <[Z.to_nat i := v]> arr.

(** [new Uint8Array(n)], [new Int32Array(n)]. *)
Definition zeros (n : Z) : list Z := replicate (Z.to_nat n) 0.

(** [new Float32Array(n)]. *)
Definition fzeros (n : Z) : list float := replicate (Z.to_nat n) 0%float.

(** The values taken by [i] in [for (i = lo; i < hi; i += step)]. *)
Definition range (lo hi step : Z) : list Z :=
  if step <=? 0 then []
  else (fun k => lo + k * step) <$> seqZ 0 ((hi - lo + step - 1) / step).

(** [for (y = 0; y < height; y++) for (x = 0; x < width; x++)
       out[y * width + x] = f(x, y)]. *)
Definition fill2 {A} (out : list A) (width height : Z) (f : Z -> Z -> A)
  : list A :=
  foldl (fun out y =>
    foldl (fun out x => aset out (y * width + x) (f x y))
      out (range 0 width 1))
    out (range 0 height 1).

(** [Array.prototype.sort(cmp)].  ECMAScript requires the sort to be
    stable, and [x] is moved behind [y] only when [cmp(x, y) > 0] (a [NaN]
    result counts as 0).  For a comparator that is consistent on the data
    this determines the result, which stable insertion computes. *)
Fixpoint sort_insert {A} (cmp : A -> A -> float) (x : A) (l : list A)
  : list A :=
  match l with
  | [] => [x]
  | y :: l' =>
      if PrimFloat.ltb 0 (cmp x y) then y :: sort_insert cmp x l'
      else x :: l
  end.

Definition sort {A} (cmp : A -> A -> float) (l : list A) : list A :=
  foldr (sort_insert cmp) [] l.

End Js.

Import Js.

(** ** The host: what the language leaves to the built-in collections

    [Map.prototype.values()] of ECMAScript enumerates in insertion order
    and [Array.prototype.sort] is stable.  The engine is written against
    this interface so that the part each of them plays in the result can be
    stated; [ecmascript] is the host the program runs on. *)

Module Bin.
Record t := mk { count : Z; r : float; g : float; b : float }.
End Bin.

(** The key [`${r >> 4}-${g >> 4}-${b >> 4}`] of a colour bin. *)
Definition BinKey : Type := Z * Z * Z.

Class Host := {
  (** the order in which the values of a [Map], given in insertion order,
      are enumerated *)
  map_values : list (BinKey * Bin.t) -> list Bin.t;
  (** [Array.prototype.sort] with a comparator *)
  array_sort : forall A : Type, (A -> A -> float) -> list A -> list A
}.

#[export] Instance ecmascript : Host := {
  map_values := map snd;
  array_sort := @Js.sort
}.

(** ** Colour and geometry primitives *)

Definition rgbDistance (r1 g1 b1 r2 g2 b2 : float) : float :=
  let dr := (r1 - r2)%float in
  let dg := (g1 - g2)%float in
  let db := (b1 - b2)%float in
  sqrt (dr * dr + dg * dg + db * db)%float.

Definition rgbDistanceAt (data : list Z) (pixelIndex : Z) (r g b : float)
  : float :=
  let idx := pixelIndex * 4 in
  rgbDistance (num (aget data idx)) (num (aget data (idx + 1)))
    (num (aget data (idx + 2))) r g b.

Definition rgbDistanceBetweenIndices (data : list Z)
  (firstPixelIndex secondPixelIndex : Z) : float :=
  let a := firstPixelIndex * 4 in
  let b := secondPixelIndex * 4 in
  rgbDistance (num (aget data a)) (num (aget data (a + 1)))
    (num (aget data (a + 2)))
    (num (aget data b)) (num (aget data (b + 1))) (num (aget data (b + 2))).

Definition clamp (value min max : float) : float :=
  Math_max min (Math_min max value).

(** A border sample [[r, g, b]]; a channel read outside the buffer is
    [undefined]. *)
Definition Sample : Type := option Z * option Z * option Z.

Module Color.
Record t := mk { r : float; g : float; b : float }.
End Color.

Definition averageColor (samples : list Sample) : Color.t :=
  match samples with
  | [] => Color.mk 0 0 0
  | _ =>
      let '(r, g, b) :=
        foldl (fun '(r, g, b) '(sr, sg, sb) =>
                 ((r + num sr)%float, (g + num sg)%float, (b + num sb)%float))
          (0%float, 0%float, 0%float) samples in
      let n := Z2F (Z.of_nat (length samples)) in
      Color.mk (Math_round (r / n)) (Math_round (g / n)) (Math_round (b / n))
  end.

Definition percentileSorted (sortedValues : list float) (percentile : float)
  : float :=
  let n := Z.of_nat (length sortedValues) in
  if n =? 0 then 0%float
  else
    let index :=
      Z.min (n - 1)
        (Z.max 0 (toZ (Math_floor (Z2F (n - 1) * percentile)))) in
    numf (aget sortedValues index).

(** ** Background colour model *)

Module Model.
Record t := mk {
  r : float; g : float; b : float;
  tolerance : float; expansionTolerance : float
}.
End Model.

(** [x >> 4] on a channel ([undefined >> 4] is 0). *)
Definition shr4 (v : option Z) : Z :=
  match v with Some z => Z.shiftr z 4 | None => 0 end.

Definition BinKey_eqb (k1 k2 : BinKey) : bool :=
  let '(a1, b1, c1) := k1 in
  let '(a2, b2, c2) := k2 in
  (a1 =? a2) && (b1 =? b2) && (c1 =? c2).

(** [bins.get(key)] followed by the update of the bin found, or by
    [bins.set(key, {count: 1, r, g, b})], which appends.  The sums of a bin
    are numbers; a first channel that is [undefined] is kept as [NaN],
    which every later use ([+=] and [/]) cannot tell apart. *)
Fixpoint bins_add (bins : list (BinKey * Bin.t)) (key : BinKey)
  (r g b : float) : list (BinKey * Bin.t) :=
  match bins with
  | [] => [(key, Bin.mk 1 r g b)]
  | (k, bin) :: rest =>
      if BinKey_eqb key k then
        (k, Bin.mk (Bin.count bin + 1) (Bin.r bin + r) (Bin.g bin + g)
              (Bin.b bin + b)) :: rest
      else (k, bin) :: bins_add rest key r g b
  end.

Definition addSample (data : list Z) (width : Z)
  (st : list (BinKey * Bin.t) * list Sample) (x y : Z)
  : list (BinKey * Bin.t) * list Sample :=
  let '(bins, samples) := st in
  let idx := (y * width + x) * 4 in
  let a := aget data (idx + 3) in
  if PrimFloat.ltb (num a) 16 then st
  else
    let r := aget data idx in
    let g := aget data (idx + 1) in
    let b := aget data (idx + 2) in
    (bins_add bins (shr4 r, shr4 g, shr4 b) (num r) (num g) (num b),
     samples ++ [(r, g, b)]).

(** [for (const value of bins.values())
       if (!dominant || value.count > dominant.count) dominant = value] *)
Definition dominantBin (values : list Bin.t) : option Bin.t :=
  foldl (fun dominant value =>
           match dominant with
           | None => Some value
           | Some d =>
               if Bin.count d <? Bin.count value then Some value
               else dominant
           end) None values.

Definition sampleDistance (sample : Sample) (center : Color.t) : float :=
  let '(r, g, b) := sample in
  rgbDistance (num r) (num g) (num b)
    (Color.r center) (Color.g center) (Color.b center).

Definition borderSamples (data : list Z) (width height : Z)
  : list (BinKey * Bin.t) * list Sample :=
  let border :=
    Z.max 6 (Z.min 18
      (toZ (Math_round (Z2F (Z.min width height) * 0.025)))) in
  let step := Z.max 1 (toZ (Math_round (Z2F (Z.min width height) / 320))) in
  let st :=
    foldl (fun st y =>
      foldl (fun st x =>
               addSample data width (addSample data width st x y)
                 x (height - 1 - y))
        st (range 0 width step))
      ([], []) (range 0 border step) in
  foldl (fun st x =>
    foldl (fun st y =>
             addSample data width (addSample data width st x y)
               (width - 1 - x) y)
      st (range border (height - border) step))
    st (range 0 border step).

(** With no sample the fixed near-white model is returned.  [dominant]
    stays [null] only when no bin is enumerated; a [Map] that received a
    sample enumerates its bin, so that case is the one of zero samples. *)
Definition estimateBackgroundModel `{Host} (data : list Z) (width height : Z)
  : Model.t :=
  let '(bins, samples) := borderSamples data width height in
  match samples, dominantBin (map_values bins) with
  | [], _ | _, None => Model.mk 245 245 245 30 42
  | _, Some dominant =>
      let n := Z2F (Bin.count dominant) in
      let center :=
        Color.mk (Math_round (Bin.r dominant / n))
          (Math_round (Bin.g dominant / n))
          (Math_round (Bin.b dominant / n)) in
      let nearSamples :=
        filter (fun sample =>
                  PrimFloat.ltb (sampleDistance sample center) 42 = true)
          samples in
      let refinedPool :=
        if 50 <=? Z.of_nat (length nearSamples) then nearSamples
        else samples in
      let center := averageColor refinedPool in
      let distances :=
        array_sort float (fun a b => (a - b)%float)
          (map (fun sample => sampleDistance sample center) refinedPool) in
      let p80 := percentileSorted distances 0.8 in
      let p95 := percentileSorted distances 0.95 in
      let tolerance := clamp (Math_max 24 (p80 * 1.25)) 24 110 in
      let expansionTolerance := clamp (Math_max 32 (p95 * 1.35)) 32 135 in
      Model.mk (Color.r center) (Color.g center) (Color.b center)
        tolerance expansionTolerance
  end.

(** ** Gradient map *)

Definition lumaMap (data : list Z) (total : Z) : list float :=
  foldl (fun luma i =>
           let idx := i * 4 in
           aset luma i
             (fround (0.299 * num (aget data idx)
                      + 0.587 * num (aget data (idx + 1))
                      + 0.114 * num (aget data (idx + 2)))%float))
    (fzeros total) (range 0 total 1).

Definition gradientAt (luma : list float) (width height x y : Z) : float :=
  let idx := y * width + x in
  let left := if 0 <? x then idx - 1 else idx in
  let right := if x <? width - 1 then idx + 1 else idx in
  let up := if 0 <? y then idx - width else idx in
  let down := if y <? height - 1 then idx + width else idx in
  let gx := abs (numf (aget luma right) - numf (aget luma left)) in
  let gy := abs (numf (aget luma down) - numf (aget luma up)) in
  fround (gx + gy).

Definition computeGradientMap (data : list Z) (width height : Z)
  : list float :=
  let total := width * height in
  let luma := lumaMap data total in
  fill2 (fzeros total) width height (gradientAt luma width height).

(** ** Border seeds *)

Module Candidate.
Record t := mk { idx : Z; dist : float; grad : float }.
End Candidate.

Definition consider (data : list Z) (model : Model.t) (gradient : list float)
  (st : list Candidate.t * list Z) (idx : Z) : list Candidate.t * list Z :=
  let '(candidates, seeds) := st in
  let dist :=
    rgbDistanceAt data idx (Model.r model) (Model.g model) (Model.b model) in
  let grad := numf (aget gradient idx) in
  (candidates ++ [Candidate.mk idx dist grad],
   if PrimFloat.leb dist (Model.tolerance model) && PrimFloat.leb grad 85
   then seeds ++ [idx] else seeds).

Definition borderCandidates (data : list Z) (width height : Z)
  (model : Model.t) (gradient : list float) : list Candidate.t * list Z :=
  let borderThickness :=
    Z.max 1 (toZ (Math_round (Z2F (Z.min width height) * 0.01))) in
  let st :=
    foldl (fun st y =>
      foldl (fun st x =>
               consider data model gradient
                 (consider data model gradient st (y * width + x))
                 ((height - 1 - y) * width + x))
        st (range 0 width 1))
      ([], []) (range 0 borderThickness 1) in
  foldl (fun st x =>
    foldl (fun st y =>
             consider data model gradient
               (consider data model gradient st (y * width + x))
               (y * width + (width - 1 - x)))
      st (range borderThickness (height - borderThickness) 1))
    st (range 0 borderThickness 1).

Definition candidateScore (c : Candidate.t) : float :=
  (Candidate.dist c + Candidate.grad c * 0.2)%float.

Definition collectBorderSeeds `{Host} (data : list Z) (width height : Z)
  (model : Model.t) (gradient : list float) : list Z :=
  let '(candidates, seeds) :=
    borderCandidates data width height model gradient in
  if 0 <? Z.of_nat (length seeds) then seeds
  else
    let candidates :=
      array_sort Candidate.t
        (fun a b => (candidateScore a - candidateScore b)%float)
        candidates in
    let fallbackCount :=
      Z.max 40 (toZ (Math_round (Z2F (Z.min width height) * 0.3))) in
    Candidate.idx <$>
      take (Z.to_nat (Z.min fallbackCount (Z.of_nat (length candidates))))
        candidates.

(** ** Flood fill with an array-backed queue

    The three flood fills of the engine ([growBackgroundRegion],
    the labelling loop of [keepMainForegroundRegions], [fillMaskHoles])
    are the same loop over a mark array and a fixed queue; they differ in
    the test that rejects a neighbour, in the mark written and in what is
    accumulated per dequeued pixel. *)

Module Bfs.

Record state (A : Type) := mk {
  marks : list Z;     (* [visited] or [labels] *)
  queue : list Z;
  head : Z;
  tail : Z;
  acc : A
}.
Arguments mk {A} _ _ _ _ _.
Arguments marks {A} _.
Arguments queue {A} _.
Arguments head {A} _.
Arguments tail {A} _.
Arguments acc {A} _.

Section Loop.
Context {A : Type}.
(** [rejected marks nIdx pIdx]: the neighbour [nIdx] of [pIdx] is left
    alone *)
Variable rejected : list Z -> Z -> Z -> bool.
(** the mark written on enqueue *)
Variable mark : Z.
(** the per-pixel accumulation at dequeue *)
Variable visit : A -> Z -> A.
Variables width height : Z.

(** [marks[nIdx] = mark; queue[tail++] = nIdx] *)
Definition enqueue (st : state A) (nIdx : Z) : state A :=
  mk (aset (marks st) nIdx mark) (aset (queue st) (tail st) nIdx)
     (head st) (tail st + 1) (acc st).

Definition tryPush (st : state A) (nIdx pIdx : Z) : state A :=
  if rejected (marks st) nIdx pIdx then st else enqueue st nIdx.

(** One iteration of [while (head < tail)].  An index read outside the
    queue is [undefined], for which every neighbour test is false. *)
Definition step (st : state A) : state A :=
  match aget (queue st) (head st) with
  | None => mk (marks st) (queue st) (head st + 1) (tail st) (acc st)
  | Some idx =>
      let st :=
        mk (marks st) (queue st) (head st + 1) (tail st)
           (visit (acc st) idx) in
      let x := Z.rem idx width in
      let y := idx / width in
      let st := if 0 <? x then tryPush st (idx - 1) idx else st in
      let st := if x <? width - 1 then tryPush st (idx + 1) idx else st in
      let st := if 0 <? y then tryPush st (idx - width) idx else st in
      if y <? height - 1 then tryPush st (idx + width) idx else st
  end.

(** [while (head < tail) { ... }], at most [fuel] iterations. *)
Fixpoint run (fuel : nat) (st : state A) : state A :=
  match fuel with
  | O => st
  | S fuel => if head st <? tail st then run fuel (step st) else st
  end.

End Loop.
End Bfs.

(** ** Region growing *)

Definition shouldExpand (data : list Z) (model : Model.t)
  (gradient : list float) (nIdx pIdx : Z) : bool :=
  let distBg :=
    rgbDistanceAt data nIdx (Model.r model) (Model.g model) (Model.b model) in
  let grad := numf (aget gradient nIdx) in
  let distParent := rgbDistanceBetweenIndices data nIdx pIdx in
  let dynamicThreshold :=
    (Model.expansionTolerance model + Math_min 28 (grad * 0.12))%float in
  PrimFloat.leb distBg dynamicThreshold
  && PrimFloat.leb distParent 74
  && (PrimFloat.leb grad 125
      || PrimFloat.leb distBg (Model.tolerance model * 0.95)).

(** The test of [tryPush]: [if (visited[nIdx]) return;
    ... if (!shouldExpand) return;] *)
Definition growRejected (data : list Z) (model : Model.t)
  (gradient : list float) (visited : list Z) (nIdx pIdx : Z) : bool :=
  truthyZ (aget visited nIdx) || negb (shouldExpand data model gradient nIdx pIdx).

(** [for (const seed of seeds) if (!visited[seed]) { ... }] *)
Definition seedQueue (total : Z) (seeds : list Z) : Bfs.state unit :=
  foldl (fun st seed =>
           if truthyZ (aget (Bfs.marks st) seed) then st
           else Bfs.enqueue 1 st seed)
    (Bfs.mk (zeros total) (zeros total) 0 0 tt) seeds.

(** The loop runs at most once per queued index; [length seeds + total]
    iterations always exhaust the queue. *)
Definition growState (data : list Z) (width height : Z) (model : Model.t)
  (gradient : list float) (seeds : list Z) : Bfs.state unit :=
  let total := width * height in
  Bfs.run (growRejected data model gradient) 1 (fun a _ => a) width height
    (length seeds + Z.to_nat total) (seedQueue total seeds).

Definition growBackgroundRegion (data : list Z) (width height : Z)
  (model : Model.t) (gradient : list float) (seeds : list Z) : list Z :=
  Bfs.marks (growState data width height model gradient seeds).

Definition invertBinaryMask (mask : list Z) : list Z :=
  (fun v => if negb (v =? 0) then 0 else 1) <$> mask.

(** ** Connected components of the foreground *)

(** [x >= centerMinX && x <= centerMaxX && y >= centerMinY &&
     y <= centerMaxY] for the pixel [idx] *)
Definition inCenter (width height idx : Z) : bool :=
  let centerMinX := toZ (Math_floor (Z2F width * 0.25)) in
  let centerMaxX := toZ (Math_ceil (Z2F width * 0.75)) in
  let centerMinY := toZ (Math_floor (Z2F height * 0.25)) in
  let centerMaxY := toZ (Math_ceil (Z2F height * 0.75)) in
  let x := Z.rem idx width in
  let y := idx / width in
  (centerMinX <=? x) && (x <=? centerMaxX)
  && (centerMinY <=? y) && (y <=? centerMaxY).

(** [!mask[nIdx] || labels[nIdx] !== 0] *)
Definition labelRejected (mask labels : list Z) (nIdx : Z) : bool :=
  negb (truthyZ (aget mask nIdx))
  || match aget labels nIdx with Some 0 => false | _ => true end.

Module Labelling.
Record t := mk {
  labels : list Z;
  queue : list Z;
  componentId : Z;
  componentAreas : list Z;
  componentTouchesCenter : list bool
}.
End Labelling.

(** The body of [for (let i = 0; i < total; i++)].  The component arrays
    are written at index [componentId], which is their length. *)
Definition labelFrom (mask : list Z) (width height : Z) (st : Labelling.t)
  (i : Z) : Labelling.t :=
  if labelRejected mask (Labelling.labels st) i then st
  else
    let componentId := Labelling.componentId st + 1 in
    let total := width * height in
    let fin :=
      Bfs.run (fun labels nIdx _ => labelRejected mask labels nIdx)
        componentId
        (fun '(area, touchesCenter) idx =>
           (area + 1, touchesCenter || inCenter width height idx))
        width height (Z.to_nat total)
        (Bfs.mk (aset (Labelling.labels st) i componentId)
           (aset (Labelling.queue st) 0 i) 0 1 (0, false)) in
    let '(area, touchesCenter) := Bfs.acc fin in
    Labelling.mk (Bfs.marks fin) (Bfs.queue fin) componentId
      (Labelling.componentAreas st ++ [area])
      (Labelling.componentTouchesCenter st ++ [touchesCenter]).

Definition labelComponents (mask : list Z) (width height : Z)
  : Labelling.t :=
  let total := width * height in
  foldl (labelFrom mask width height)
    (Labelling.mk (zeros total) (zeros total) 0 [0] [false])
    (range 0 total 1).

(** [componentAreas[id] + (componentTouchesCenter[id] ? total * 0.2 : 0)] *)
Definition componentScore (lab : Labelling.t) (total id : Z) : float :=
  (num (aget (Labelling.componentAreas lab) id)
   + (if default false (aget (Labelling.componentTouchesCenter lab) id)
      then Z2F total * 0.2 else 0))%float.

Definition bestComponent (lab : Labelling.t) (total : Z) : Z :=
  fst (foldl (fun '(bestId, bestScore) id =>
                let score := componentScore lab total id in
                if PrimFloat.ltb bestScore score then (id, score)
                else (bestId, bestScore))
         (1, (-1)%float) (range 1 (Labelling.componentId lab + 1) 1)).

Definition keptComponents (lab : Labelling.t) (total : Z) : list Z :=
  let minArea := Z.max 120 (toZ (Math_round (Z2F total * 0.0018))) in
  let bestId := bestComponent lab total in
  let keep := aset (zeros (Labelling.componentId lab + 1)) bestId 1 in
  let bestArea := default 0 (aget (Labelling.componentAreas lab) bestId) in
  foldl (fun keep id =>
           if id =? bestId then keep
           else
             let area := default 0 (aget (Labelling.componentAreas lab) id) in
             let touchesCenter :=
               default false
                 (aget (Labelling.componentTouchesCenter lab) id) in
             if touchesCenter
                && (Z.max minArea (toZ (Math_round (Z2F bestArea * 0.12)))
                    <=? area)
             then aset keep id 1 else keep)
    keep (range 1 (Labelling.componentId lab + 1) 1).

Definition keepMainForegroundRegions (mask : list Z) (width height : Z)
  : list Z :=
  let total := width * height in
  let lab := labelComponents mask width height in
  if Labelling.componentId lab <=? 1 then mask
  else
    let keep := keptComponents lab total in
    foldl (fun result i =>
             let id := default 0 (aget (Labelling.labels lab) i) in
             aset result i
               (if (0 <? id) && truthyZ (aget keep id) then 1 else 0))
      (zeros total) (range 0 total 1).

(** ** Hole filling *)

(** [visited[idx] || mask[idx] === 1] *)
Definition holeRejected (mask visited : list Z) (idx : Z) : bool :=
  truthyZ (aget visited idx)
  || match aget mask idx with Some 1 => true | _ => false end.

Definition enqueueIfBackground (mask : list Z) (st : Bfs.state unit)
  (idx : Z) : Bfs.state unit :=
  Bfs.tryPush (fun visited nIdx _ => holeRejected mask visited nIdx) 1
    st idx idx.

Definition borderQueue (mask : list Z) (width height : Z) : Bfs.state unit :=
  let total := width * height in
  let st :=
    foldl (fun st x =>
             enqueueIfBackground mask (enqueueIfBackground mask st x)
               ((height - 1) * width + x))
      (Bfs.mk (zeros total) (zeros total) 0 0 tt) (range 0 width 1) in
  foldl (fun st y =>
           enqueueIfBackground mask (enqueueIfBackground mask st (y * width))
             (y * width + (width - 1)))
    st (range 0 height 1).

Definition reachedFromBorder (mask : list Z) (width height : Z) : list Z :=
  Bfs.marks
    (Bfs.run (fun visited nIdx _ => holeRejected mask visited nIdx) 1
       (fun a _ => a) width height (Z.to_nat (width * height))
       (borderQueue mask width height)).

Definition fillMaskHoles (mask : list Z) (width height : Z) : list Z :=
  let total := width * height in
  let visited := reachedFromBorder mask width height in
  foldl (fun result i =>
           match aget mask i with
           | Some 0 =>
               if truthyZ (aget visited i) then result else aset result i 1
           | _ => result
           end)
    mask (range 0 total 1).

(** ** Morphology *)

Definition windowAny (mask : list Z) (width height radius x y : Z) : bool :=
  let minY := Z.max 0 (y - radius) in
  let maxY := Z.min (height - 1) (y + radius) in
  let minX := Z.max 0 (x - radius) in
  let maxX := Z.min (width - 1) (x + radius) in
  existsb (fun ny =>
             existsb (fun nx => truthyZ (aget mask (ny * width + nx)))
               (range minX (maxX + 1) 1))
    (range minY (maxY + 1) 1).

Definition windowAll (mask : list Z) (width height radius x y : Z) : bool :=
  let minY := Z.max 0 (y - radius) in
  let maxY := Z.min (height - 1) (y + radius) in
  let minX := Z.max 0 (x - radius) in
  let maxX := Z.min (width - 1) (x + radius) in
  forallb (fun ny =>
             forallb (fun nx => truthyZ (aget mask (ny * width + nx)))
               (range minX (maxX + 1) 1))
    (range minY (maxY + 1) 1).

Definition dilateBinary (mask : list Z) (width height radius : Z) : list Z :=
  fill2 (zeros (Z.of_nat (length mask))) width height
    (fun x y => if windowAny mask width height radius x y then 1 else 0).

Definition erodeBinary (mask : list Z) (width height radius : Z) : list Z :=
  fill2 (zeros (Z.of_nat (length mask))) width height
    (fun x y => if windowAll mask width height radius x y then 1 else 0).

(** ** Alpha softening *)

(** One turn of the inner loop of a pass of [boxBlur]: [at_ n] is the index
    of the sample at position [n = pos + d], skipped outside [[0, bound)]. *)
Definition windowStep (src : list float) (pos bound : Z) (at_ : Z -> Z)
  (acc : float * Z) (d : Z) : float * Z :=
  let '(sum, count) := acc in
  let n := pos + d in
  if (n <? 0) || (bound <=? n) then (sum, count)
  else ((sum + numf (aget src (at_ n)))%float, count + 1).

(** The windowed mean of one pass of [boxBlur]. *)
Definition windowMean (src : list float) (radius pos bound : Z)
  (at_ : Z -> Z) : float :=
  let '(sum, count) :=
    foldl (windowStep src pos bound at_) (0%float, 0)
      (range (- radius) (radius + 1) 1) in
  fround (sum / Z2F count).

Definition boxBlur (mask : list float) (width height radius : Z)
  : list float :=
  let horizontal :=
    fill2 (fzeros (Z.of_nat (length mask))) width height
      (fun x y => windowMean mask radius x width (fun nx => y * width + nx)) in
  fill2 (fzeros (Z.of_nat (length mask))) width height
    (fun x y =>
       windowMean horizontal radius y height (fun ny => ny * width + x)).

Definition smoothstep (v : float) : float :=
  let normalized := clamp ((v - 0.16) / 0.72) 0 1 in
  fround (normalized * normalized * (3 - 2 * normalized)).

Definition softenBinaryMask (mask : list Z) (width height radius : Z)
  : list float :=
  let floatMask := (fun v => fround (Z2F v)) <$> mask in
  if radius <=? 0 then floatMask
  else smoothstep <$> boxBlur floatMask width height radius.

(** ** Crop bounds *)

Module Bounds.
Record t := mk { top : Z; bottom : Z; left : Z; right : Z }.
End Bounds.

(** [value <= alphaThreshold] sends the pixel to [continue] *)
Definition belowThreshold (value : float) : bool :=
  PrimFloat.leb value 0.08.

Definition cropScan (mask : list float) (width height : Z) : Bounds.t :=
  foldl (fun acc y =>
    foldl (fun acc x =>
             let value := numf (aget mask (y * width + x)) in
             if belowThreshold value then acc
             else
               Bounds.mk
                 (if y <? Bounds.top acc then y else Bounds.top acc)
                 (if Bounds.bottom acc <? y then y else Bounds.bottom acc)
                 (if x <? Bounds.left acc then x else Bounds.left acc)
                 (if Bounds.right acc <? x then x else Bounds.right acc))
      acc (range 0 width 1))
    (Bounds.mk height (-1) width (-1)) (range 0 height 1).

Definition computeCropBoundsFromMask (mask : list float) (width height : Z)
  : option Bounds.t :=
  let b := cropScan mask width height in
  if (Bounds.bottom b <? Bounds.top b) || (Bounds.right b <? Bounds.left b)
  then None else Some b.

(** ** The public object and the pipeline *)

(** The numeric and boolean options of the constructor; an absent
    property reads as [undefined], here [None]. *)
Record Options := {
  opt_threshold : option float;
  opt_featherAmount : option float;
  opt_autoCrop : option bool;
  opt_maxProcessingSide : option float
}.

Record BackgroundRemover := {
  threshold : float;
  featherAmount : float;
  shouldAutoCrop : bool;
  maxProcessingSide : float
}.

(** [v || d] for a numeric option [v]. *)
Definition or_default (v : option float) (d : float) : float :=
  match v with
  | Some x => if truthy x then x else d
  | None => d
  end.

Definition constructor (options : Options) : BackgroundRemover :=
  {| threshold := or_default (opt_threshold options) 30;
     featherAmount := or_default (opt_featherAmount options) 2;
     shouldAutoCrop :=
       match opt_autoCrop options with Some false => false | _ => true end;
     maxProcessingSide := or_default (opt_maxProcessingSide options) 1200 |}.

(** [const blurRadius = Math.max(1, this.featherAmount + 1)] *)
Definition blurRadius (self : BackgroundRemover) : float :=
  Math_max 1 (featherAmount self + 1)%float.

(** The whole number held by [x], when [x] is one. *)
Definition wholeNumber (x : float) : option Z :=
  match Prim2SF x with
  | S754_zero _ => Some 0
  | S754_finite s m e =>
      if 0 <=? e then Some (cond_Zopp s (Zpos m) * 2 ^ e)
      else if Zpos m mod 2 ^ (- e) =? 0
           then Some (cond_Zopp s (Zpos m / 2 ^ (- e)))
           else None
  | _ => None
  end.

(** A radius over which [for (let d = -radius; d <= radius; d++)] steps
    through the integers from [-radius] to [radius]: a whole number of
    magnitude at most [2^53], the range in which [d++] adds exactly one. *)
Definition loopRadius (x : float) : option Z :=
  match wholeNumber x with
  | Some r => if Z.abs r <=? 2 ^ 53 then Some r else None
  | None => None
  end.

(** The blur radius is a loop bound and an offset into the matte
    ([for (let dx = -radius; dx <= radius; dx++)] in [boxBlur]).  The
    model covers the radii that are whole numbers, which is what a feather
    amount in pixels gives; the result is [None] for the others: with a
    fraction the loops step over fractions and read the matte between its
    elements, with [NaN] they are not entered, and with an infinite radius
    they do not end. *)
Definition buildLocalForegroundMask `{Host} (self : BackgroundRemover)
  (data : list Z) (width height : Z) : option (list float) :=
  let model := estimateBackgroundModel data width height in
  let gradient := computeGradientMap data width height in
  let seeds := collectBorderSeeds data width height model gradient in
  let backgroundRegion :=
    growBackgroundRegion data width height model gradient seeds in
  let foregroundMask := invertBinaryMask backgroundRegion in
  let foregroundMask :=
    keepMainForegroundRegions foregroundMask width height in
  let foregroundMask := fillMaskHoles foregroundMask width height in
  let foregroundMask :=
    dilateBinary (erodeBinary foregroundMask width height 1) width height 1 in
  let foregroundMask :=
    erodeBinary (dilateBinary foregroundMask width height 1) width height 1 in
  match loopRadius (blurRadius self) with
  | Some radius => Some (softenBinaryMask foregroundMask width height radius)
  | None => None
  end.

(** ** The alpha channel: reading it as a matte, writing a matte into it *)

(** The conversion of a number stored into a [Uint8ClampedArray]: [NaN]
    becomes 0, the value is clamped to [0, 255] and rounded to the nearest
    integer, ties to even. *)
Definition toUint8Clamp (v : float) : Z :=
  if is_nan v then 0
  else if PrimFloat.leb v 0 then 0
  else if PrimFloat.leb 255 v then 255
  else
    let f := Math_floor v in
    if PrimFloat.ltb (f + 0.5) v then toZ f + 1
    else if PrimFloat.ltb v (f + 0.5) then toZ f
    else if Z.even (toZ f) then toZ f else toZ f + 1.

(** [extractAlphaMaskFromCanvas], on the pixel data [getImageData] gives
    for the whole canvas. *)
Definition extractAlphaMaskFromCanvas (data : list Z) (width height : Z)
  : list float :=
  (fun i => fround (num (aget data (i * 4 + 3)) / 255))
    <$> range 0 (width * height) 1.

(** [applyMaskToImage]; [backgroundColor] is [this.backgroundColor], an
    [{r, g, b}] object or [null]. *)
Definition applyMaskToImage (backgroundColor : option Color.t)
  (data : list Z) (mask : list float) (width height : Z) : list Z :=
  foldl (fun data i =>
           let idx := i * 4 in
           let sourceAlpha := (num (aget data (idx + 3)) / 255)%float in
           let matte := (clamp (numf (aget mask i)) 0 1 * sourceAlpha)%float in
           match backgroundColor with
           | Some bg =>
               let blend := (1 - matte)%float in
               let data :=
                 aset data idx
                   (toUint8Clamp
                      (Math_round (num (aget data idx) * matte
                                   + Color.r bg * blend))) in
               let data :=
                 aset data (idx + 1)
                   (toUint8Clamp
                      (Math_round (num (aget data (idx + 1)) * matte
                                   + Color.g bg * blend))) in
               let data :=
                 aset data (idx + 2)
                   (toUint8Clamp
                      (Math_round (num (aget data (idx + 2)) * matte
                                   + Color.b bg * blend))) in
               aset data (idx + 3) 255
           | None =>
               aset data (idx + 3) (toUint8Clamp (Math_round (255 * matte)))
           end)
    data (range 0 (width * height) 1).

(** ** Cropping *)

Module Rect.
Record t := mk { left : Z; top : Z; width : Z; height : Z }.
End Rect.

(** [cropCanvasWithBounds] on a canvas of the given size: the rectangle of
    the canvas that is copied into a new canvas of the same size as the
    rectangle, or [None] when the canvas itself is returned. *)
Definition cropCanvasWithBounds (canvasWidth canvasHeight : Z)
  (bounds : Bounds.t) (margin : Z) : option Rect.t :=
  let top := Z.max 0 (Bounds.top bounds - margin) in
  let left := Z.max 0 (Bounds.left bounds - margin) in
  let bottom := Z.min (canvasHeight - 1) (Bounds.bottom bounds + margin) in
  let right := Z.min (canvasWidth - 1) (Bounds.right bounds + margin) in
  let cropWidth := right - left + 1 in
  let cropHeight := bottom - top + 1 in
  if (cropWidth <=? 0) || (cropHeight <=? 0) then None
  else Some (Rect.mk left top cropWidth cropHeight).

(** ** The whole engine object

    [Options] and [BackgroundRemover] above hold the properties the local
    pipeline reads.  The constructor and [updateOptions] handle four
    more: the provider and the API key (strings), the background colour
    (a colour or [null]) and the progress callback (a function).  [F] is
    the type of the functions a caller can give as callback. *)

Module Engine.

(** The [onProgress] field: the [() => {}] the constructor installs, or
    the function given by the caller. *)
Inductive Progress (F : Type) : Type :=
  | noop
  | given (f : F).
Arguments noop {F}.
Arguments given {F} _.

(** The options object; an absent property reads as [undefined], here
    [None].  [Some None] is a background colour given as [null]. *)
Record Options (F : Type) : Type := {
  opt_provider : option string;
  opt_apiKey : option string;
  opt_threshold : option float;
  opt_featherAmount : option float;
  opt_backgroundColor : option (option Color.t);
  opt_autoCrop : option bool;
  opt_onProgress : option F;
  opt_maxProcessingSide : option float
}.
Arguments opt_provider {F} _.
Arguments opt_apiKey {F} _.
Arguments opt_threshold {F} _.
Arguments opt_featherAmount {F} _.
Arguments opt_backgroundColor {F} _.
Arguments opt_autoCrop {F} _.
Arguments opt_onProgress {F} _.
Arguments opt_maxProcessingSide {F} _.

Record t (F : Type) : Type := {
  provider : string;
  apiKey : string;
  threshold : float;
  featherAmount : float;
  backgroundColor : option Color.t;
  shouldAutoCrop : bool;
  onProgress : Progress F;
  maxProcessingSide : float
}.
Arguments provider {F} _.
Arguments apiKey {F} _.
Arguments threshold {F} _.
Arguments featherAmount {F} _.
Arguments backgroundColor {F} _.
Arguments shouldAutoCrop {F} _.
Arguments onProgress {F} _.
Arguments maxProcessingSide {F} _.

(** [v || d] for a string option [v]: the empty string is falsy. *)
Definition or_string (v : option string) (d : string) : string :=
  match v with
  | Some EmptyString | None => d
  | Some s => s
  end.

Definition constructor {F : Type} (options : Options F) : t F :=
  {| provider := or_string (opt_provider options) "local";
     apiKey := or_string (opt_apiKey options) EmptyString;
     threshold := or_default (opt_threshold options) 30;
     featherAmount := or_default (opt_featherAmount options) 2;
     backgroundColor :=
       match opt_backgroundColor options with
       | Some (Some c) => Some c
       | _ => None
       end;
     shouldAutoCrop :=
       match opt_autoCrop options with Some false => false | _ => true end;
     onProgress :=
       match opt_onProgress options with
       | Some f => given f
       | None => noop
       end;
     maxProcessingSide := or_default (opt_maxProcessingSide options) 1200 |}.

(** [updateOptions]: a property that is not [undefined] replaces the
    field; there is no line for [onProgress], which is kept. *)
Definition updateOptions {F : Type} (self : t F) (options : Options F)
  : t F :=
  {| provider := default (provider self) (opt_provider options);
     apiKey := default (apiKey self) (opt_apiKey options);
     threshold := default (threshold self) (opt_threshold options);
     featherAmount := default (featherAmount self) (opt_featherAmount options);
     backgroundColor :=
       default (backgroundColor self) (opt_backgroundColor options);
     shouldAutoCrop := default (shouldAutoCrop self) (opt_autoCrop options);
     onProgress := onProgress self;
     maxProcessingSide :=
       default (maxProcessingSide self) (opt_maxProcessingSide options) |}.

End Engine.

(** The part of the options and of the engine that the local pipeline
    reads. *)
Definition pipelineOptions {F : Type} (options : Engine.Options F)
  : Options :=
  {| opt_threshold := Engine.opt_threshold options;
     opt_featherAmount := Engine.opt_featherAmount options;
     opt_autoCrop := Engine.opt_autoCrop options;
     opt_maxProcessingSide := Engine.opt_maxProcessingSide options |}.

Definition pipelineState {F : Type} (self : Engine.t F) : BackgroundRemover :=
  {| threshold := Engine.threshold self;
     featherAmount := Engine.featherAmount self;
     shouldAutoCrop := Engine.shouldAutoCrop self;
     maxProcessingSide := Engine.maxProcessingSide self |}.

(** ** Specification vocabulary *)

(** The order of two numbers: [Some c] unless one of them is [NaN]. *)
Definition fcompare (x y : float) : option comparison :=
  SFcompare (Prim2SF x) (Prim2SF y).

(** The pixel [(x, y)] of a [width]-wide buffer. *)
Definition pixelIndex (width x y : Z) : Z := y * width + x.

(** A matte value of the data model: a number in [[0, 1]]. *)
Definition isMatte (v : float) : Prop :=
  PrimFloat.leb 0 v = true /\ PrimFloat.leb v 1 = true.

(** "The matte value of the pixel is strictly greater than 0.08". *)
Definition qualifies (mask : list float) (width x y : Z) : Prop :=
  PrimFloat.ltb 0.08 (numf (aget mask (pixelIndex width x y))) = true.

(** The pixels [(x, y)] of a buffer in the order of the row-major scan
    [for (y ...) for (x ...)]. *)
Definition pixels (width height : Z) : list (Z * Z) :=
  y ← range 0 height 1; (fun x => (x, y)) <$> range 0 width 1.

(** The test of the scan of [computeCropBoundsFromMask] on a pixel. *)
Definition cropHit (mask : list float) (width x y : Z) : Prop :=
  belowThreshold (numf (aget mask (pixelIndex width x y))) = false.

(** The bounds are the tight box of the pixels satisfying [hit]. *)
Definition tightBox (hit : Z -> Z -> Prop) (width height : Z)
  (b : Bounds.t) : Prop :=
  Bounds.top b <= Bounds.bottom b /\ Bounds.left b <= Bounds.right b /\
  (forall x y, 0 <= x < width -> 0 <= y < height -> hit x y ->
     Bounds.top b <= y <= Bounds.bottom b /\
     Bounds.left b <= x <= Bounds.right b) /\
  (exists x, 0 <= x < width /\ 0 <= Bounds.top b < height /\
     hit x (Bounds.top b)) /\
  (exists x, 0 <= x < width /\ 0 <= Bounds.bottom b < height /\
     hit x (Bounds.bottom b)) /\
  (exists y, 0 <= y < height /\ 0 <= Bounds.left b < width /\
     hit (Bounds.left b) y) /\
  (exists y, 0 <= y < height /\ 0 <= Bounds.right b < width /\
     hit (Bounds.right b) y).

(** A matte that is 1 on the rectangle with corners (10, 10) and (50, 40)
    and 0 elsewhere. *)
Definition rectangleMatte (width height : Z) : list float :=
  fill2 (fzeros (width * height)) width height
    (fun x y =>
       if (10 <=? x) && (x <=? 50) && (10 <=? y) && (y <=? 40)
       then 1%float else 0%float).

(** *** Grids and flood fills *)

(** The neighbours of the pixel [idx] in the order the flood fills try
    them: left, right, up, down, each only inside the grid. *)
Definition neighbours (width height idx : Z) : list Z :=
  let x := Z.rem idx width in
  let y := idx / width in
  (if 0 <? x then [idx - 1] else [])
  ++ (if x <? width - 1 then [idx + 1] else [])
  ++ (if 0 <? y then [idx - width] else [])
  ++ (if y <? height - 1 then [idx + width] else []).

(** Two pixels of the grid are 4-adjacent: they differ by one step along
    one axis. *)
Definition adjacent4 (width height i j : Z) : Prop :=
  exists x y x' y',
    0 <= x < width /\ 0 <= y < height /\
    0 <= x' < width /\ 0 <= y' < height /\
    i = pixelIndex width x y /\ j = pixelIndex width x' y' /\
    Z.abs (x - x') + Z.abs (y - y') = 1.

(** [j] is reached from a pixel of [start] by a 4-connected path, each
    step [p -> n] of which satisfies [edge p n]. *)
Inductive reach (width height : Z) (edge : Z -> Z -> Prop)
  (start : Z -> Prop) : Z -> Prop :=
| reach_start i : start i -> reach width height edge start i
| reach_step p n :
    reach width height edge start p ->
    adjacent4 width height p n -> edge p n ->
    reach width height edge start n.

(** The pixel lies on the border of the grid. *)
Definition onBorder (width height i : Z) : Prop :=
  exists x y, 0 <= x < width /\ 0 <= y < height /\ i = pixelIndex width x y /\
    (x = 0 \/ x = width - 1 \/ y = 0 \/ y = height - 1).

Module BfsSpec.
Section Spec.
Context {A : Type}.

(** Everything that was ever put in the queue, in order. *)
Definition queued (st : Bfs.state A) : list Z :=
  take (Z.to_nat (Bfs.tail st)) (Bfs.queue st).

(** The part of the queue already taken out. *)
Definition processed (st : Bfs.state A) : list Z :=
  take (Z.to_nat (Bfs.head st)) (Bfs.queue st).

Definition marked (marks : list Z) (n : Z) : Prop :=
  exists v, aget marks n = Some v /\ v <> 0.

(** The state of a fill over a [width] x [height] grid that started from
    the marks [m0], writes [mark], and whose queued pixels all satisfy
    [R]. *)
Record inv (width height mark : Z) (m0 : list Z) (R : Z -> Prop)
  (st : Bfs.state A) : Prop := {
  inv_marks_len : Z.of_nat (length (Bfs.marks st)) = width * height;
  inv_queue_len : Z.of_nat (length (Bfs.queue st)) = width * height;
  inv_head : 0 <= Bfs.head st <= Bfs.tail st;
  inv_tail : Bfs.tail st <= width * height;
  inv_nodup : NoDup (queued st);
  inv_queued : forall i, i ∈ queued st ->
    0 <= i < width * height /\ aget (Bfs.marks st) i = Some mark /\
    aget m0 i = Some 0 /\ R i;
  inv_other : forall i, i ∉ queued st -> aget (Bfs.marks st) i = aget m0 i
}.

(** Every pixel taken out of the queue has had its admissible neighbours
    marked. *)
Definition closed (width height : Z) (blocked : Z -> Z -> bool)
  (st : Bfs.state A) : Prop :=
  forall p n, p ∈ processed st -> n ∈ neighbours width height p ->
    blocked n p = false -> marked (Bfs.marks st) n.

End Spec.
End BfsSpec.

(** *** Masks *)

(** One byte per pixel, 0 or 1. *)
Definition binaryMask (mask : list Z) : Prop :=
  Forall (fun v => v = 0 \/ v = 1) mask.

(** The pixel is joined to a border pixel by a 4-connected path of
    0-valued pixels of [mask] (both ends included). *)
Definition borderReachable (mask : list Z) (width height : Z) : Z -> Prop :=
  reach width height (fun _ n => aget mask n = Some 0)
    (fun b => onBorder width height b /\ aget mask b = Some 0).

(** The border indices in the order [fillMaskHoles] tries them. *)
Definition borderList (width height : Z) : list Z :=
  (x ← range 0 width 1; [x; (height - 1) * width + x])
  ++ (y ← range 0 height 1; [y * width; y * width + (width - 1)]).

(** A solid disk of radius [r] around [(cx, cy)] with the 3x3 square around
    its centre punched out. *)
Definition inDisk (cx cy r x y : Z) : bool :=
  (x - cx) * (x - cx) + (y - cy) * (y - cy) <=? r * r.

Definition inHole (cx cy x y : Z) : bool :=
  (Z.abs (x - cx) <=? 1) && (Z.abs (y - cy) <=? 1).

Definition diskWithHole (width height cx cy r : Z) : list Z :=
  fill2 (zeros (width * height)) width height
    (fun x y => if inDisk cx cy r x y && negb (inHole cx cy x y)
                then 1 else 0).

(** *** Region growing *)

(** The admission rule of [growBackgroundRegion] for a neighbour [n] of a
    dequeued pixel [p], as the specification words it. *)
Definition admissible (data : list Z) (model : Model.t)
  (gradient : list float) (n p : Z) : bool :=
  let colorDistanceModel :=
    rgbDistanceAt data n (Model.r model) (Model.g model) (Model.b model) in
  let colorDistanceParent := rgbDistanceBetweenIndices data n p in
  let gradientN := numf (aget gradient n) in
  PrimFloat.leb colorDistanceModel
    (Model.expansionTolerance model + Math_min 28 (gradientN * 0.12))
  && PrimFloat.leb colorDistanceParent 74
  && (PrimFloat.leb gradientN 125
      || PrimFloat.leb colorDistanceModel (Model.tolerance model * 0.95)).

(** The pixels the region growth may reach: the seeds, and every
    4-neighbour admissible from a reached pixel. *)
Definition grown (data : list Z) (width height : Z) (model : Model.t)
  (gradient : list float) (seeds : list Z) : Z -> Prop :=
  reach width height (fun p n => admissible data model gradient n p = true)
    (fun s => s ∈ seeds).

(** The state of the growth loop after [k] iterations. *)
Definition growAfter (k : nat) (data : list Z) (width height : Z)
  (model : Model.t) (gradient : list float) (seeds : list Z)
  : Bfs.state unit :=
  Bfs.run (growRejected data model gradient) 1 (fun a _ => a) width height
    k (seedQueue (width * height) seeds).

(** *** Classes of numbers *)

(** Not [NaN] and not negative (zero of either sign, a positive number or
    +infinity). *)
Definition sfNonneg (x : spec_float) : bool :=
  match x with
  | S754_nan => false
  | S754_zero _ => true
  | S754_infinity s | S754_finite s _ _ => negb s
  end.

(** Finite and of magnitude below [2^K]. *)
Definition sfBelow (K : Z) (x : spec_float) : bool :=
  match x with
  | S754_zero _ => true
  | S754_finite _ m e => Zpos (digits2_pos m) + e <=? K
  | _ => false
  end.

Definition Nonneg (x : float) : Prop := sfNonneg (Prim2SF x) = true.
Definition Below (K : Z) (x : float) : Prop := sfBelow K (Prim2SF x) = true.

(** The number [+0]. *)
Definition isPosZero (x : float) : Prop := Prim2SF x = S754_zero false.

(** A byte of a [Uint8ClampedArray]. *)
Definition isByte (v : Z) : Prop := 0 <= v <= 255.

(** A pixel buffer of the data model: [width] x [height] pixels of four
    bytes each. *)
Definition pixelBuffer (data : list Z) (width height : Z) : Prop :=
  1 <= width /\ 1 <= height /\
  Z.of_nat (length data) = width * height * 4 /\ Forall isByte data.

(** *** Gradient map *)

(** The luma of pixel [i] as a [Float32Array] holds it. *)
Definition lumaOf (data : list Z) (i : Z) : float :=
  let idx := i * 4 in
  fround (0.299 * num (aget data idx)
          + 0.587 * num (aget data (idx + 1))
          + 0.114 * num (aget data (idx + 2)))%float.

(** The difference of lumas along the row of [(x, y)], each neighbour
    replaced by the pixel itself when it would leave the buffer. *)
Definition horizontalDifference (data : list Z) (width x y : Z) : float :=
  abs (lumaOf data (pixelIndex width (Z.min (x + 1) (width - 1)) y)
       - lumaOf data (pixelIndex width (Z.max (x - 1) 0) y)).

(** The same along the column. *)
Definition verticalDifference (data : list Z) (width height x y : Z) : float :=
  abs (lumaOf data (pixelIndex width x (Z.min (y + 1) (height - 1)))
       - lumaOf data (pixelIndex width x (Z.max (y - 1) 0))).

Definition clampedGradient (data : list Z) (width height x y : Z) : float :=
  fround (horizontalDifference data width x y
          + verticalDifference data width height x y).

(** A black pixel next to a white one, both opaque. *)
Definition blackWhite : list Z := [0; 0; 0; 255; 255; 255; 255; 255].

(** The three weighted terms of the luma of a byte are finite, below 256
    and not negative. *)
Definition lumaTermsBounded (v : Z) : bool :=
  forallb (fun c : float =>
             sfBelow 8 (Prim2SF (c * Z2F v)) && sfNonneg (Prim2SF (c * Z2F v)))
    [0.299; 0.587; 0.114]%float.

(** *** Softening *)

(** The radius of the softening blur for a feather amount. *)
Definition featherRadius (featherAmount : Z) : Z := Z.max 1 (featherAmount + 1).

(** Some foreground pixel of [mask] lies in the square window of radius [r]
    around [(x, y)]. *)
Definition foregroundWithin (mask : list Z) (width height r x y : Z) : Prop :=
  exists x' y', 0 <= x' < width /\ 0 <= y' < height /\
    Z.abs (x' - x) <= r /\ Z.abs (y' - y) <= r /\
    aget mask (pixelIndex width x' y') = Some 1.

(** A mask whose foreground is the block of [bw] x [bh] pixels with corner
    [(x0, y0)]. *)
Definition blockMask (width height x0 y0 bw bh : Z) : list Z :=
  fill2 (zeros (width * height)) width height
    (fun x y => if (x0 <=? x) && (x <? x0 + bw) && (y0 <=? y) && (y <? y0 + bh)
                then 1 else 0).

(** *** The order of numbers *)

(** A number on the scale of the smallest subnormal: [m * 2^e] becomes the
    integer [m * 2^(e + 1074)]; the infinities lie beyond every finite
    number. *)
Definition sfVal (x : spec_float) : Z :=
  match x with
  | S754_zero _ | S754_nan => 0
  | S754_infinity s => cond_Zopp s (2 ^ 3000)
  | S754_finite s m e => cond_Zopp s (Zpos m * 2 ^ (e + 1074))
  end.

Definition fval (x : float) : Z := sfVal (Prim2SF x).

(** Canonical mantissas and exponents. *)
Definition canonical (m : positive) (e : Z) : Prop :=
  -1074 <= e <= 971 /\ Zpos (digits2_pos m) <= 53 /\
  (e = -1074 \/ Zpos (digits2_pos m) = 53).

(** A number, not [NaN], in the form [Prim2SF] gives it. *)
Definition sfValid (x : spec_float) : Prop :=
  match x with
  | S754_finite _ m e => canonical m e
  | S754_nan => False
  | _ => True
  end.

(** *** Border seeds *)

(** The thickness of the band scanned for seeds. *)
Definition borderThickness (width height : Z) : Z :=
  Z.max 1 (toZ (Math_round (Z2F (Z.min width height) * 0.01))).

(** The pixels of the border band, in the order of the scan (a pixel met
    twice is listed twice): the top and bottom rows, then the left and
    right columns between them. *)
Definition borderBand (width height : Z) : list Z :=
  let t := borderThickness width height in
  (y ← range 0 t 1; x ← range 0 width 1;
   [y * width + x; (height - 1 - y) * width + x])
  ++ (x ← range 0 t 1; y ← range t (height - t) 1;
      [y * width + x; y * width + (width - 1 - x)]).

Definition candidateAt (data : list Z) (model : Model.t)
  (gradient : list float) (idx : Z) : Candidate.t :=
  Candidate.mk idx
    (rgbDistanceAt data idx (Model.r model) (Model.g model) (Model.b model))
    (numf (aget gradient idx)).

(** The test that makes a pixel a seed. *)
Definition seedTest (data : list Z) (model : Model.t) (gradient : list float)
  (idx : Z) : bool :=
  PrimFloat.leb
    (rgbDistanceAt data idx (Model.r model) (Model.g model) (Model.b model))
    (Model.tolerance model)
  && PrimFloat.leb (numf (aget gradient idx)) 85.

(** The number of candidates taken when no pixel passes the test. *)
Definition fallbackCount (width height : Z) : Z :=
  Z.max 40 (toZ (Math_round (Z2F (Z.min width height) * 0.3))).

(** The score by which the fallback ranks a pixel: its distance to the
    model plus 0.2 times its gradient. *)
Definition rankingScore (data : list Z) (model : Model.t)
  (gradient : list float) (idx : Z) : float :=
  (rgbDistanceAt data idx (Model.r model) (Model.g model) (Model.b model)
   + 0.2 * numf (aget gradient idx))%float.

(** The centre colour of a model is made of numbers. *)
Definition definedColour (model : Model.t) : Prop :=
  is_nan (Model.r model) = false /\ is_nan (Model.g model) = false /\
  is_nan (Model.b model) = false.

(** One non-negative number per pixel. *)
Definition gradientMap (gradient : list float) (width height : Z) : Prop :=
  Z.of_nat (length gradient) = width * height /\ Forall Nonneg gradient.

(** *** Connected components of the foreground *)

(** [j] is joined to the foreground pixel [i] by a 4-connected path of
    foreground pixels. *)
Definition joined (mask : list Z) (width height i : Z) : Z -> Prop :=
  reach width height (fun _ n => aget mask n = Some 1)
    (fun b => b = i /\ aget mask i = Some 1).

(** A component, as the list of its pixels, meets the central region. *)
Definition touchesCenter (width height : Z) (c : list Z) : bool :=
  existsb (inCenter width height) c.

(** The pixels of [c] are those joined to one of them. *)
Definition component (mask : list Z) (width height : Z) (c : list Z) : Prop :=
  NoDup c /\
  exists root, root ∈ c /\ forall j, j ∈ c <-> joined mask width height root j.

(** [comps] lists the 4-connected components of the foreground of [mask],
    each once. *)
Definition components (mask : list Z) (width height : Z)
  (comps : list (list Z)) : Prop :=
  (forall k c, comps !! k = Some c -> component mask width height c) /\
  (forall p, aget mask p = Some 1 -> exists c, c ∈ comps /\ p ∈ c) /\
  (forall k1 k2 c1 c2 p, comps !! k1 = Some c1 -> comps !! k2 = Some c2 ->
     p ∈ c1 -> p ∈ c2 -> k1 = k2).

(** The central region as the engine delimits it: the columns from
    [floor(width / 4)] to [ceil(3 * width / 4)] and the rows from
    [floor(height / 4)] to [ceil(3 * height / 4)], bounds included. *)
Definition centralRegion (width height p : Z) : bool :=
  let x := p mod width in
  let y := p / width in
  (width / 4 <=? x) && (x <=? (3 * width + 3) / 4)
  && (height / 4 <=? y) && (y <=? (3 * height + 3) / 4).

(** The central 50% x 50% of the grid: the pixels [x, x + 1) x [y, y + 1)
    that overlap the middle half of the columns and the middle half of
    the rows. *)
Definition centralHalf (width height p : Z) : bool :=
  let x := p mod width in
  let y := p / width in
  (width <? 4 * (x + 1)) && (4 * x <? 3 * width)
  && (height <? 4 * (y + 1)) && (4 * y <? 3 * height).

(** A component, as the list of its pixels, has a pixel in the region. *)
Definition meets (region : Z -> bool) (c : list Z) : bool :=
  existsb region c.

(** The score of a component: its area, plus 0.2 times the number of
    pixels of the grid when it has a pixel in the central region. *)
Definition mainScore (central : Z -> bool) (width height : Z) (c : list Z)
  : float :=
  (Z2F (Z.of_nat (length c))
   + (if meets central c then 0.2 * Z2F (width * height) else 0))%float.

(** The rule of [keepMainForegroundRegions] for a given central region:
    [out] is [mask] when the foreground has at most one component;
    otherwise some component [best] has the greatest score, and the
    foreground of [out] is made of [best] and of the components that have
    a pixel in the central region and at least
    [max(max(120, round(0.0018 * totalPixels)), round(0.12 * bestArea))]
    pixels. *)
Definition keepsMainRegions (central : Z -> bool) (mask : list Z)
  (width height : Z) (out : list Z) : Prop :=
  exists comps,
    components mask width height comps /\
    ((length comps <= 1)%nat -> out = mask) /\
    ((2 <= length comps)%nat ->
     exists best, best ∈ comps /\
       (forall c, c ∈ comps ->
          PrimFloat.leb (mainScore central width height c)
            (mainScore central width height best) = true) /\
       Z.of_nat (length out) = width * height /\
       forall i, 0 <= i < width * height ->
         (aget out i = Some 1 \/ aget out i = Some 0) /\
         (aget out i = Some 1 <->
          exists c, c ∈ comps /\ i ∈ c /\
            (c = best \/
             (meets central c = true /\
              Z.max (Z.max 120
                       (toZ (Math_round (Z2F (width * height) * 0.0018))))
                (toZ (Math_round (Z2F (Z.of_nat (length best)) * 0.12)))
              <= Z.of_nat (length c))))).

(** The mask of [size] pixels whose foreground is the pixels listed. *)
Definition dotMask (size : Z) (dots : list Z) : list Z :=
  (fun i => if bool_decide (i ∈ dots) then 1 else 0) <$> seqZ 0 size.

(** The score by which the main component is chosen. *)
Definition regionScore (width height : Z) (c : list Z) : float :=
  (Z2F (Z.of_nat (length c))
   + (if touchesCenter width height c then Z2F (width * height) * 0.2
      else 0))%float.

(** The least area of a secondary component that is kept beside [best]. *)
Definition secondaryArea (width height : Z) (best : list Z) : Z :=
  Z.max (Z.max 120 (toZ (Math_round (Z2F (width * height) * 0.0018))))
    (toZ (Math_round (Z2F (Z.of_nat (length best)) * 0.12))).

(** The state of the labelling loop when the pixels below [i] have been
    visited: [comps] lists the components found so far, in the order of
    their labels. *)
Record labelled (mask : list Z) (width height i : Z)
  (comps : list (list Z)) (st : Labelling.t) : Prop := {
  lab_len : Z.of_nat (length (Labelling.labels st)) = width * height;
  lab_qlen : Z.of_nat (length (Labelling.queue st)) = width * height;
  lab_id : Labelling.componentId st = Z.of_nat (length comps);
  lab_areas :
    Labelling.componentAreas st
    = 0 :: ((fun c => Z.of_nat (length c)) <$> comps);
  lab_touch :
    Labelling.componentTouchesCenter st
    = false :: (touchesCenter width height <$> comps);
  lab_value : forall p, 0 <= p < width * height ->
    exists v, aget (Labelling.labels st) p = Some v /\
      0 <= v <= Z.of_nat (length comps) /\
      (v <> 0 -> exists c, comps !! Z.to_nat (v - 1) = Some c /\ p ∈ c);
  lab_member : forall k c p, comps !! k = Some c -> p ∈ c ->
    aget (Labelling.labels st) p = Some (Z.of_nat k + 1);
  lab_comp : forall k c, comps !! k = Some c ->
    component mask width height c;
  lab_done : forall p, 0 <= p < i -> aget mask p = Some 1 ->
    aget (Labelling.labels st) p <> Some 0
}.

(** Positive and of magnitude at least [2^(K - 1)] (or [+infinity]). *)
Definition sfAbove (K : Z) (x : spec_float) : bool :=
  match x with
  | S754_infinity false => true
  | S754_finite false m e => K <=? Zpos (digits2_pos m) + e
  | _ => false
  end.

Definition Above (K : Z) (x : float) : Prop := sfAbove K (Prim2SF x) = true.

(** *** Hosts *)

(** The two guarantees of ECMAScript the engine relies on.  A [Map] is
    enumerated in insertion order. *)
Definition insertionOrdered (H : Host) : Prop :=
  forall bins, @map_values H bins = map snd bins.

(** [cmp] is a consistent comparator on the elements of [l]: it orders
    them as the integer [key] does, positive when the first key is the
    greater, negative when it is the smaller, and zero or [NaN] (which
    [sort] reads as zero) when the keys are equal. *)
Definition consistentComparator {A : Type} (cmp : A -> A -> float)
  (key : A -> Z) (l : list A) : Prop :=
  forall a b, a ∈ l -> b ∈ l ->
    PrimFloat.ltb 0 (cmp a b) = (key b <? key a) /\
    PrimFloat.ltb (cmp a b) 0 = (key a <? key b).

(** [sort] with a consistent comparator puts the elements in the order of
    the comparator and keeps the elements that compare equal in the order
    they had; with another comparator the order is left to the host. *)
Definition stableSort (H : Host) : Prop :=
  forall (A : Type) (cmp : A -> A -> float) (key : A -> Z) (l : list A),
    consistentComparator cmp key l ->
    StronglySorted (fun a b => key a <= key b) (@array_sort H A cmp l) /\
    forall k, filter (fun a => key a = k) (@array_sort H A cmp l)
              = filter (fun a => key a = k) l.

(** A host that sorts by stable insertion but asks the comparator with
    its arguments exchanged, [-cmp(y, x)] for [cmp(x, y)]. *)
Definition mirrored : Host :=
  {| map_values := map snd;
     array_sort := fun A cmp => Js.sort (fun x y => (- cmp y x)%float) |}.

(** An opaque image of dark colours that change from pixel to pixel. *)
Definition shaded (width height : Z) : list Z :=
  mjoin ((fun i => [i mod 64; (5 * i) mod 64; 32; 255])
         <$> seqZ 0 (width * height)).


(** An opaque image: a dark square, the central half of the grid, on a
    light ground. *)
Definition spot (width height : Z) : list Z :=
  mjoin ((fun i => if centralHalf width height i
                   then [10; 10; 10; 255] else [250; 250; 250; 255])
         <$> seqZ 0 (width * height)).

(** ** Vocabulary for the rest of the engine *)

(** *** Masks *)

(** Every pixel of the square window of radius [r] around [(x, y)] that
    lies in the grid is a foreground pixel of [mask]. *)
Definition foregroundThroughout (mask : list Z) (width height r x y : Z)
  : Prop :=
  forall x' y', 0 <= x' < width -> 0 <= y' < height ->
    Z.abs (x' - x) <= r -> Z.abs (y' - y) <= r ->
    aget mask (pixelIndex width x' y') = Some 1.

(** The foreground of [a] lies in the foreground of [b]. *)
Definition subMask (a b : list Z) : Prop :=
  forall i, aget a i = Some 1 -> aget b i = Some 1.

(** Some pixel of the mask is foreground. *)
Definition hasForeground (mask : list Z) : Prop :=
  exists i, aget mask i = Some 1.

(** *** Pixel data *)

(** The pixel lies in the rectangle. *)
Definition inRect (r : Rect.t) (x y : Z) : Prop :=
  Rect.left r <= x < Rect.left r + Rect.width r /\
  Rect.top r <= y < Rect.top r + Rect.height r.

(** The alpha byte of the pixel is at least 21. *)
Definition visibleAt (data : list Z) (width x y : Z) : Prop :=
  exists a, aget data (pixelIndex width x y * 4 + 3) = Some a /\ 21 <= a.

(** *** Options *)

(** The numeric option is absent or a number that is not [0] or [NaN]. *)
Definition absentOrTruthy (v : option float) : Prop :=
  match v with Some x => truthy x = true | None => True end.

Definition noOptions : Options :=
  {| opt_threshold := None; opt_featherAmount := None;
     opt_autoCrop := None; opt_maxProcessingSide := None |}.

(** The string option is absent or a string that is not empty. *)
Definition absentOrFilled (v : option string) : Prop :=
  match v with Some EmptyString => False | _ => True end.

(** The options object [{}]. *)
Definition emptyOptions {F : Type} : Engine.Options F :=
  {| Engine.opt_provider := None; Engine.opt_apiKey := None;
     Engine.opt_threshold := None; Engine.opt_featherAmount := None;
     Engine.opt_backgroundColor := None; Engine.opt_autoCrop := None;
     Engine.opt_onProgress := None; Engine.opt_maxProcessingSide := None |}.

(** *** Applying a matte *)

(** The matte of a pixel with mask value [m] and alpha byte [a], and the
    bytes [applyMaskToImage] stores for it. *)
Definition matteOf (m : float) (a : Z) : float :=
  (clamp m 0 1 * (Z2F a / 255))%float.

Definition alphaOut (m : float) (a : Z) : Z :=
  toUint8Clamp (Math_round (255 * matteOf m a)).

Definition blendOut (m : float) (a c : Z) (bgc : float) : Z :=
  toUint8Clamp
    (Math_round (Z2F c * matteOf m a + bgc * (1 - matteOf m a))).

(** The four bytes of pixel [i]. *)
Definition pixelAt (data : list Z) (i : Z) (r g b a : Z) : Prop :=
  aget data (i * 4) = Some r /\ aget data (i * 4 + 1) = Some g /\
  aget data (i * 4 + 2) = Some b /\ aget data (i * 4 + 3) = Some a.

(** A colour whose channels are bytes. *)
Definition byteColor (c : Color.t) : Prop :=
  exists r g b, isByte r /\ isByte g /\ isByte b /\
    c = Color.mk (Z2F r) (Z2F g) (Z2F b).

(** The bytes of pixel [i] after the loop body of [applyMaskToImage]. *)
Definition pixelOut (backgroundColor : option Color.t) (mask : list float)
  (i r g b a : Z) : Z * Z * Z * Z :=
  let m := numf (aget mask i) in
  match backgroundColor with
  | Some bg =>
      (blendOut m a r (Color.r bg), blendOut m a g (Color.g bg),
       blendOut m a b (Color.b bg), 255)
  | None => (r, g, b, alphaOut m a)
  end.

(** The number is [+0]. *)
Definition posZerob (x : float) : bool :=
  match Prim2SF x with S754_zero false => true | _ => false end.

(** *** Border samples *)

(** A sample read inside the buffer: three bytes. *)
Definition definedSample (s : Sample) : Prop :=
  exists r g b, s = (Some r, Some g, Some b) /\
    isByte r /\ isByte g /\ isByte b.

(** A sample as the sampler reads it: three bytes, or three [undefined]
    when the pixel asked for lies outside the buffer. *)
Definition readSample (s : Sample) : Prop :=
  definedSample s \/ s = (None, None, None).

(** The thickness of the band [estimateBackgroundModel] samples. *)
Definition sampleBorder (m : Z) : Z :=
  Z.max 6 (Z.min 18 (toZ (Math_round (Z2F m * 0.025)))).

(** *** Colours *)

(** Pixels [i] of [data] and [j] of [data'] have the same red, green and
    blue bytes. *)
Definition sameColour (data data' : list Z) (i j : Z) : Prop :=
  aget data (i * 4) = aget data' (j * 4) /\
  aget data (i * 4 + 1) = aget data' (j * 4 + 1) /\
  aget data (i * 4 + 2) = aget data' (j * 4 + 2).

(** *** Contour stabilisation *)

(** The opening and the closing that [buildLocalForegroundMask] applies,
    in this order, to stabilise the contour (there with radius 1). *)
Definition opening (mask : list Z) (width height radius : Z) : list Z :=
  dilateBinary (erodeBinary mask width height radius) width height radius.

Definition closing (mask : list Z) (width height radius : Z) : list Z :=
  erodeBinary (dilateBinary mask width height radius) width height radius.

Definition stabilised (mask : list Z) (width height radius : Z) : list Z :=
  closing (opening mask width height radius) width height radius.

(** * Verification *)

(** ** Binary64 comparison *)

Section FloatCompare.

Lemma compare_cont_Eq (m1 m2 : positive) :
  PosDef.Pos.compare_cont Eq m1 m2 = Pos.compare m1 m2.
Proof. reflexivity. Qed.

Lemma SFcompare_refl_not_nan (x : spec_float) :
  x <> S754_nan -> SFcompare x x = Some Eq.
Proof.
  destruct x as [s|s| |s m e]; simpl; intros H; try congruence;
    destruct s; rewrite ?Z.compare_refl, ?compare_cont_Eq, ?Pos.compare_refl;
    reflexivity.
Qed.

Lemma SFcompare_antisym (x y : spec_float) :
  SFcompare y x = option_map CompOpp (SFcompare x y).
Proof.
  destruct x as [s1|s1| |s1 m1 e1], y as [s2|s2| |s2 m2 e2]; simpl;
    try reflexivity; try (destruct s1, s2; reflexivity);
    try (destruct s1; reflexivity); try (destruct s2; reflexivity).
  pose proof (Pos.compare_antisym m1 m2) as Hm.
  change (PosDef.Pos.compare_cont Eq m2 m1
          = CompOpp (PosDef.Pos.compare_cont Eq m1 m2)) in Hm.
  rewrite Hm, (Z.compare_antisym e1 e2).
  destruct s1, s2, (e1 ?= e2), (PosDef.Pos.compare_cont Eq m1 m2);
    reflexivity.
Qed.

Lemma SFcompare_None (x y : spec_float) :
  SFcompare x y = None <-> x = S754_nan \/ y = S754_nan.
Proof.
  destruct x as [s1|s1| |s1 m1 e1], y as [s2|s2| |s2 m2 e2]; simpl;
    split; intros H; try discriminate; auto;
    destruct H; discriminate.
Qed.

Lemma is_nan_spec (x : float) :
  is_nan x = true <-> Prim2SF x = S754_nan.
Proof.
  unfold is_nan. rewrite FloatAxioms.eqb_spec. unfold SFeqb.
  destruct (Prim2SF x) as [s|s| |s m e] eqn:E;
    [rewrite SFcompare_refl_not_nan by discriminate; split; discriminate ..
    | | rewrite SFcompare_refl_not_nan by discriminate; split; discriminate].
  split; reflexivity.
Qed.

Lemma is_nan_false (x : float) :
  is_nan x = false <-> Prim2SF x <> S754_nan.
Proof.
  rewrite <- is_nan_spec. destruct (is_nan x); split; congruence.
Qed.

Lemma ltb_fcompare (x y : float) :
  PrimFloat.ltb x y = true <-> fcompare x y = Some Lt.
Proof.
  rewrite ltb_spec. unfold SFltb, fcompare.
  destruct (SFcompare _ _) as [[]|]; split; congruence.
Qed.

Lemma leb_fcompare (x y : float) :
  PrimFloat.leb x y = true <->
  fcompare x y = Some Lt \/ fcompare x y = Some Eq.
Proof.
  rewrite leb_spec. unfold SFleb, fcompare.
  destruct (SFcompare _ _) as [[]|]; split; intros H; auto;
    try discriminate; destruct H; discriminate.
Qed.

Lemma eqb_fcompare (x y : float) :
  PrimFloat.eqb x y = true <-> fcompare x y = Some Eq.
Proof.
  rewrite FloatAxioms.eqb_spec. unfold SFeqb, fcompare.
  destruct (SFcompare _ _) as [[]|]; split; congruence.
Qed.

Lemma fcompare_antisym (x y : float) :
  fcompare y x = option_map CompOpp (fcompare x y).
Proof. apply SFcompare_antisym. Qed.

Lemma fcompare_total (x y : float) :
  is_nan x = false -> is_nan y = false -> exists c, fcompare x y = Some c.
Proof.
  rewrite !is_nan_false. intros Hx Hy. unfold fcompare.
  destruct (SFcompare _ _) as [c|] eqn:E; [eauto|].
  apply SFcompare_None in E. tauto.
Qed.

Lemma leb_not_nan (x y : float) :
  PrimFloat.leb x y = true -> is_nan x = false /\ is_nan y = false.
Proof.
  rewrite leb_fcompare, !is_nan_false. unfold fcompare.
  intros H; split; intros E; rewrite E in H; simpl in H;
    destruct (Prim2SF _), H; discriminate.
Qed.

Lemma ltb_not_nan (x y : float) :
  PrimFloat.ltb x y = true -> is_nan x = false /\ is_nan y = false.
Proof.
  rewrite ltb_fcompare, !is_nan_false. unfold fcompare.
  intros H; split; intros E; rewrite E in H; simpl in H;
    destruct (Prim2SF _); discriminate.
Qed.

(** On numbers, "not [x <= y]" is "[y < x]". *)
Lemma leb_false_ltb (x y : float) :
  is_nan x = false -> is_nan y = false ->
  PrimFloat.leb x y = negb (PrimFloat.ltb y x).
Proof.
  intros Hx Hy. destruct (fcompare_total x y Hx Hy) as [c Hc].
  pose proof (fcompare_antisym x y) as Ha. rewrite Hc in Ha. simpl in Ha.
  rewrite leb_spec, ltb_spec. unfold SFleb, SFltb.
  unfold fcompare in Hc, Ha. rewrite Hc, Ha. destruct c; reflexivity.
Qed.

Lemma ltb_0_truthy (x : float) :
  PrimFloat.ltb 0 x = true -> truthy x = true.
Proof.
  intros H. unfold truthy.
  destruct (ltb_not_nan _ _ H) as [_ ->]. simpl.
  apply ltb_fcompare in H.
  destruct (PrimFloat.eqb x 0) eqn:E; [|reflexivity].
  apply eqb_fcompare in E. rewrite fcompare_antisym, H in E. discriminate.
Qed.

End FloatCompare.

(** ** Loops and typed arrays *)

Section Ranges.

Lemma range_1 (lo hi : Z) : range lo hi 1 = seqZ lo (hi - lo).
Proof.
  unfold range. simpl.
  replace ((hi - lo + 1 - 1) / 1) with (hi - lo) by (rewrite Z.div_1_r; lia).
  replace (seqZ lo (hi - lo)) with (seqZ (lo + 0) (hi - lo))
    by (f_equal; lia).
  rewrite <- fmap_add_seqZ.
  apply list_fmap_ext. intros _ k _. lia.
Qed.

Lemma elem_of_range_1 (lo hi i : Z) : i ∈ range lo hi 1 <-> lo <= i < hi.
Proof. rewrite range_1, elem_of_seqZ. lia. Qed.

Lemma range_1_snoc (lo hi : Z) :
  lo <= hi -> range lo (hi + 1) 1 = range lo hi 1 ++ [hi].
Proof.
  intros H. rewrite !range_1.
  replace (hi + 1 - lo) with (Z.of_nat (S (Z.to_nat (hi - lo)))) by lia.
  rewrite seqZ_S. repeat f_equal; lia.
Qed.

Lemma range_1_nil (lo hi : Z) : hi <= lo -> range lo hi 1 = [].
Proof. intros H. rewrite range_1. apply seqZ_nil. lia. Qed.

Lemma NoDup_range_1 (lo hi : Z) : NoDup (range lo hi 1).
Proof. rewrite range_1. apply NoDup_seqZ. Qed.

Lemma elem_of_pixels (width height x y : Z) :
  (x, y) ∈ pixels width height <-> 0 <= x < width /\ 0 <= y < height.
Proof.
  unfold pixels. rewrite list_elem_of_bind. split.
  - intros (y' & Hx & Hy). apply list_elem_of_fmap in Hx as (x' & E & Hx).
    inversion E; subst. apply elem_of_range_1 in Hx, Hy. lia.
  - intros [Hx Hy]. exists y. split; [|apply elem_of_range_1; lia].
    apply list_elem_of_fmap. exists x. split; [done|].
    apply elem_of_range_1; lia.
Qed.

Lemma NoDup_pixels (width height : Z) : NoDup (pixels width height).
Proof.
  unfold pixels. apply NoDup_bind.
  - intros y1 y2 p _ _ H1 H2.
    apply list_elem_of_fmap in H1 as (? & -> & _).
    apply list_elem_of_fmap in H2 as (? & E & _). congruence.
  - intros y _. apply NoDup_fmap_2_strong; [|apply NoDup_range_1].
    intros ? ? _ _ E. congruence.
  - apply NoDup_range_1.
Qed.

(** A nested [for] loop is a loop over the pixels in scan order. *)
Lemma foldl_pixels {S : Type} (f : S -> Z -> Z -> S) (s : S)
  (width height : Z) :
  foldl (fun s y => foldl (fun s x => f s x y) s (range 0 width 1))
    s (range 0 height 1)
  = foldl (fun s '(x, y) => f s x y) s (pixels width height).
Proof.
  unfold pixels. generalize (range 0 height 1) as ys. intros ys.
  revert s. induction ys as [|y ys IH]; intros s; [done|].
  simpl. rewrite foldl_app, IH. f_equal.
  generalize (range 0 width 1) as xs. intros xs. revert s.
  induction xs as [|x xs IHx]; intros s; [done|]. simpl. apply IHx.
Qed.

Lemma pixelIndex_inj (width x1 y1 x2 y2 : Z) :
  0 <= x1 < width -> 0 <= x2 < width ->
  pixelIndex width x1 y1 = pixelIndex width x2 y2 -> x1 = x2 /\ y1 = y2.
Proof.
  unfold pixelIndex. intros H1 H2 E.
  assert (y1 = y2); [|subst; lia].
  destruct (Z.lt_trichotomy y1 y2) as [Hlt|[->|Hlt]]; [|done|].
  - assert (0 <= (y2 - y1 - 1) * width) by (apply Z.mul_nonneg_nonneg; lia).
    lia.
  - assert (0 <= (y1 - y2 - 1) * width) by (apply Z.mul_nonneg_nonneg; lia).
    lia.
Qed.

Lemma pixelIndex_bounds (width height x y : Z) :
  0 <= x < width -> 0 <= y < height ->
  0 <= pixelIndex width x y < width * height.
Proof.
  unfold pixelIndex. intros H1 H2.
  assert (0 <= y * width) by (apply Z.mul_nonneg_nonneg; lia).
  assert (0 <= (height - 1 - y) * width)
    by (apply Z.mul_nonneg_nonneg; lia).
  lia.
Qed.

Lemma pixelIndex_rem (width x y : Z) :
  0 <= x < width -> 0 <= y -> Z.rem (pixelIndex width x y) width = x.
Proof.
  unfold pixelIndex. intros H1 H2. rewrite Z.rem_mod_nonneg by nia.
  rewrite Z.add_comm, Z_mod_plus_full. apply Z.mod_small. lia.
Qed.

Lemma pixelIndex_div (width x y : Z) :
  0 <= x < width -> pixelIndex width x y / width = y.
Proof.
  unfold pixelIndex. intros H1.
  rewrite Z.add_comm, Z_div_plus_full by lia.
  rewrite Z.div_small by lia. lia.
Qed.

Lemma pixelIndex_decompose (width i : Z) :
  0 < width -> 0 <= i ->
  i = pixelIndex width (Z.rem i width) (i / width)
  /\ 0 <= Z.rem i width < width /\ 0 <= i / width.
Proof.
  intros Hw Hi. unfold pixelIndex. rewrite Z.rem_mod_nonneg by lia.
  pose proof (Z.div_mod i width ltac:(lia)).
  pose proof (Z.mod_pos_bound i width Hw).
  pose proof (Z.div_pos i width Hi Hw). lia.
Qed.

End Ranges.

Section Arrays.
Context {A : Type}.
Implicit Types (arr : list A) (i j : Z) (v : A).

Lemma aget_lookup arr i : 0 <= i -> aget arr i = arr !! Z.to_nat i.
Proof. unfold aget. intros H. destruct (Z.ltb_spec i 0); [lia|done]. Qed.

Lemma aget_neg arr i : i < 0 -> aget arr i = None.
Proof. unfold aget. intros H. destruct (Z.ltb_spec i 0); [done|lia]. Qed.

Lemma aget_Some_bounds arr i v :
  aget arr i = Some v -> 0 <= i < Z.of_nat (length arr).
Proof.
  unfold aget. destruct (Z.ltb_spec i 0); [done|].
  intros H'%lookup_lt_Some. lia.
Qed.

Lemma aget_is_Some arr i :
  0 <= i < Z.of_nat (length arr) <-> is_Some (aget arr i).
Proof.
  split.
  - intros H. rewrite aget_lookup by lia. apply lookup_lt_is_Some. lia.
  - intros [v Hv]. eapply aget_Some_bounds, Hv.
Qed.

Lemma aget_None arr i :
  aget arr i = None <-> i < 0 \/ Z.of_nat (length arr) <= i.
Proof.
  rewrite eq_None_not_Some, <- aget_is_Some. lia.
Qed.

Lemma length_aset arr i v : length (aset arr i v) = length arr.
Proof. unfold aset. destruct (i <? 0); [done|apply length_insert]. Qed.

Lemma aget_aset_eq arr i v :
  0 <= i < Z.of_nat (length arr) -> aget (aset arr i v) i = Some v.
Proof.
  intros H. rewrite aget_lookup by lia. unfold aset.
  destruct (Z.ltb_spec i 0); [lia|]. apply list_lookup_insert_eq. lia.
Qed.

Lemma aget_aset_ne arr i j v : i <> j -> aget (aset arr i v) j = aget arr j.
Proof.
  intros H. unfold aget, aset.
  destruct (Z.ltb_spec j 0); [done|]. destruct (Z.ltb_spec i 0); [done|].
  apply list_lookup_insert_ne. lia.
Qed.

Lemma aset_out_of_bounds arr i v :
  i < 0 \/ Z.of_nat (length arr) <= i -> aset arr i v = arr.
Proof.
  unfold aset. destruct (Z.ltb_spec i 0); [done|]. intros [?|?]; [lia|].
  apply list_insert_ge. lia.
Qed.

(** A loop that writes each index at most once. *)
Lemma aget_foldl_aset_other {K} (idx : K -> Z) (val : K -> A)
  (ks : list K) arr i :
  (forall k, k ∈ ks -> idx k <> i) ->
  aget (foldl (fun arr k => aset arr (idx k) (val k)) arr ks) i = aget arr i.
Proof.
  revert arr. induction ks as [|k ks IH]; intros arr H; [done|].
  simpl. rewrite IH by (intros; apply H; by right).
  apply aget_aset_ne, H. by left.
Qed.

Lemma length_foldl_aset {K} (idx : K -> Z) (val : K -> A) (ks : list K) arr :
  length (foldl (fun arr k => aset arr (idx k) (val k)) arr ks) = length arr.
Proof.
  revert arr. induction ks as [|k ks IH]; intros arr; [done|].
  simpl. by rewrite IH, length_aset.
Qed.

Lemma aget_foldl_aset {K} (idx : K -> Z) (val : K -> A) (ks : list K)
  arr k :
  NoDup (idx <$> ks) -> k ∈ ks -> 0 <= idx k < Z.of_nat (length arr) ->
  aget (foldl (fun arr k => aset arr (idx k) (val k)) arr ks) (idx k)
  = Some (val k).
Proof.
  revert arr. induction ks as [|k' ks IH]; intros arr Hnd Hk Hb.
  - by apply elem_of_nil in Hk.
  - simpl in *. apply NoDup_cons in Hnd as [Hnin Hnd].
    apply elem_of_cons in Hk as [->|Hk].
    + rewrite aget_foldl_aset_other; [by apply aget_aset_eq|].
      intros k Hk E. apply Hnin. rewrite <- E.
      by apply list_elem_of_fmap_2.
    + apply IH; [done..|]. by rewrite length_aset.
Qed.

Lemma fill2_pixels out (width height : Z) (f : Z -> Z -> A) :
  fill2 out width height f
  = foldl (fun out p => aset out (pixelIndex width p.1 p.2) (f p.1 p.2))
      out (pixels width height).
Proof.
  unfold fill2.
  rewrite (foldl_pixels (fun out x y => aset out (y * width + x) (f x y))).
  generalize (pixels width height) as ps. intros ps. revert out.
  induction ps as [|[x y] ps IH]; intros out; [done|]. simpl. apply IH.
Qed.

Lemma length_fill2 out (width height : Z) (f : Z -> Z -> A) :
  length (fill2 out width height f) = length out.
Proof. rewrite fill2_pixels. apply length_foldl_aset. Qed.

Lemma aget_fill2 out (width height : Z) (f : Z -> Z -> A) (x y : Z) :
  0 <= x < width -> 0 <= y < height ->
  pixelIndex width x y < Z.of_nat (length out) ->
  aget (fill2 out width height f) (pixelIndex width x y) = Some (f x y).
Proof.
  intros Hx Hy Hb. rewrite fill2_pixels.
  apply (aget_foldl_aset (fun p => pixelIndex width p.1 p.2)
           (fun p => f p.1 p.2) _ _ (x, y)).
  - apply NoDup_fmap_2_strong; [|apply NoDup_pixels].
    intros [x1 y1] [x2 y2] H1%elem_of_pixels H2%elem_of_pixels E.
    simpl in E. apply pixelIndex_inj in E; [|lia..]. f_equal; lia.
  - apply elem_of_pixels. lia.
  - simpl. pose proof (pixelIndex_bounds width height x y). lia.
Qed.

End Arrays.

(** ** Binary rounding: sign and magnitude

    The facts about [SpecFloat]'s rounding that the engine's arithmetic
    needs: a rounded result keeps the sign, is never [NaN], vanishes only
    below the format's range and overflows only above it. *)

Section Digits.

Lemma digits2_pos_bounds (p : positive) :
  2 ^ (Zpos (digits2_pos p) - 1) <= Zpos p < 2 ^ Zpos (digits2_pos p).
Proof.
  induction p as [p IH|p IH|]; simpl digits2_pos.
  - rewrite Pos2Z.inj_succ.
    replace (Z.succ (Zpos (digits2_pos p)) - 1)
      with (Z.succ (Zpos (digits2_pos p) - 1)) by lia.
    rewrite !Z.pow_succ_r by lia. lia.
  - rewrite Pos2Z.inj_succ.
    replace (Z.succ (Zpos (digits2_pos p)) - 1)
      with (Z.succ (Zpos (digits2_pos p) - 1)) by lia.
    rewrite !Z.pow_succ_r by lia. lia.
  - simpl. lia.
Qed.

Lemma Zdigits2_pos (m : Z) : 0 < m -> 0 < Zdigits2 m.
Proof. destruct m; simpl; lia. Qed.

Lemma Zdigits2_nonneg (m : Z) : 0 <= m -> 0 <= Zdigits2 m.
Proof. destruct m; simpl; lia. Qed.

Lemma Zdigits2_bounds (m : Z) :
  0 < m -> 2 ^ (Zdigits2 m - 1) <= m < 2 ^ Zdigits2 m.
Proof. destruct m; try lia. intros _. apply digits2_pos_bounds. Qed.

Lemma Zdigits2_le (m k : Z) : 0 <= m -> 0 <= k -> m < 2 ^ k -> Zdigits2 m <= k.
Proof.
  intros Hm Hk Hlt. destruct (Z.eq_dec m 0) as [->|Hne]; [simpl; lia|].
  destruct (Zdigits2_bounds m ltac:(lia)) as [Hlo _].
  destruct (Z.le_gt_cases (Zdigits2 m) k) as [|Hgt]; [done|].
  assert (2 ^ k <= 2 ^ (Zdigits2 m - 1))
    by (apply Z.pow_le_mono_r; lia).
  lia.
Qed.

Lemma Zdigits2_ge (m k : Z) : 0 <= k -> 2 ^ k <= m -> k + 1 <= Zdigits2 m.
Proof.
  intros Hk Hle. assert (0 < m) by (pose proof (Z.pow_pos_nonneg 2 k); lia).
  destruct (Zdigits2_bounds m ltac:(lia)) as [_ Hhi].
  destruct (Z.le_gt_cases (k + 1) (Zdigits2 m)) as [|Hgt]; [done|].
  assert (2 ^ Zdigits2 m <= 2 ^ k)
    by (apply Z.pow_le_mono_r; lia).
  lia.
Qed.

Lemma Zdigits2_mono (a b : Z) : 0 <= a <= b -> Zdigits2 a <= Zdigits2 b.
Proof.
  intros [Ha Hab]. destruct (Z.eq_dec b 0) as [->|Hb].
  { replace a with 0 by lia. done. }
  apply Zdigits2_le; [done|apply Zdigits2_nonneg; lia|].
  destruct (Zdigits2_bounds b ltac:(lia)). lia.
Qed.

Lemma Zdigits2_mul_pow2 (m k : Z) :
  0 < m -> 0 <= k -> Zdigits2 (m * 2 ^ k) = Zdigits2 m + k.
Proof.
  intros Hm Hk. destruct (Zdigits2_bounds m Hm) as [Hlo Hhi].
  pose proof (Zdigits2_pos m Hm).
  assert (Hp : 0 < 2 ^ k) by (apply Z.pow_pos_nonneg; lia).
  apply Z.le_antisymm.
  - apply Zdigits2_le; [nia|lia|]. rewrite Z.pow_add_r by lia. nia.
  - replace (Zdigits2 m + k) with (Zdigits2 m - 1 + k + 1) by lia.
    apply Zdigits2_ge; [lia|]. rewrite Z.pow_add_r by lia. nia.
Qed.

Lemma Zdigits2_div_pow2 (m k : Z) :
  0 <= m -> 0 <= k -> Zdigits2 (m / 2 ^ k) = Z.max 0 (Zdigits2 m - k).
Proof.
  intros Hm Hk.
  assert (Hp : 0 < 2 ^ k) by (apply Z.pow_pos_nonneg; lia).
  destruct (Z.eq_dec m 0) as [->|Hne].
  { rewrite Z.div_0_l by lia. simpl. lia. }
  destruct (Zdigits2_bounds m ltac:(lia)) as [Hlo Hhi].
  pose proof (Zdigits2_pos m ltac:(lia)).
  destruct (Z.le_gt_cases (Zdigits2 m) k) as [Hle|Hgt].
  - rewrite Z.div_small; [simpl; lia|]. split; [lia|].
    assert (2 ^ Zdigits2 m <= 2 ^ k) by (apply Z.pow_le_mono_r; lia). lia.
  - rewrite Z.max_r by lia.
    assert (Hd : 2 ^ (Zdigits2 m - k - 1) <= m / 2 ^ k < 2 ^ (Zdigits2 m - k)).
    { split.
      - apply Z.div_le_lower_bound; [lia|].
        rewrite <- Z.pow_add_r by lia.
        replace (k + (Zdigits2 m - k - 1)) with (Zdigits2 m - 1) by lia.
        done.
      - apply Z.div_lt_upper_bound; [lia|].
        rewrite <- Z.pow_add_r by lia.
        replace (k + (Zdigits2 m - k)) with (Zdigits2 m) by lia. done. }
    apply Z.le_antisymm.
    + apply Zdigits2_le; [apply Z.div_pos; lia|lia|lia].
    + replace (Zdigits2 m - k) with (Zdigits2 m - k - 1 + 1) by lia.
      apply Zdigits2_ge; [lia|lia].
Qed.

Lemma Zdigits2_succ (m : Z) : 0 <= m -> Zdigits2 (m + 1) <= Zdigits2 m + 1.
Proof.
  intros Hm. destruct (Z.eq_dec m 0) as [->|Hne]; [simpl; lia|].
  destruct (Zdigits2_bounds m ltac:(lia)) as [_ Hhi].
  pose proof (Zdigits2_pos m ltac:(lia)).
  apply Zdigits2_le; [lia|lia|]. rewrite Z.pow_add_r by lia. lia.
Qed.

Lemma Zdigits2_add (a b : Z) :
  0 <= a -> 0 <= b ->
  Zdigits2 (a + b) <= Z.max (Zdigits2 a) (Zdigits2 b) + 1.
Proof.
  intros Ha Hb.
  pose proof (Zdigits2_nonneg a Ha). pose proof (Zdigits2_nonneg b Hb).
  apply Zdigits2_le; [lia|lia|].
  assert (a < 2 ^ Z.max (Zdigits2 a) (Zdigits2 b)).
  { destruct (Z.eq_dec a 0) as [->|?];
      [apply Z.pow_pos_nonneg; lia|].
    destruct (Zdigits2_bounds a ltac:(lia)).
    assert (2 ^ Zdigits2 a <= 2 ^ Z.max (Zdigits2 a) (Zdigits2 b))
      by (apply Z.pow_le_mono_r; lia). lia. }
  assert (b < 2 ^ Z.max (Zdigits2 a) (Zdigits2 b)).
  { destruct (Z.eq_dec b 0) as [->|?];
      [apply Z.pow_pos_nonneg; lia|].
    destruct (Zdigits2_bounds b ltac:(lia)).
    assert (2 ^ Zdigits2 b <= 2 ^ Z.max (Zdigits2 a) (Zdigits2 b))
      by (apply Z.pow_le_mono_r; lia). lia. }
  rewrite Z.pow_add_r by lia. lia.
Qed.

End Digits.

Section Shifts.

Lemma shr_1_m (r : shr_record) :
  0 <= shr_m r -> shr_m (shr_1 r) = shr_m r / 2.
Proof.
  destruct r as [m rb sb]. simpl. intros Hm.
  destruct m as [|[p|p|]|p]; simpl; try lia; try reflexivity.
  - rewrite Pos2Z.inj_xI. apply Z.div_unique with 1; lia.
  - rewrite Pos2Z.inj_xO. apply Z.div_unique with 0; lia.
Qed.

Lemma iter_shr_1_m (n : positive) (r : shr_record) :
  0 <= shr_m r ->
  shr_m (SpecFloat.iter_pos shr_1 n r) = shr_m r / 2 ^ Zpos n.
Proof.
  revert r. induction n as [n IH|n IH|]; intros r Hr;
    simpl SpecFloat.iter_pos.
  - assert (Hp : 0 < 2 ^ Zpos n) by (apply Z.pow_pos_nonneg; lia).
    assert (H1 : 0 <= shr_m (shr_1 r))
      by (rewrite shr_1_m by done; apply Z.div_pos; lia).
    assert (H2 : 0 <= shr_m (SpecFloat.iter_pos shr_1 n (shr_1 r)))
      by (rewrite IH by done; apply Z.div_pos; done).
    rewrite IH, IH, shr_1_m by done.
    rewrite !Z.div_div by lia.
    f_equal.
    assert (E : 2 ^ Zpos n~1 = 2 * 2 ^ Zpos n * 2 ^ Zpos n).
    { rewrite <- Z.mul_assoc, <- Z.pow_add_r, <- Z.pow_succ_r by lia.
      f_equal. lia. }
    rewrite E. lia.
  - assert (Hp : 0 < 2 ^ Zpos n) by (apply Z.pow_pos_nonneg; lia).
    assert (H2 : 0 <= shr_m (SpecFloat.iter_pos shr_1 n r))
      by (rewrite IH by done; apply Z.div_pos; done).
    rewrite IH, IH by done.
    rewrite !Z.div_div by lia.
    f_equal.
    assert (E : 2 ^ Zpos n~0 = 2 ^ Zpos n * 2 ^ Zpos n).
    { rewrite <- Z.pow_add_r by lia. f_equal. lia. }
    rewrite E. lia.
  - rewrite shr_1_m by done. done.
Qed.

Lemma shr_record_of_loc_m (m : Z) (l : location) :
  shr_m (shr_record_of_loc m l) = m.
Proof. destruct l as [|[]]; reflexivity. Qed.

Lemma shr_spec (r : shr_record) (e n : Z) :
  0 <= shr_m r ->
  shr_m (fst (shr r e n)) = shr_m r / 2 ^ Z.max 0 n
  /\ snd (shr r e n) = e + Z.max 0 n.
Proof.
  intros Hr. destruct n as [|p|p]; simpl.
  - rewrite Z.div_1_r. lia.
  - rewrite iter_shr_1_m by done. split; [done|lia].
  - rewrite Z.div_1_r. lia.
Qed.

Lemma iter_xO_spec (m d : positive) :
  Zpos (Pos.iter xO m d) = Zpos m * 2 ^ Zpos d.
Proof.
  induction d as [|d IH] using Pos.peano_ind.
  - simpl. lia.
  - rewrite Pos.iter_succ, Pos2Z.inj_xO, IH, Pos2Z.inj_succ.
    rewrite Z.pow_succ_r by lia. lia.
Qed.

Lemma shl_align_spec (m : positive) (e e' : Z) :
  Zpos (fst (shl_align m e e')) = Zpos m * 2 ^ (e - Z.min e e')
  /\ snd (shl_align m e e') = Z.min e e'.
Proof.
  unfold shl_align. destruct (e' - e) as [|d|d] eqn:Hd; simpl.
  - replace (Z.min e e') with e by lia. rewrite Z.sub_diag. simpl. lia.
  - replace (Z.min e e') with e by lia. rewrite Z.sub_diag. simpl. lia.
  - rewrite iter_xO_spec. replace (Z.min e e') with e' by lia.
    split; [|done]. f_equal. f_equal. lia.
Qed.

Lemma round_nearest_even_bounds (m : Z) (l : location) :
  m <= round_nearest_even m l <= m + 1.
Proof.
  destruct l as [|[]]; simpl; try lia. destruct (Z.even m); lia.
Qed.

End Shifts.

Section Rounding.
Variables prec emax : Z.
Hypothesis Hprec : 0 < prec.
Hypothesis Hemax : prec < emax.

Let emin := SpecFloat.emin prec emax.
Let fexp := SpecFloat.fexp prec emax.

Lemma shr_fexp_spec (m e : Z) (l : location) :
  0 <= m ->
  let n := Z.max 0 (fexp (Zdigits2 m + e) - e) in
  shr_m (fst (shr_fexp prec emax m e l)) = m / 2 ^ n
  /\ snd (shr_fexp prec emax m e l) = e + n.
Proof.
  intros Hm. unfold shr_fexp.
  destruct (shr_spec (shr_record_of_loc m l) e
              (SpecFloat.fexp prec emax (Zdigits2 m + e) - e)) as [H1 H2].
  { by rewrite shr_record_of_loc_m. }
  rewrite shr_record_of_loc_m in H1. done.
Qed.

(** A rounding in any format keeps the sign and is never [NaN]. *)
Lemma binary_round_aux_sign (s : bool) (mx ex : Z) (lx : location) :
  0 <= mx ->
  match binary_round_aux prec emax s mx ex lx with
  | S754_nan => False
  | S754_zero s' | S754_infinity s' | S754_finite s' _ _ => s' = s
  end.
Proof.
  intros Hm. unfold binary_round_aux.
  destruct (shr_fexp prec emax mx ex lx) as [mrs1 e1] eqn:E1.
  pose proof (shr_fexp_spec mx ex lx Hm) as [H1 _]. rewrite E1 in H1.
  simpl in H1.
  assert (Hm1 : 0 <= shr_m mrs1).
  { rewrite H1. apply Z.div_pos; [done|]. apply Z.pow_pos_nonneg; lia. }
  pose proof (round_nearest_even_bounds (shr_m mrs1)
                (loc_of_shr_record mrs1)) as Hr.
  set (m2 := round_nearest_even (shr_m mrs1) (loc_of_shr_record mrs1)) in *.
  destruct (shr_fexp prec emax m2 e1 loc_Exact) as [mrs2 e2] eqn:E2.
  pose proof (shr_fexp_spec m2 e1 loc_Exact ltac:(lia)) as [H2 _].
  rewrite E2 in H2. simpl in H2.
  assert (Hm2 : 0 <= shr_m mrs2).
  { rewrite H2. apply Z.div_pos; [lia|]. apply Z.pow_pos_nonneg; lia. }
  destruct (shr_m mrs2); try done; try lia.
  by destruct (_ <=? _).
Qed.

(** The shape of a rounded value [m * 2^e] whose exponent is not above
    the canonical one: it vanishes only below the range, overflows only
    above it, and otherwise keeps its order of magnitude. *)
Lemma binary_round_aux_shape (s : bool) (mz : positive) (ez : Z)
  (lx : location) :
  let mag := Zpos (digits2_pos mz) + ez in
  ez <= fexp mag ->
  match binary_round_aux prec emax s (Zpos mz) ez lx with
  | S754_nan => False
  | S754_zero s' => s' = s /\ mag <= emin
  | S754_infinity s' => s' = s /\ emax <= Z.max mag emin
  | S754_finite s' m' e' =>
      s' = s /\ fexp mag <= e' <= emax - prec /\
      Zpos (digits2_pos m') + e' <= Z.max mag emin + 1 /\
      (emin < mag -> mag <= Zpos (digits2_pos m') + e')
  end.
Proof.
  intros mag Hez.
  assert (Hmag : Zdigits2 (Zpos mz) + ez = mag) by reflexivity.
  assert (HE : fexp mag = Z.max (mag - prec) emin) by reflexivity.
  unfold binary_round_aux.
  destruct (shr_fexp prec emax (Zpos mz) ez lx) as [mrs1 e1] eqn:E1.
  pose proof (shr_fexp_spec (Zpos mz) ez lx ltac:(lia)) as [H1 H1e].
  rewrite E1 in H1, H1e. cbn [fst snd] in H1, H1e.
  rewrite Hmag in H1, H1e.
  set (n := Z.max 0 (fexp mag - ez)) in *.
  assert (He1 : e1 = fexp mag) by lia.
  assert (Hd1 : Zdigits2 (shr_m mrs1) = Z.max 0 (mag - fexp mag)).
  { rewrite H1, Zdigits2_div_pow2 by lia. lia. }
  assert (Hm1 : 0 <= shr_m mrs1).
  { rewrite H1. apply Z.div_pos; [lia|]. apply Z.pow_pos_nonneg; lia. }
  pose proof (round_nearest_even_bounds (shr_m mrs1)
                (loc_of_shr_record mrs1)) as Hr.
  set (m2 := round_nearest_even (shr_m mrs1) (loc_of_shr_record mrs1)) in *.
  assert (Hd2 : Zdigits2 (shr_m mrs1) <= Zdigits2 m2
                <= Zdigits2 (shr_m mrs1) + 1).
  { split; [apply Zdigits2_mono; lia|].
    etransitivity; [apply (Zdigits2_mono m2 (shr_m mrs1 + 1)); lia|].
    by apply Zdigits2_succ. }
  destruct (shr_fexp prec emax m2 e1 loc_Exact) as [mrs2 e2] eqn:E2.
  pose proof (shr_fexp_spec m2 e1 loc_Exact ltac:(lia)) as [H2 H2e].
  rewrite E2 in H2, H2e. cbn [fst snd] in H2, H2e.
  set (n2 := Z.max 0 (fexp (Zdigits2 m2 + e1) - e1)) in *.
  assert (Hn2 : fexp (Zdigits2 m2 + e1)
                = Z.max (Zdigits2 m2 + e1 - prec) emin) by reflexivity.
  assert (Hd3 : Zdigits2 (shr_m mrs2) = Z.max 0 (Zdigits2 m2 - n2)).
  { rewrite H2, Zdigits2_div_pow2 by lia. done. }
  assert (Hemin : emin = 3 - emax - prec) by reflexivity.
  destruct (shr_m mrs2) as [|m3|m3] eqn:Em3.
  - split; [done|]. simpl in Hd3. lia.
  - simpl in Hd3. destruct (Z.leb_spec e2 (emax - prec)).
    + split; [done|]. lia.
    + split; [done|]. lia.
  - assert (0 <= m2 / 2 ^ n2); [|lia].
    apply Z.div_pos; [lia|]. apply Z.pow_pos_nonneg; lia.
Qed.

Lemma binary_round_shape (s : bool) (m : positive) (e : Z) :
  let mag := Zpos (digits2_pos m) + e in
  match binary_round prec emax s m e with
  | S754_nan => False
  | S754_zero s' => s' = s /\ mag <= emin
  | S754_infinity s' => s' = s /\ emax <= Z.max mag emin
  | S754_finite s' m' e' =>
      s' = s /\ fexp mag <= e' <= emax - prec /\
      Zpos (digits2_pos m') + e' <= Z.max mag emin + 1 /\
      (emin < mag -> mag <= Zpos (digits2_pos m') + e')
  end.
Proof.
  intros mag. unfold binary_round.
  destruct (shl_align_spec m e (SpecFloat.fexp prec emax
              (Zpos (digits2_pos m) + e))) as [Ha1 Ha2].
  destruct (shl_align m e _) as [mz ez]. simpl in Ha1, Ha2.
  fold fexp mag in Ha1, Ha2.
  assert (Hmag : Zpos (digits2_pos mz) + ez = mag).
  { change (Zpos (digits2_pos mz)) with (Zdigits2 (Zpos mz)).
    rewrite Ha1, Zdigits2_mul_pow2 by lia. cbn [Zdigits2]. rewrite Ha2.
    unfold mag. lia. }
  pose proof (binary_round_aux_shape s mz ez loc_Exact) as H.
  cbv zeta in H. rewrite Hmag in H. apply H. lia.
Qed.

End Rounding.

(** ** Arithmetic on classes of numbers *)

Section FloatOps.

Lemma Nonneg_not_nan (x : float) : Nonneg x -> is_nan x = false.
Proof.
  unfold Nonneg. intros H. apply is_nan_false. intros E. by rewrite E in H.
Qed.

Lemma Below_not_nan (K : Z) (x : float) : Below K x -> is_nan x = false.
Proof.
  unfold Below. intros H. apply is_nan_false. intros E. by rewrite E in H.
Qed.

Lemma Below_mono (K K' : Z) (x : float) : K <= K' -> Below K x -> Below K' x.
Proof.
  unfold Below. intros HK. destruct (Prim2SF x); simpl; try done.
  intros H%Z.leb_le. apply Z.leb_le. lia.
Qed.

Lemma Nonneg_leb_0 (x : float) : Nonneg x -> PrimFloat.leb 0 x = true.
Proof.
  unfold Nonneg. rewrite leb_spec. change (Prim2SF 0) with (S754_zero false).
  destruct (Prim2SF x) as [s|s| |s m e]; simpl; try done;
    destruct s; done.
Qed.

Lemma abs_Nonneg (x : float) : is_nan x = false -> Nonneg (abs x).
Proof.
  rewrite is_nan_false. unfold Nonneg. rewrite abs_spec.
  destruct (Prim2SF x); done.
Qed.

Lemma abs_Below (K : Z) (x : float) : Below K x -> Below K (abs x).
Proof.
  unfold Below. rewrite abs_spec. destruct (Prim2SF x); done.
Qed.

Lemma binary_normalize_shape (m e : Z) :
  m <> 0 ->
  let mag := Zdigits2 m + e in
  match binary_normalize prec emax m e false with
  | S754_nan => False
  | S754_zero s' => s' = (m <? 0) /\ mag <= -1074
  | S754_infinity s' => s' = (m <? 0) /\ 1024 <= Z.max mag (-1074)
  | S754_finite s' m' e' =>
      s' = (m <? 0) /\ Z.max (mag - 53) (-1074) <= e' <= 971 /\
      Zpos (digits2_pos m') + e' <= Z.max mag (-1074) + 1 /\
      (-1074 < mag -> mag <= Zpos (digits2_pos m') + e')
  end.
Proof.
  intros Hm. destruct m as [|p|p]; [done|..]; simpl binary_normalize.
  - apply (binary_round_shape prec emax ltac:(done) ltac:(done) false p e).
  - apply (binary_round_shape prec emax ltac:(done) ltac:(done) true p e).
Qed.

Lemma add_Nonneg (x y : float) : Nonneg x -> Nonneg y -> Nonneg (x + y).
Proof.
  unfold Nonneg. rewrite add_spec. unfold SF64add, SFadd.
  destruct (Prim2SF x) as [s1|s1| |s1 m1 e1], (Prim2SF y) as [s2|s2| |s2 m2 e2];
    simpl; try done; try (by destruct s1, s2).
  intros ->%negb_true_iff ->%negb_true_iff. simpl.
  match goal with
  | |- context [binary_round ?p ?q ?s ?m ?e] =>
      pose proof (binary_round_shape p q ltac:(done) ltac:(done) s m e) as H;
      destruct (binary_round p q s m e)
  end; simpl; try done; destruct H as [-> _]; done.
Qed.

Lemma mul_Nonneg (x y : float) :
  Nonneg x -> Nonneg y ->
  is_infinity x = false \/ PrimFloat.eqb y 0 = false ->
  is_infinity y = false \/ PrimFloat.eqb x 0 = false ->
  Nonneg (x * y).
Proof.
  unfold Nonneg, is_infinity.
  rewrite !FloatAxioms.eqb_spec, !abs_spec, mul_spec.
  change (Prim2SF infinity) with (S754_infinity false).
  change (Prim2SF 0) with (S754_zero false).
  unfold SF64mul, SFmul.
  destruct (Prim2SF x) as [s1|s1| |s1 m1 e1], (Prim2SF y) as [s2|s2| |s2 m2 e2];
    simpl; try done; try (by destruct s1, s2);
    try (intros _ _ [?|?] [?|?]; done).
  intros ->%negb_true_iff ->%negb_true_iff _ _. simpl.
  pose proof (binary_round_aux_sign prec emax false
                (Zpos (m1 * m2)) (e1 + e2) loc_Exact ltac:(lia)) as H.
  destruct (binary_round_aux _ _ _ _ _ _); simpl; try done; by rewrite H.
Qed.

Lemma sqrt_Nonneg (x : float) : Nonneg x -> Nonneg (sqrt x).
Proof.
  unfold Nonneg. rewrite sqrt_spec. unfold SF64sqrt, SFsqrt.
  destruct (Prim2SF x) as [s|s| |s m e]; simpl; try done.
  - intros ->%negb_true_iff. done.
  - intros ->%negb_true_iff.
    destruct (SFsqrt_core_binary prec emax (Zpos m) e) as [[mz ez] lz] eqn:E.
    assert (Hmz : 0 <= mz).
    { unfold SFsqrt_core_binary in E.
      destruct (Z.sqrtrem _) as [q r] eqn:Eq in E.
      inversion E; subst.
      pose proof (Z.sqrtrem_sqrt
        (match e - 2 * Z.min (fexp prec emax (Z.div2 (Zdigits2 (Zpos m) + e + 1)))
                          (Z.div2 e) with
         | 0 => Zpos m
         | Zpos _ =>
             Z.shiftl (Zpos m)
               (e - 2 * Z.min (fexp prec emax
                                 (Z.div2 (Zdigits2 (Zpos m) + e + 1)))
                        (Z.div2 e))
         | Zneg _ => 0
         end)) as Hs.
      rewrite Eq in Hs. simpl in Hs. rewrite Hs. apply Z.sqrt_nonneg. }
    pose proof (binary_round_aux_sign prec emax false mz ez lz Hmz) as H.
    destruct (binary_round_aux _ _ _ _ _ _); simpl; try done; by rewrite H.
Qed.


Lemma Zdigits2_abs (z : Z) : Zdigits2 (Z.abs z) = Zdigits2 z.
Proof. by destruct z. Qed.

Lemma binary_normalize_Below (z e K : Z) :
  Zdigits2 z + e <= K -> -1074 <= K -> K + 1 <= 1023 ->
  sfBelow (K + 1) (binary_normalize prec emax z e false) = true.
Proof.
  intros Hz HK1 HK2. destruct (Z.eq_dec z 0) as [->|Hne]; [done|].
  pose proof (binary_normalize_shape z e Hne) as H. simpl in H.
  destruct (binary_normalize prec emax z e false); simpl; try done.
  - lia.
  - apply Z.leb_le. lia.
Qed.

Lemma aligned_digits (m : positive) (e ez : Z) :
  ez <= e ->
  Zdigits2 (Zpos (fst (shl_align m e ez))) + ez = Zpos (digits2_pos m) + e.
Proof.
  intros H. destruct (shl_align_spec m e ez) as [H1 _].
  rewrite H1, Zdigits2_mul_pow2 by lia. simpl. lia.
Qed.

Lemma signed_sum_digits (s1 s2 : bool) (a b : positive) (op : bool) :
  Zdigits2 (if op then cond_Zopp s1 (Zpos a) + cond_Zopp s2 (Zpos b)
            else cond_Zopp s1 (Zpos a) - cond_Zopp s2 (Zpos b))
  <= Z.max (Zdigits2 (Zpos a)) (Zdigits2 (Zpos b)) + 1.
Proof.
  rewrite <- Zdigits2_abs.
  etransitivity; [|apply (Zdigits2_add (Zpos a) (Zpos b)); lia].
  apply Zdigits2_mono. destruct op, s1, s2; simpl cond_Zopp; lia.
Qed.

Lemma add_Below (K1 K2 : Z) (x y : float) :
  Below K1 x -> Below K2 y -> -1074 <= Z.max K1 K2 ->
  Z.max K1 K2 + 2 <= 1023 -> Below (Z.max K1 K2 + 2) (x + y).
Proof.
  unfold Below. rewrite add_spec. unfold SF64add, SFadd.
  destruct (Prim2SF x) as [s1|s1| |s1 m1 e1], (Prim2SF y) as [s2|s2| |s2 m2 e2];
    try done.
  - intros _ _ _ _. by destruct s1, s2.
  - cbn [sfBelow]. intros _ H%Z.leb_le _ _. apply Z.leb_le. lia.
  - cbn [sfBelow]. intros H%Z.leb_le _ _ _. apply Z.leb_le. lia.
  - cbn [sfBelow]. intros H1%Z.leb_le H2%Z.leb_le HK1 HK2. cbv zeta.
    replace (Z.max K1 K2 + 2) with (Z.max K1 K2 + 1 + 1) by lia.
    apply binary_normalize_Below; [|lia..].
    pose proof (signed_sum_digits s1 s2
                  (fst (shl_align m1 e1 (Z.min e1 e2)))
                  (fst (shl_align m2 e2 (Z.min e1 e2))) true) as Hd.
    cbv iota in Hd.
    pose proof (aligned_digits m1 e1 (Z.min e1 e2) ltac:(lia)) as Ha1.
    pose proof (aligned_digits m2 e2 (Z.min e1 e2) ltac:(lia)) as Ha2.
    set (D1 := Zdigits2 (Zpos (fst (shl_align m1 e1 (Z.min e1 e2))))) in *.
    set (D2 := Zdigits2 (Zpos (fst (shl_align m2 e2 (Z.min e1 e2))))) in *.
    match goal with |- Zdigits2 ?z + _ <= _ =>
      set (DS := Zdigits2 z) in * end.
    set (d1 := Zpos (digits2_pos m1)) in *.
    set (d2 := Zpos (digits2_pos m2)) in *.
    clearbody D1 D2 DS d1 d2. lia.
Qed.

Lemma sub_Below (K1 K2 : Z) (x y : float) :
  Below K1 x -> Below K2 y -> -1074 <= Z.max K1 K2 ->
  Z.max K1 K2 + 2 <= 1023 -> Below (Z.max K1 K2 + 2) (x - y).
Proof.
  unfold Below. rewrite sub_spec. unfold SF64sub, SFsub.
  destruct (Prim2SF x) as [s1|s1| |s1 m1 e1], (Prim2SF y) as [s2|s2| |s2 m2 e2];
    try done.
  - intros _ _ _ _. by destruct s1, s2.
  - cbn [sfBelow]. intros _ H%Z.leb_le _ _. apply Z.leb_le. lia.
  - cbn [sfBelow]. intros H%Z.leb_le _ _ _. apply Z.leb_le. lia.
  - cbn [sfBelow]. intros H1%Z.leb_le H2%Z.leb_le HK1 HK2. cbv zeta.
    replace (Z.max K1 K2 + 2) with (Z.max K1 K2 + 1 + 1) by lia.
    apply binary_normalize_Below; [|lia..].
    pose proof (signed_sum_digits s1 s2
                  (fst (shl_align m1 e1 (Z.min e1 e2)))
                  (fst (shl_align m2 e2 (Z.min e1 e2))) false) as Hd.
    cbv iota in Hd.
    pose proof (aligned_digits m1 e1 (Z.min e1 e2) ltac:(lia)) as Ha1.
    pose proof (aligned_digits m2 e2 (Z.min e1 e2) ltac:(lia)) as Ha2.
    set (D1 := Zdigits2 (Zpos (fst (shl_align m1 e1 (Z.min e1 e2))))) in *.
    set (D2 := Zdigits2 (Zpos (fst (shl_align m2 e2 (Z.min e1 e2))))) in *.
    match goal with |- Zdigits2 ?z + _ <= _ =>
      set (DS := Zdigits2 z) in * end.
    set (d1 := Zpos (digits2_pos m1)) in *.
    set (d2 := Zpos (digits2_pos m2)) in *.
    clearbody D1 D2 DS d1 d2. lia.
Qed.

(** [x - x] on a finite number is zero. *)
Lemma sub_diag_Below (K : Z) (x : float) :
  Below K x -> PrimFloat.eqb (x - x) 0 = true.
Proof.
  unfold Below. rewrite FloatAxioms.eqb_spec, sub_spec.
  change (Prim2SF 0) with (S754_zero false). unfold SF64sub, SFsub.
  destruct (Prim2SF x) as [s|s| |s m e]; try done.
  - intros _. by destruct s.
  - intros _. cbv zeta. rewrite Z.sub_diag. done.
Qed.

(** *** Integers as numbers *)

Lemma Z2F_spec (k : Z) :
  0 < k < 2 ^ 63 ->
  Prim2SF (Z2F k) = binary_normalize prec emax k 0 false.
Proof.
  intros Hk. destruct k as [|p|p]; try lia. unfold Z2F.
  rewrite of_uint63_spec. f_equal.
  rewrite Uint63.of_Z_spec. apply Z.mod_small.
  change Uint63.wB with (2 ^ 63). lia.
Qed.

Lemma Z2F_shape (k : Z) :
  0 < k < 2 ^ 63 ->
  exists m e, Prim2SF (Z2F k) = S754_finite false m e /\
    Zdigits2 k <= Zpos (digits2_pos m) + e <= Zdigits2 k + 1.
Proof.
  intros Hk. rewrite (Z2F_spec k Hk).
  pose proof (binary_normalize_shape k 0 ltac:(lia)) as H. simpl in H.
  pose proof (Zdigits2_pos k ltac:(lia)).
  assert (Zdigits2 k <= 63) by (apply Zdigits2_le; lia).
  destruct (binary_normalize prec emax k 0 false) as [s|s| |s m e];
    try done; try lia.
  destruct H as (-> & _ & Hs1 & Hs2). exists m, e. split.
  - f_equal. destruct (Z.ltb_spec k 0); [lia|done].
  - lia.
Qed.

Lemma Z2F_Nonneg (k : Z) : 0 <= k < 2 ^ 63 -> Nonneg (Z2F k).
Proof.
  intros Hk. destruct (Z.eq_dec k 0) as [->|Hne]; [done|].
  destruct (Z2F_shape k ltac:(lia)) as (m & e & E & _).
  unfold Nonneg. by rewrite E.
Qed.

Lemma Z2F_Below (k K : Z) :
  0 <= k < 2 ^ K -> 0 <= K <= 63 -> Below (K + 1) (Z2F k).
Proof.
  intros Hk HK. destruct (Z.eq_dec k 0) as [->|Hne]; [done|].
  assert (2 ^ K <= 2 ^ 63) by (apply Z.pow_le_mono_r; lia).
  destruct (Z2F_shape k ltac:(lia)) as (m & e & E & _ & Hd).
  unfold Below. rewrite E. simpl. apply Z.leb_le.
  assert (Zdigits2 k <= K) by (apply Zdigits2_le; lia). lia.
Qed.

(** Zero divided by a positive count is zero. *)
Lemma div_0_Z2F (k : Z) :
  0 < k < 2 ^ 63 -> Prim2SF (0 / Z2F k) = S754_zero false.
Proof.
  intros Hk. rewrite div_spec.
  destruct (Z2F_shape k Hk) as (m & e & -> & _). reflexivity.
Qed.


(** *** Rounding to binary32 *)

Lemma SF2Prim_finite (s : bool) (m : positive) (e : Z) :
  Zpos m < 2 ^ 63 ->
  exists m1 e1,
    Zpos (digits2_pos m) <= Zpos (digits2_pos m1) + e1
      <= Zpos (digits2_pos m) + 1 /\
    Prim2SF (SF2Prim (S754_finite s m e))
    = (if s then SFopp else fun x => x)
        (binary_round prec emax false m1 (e1 + e)).
Proof.
  intros Hm. destruct (Z2F_shape (Zpos m) ltac:(lia)) as (m1 & e1 & E & Hd).
  exists m1, e1. split; [exact Hd|].
  unfold SF2Prim. change (of_uint63 (Uint63.of_Z (Zpos m))) with (Z2F (Zpos m)).
  destruct s.
  - rewrite opp_spec, Z_ldexp_spec, E. reflexivity.
  - rewrite Z_ldexp_spec, E. reflexivity.
Qed.

Lemma SF2Prim_finite_Below (s : bool) (m : positive) (e K : Z) :
  Zpos m < 2 ^ 63 -> Zpos (digits2_pos m) + e <= K ->
  -1074 <= K -> K + 2 <= 1023 ->
  sfBelow (K + 2) (Prim2SF (SF2Prim (S754_finite s m e))) = true.
Proof.
  intros Hm Hd HK1 HK2.
  destruct (SF2Prim_finite s m e Hm) as (m1 & e1 & Hd1 & ->).
  pose proof (binary_round_shape prec emax ltac:(done) ltac:(done)
                false m1 (e1 + e)) as H. simpl in H.
  destruct (binary_round prec emax false m1 (e1 + e)) as [s'|s'| |s' m' e'];
    try done.
  - by destruct s.
  - exfalso. revert H. change emin with (-1074). change emax with 1024. lia.
  - revert H. change emin with (-1074). change emax with 1024. intros H.
    assert (sfBelow (K + 2) (S754_finite s' m' e') = true)
      by (apply Z.leb_le; lia).
    by destruct s.
Qed.

Lemma SF2Prim_finite_Nonneg (m : positive) (e : Z) :
  Zpos m < 2 ^ 63 ->
  sfNonneg (Prim2SF (SF2Prim (S754_finite false m e))) = true.
Proof.
  intros Hm. destruct (SF2Prim_finite false m e Hm) as (m1 & e1 & _ & ->).
  pose proof (binary_round_shape prec emax ltac:(done) ltac:(done)
                false m1 (e1 + e)) as H. simpl in H.
  destruct (binary_round prec emax false m1 (e1 + e)) as [s'|s'| |s' m' e'];
    try done; destruct H as [-> _]; done.
Qed.

Lemma binary32_mantissa (s : bool) (m : positive) (e : Z) :
  match binary_round 24 128 s m e with
  | S754_finite _ m' _ => Zpos m' < 2 ^ 63
  | _ => True
  end.
Proof.
  pose proof (binary_round_shape 24 128 ltac:(done) ltac:(done) s m e) as H.
  simpl in H.
  destruct (binary_round 24 128 s m e) as [s'|s'| |s' m' e']; try done.
  destruct H as (_ & H1 & H2 & _). unfold fexp, SpecFloat.emin in *.
  assert (Zdigits2 (Zpos m') <= 25) by (simpl; lia).
  destruct (Zdigits2_bounds (Zpos m') ltac:(lia)) as [_ Hhi].
  assert (2 ^ Zdigits2 (Zpos m') <= 2 ^ 25)
    by (apply Z.pow_le_mono_r; lia).
  assert (2 ^ 25 < 2 ^ 63) by done. lia.
Qed.

Lemma fround_Nonneg (x : float) : Nonneg x -> Nonneg (fround x).
Proof.
  unfold Nonneg, fround.
  destruct (Prim2SF x) as [s|s| |s m e] eqn:E; try (by rewrite E).
  simpl. intros ->%negb_true_iff.
  pose proof (binary_round_shape 24 128 ltac:(done) ltac:(done) false m e)
    as H. simpl in H.
  pose proof (binary32_mantissa false m e) as Hm.
  destruct (binary_round 24 128 false m e) as [s'|s'| |s' m' e']; try done.
  - rewrite Prim2SF_SF2Prim by done. done.
  - rewrite Prim2SF_SF2Prim by done. destruct H as [-> _]. done.
  - destruct H as [-> _]. by apply SF2Prim_finite_Nonneg.
Qed.

Lemma fround_Below (K : Z) (x : float) :
  Below K x -> -149 <= K <= 126 -> Below (K + 3) (fround x).
Proof.
  unfold Below, fround. intros Hx HK.
  destruct (Prim2SF x) as [s|s| |s m e] eqn:E; try done.
  { by rewrite E. }
  simpl in Hx. apply Z.leb_le in Hx.
  pose proof (binary_round_shape 24 128 ltac:(done) ltac:(done) s m e)
    as H. simpl in H.
  pose proof (binary32_mantissa s m e) as Hm.
  destruct (binary_round 24 128 s m e) as [s'|s'| |s' m' e']; try done.
  - rewrite Prim2SF_SF2Prim by done. done.
  - unfold SpecFloat.emin in H. lia.
  - destruct H as (_ & _ & H2 & _). unfold SpecFloat.emin in H2.
    replace (K + 3) with (K + 1 + 2) by lia.
    apply SF2Prim_finite_Below; [done|lia|lia|lia].
Qed.


(** *** Positive zero *)

Lemma sub_diag_zero (K : Z) (x : float) : Below K x -> isPosZero (x - x).
Proof.
  unfold Below, isPosZero. rewrite sub_spec. unfold SF64sub, SFsub.
  destruct (Prim2SF x) as [s|s| |s m e]; try done.
  - intros _. by destruct s.
  - intros _. cbv zeta. rewrite Z.sub_diag. done.
Qed.

Lemma abs_zero (x : float) : isPosZero x -> isPosZero (abs x).
Proof. unfold isPosZero. rewrite abs_spec. by intros ->. Qed.

Lemma add_zero (x y : float) : isPosZero x -> isPosZero y -> isPosZero (x + y).
Proof. unfold isPosZero. rewrite add_spec. by intros -> ->. Qed.

Lemma fround_zero (x : float) : isPosZero x -> isPosZero (fround x).
Proof. unfold isPosZero, fround. intros E. by rewrite E. Qed.

Lemma isPosZero_eq (x : float) : isPosZero x -> x = 0%float.
Proof. intros E. by apply Prim2SF_inj. Qed.

End FloatOps.
(** ** Numbers in order *)

Section FloatValue.

Local Open Scope Z_scope.

Lemma valid_finite (x : float) (s : bool) (m : positive) (e : Z) :
  Prim2SF x = S754_finite s m e ->
  -1074 <= e <= 971 /\ Zpos (digits2_pos m) <= 53 /\
  (e = -1074 \/ Zpos (digits2_pos m) = 53).
Proof.
  intros E. pose proof (Prim2SF_valid x) as H. rewrite E in H.
  unfold valid_binary, bounded, canonical_mantissa in H.
  apply andb_true_iff in H as [H1%Z.eqb_eq H2%Z.leb_le].
  unfold SpecFloat.fexp, SpecFloat.emin in H1.
  change prec with 53 in *. change emax with 1024 in *. lia.
Qed.

Lemma canonical_bounds (m : positive) (e : Z) :
  canonical m e -> 0 < Zpos m * 2 ^ (e + 1074) < 2 ^ 3000.
Proof.
  intros (He & Hd & _).
  pose proof (digits2_pos_bounds m) as [_ Hm].
  assert (Zpos m < 2 ^ 53).
  { eapply Z.lt_le_trans; [exact Hm|]. apply Z.pow_le_mono_r; lia. }
  assert (0 < 2 ^ (e + 1074)) by (apply Z.pow_pos_nonneg; lia).
  assert (2 ^ (e + 1074) <= 2 ^ 2045) by (apply Z.pow_le_mono_r; lia).
  assert (2 ^ 53 * 2 ^ 2045 < 2 ^ 3000).
  { rewrite <- Z.pow_add_r by lia. apply Z.pow_lt_mono_r; lia. }
  split; [lia|].
  eapply Z.lt_trans; [|eassumption].
  eapply Z.le_lt_trans; [apply Z.mul_le_mono_nonneg_l; [lia|eassumption]|].
  apply Z.mul_lt_mono_pos_r; [apply Z.pow_pos_nonneg|]; lia.
Qed.

Lemma canonical_compare (m1 m2 : positive) (e1 e2 : Z) :
  canonical m1 e1 -> canonical m2 e2 ->
  match e1 ?= e2 with
  | Lt => Lt
  | Gt => Gt
  | Eq => PosDef.Pos.compare_cont Eq m1 m2
  end = (Zpos m1 * 2 ^ (e1 + 1074) ?= Zpos m2 * 2 ^ (e2 + 1074)).
Proof.
  assert (Hlt : forall a b ea eb, canonical a ea -> canonical b eb ->
            ea < eb -> Zpos a * 2 ^ (ea + 1074) < Zpos b * 2 ^ (eb + 1074)).
  { intros a b ea eb (Hea & Hda & _) (Heb & Hdb & Hnb) Hlt.
    pose proof (digits2_pos_bounds a) as [_ Ha].
    pose proof (digits2_pos_bounds b) as [Hb _].
    assert (Hdb' : Zpos (digits2_pos b) = 53) by lia. rewrite Hdb' in Hb.
    assert (Zpos a < 2 ^ 53).
    { eapply Z.lt_le_trans; [exact Ha|]. apply Z.pow_le_mono_r; lia. }
    replace (eb + 1074) with ((ea + 1074) + (eb - ea)) by lia.
    rewrite (Z.pow_add_r 2 (ea + 1074) (eb - ea)) by lia.
    set (P := 2 ^ (ea + 1074)).
    assert (0 < P) by (apply Z.pow_pos_nonneg; lia).
    assert (2 ^ 1 <= 2 ^ (eb - ea)) by (apply Z.pow_le_mono_r; lia).
    set (Q := 2 ^ (eb - ea)) in *.
    change (2 ^ (53 - 1)) with 4503599627370496 in Hb.
    change (2 ^ 53) with 9007199254740992 in *.
    change (2 ^ 1) with 2 in *.
    assert (Zpos a * P < 9007199254740992 * P)
      by (apply Z.mul_lt_mono_pos_r; lia).
    assert (4503599627370496 * (P * Q) <= Zpos b * (P * Q)).
    { apply Z.mul_le_mono_nonneg_r; [|lia].
      apply Z.mul_nonneg_nonneg; lia. }
    assert (P * 2 <= P * Q) by (apply Z.mul_le_mono_nonneg_l; lia).
    lia. }
  intros H1 H2. symmetry. destruct (Z.compare_spec e1 e2) as [->|H|H].
  - rewrite compare_cont_Eq.
    destruct H2 as (? & _).
    assert (0 < 2 ^ (e2 + 1074)) by (apply Z.pow_pos_nonneg; lia).
    rewrite <- Zmult_compare_compat_r by lia. reflexivity.
  - apply Z.compare_lt_iff. by apply Hlt.
  - apply Z.compare_gt_iff. by apply Hlt.
Qed.

Lemma Prim2SF_sfValid (x : float) : is_nan x = false -> sfValid (Prim2SF x).
Proof.
  rewrite is_nan_false. intros Hn.
  destruct (Prim2SF x) as [s|s| |s m e] eqn:E; try done.
  by apply (valid_finite x s).
Qed.

Lemma SFcompare_val (x y : spec_float) :
  sfValid x -> sfValid y -> SFcompare x y = Some (sfVal x ?= sfVal y).
Proof.
  assert (HI : 0 < 2 ^ 3000) by done.
  destruct x as [s1|s1| |s1 m1 e1], y as [s2|s2| |s2 m2 e2]; try done;
    cbn [sfValid sfVal SFcompare]; intros H1 H2;
    try pose proof (canonical_bounds _ _ H1) as B1;
    try pose proof (canonical_bounds _ _ H2) as B2;
    set (INF := 2 ^ 3000) in *; clearbody INF.
  all: try solve
    [ try destruct s1; try destruct s2; f_equal; symmetry;
      cbn [cond_Zopp];
      first [ apply Z.compare_eq_iff; lia | apply Z.compare_lt_iff; lia
            | apply Z.compare_gt_iff; lia ] ].
  pose proof (canonical_compare m1 m2 e1 e2 H1 H2) as Hc.
  set (v1 := Zpos m1 * 2 ^ (e1 + 1074)) in *.
  set (v2 := Zpos m2 * 2 ^ (e2 + 1074)) in *.
  destruct s1, s2; f_equal; simpl.
  - rewrite Z.compare_opp, (Z.compare_antisym v1 v2), <- Hc.
    by destruct (e1 ?= e2).
  - symmetry. apply Z.compare_lt_iff. lia.
  - symmetry. apply Z.compare_gt_iff. lia.
  - exact Hc.
Qed.

Lemma fcompare_val (x y : float) :
  is_nan x = false -> is_nan y = false ->
  fcompare x y = Some (fval x ?= fval y).
Proof.
  intros Hx Hy. apply SFcompare_val; by apply Prim2SF_sfValid.
Qed.

Lemma ltb_val (x y : float) :
  is_nan x = false -> is_nan y = false ->
  PrimFloat.ltb x y = (fval x <? fval y).
Proof.
  intros Hx Hy. rewrite ltb_spec. unfold SFltb.
  change (SFcompare (Prim2SF x) (Prim2SF y)) with (fcompare x y).
  rewrite fcompare_val by done. unfold Z.ltb.
  by destruct (fval x ?= fval y).
Qed.

Lemma leb_val (x y : float) :
  is_nan x = false -> is_nan y = false ->
  PrimFloat.leb x y = (fval x <=? fval y).
Proof.
  intros Hx Hy. rewrite leb_spec. unfold SFleb.
  change (SFcompare (Prim2SF x) (Prim2SF y)) with (fcompare x y).
  rewrite fcompare_val by done. unfold Z.leb.
  by destruct (fval x ?= fval y).
Qed.

(** The sign of a difference is the order of its terms. *)
Lemma SFsub_sign (x y : spec_float) :
  sfValid x -> sfValid y ->
  SFltb (S754_zero false) (SFsub prec emax x y) = (sfVal y <? sfVal x).
Proof.
  assert (HI : 0 < 2 ^ 3000) by done.
  destruct x as [s1|s1| |s1 m1 e1], y as [s2|s2| |s2 m2 e2]; try done;
    cbn [sfValid sfVal SFsub]; intros H1 H2;
    try pose proof (canonical_bounds _ _ H1) as B1;
    try pose proof (canonical_bounds _ _ H2) as B2;
    set (INF := 2 ^ 3000) in *; clearbody INF.
  all: try solve
    [ try destruct s1; try destruct s2; cbn [cond_Zopp negb]; symmetry;
      first [ reflexivity | apply Z.ltb_ge; lia | apply Z.ltb_lt; lia ] ].
  - cbv zeta. set (ez := Z.min e1 e2).
    destruct (shl_align_spec m1 e1 ez) as [A1 _].
    destruct (shl_align_spec m2 e2 ez) as [A2 _].
    replace (Z.min e1 ez) with ez in A1 by lia.
    replace (Z.min e2 ez) with ez in A2 by lia.
    set (a := Zpos (fst (shl_align m1 e1 ez))) in *.
    set (b := Zpos (fst (shl_align m2 e2 ez))) in *.
    destruct H1 as (He1 & _), H2 as (He2 & _).
    set (P := 2 ^ (ez + 1074)).
    assert (HP : 0 < P) by (apply Z.pow_pos_nonneg; lia).
    assert (V1 : Zpos m1 * 2 ^ (e1 + 1074) = a * P).
    { rewrite A1. unfold P. rewrite <- Z.mul_assoc, <- Z.pow_add_r by lia.
      do 2 f_equal. lia. }
    assert (V2 : Zpos m2 * 2 ^ (e2 + 1074) = b * P).
    { rewrite A2. unfold P. rewrite <- Z.mul_assoc, <- Z.pow_add_r by lia.
      do 2 f_equal. lia. }
    rewrite V1, V2.
    set (D := cond_Zopp s1 a - cond_Zopp s2 b).
    assert (HD : (cond_Zopp s2 (b * P) <? cond_Zopp s1 (a * P)) = (0 <? D)).
    { assert (cond_Zopp s1 (a * P) - cond_Zopp s2 (b * P) = D * P)
        by (unfold D; destruct s1, s2; simpl; lia).
      destruct (Z.ltb_spec 0 D), (Z.ltb_spec (cond_Zopp s2 (b * P))
                                             (cond_Zopp s1 (a * P)));
        try done; nia. }
    rewrite HD. clearbody D. unfold binary_normalize.
    destruct D as [|d|d]; [done| |].
    + pose proof (binary_round_shape prec emax ltac:(done) ltac:(done)
                    false d ez) as H. cbv zeta in H.
      destruct (binary_round prec emax false d ez) as [s|s| |s m e];
        try done.
      * destruct H as [_ H]. unfold SpecFloat.emin in H.
        change prec with 53 in H. change emax with 1024 in H. lia.
      * by destruct H as [-> _].
      * by destruct H as [-> _].
    + pose proof (binary_round_shape prec emax ltac:(done) ltac:(done)
                    true d ez) as H. cbv zeta in H.
      destruct (binary_round prec emax true d ez) as [s|s| |s m e];
        try done.
      * by destruct H as [-> _].
      * by destruct H as [-> _].
Qed.

Lemma sub_sign (x y : float) :
  is_nan x = false -> is_nan y = false ->
  PrimFloat.ltb 0 (x - y) = (fval y <? fval x).
Proof.
  intros Hx Hy. rewrite ltb_spec, sub_spec.
  apply SFsub_sign; by apply Prim2SF_sfValid.
Qed.

Lemma sub_sign_ltb (x y : float) :
  is_nan x = false -> is_nan y = false ->
  PrimFloat.ltb 0 (x - y) = PrimFloat.ltb y x.
Proof. intros Hx Hy. by rewrite sub_sign, ltb_val. Qed.

End FloatValue.
(** ** Sorting with a comparator *)

Section Sort.

Context {A : Type} (cmp : A -> A -> float).

Lemma sort_insert_perm (x : A) (l : list A) : sort_insert cmp x l ≡ₚ x :: l.
Proof.
  induction l as [|y l IH]; [done|]. simpl.
  destruct (PrimFloat.ltb 0 (cmp x y)); [|done].
  rewrite IH. apply Permutation_swap.
Qed.

Lemma sort_perm (l : list A) : sort cmp l ≡ₚ l.
Proof.
  induction l as [|x l IH]; [done|]. unfold sort in *. simpl.
  by rewrite sort_insert_perm, IH.
Qed.

Lemma length_sort (l : list A) : length (sort cmp l) = length l.
Proof. apply Permutation_length, sort_perm. Qed.

(** On elements where the comparator is the order of an integer key, the
    result is in the order of the keys. *)
Context (key : A -> Z) (P : A -> Prop).
Hypothesis cmp_key :
  forall a b, P a -> P b -> PrimFloat.ltb 0 (cmp a b) = (key b <? key a).

Lemma sort_insert_sorted (x : A) (l : list A) :
  P x -> Forall P l ->
  StronglySorted (fun a b => key a <= key b) l ->
  StronglySorted (fun a b => key a <= key b) (sort_insert cmp x l).
Proof.
  intros Hx. induction l as [|y l IH]; intros HP Hs; simpl.
  - apply StronglySorted_cons. split; [apply Forall_nil_2|constructor].
  - apply Forall_cons in HP as [Hy HP].
    apply StronglySorted_cons in Hs as [Hall Hs].
    rewrite cmp_key by done.
    destruct (Z.ltb_spec (key y) (key x)) as [Hlt|Hge].
    + apply StronglySorted_cons. split; [|by apply IH].
      rewrite sort_insert_perm. apply Forall_cons. split; [lia|done].
    + apply StronglySorted_cons. split.
      * apply Forall_cons. split; [done|].
        eapply Forall_impl; [exact Hall|]. simpl. intros z Hz. lia.
      * apply StronglySorted_cons. done.
Qed.

Lemma sort_sorted (l : list A) :
  Forall P l -> StronglySorted (fun a b => key a <= key b) (sort cmp l).
Proof.
  induction l as [|x l IH]; intros HP; unfold sort in *; simpl.
  - constructor.
  - apply Forall_cons in HP as [Hx HP].
    apply sort_insert_sorted; [done| |by apply IH].
    fold (sort cmp l). by rewrite sort_perm.
Qed.

Lemma sort_take_smallest (l : list A) (n : nat) (c c' : A) :
  Forall P l -> c ∈ take n (sort cmp l) -> c' ∈ drop n (sort cmp l) ->
  key c <= key c'.
Proof.
  intros HP Hc Hc'. pose proof (sort_sorted l HP) as Hs.
  rewrite <- (take_drop n (sort cmp l)) in Hs.
  exact (StronglySorted_app_1_elem_of _ _ _ _ _ Hs Hc Hc').
Qed.

End Sort.
(** ** Products and whole numbers *)

Section FloatMul.

Local Open Scope Z_scope.

Lemma digits_mul (a b : positive) :
  Zpos (digits2_pos a) + Zpos (digits2_pos b) - 1
  <= Zpos (digits2_pos (a * b))
  <= Zpos (digits2_pos a) + Zpos (digits2_pos b).
Proof.
  pose proof (digits2_pos_bounds a) as [La Ha].
  pose proof (digits2_pos_bounds b) as [Lb Hb].
  set (da := Zpos (digits2_pos a)) in *.
  set (db := Zpos (digits2_pos b)) in *.
  assert (Hda : 1 <= da) by (unfold da; lia).
  assert (Hdb : 1 <= db) by (unfold db; lia).
  change (Zpos (digits2_pos (a * b))) with (Zdigits2 (Zpos a * Zpos b)).
  split.
  - pose proof (Zdigits2_ge (Zpos a * Zpos b) (da + db - 2) ltac:(lia)) as H.
    enough (2 ^ (da + db - 2) <= Zpos a * Zpos b) by lia.
    replace (da + db - 2) with ((da - 1) + (db - 1)) by lia.
    rewrite Z.pow_add_r by lia.
    apply Z.mul_le_mono_nonneg; try done; apply Z.pow_nonneg; lia.
  - apply Zdigits2_le; [lia|lia|].
    rewrite Z.pow_add_r by lia.
    apply Z.mul_lt_mono_nonneg; lia.
Qed.

Lemma mul_Below (K1 K2 : Z) (x y : float) :
  Below K1 x -> Below K2 y -> -1074 <= K1 + K2 -> K1 + K2 + 1 <= 1023 ->
  Below (K1 + K2 + 1) (x * y).
Proof.
  unfold Below. rewrite mul_spec. unfold SF64mul, SFmul.
  destruct (Prim2SF x) as [s1|s1| |s1 m1 e1] eqn:Ex; try done;
    destruct (Prim2SF y) as [s2|s2| |s2 m2 e2] eqn:Ey; try done.
  cbn [sfBelow]. intros B1%Z.leb_le B2%Z.leb_le HK1 HK2.
  destruct (valid_finite x _ _ _ Ex) as (He1 & Hd1 & Hc1).
  destruct (valid_finite y _ _ _ Ey) as (He2 & Hd2 & Hc2).
  pose proof (digits_mul m1 m2) as [Dl Dh].
  pose proof (binary_round_aux_shape prec emax ltac:(done) ltac:(done)
                (xorb s1 s2) (m1 * m2) (e1 + e2) loc_Exact) as H.
  cbv zeta in H. unfold SpecFloat.fexp, SpecFloat.emin in H.
  change prec with 53 in H. change emax with 1024 in H.
  change (binary_round_aux 53 1024) with (binary_round_aux prec emax) in H.
  change (Zpos (m1 * m2)) with (Zpos m1 * Zpos m2) in *.
  set (d := Zpos (digits2_pos (m1 * m2))) in *.
  set (d1 := Zpos (digits2_pos m1)) in *.
  set (d2 := Zpos (digits2_pos m2)) in *.
  assert (1 <= d1) by (unfold d1; lia).
  assert (1 <= d2) by (unfold d2; lia).
  specialize (H ltac:(lia)).
  destruct (binary_round_aux prec emax (xorb s1 s2) (Zpos m1 * Zpos m2)
              (e1 + e2) loc_Exact) as [s|s| |s m e]; try done.
  - lia.
  - cbn [sfBelow]. apply Z.leb_le. lia.
Qed.

Lemma toZ_Below (K : Z) (x : float) :
  Nonneg x -> Below K x -> 0 <= K -> 0 <= toZ x <= 2 ^ K.
Proof.
  unfold Nonneg, Below, toZ. intros Hn Hb HK.
  assert (0 < 2 ^ K) by (apply Z.pow_pos_nonneg; lia).
  destruct (Prim2SF x) as [s|s| |s m e]; try done; try lia.
  simpl in Hn, Hb. apply negb_true_iff in Hn as ->. apply Z.leb_le in Hb.
  cbn [cond_Zopp].
  pose proof (digits2_pos_bounds m) as [_ Hm].
  set (d := Zpos (digits2_pos m)) in *.
  assert (1 <= d) by (unfold d; lia).
  destruct (Z.leb_spec 0 e).
  - assert (0 < 2 ^ e) by (apply Z.pow_pos_nonneg; lia).
    split; [lia|].
    assert (Zpos m * 2 ^ e < 2 ^ d * 2 ^ e)
      by (apply Z.mul_lt_mono_pos_r; lia).
    rewrite <- Z.pow_add_r in * by lia.
    assert (2 ^ (d + e) <= 2 ^ K) by (apply Z.pow_le_mono_r; lia). lia.
  - assert (0 < 2 ^ (- e)) by (apply Z.pow_pos_nonneg; lia).
    rewrite Z.quot_div_nonneg by lia.
    split; [apply Z.div_pos; lia|].
    apply Z.lt_le_incl, Z.div_lt_upper_bound; [lia|].
    rewrite <- Z.pow_add_r by lia.
    eapply Z.lt_le_trans; [exact Hm|]. apply Z.pow_le_mono_r; lia.
Qed.

Lemma toZ_zero (x : float) (s : bool) : Prim2SF x = S754_zero s -> toZ x = 0.
Proof. unfold toZ. by intros ->. Qed.

(** [Math.round] of a number below [2^K] is below [2^(K + 2)], and is
    zero below one half. *)
Lemma Math_round_Below (K : Z) (x : float) :
  Nonneg x -> Below K x -> K <= 60 ->
  0 <= toZ (Math_round x) <= 2 ^ (K + 2) /\
  (K < 0 -> toZ (Math_round x) = 0).
Proof.
  intros Hn Hb HK. unfold Math_round.
  destruct (Prim2SF x) as [s|s| |s m e] eqn:E;
    try (unfold Below in Hb; rewrite E in Hb; done).
  { rewrite (toZ_zero x s E).
    split; [|done]. split; [done|]. apply Z.pow_nonneg. lia. }
  assert (Hs : s = false).
  { unfold Nonneg in Hn. rewrite E in Hn. simpl in Hn.
    by apply negb_true_iff in Hn. }
  subst s.
  assert (Hd : Zpos (digits2_pos m) + e <= K).
  { unfold Below in Hb. rewrite E in Hb. by apply Z.leb_le in Hb. }
  pose proof (digits2_pos_bounds m) as [_ Hm].
  set (d := Zpos (digits2_pos m)) in *.
  assert (1 <= d) by (unfold d; lia).
  destruct (Z.leb_spec 0 e).
  - split; [|lia].
    destruct (toZ_Below K x Hn Hb ltac:(lia)) as [? ?].
    assert (2 ^ K <= 2 ^ (K + 2)) by (apply Z.pow_le_mono_r; lia). lia.
  - cbn [cond_Zopp].
    set (r := (2 * Zpos m + 2 ^ (- e)) / 2 ^ (1 - e)).
    assert (HP : 0 < 2 ^ (- e)) by (apply Z.pow_pos_nonneg; lia).
    assert (HP1 : 2 ^ (1 - e) = 2 * 2 ^ (- e)).
    { replace (1 - e) with (1 + - e) by lia.
      by rewrite Z.pow_add_r by lia. }
    assert (Hr0 : 0 <= r) by (apply Z.div_pos; lia).
    assert (Hsmall : K < 0 -> r = 0).
    { intros HK0. apply Z.div_small. split; [lia|].
      assert (2 ^ d <= 2 ^ (- e - 1)) by (apply Z.pow_le_mono_r; lia).
      assert (2 * 2 ^ (- e - 1) = 2 ^ (- e)).
      { replace (- e) with (1 + (- e - 1)) at 2 by lia.
        by rewrite Z.pow_add_r by lia. }
      lia. }
    destruct (Z.eqb_spec r 0) as [Hr|Hr].
    + assert (toZ zero = 0) by reflexivity.
      split; [|done]. split; [lia|]. apply Z.pow_nonneg. lia.
    + assert (HK0 : 0 <= K) by lia.
      assert (Hrle : r < 2 ^ K + 1).
      { apply Z.div_lt_upper_bound; [lia|].
        assert (2 ^ d <= 2 ^ (K - e)) by (apply Z.pow_le_mono_r; lia).
        assert (2 ^ (K - e) = 2 ^ K * 2 ^ (- e)).
        { replace (K - e) with (K + - e) by lia.
          by rewrite Z.pow_add_r by lia. }
        rewrite HP1. nia. }
      assert (2 ^ K < 2 ^ (K + 1)) by (apply Z.pow_lt_mono_r; lia).
      assert (2 ^ (K + 1) <= 2 ^ 63) by (apply Z.pow_le_mono_r; lia).
      split; [|lia].
      replace (K + 2) with (K + 1 + 1) by lia.
      apply toZ_Below; [|apply Z2F_Below|]; try lia.
      apply Z2F_Nonneg; lia.
Qed.

Lemma mul_self_Nonneg (x : float) : is_nan x = false -> Nonneg (x * x).
Proof.
  rewrite is_nan_false. unfold Nonneg. rewrite mul_spec.
  unfold SF64mul, SFmul.
  destruct (Prim2SF x) as [s|s| |s m e]; try done; try (by destruct s).
  intros _.
  pose proof (binary_round_aux_sign prec emax (xorb s s)
                (Zpos (m * m)) (e + e) loc_Exact ltac:(lia)) as H.
  destruct (binary_round_aux _ _ _ _ _ _) as [s'|s'| |s' m' e'];
    try done; subst s'; by destruct s.
Qed.

Lemma sub_Below_not_nan (K : Z) (x y : float) :
  Below K x -> is_nan y = false -> is_nan (x - y) = false.
Proof.
  unfold Below. rewrite !is_nan_false, sub_spec. unfold SF64sub, SFsub.
  destruct (Prim2SF x) as [s1|s1| |s1 m1 e1]; try done;
    destruct (Prim2SF y) as [s2|s2| |s2 m2 e2]; try done;
    try (by destruct s1, s2).
  intros _ _. cbv zeta.
  match goal with |- binary_normalize _ _ ?m ?e _ <> _ =>
    pose proof (binary_normalize_shape m e) as H;
    destruct (Z.eq_dec m 0) as [->|Hm]; [done|specialize (H Hm)] end.
  cbv zeta in H. intros E. by rewrite E in H.
Qed.

(** The band scanned for seeds is never thicker than the image. *)
Lemma borderThickness_bounds (width height : Z) :
  1 <= width -> 1 <= height -> Z.min width height < 2 ^ 53 ->
  1 <= borderThickness width height <= Z.min width height.
Proof.
  intros Hw Hh Hm. unfold borderThickness.
  set (m := Z.min width height) in *.
  assert (Hm1 : 1 <= m) by lia.
  destruct (Zdigits2_bounds m ltac:(lia)) as [Dl Dh].
  set (d := Zdigits2 m) in *.
  assert (Hd : 1 <= d <= 53).
  { split.
    - unfold d. pose proof (Zdigits2_pos m ltac:(lia)). lia.
    - apply Zdigits2_le; lia. }
  assert (B1 : Below (d + 1) (Z2F m)) by (apply Z2F_Below; lia).
  assert (B2 : Below (-6) 0.01%float) by reflexivity.
  assert (2 ^ 53 < 2 ^ 63) by done.
  assert (N : Nonneg (Z2F m * 0.01)).
  { apply mul_Nonneg; [apply Z2F_Nonneg; lia|reflexivity| |];
      [right|left]; reflexivity. }
  pose proof (mul_Below _ _ _ _ B1 B2 ltac:(lia) ltac:(lia)) as B.
  destruct (Math_round_Below _ _ N B ltac:(lia)) as [[R0 R1] Rz].
  split; [lia|].
  destruct (Z.ltb_spec (d + 1 + -6 + 1) 0) as [Hs|Hs].
  - rewrite Rz by lia. lia.
  - assert (2 ^ (d + 1 + -6 + 1 + 2) <= 2 ^ (d - 1))
      by (apply Z.pow_le_mono_r; lia).
    lia.
Qed.

(** *** Large and small numbers *)

Lemma add_Above (K : Z) (x y : float) :
  Above K x -> Nonneg y -> -1074 < K -> Above K (x + y).
Proof.
  unfold Above, Nonneg. rewrite add_spec. unfold SF64add, SFadd.
  destruct (Prim2SF x) as [s1|s1| |s1 m1 e1] eqn:Ex; try done;
    destruct (Prim2SF y) as [s2|s2| |s2 m2 e2] eqn:Ey; try done;
    try (by destruct s1, s2).
  destruct s1; [done|]. cbn [sfAbove sfNonneg].
  intros HK%Z.leb_le ->%negb_true_iff HK0. cbv zeta. cbn [cond_Zopp].
  set (ez := Z.min e1 e2).
  pose proof (aligned_digits m1 e1 ez ltac:(lia)) as Hd.
  set (a := fst (shl_align m1 e1 ez)) in *.
  set (b := fst (shl_align m2 e2 ez)) in *.
  change (Zpos a + Zpos b) with (Zpos (a + b)). cbn [binary_normalize].
  pose proof (binary_round_shape prec emax ltac:(done) ltac:(done)
                false (a + b) ez) as H. cbv zeta in H.
  assert (Hm : Zdigits2 (Zpos a) <= Zdigits2 (Zpos (a + b)))
    by (apply Zdigits2_mono; lia).
  cbn [Zdigits2] in Hm, Hd.
  destruct (binary_round prec emax false (a + b) ez) as [s|s| |s m e];
    try done.
  - destruct H as [_ H]. unfold SpecFloat.emin in H.
    change prec with 53 in H. change emax with 1024 in H. lia.
  - by destruct H as [-> _].
  - destruct H as (-> & _ & _ & H). cbn [sfAbove]. apply Z.leb_le.
    unfold SpecFloat.emin in H.
    change prec with 53 in H. change emax with 1024 in H. lia.
Qed.

Lemma Above_fval (K : Z) (x : float) :
  Above K x -> -1073 <= K <= 1900 -> 2 ^ (K + 1073) <= fval x.
Proof.
  unfold Above, fval. intros H HK.
  destruct (Prim2SF x) as [s|s| |s m e] eqn:E; try done;
    destruct s; try done; cbn [sfVal cond_Zopp].
  - apply Z.pow_le_mono_r; lia.
  - cbn [sfAbove] in H. apply Z.leb_le in H.
    destruct (valid_finite x _ _ _ E) as (He & Hd & _).
    pose proof (digits2_pos_bounds m) as [Hm _].
    set (d := Zpos (digits2_pos m)) in *.
    assert (1 <= d) by (unfold d; lia).
    assert (0 < 2 ^ (e + 1074)) by (apply Z.pow_pos_nonneg; lia).
    assert (2 ^ (K + 1073) <= 2 ^ (d - 1) * 2 ^ (e + 1074)).
    { rewrite <- Z.pow_add_r by lia. apply Z.pow_le_mono_r; lia. }
    assert (2 ^ (d - 1) * 2 ^ (e + 1074) <= Zpos m * 2 ^ (e + 1074))
      by (apply Z.mul_le_mono_nonneg_r; lia).
    lia.
Qed.

Lemma Below_fval (K : Z) (x : float) :
  Below K x -> -1074 <= K -> fval x < 2 ^ (K + 1074).
Proof.
  unfold Below, fval. intros H HK.
  assert (0 < 2 ^ (K + 1074)) by (apply Z.pow_pos_nonneg; lia).
  destruct (Prim2SF x) as [s|s| |s m e] eqn:E; try done; cbn [sfVal].
  cbn [sfBelow] in H. apply Z.leb_le in H.
  destruct (valid_finite x _ _ _ E) as (He & Hd & _).
  pose proof (digits2_pos_bounds m) as [_ Hm].
  set (d := Zpos (digits2_pos m)) in *.
  assert (1 <= d) by (unfold d; lia).
  assert (0 < 2 ^ (e + 1074)) by (apply Z.pow_pos_nonneg; lia).
  assert (Zpos m * 2 ^ (e + 1074) < 2 ^ d * 2 ^ (e + 1074))
    by (apply Z.mul_lt_mono_pos_r; lia).
  assert (2 ^ d * 2 ^ (e + 1074) <= 2 ^ (K + 1074)).
  { rewrite <- Z.pow_add_r by lia. apply Z.pow_le_mono_r; lia. }
  destruct s; cbn [cond_Zopp]; lia.
Qed.

Lemma leb_Above_Below (K K' : Z) (x y : float) :
  Above K' x -> Below K y -> -1074 <= K -> K < K' <= 1900 ->
  PrimFloat.leb x y = false.
Proof.
  intros Hx Hy HK HK'.
  assert (Nx : is_nan x = false).
  { apply is_nan_false. unfold Above in Hx. intros E. by rewrite E in Hx. }
  rewrite leb_val by (done || by eapply Below_not_nan).
  apply Z.leb_gt.
  pose proof (Above_fval K' x Hx ltac:(lia)).
  pose proof (Below_fval K y Hy HK).
  assert (2 ^ (K + 1074) <= 2 ^ (K' + 1073))
    by (apply Z.pow_le_mono_r; lia).
  lia.
Qed.

End FloatMul.
(** ** Exact operations

    A rounding that only shifts out zero bits returns the exact value.
    This settles the whole numbers ([Z2F] is exact below [2^53]) and the
    products by [0.25] and [0.75] from which the engine derives the central
    region. *)

Section ExactShift.

Lemma shr_1_even (m : Z) :
  0 <= m ->
  shr_1 {| shr_m := 2 * m; shr_r := false; shr_s := false |}
  = {| shr_m := m; shr_r := false; shr_s := false |}.
Proof. intros Hm. destruct m as [|p|p]; try lia; reflexivity. Qed.

Lemma iter_shr_1_exact (n : positive) (m : Z) :
  0 <= m ->
  SpecFloat.iter_pos shr_1 n
    {| shr_m := m * 2 ^ Zpos n; shr_r := false; shr_s := false |}
  = {| shr_m := m; shr_r := false; shr_s := false |}.
Proof.
  revert m. induction n as [n IH|n IH|]; intros m Hm;
    cbn [SpecFloat.iter_pos].
  - assert (Hp : 0 < 2 ^ Zpos n) by (apply Z.pow_pos_nonneg; lia).
    assert (E : m * 2 ^ Zpos n~1 = 2 * (m * 2 ^ Zpos n * 2 ^ Zpos n)).
    { replace (Zpos n~1) with (1 + (Zpos n + Zpos n)) by lia.
      rewrite !Z.pow_add_r by lia. lia. }
    rewrite E, shr_1_even by nia. rewrite IH by nia. by apply IH.
  - assert (Hp : 0 < 2 ^ Zpos n) by (apply Z.pow_pos_nonneg; lia).
    assert (E : m * 2 ^ Zpos n~0 = m * 2 ^ Zpos n * 2 ^ Zpos n).
    { replace (Zpos n~0) with (Zpos n + Zpos n) by lia.
      rewrite !Z.pow_add_r by lia. lia. }
    rewrite E. rewrite IH by nia. by apply IH.
  - change (2 ^ 1) with 2. rewrite Z.mul_comm. by apply shr_1_even.
Qed.

Lemma shr_exact (m e n a : Z) :
  0 <= m -> 0 <= n -> Z.max 0 a = n ->
  shr {| shr_m := m * 2 ^ n; shr_r := false; shr_s := false |} e a
  = ({| shr_m := m; shr_r := false; shr_s := false |}, e + n).
Proof.
  intros Hm Hn Ha. destruct a as [|p|p]; simpl.
  - replace n with 0 by lia. rewrite Z.mul_1_r, Z.add_0_r. done.
  - replace n with (Zpos p) by lia. by rewrite iter_shr_1_exact.
  - replace n with 0 by lia. rewrite Z.mul_1_r, Z.add_0_r. done.
Qed.

End ExactShift.

Section ExactRounding.
Variables prec emax : Z.
Hypothesis Hprec : 0 < prec.
Hypothesis Hemax : prec < emax.

Let fexp := SpecFloat.fexp prec emax.

(** Rounding [m * 2^n * 2^e] where exactly the [n] low zero bits are
    shifted out. *)
Lemma binary_round_aux_exact (s : bool) (m n e : Z) :
  0 < m -> 0 <= n ->
  Z.max 0 (fexp (Zdigits2 m + n + e) - e) = n ->
  e + n <= emax - prec ->
  binary_round_aux prec emax s (m * 2 ^ n) e loc_Exact
  = S754_finite s (Z.to_pos m) (e + n).
Proof.
  intros Hm Hn Hshift Hrange. unfold binary_round_aux, shr_fexp.
  rewrite Zdigits2_mul_pow2 by lia. simpl shr_record_of_loc.
  fold fexp. rewrite (shr_exact m e n) by (done || lia).
  cbn [shr_m loc_of_shr_record round_nearest_even].
  replace (Zdigits2 m + (e + n)) with (Zdigits2 m + n + e) by lia.
  pose proof (shr_exact m (e + n) 0
                (fexp (Zdigits2 m + n + e) - (e + n))
                ltac:(lia) ltac:(lia) ltac:(lia)) as E.
  change (2 ^ 0) with 1 in E. rewrite Z.mul_1_r, Z.add_0_r in E.
  rewrite E. cbn [shr_m]. destruct m as [|p|p]; try lia.
  destruct (Z.leb_spec (e + n) (emax - prec)); [done|lia].
Qed.

End ExactRounding.

Section ExactNumbers.

Local Open Scope Z_scope.

(** A positive whole number below [2^53] is held exactly, with a mantissa
    of 53 bits. *)
Lemma Z2F_exact (k : Z) :
  0 < k < 2 ^ 53 ->
  Prim2SF (Z2F k)
  = S754_finite false (Z.to_pos (k * 2 ^ (53 - Zdigits2 k)))
      (Zdigits2 k - 53).
Proof.
  intros Hk. assert (2 ^ 53 < 2 ^ 63) by done.
  rewrite Z2F_spec by lia.
  pose proof (Zdigits2_pos k ltac:(lia)) as Hd.
  assert (Hd53 : Zdigits2 k <= 53) by (apply Zdigits2_le; lia).
  destruct k as [|p|p]; try lia. unfold binary_normalize, binary_round.
  pose proof (shl_align_spec p 0
                (SpecFloat.fexp prec emax (Zpos (digits2_pos p) + 0)))
    as [Hm He].
  destruct (shl_align p 0 _) as [mz ez]. simpl in Hm, He.
  change (Zpos (digits2_pos p)) with (Zdigits2 (Zpos p)) in *.
  set (d := Zdigits2 (Zpos p)) in *.
  assert (Ef : SpecFloat.fexp prec emax (d + 0) = d - 53).
  { unfold SpecFloat.fexp, SpecFloat.emin. change prec with 53.
    change emax with 1024. lia. }
  rewrite Ef in Hm, He.
  assert (Eez : ez = d - 53) by lia. subst ez.
  replace (0 - Z.min 0 (d - 53)) with (53 - d) in Hm by lia.
  rewrite Hm. rewrite <- (Z.mul_1_r (Zpos p * 2 ^ (53 - d))).
  change 1 with (2 ^ 0) at 1.
  rewrite (binary_round_aux_exact prec emax).
  2: { assert (0 < 2 ^ (53 - d)) by (apply Z.pow_pos_nonneg; lia). lia. }
  2: lia.
  - rewrite Z.mul_1_r, Z.add_0_r, Eez. done.
  - rewrite Eez, Zdigits2_mul_pow2 by lia. fold d.
    unfold SpecFloat.fexp, SpecFloat.emin. change prec with 53.
    change emax with 1024. lia.
  - rewrite Eez. change prec with 53. change emax with 1024. lia.
Qed.

(** The integer held by a whole number is that number. *)
Lemma toZ_Z2F (k : Z) : 0 <= k < 2 ^ 53 -> toZ (Z2F k) = k.
Proof.
  intros Hk. destruct (Z.eq_dec k 0) as [->|Hne]; [done|].
  unfold toZ. rewrite Z2F_exact by lia.
  pose proof (Zdigits2_pos k ltac:(lia)) as Hd.
  assert (Hd53 : Zdigits2 k <= 53) by (apply Zdigits2_le; lia).
  set (d := Zdigits2 k) in *.
  assert (Hp : 0 < 2 ^ (53 - d)) by (apply Z.pow_pos_nonneg; lia).
  cbn [cond_Zopp]. rewrite Z2Pos.id by lia.
  destruct (Z.leb_spec 0 (d - 53)).
  - replace (53 - d) with 0 by lia. replace (d - 53) with 0 by lia.
    simpl. lia.
  - replace (- (d - 53)) with (53 - d) by lia.
    apply Z.quot_mul. lia.
Qed.

(** The product of two numbers whose mantissas multiply to [m * 2^n],
    when exactly the [n] low zero bits are shifted out. *)
Lemma mul_exact (x y : float) (s1 s2 : bool) (m1 m2 : positive)
  (e1 e2 m n : Z) :
  Prim2SF x = S754_finite s1 m1 e1 ->
  Prim2SF y = S754_finite s2 m2 e2 ->
  Zpos m1 * Zpos m2 = m * 2 ^ n -> 0 < m -> 0 <= n ->
  Z.max 0 (SpecFloat.fexp prec emax (Zdigits2 m + n + (e1 + e2)) - (e1 + e2))
  = n ->
  e1 + e2 + n <= emax - prec ->
  Prim2SF (x * y)
  = S754_finite (xorb s1 s2) (Z.to_pos m) (e1 + e2 + n).
Proof.
  intros Ex Ey Em Hm Hn Hshift Hrange.
  rewrite mul_spec. unfold SF64mul, SFmul. rewrite Ex, Ey.
  change (Zpos (m1 * m2)) with (Zpos m1 * Zpos m2). rewrite Em.
  by apply binary_round_aux_exact.
Qed.

(** [floor(width / 4)], as the engine computes it. *)
Lemma floor_quarter (w : Z) :
  0 < w < 2 ^ 53 -> toZ (Math_floor (Z2F w * 0.25)) = w / 4.
Proof.
  intros Hw.
  pose proof (Zdigits2_pos w ltac:(lia)) as Hd.
  assert (Hd53 : Zdigits2 w <= 53) by (apply Zdigits2_le; lia).
  set (d := Zdigits2 w) in *.
  assert (Hp : 0 < 2 ^ (53 - d)) by (apply Z.pow_pos_nonneg; lia).
  assert (E : Prim2SF (Z2F w * 0.25)
              = S754_finite false (Z.to_pos (w * 2 ^ (53 - d))) (d - 55)).
  { rewrite (mul_exact (Z2F w) 0.25 false false
               (Z.to_pos (w * 2 ^ (53 - d))) (2 ^ 52)%positive
               (d - 53) (-54) (w * 2 ^ (53 - d)) 52).
    - f_equal. lia.
    - by apply Z2F_exact.
    - reflexivity.
    - rewrite Z2Pos.id by lia. done.
    - lia.
    - lia.
    - rewrite Zdigits2_mul_pow2 by lia. fold d.
      unfold SpecFloat.fexp, SpecFloat.emin. change prec with 53.
      change emax with 1024. lia.
    - change prec with 53. change emax with 1024. lia. }
  assert (Er : Zpos (Z.to_pos (w * 2 ^ (53 - d))) / 2 ^ (- (d - 55)) = w / 4).
  { rewrite Z2Pos.id by lia.
    replace (- (d - 55)) with (2 + (53 - d)) by lia.
    rewrite Z.pow_add_r by lia. change (2 ^ 2) with 4.
    apply Z.div_mul_cancel_r; lia. }
  assert (Hq : 0 <= w / 4 < 2 ^ 53).
  { split; [apply Z.div_pos; lia|].
    apply Z.div_lt_upper_bound; lia. }
  unfold Math_floor. rewrite E. cbn [cond_Zopp].
  destruct (Z.leb_spec 0 (d - 55)); [lia|]. cbv zeta. rewrite Er.
  destruct (Z.eqb_spec (w / 4) 0) as [->|Hne]; [done|].
  by apply toZ_Z2F.
Qed.

(** [ceil(3 * width / 4)], as the engine computes it. *)
Lemma ceil_three_quarters (w : Z) :
  0 < w < 2 ^ 51 -> toZ (Math_ceil (Z2F w * 0.75)) = (3 * w + 3) / 4.
Proof.
  intros Hw.
  assert (H51 : 2 ^ 51 * 4 = 2 ^ 53) by done.
  pose proof (Zdigits2_pos w ltac:(lia)) as Hd.
  assert (Hd53 : Zdigits2 w <= 53) by (apply Zdigits2_le; lia).
  set (d := Zdigits2 w) in *.
  pose proof (Zdigits2_pos (3 * w) ltac:(lia)) as HD.
  assert (HD53 : Zdigits2 (3 * w) <= 53) by (apply Zdigits2_le; lia).
  assert (HdD : d <= Zdigits2 (3 * w))
    by (apply Zdigits2_mono; lia).
  set (D := Zdigits2 (3 * w)) in *.
  assert (Hp : 0 < 2 ^ (53 - d)) by (apply Z.pow_pos_nonneg; lia).
  assert (HP : 0 < 2 ^ (53 - D)) by (apply Z.pow_pos_nonneg; lia).
  assert (E : Prim2SF (Z2F w * 0.75)
              = S754_finite false (Z.to_pos (3 * w * 2 ^ (53 - D))) (D - 55)).
  { rewrite (mul_exact (Z2F w) 0.75 false false
               (Z.to_pos (w * 2 ^ (53 - d))) (3 * 2 ^ 51)%positive
               (d - 53) (-53) (3 * w * 2 ^ (53 - D)) (D - d + 51)).
    - f_equal. lia.
    - apply Z2F_exact. lia.
    - reflexivity.
    - rewrite Z2Pos.id by lia.
      change (Zpos (3 * 2 ^ 51)) with (3 * 2 ^ 51).
      replace (3 * w * 2 ^ (53 - D) * 2 ^ (D - d + 51))
        with (3 * w * (2 ^ (53 - D) * 2 ^ (D - d + 51))) by lia.
      rewrite <- Z.pow_add_r by lia.
      replace (53 - D + (D - d + 51)) with (53 - d + 51) by lia.
      rewrite Z.pow_add_r by lia. lia.
    - lia.
    - lia.
    - rewrite Zdigits2_mul_pow2 by lia. fold D.
      unfold SpecFloat.fexp, SpecFloat.emin. change prec with 53.
      change emax with 1024. lia.
    - change prec with 53. change emax with 1024. lia. }
  assert (Er : - (- Zpos (Z.to_pos (3 * w * 2 ^ (53 - D))) / 2 ^ (- (D - 55)))
               = (3 * w + 3) / 4).
  { rewrite Z2Pos.id by lia.
    replace (- (D - 55)) with (2 + (53 - D)) by lia.
    rewrite Z.pow_add_r by lia. change (2 ^ 2) with 4.
    replace (- (3 * w * 2 ^ (53 - D))) with (- (3 * w) * 2 ^ (53 - D)) by lia.
    rewrite Z.div_mul_cancel_r by lia.
    Z.div_mod_to_equations. lia. }
  assert (Hq : 0 < (3 * w + 3) / 4 < 2 ^ 53).
  { Z.div_mod_to_equations. lia. }
  unfold Math_ceil. rewrite E. cbn [cond_Zopp].
  destruct (Z.leb_spec 0 (D - 55)); [lia|]. cbv zeta. rewrite Er.
  destruct (Z.eqb_spec ((3 * w + 3) / 4) 0) as [E0|Hne]; [lia|].
  apply toZ_Z2F. lia.
Qed.

End ExactNumbers.
Section ExactSums.

Local Open Scope Z_scope.

(** Rounding a whole number [k] given as [p * 2^e]. *)
Lemma binary_round_whole (p : positive) (e k : Z) :
  e <= 0 -> Zpos p = k * 2 ^ (- e) -> 0 < k < 2 ^ 53 -> -1074 <= e ->
  binary_round prec emax false p e
  = S754_finite false (Z.to_pos (k * 2 ^ (53 - Zdigits2 k)))
      (Zdigits2 k - 53).
Proof.
  intros He Hp Hk Hmin. unfold binary_round.
  pose proof (Zdigits2_pos k ltac:(lia)) as Hd.
  assert (Hd53 : Zdigits2 k <= 53) by (apply Zdigits2_le; lia).
  change (Zpos (digits2_pos p)) with (Zdigits2 (Zpos p)).
  rewrite Hp, Zdigits2_mul_pow2 by lia.
  set (d := Zdigits2 k) in *.
  assert (Ef : SpecFloat.fexp prec emax (d + - e + e) = d - 53).
  { unfold SpecFloat.fexp, SpecFloat.emin. change prec with 53.
    change emax with 1024. lia. }
  rewrite Ef.
  pose proof (shl_align_spec p e (d - 53)) as [Hm Hz].
  destruct (shl_align p e (d - 53)) as [mz ez]. simpl in Hm, Hz.
  subst ez. set (ez := Z.min e (d - 53)) in *.
  assert (Hmz : Zpos mz = k * 2 ^ (53 - d) * 2 ^ (d - 53 - ez)).
  { rewrite Hm, Hp, <- !Z.mul_assoc, <- !Z.pow_add_r by lia.
    do 2 f_equal. lia. }
  rewrite Hmz.
  assert (0 < 2 ^ (53 - d)) by (apply Z.pow_pos_nonneg; lia).
  rewrite (binary_round_aux_exact prec emax).
  - do 2 f_equal. lia.
  - lia.
  - lia.
  - rewrite Zdigits2_mul_pow2 by lia. fold d.
    unfold SpecFloat.fexp, SpecFloat.emin. change prec with 53.
    change emax with 1024. lia.
  - change prec with 53. change emax with 1024. lia.
Qed.

(** The sum of two positive whole numbers is exact below [2^53]. *)
Lemma Z2F_add (a b : Z) :
  0 < a -> 0 < b -> a + b < 2 ^ 53 -> (Z2F a + Z2F b)%float = Z2F (a + b).
Proof.
  intros Ha Hb Hab. apply Prim2SF_inj.
  rewrite add_spec, (Z2F_exact (a + b)), (Z2F_exact a), (Z2F_exact b) by lia.
  pose proof (Zdigits2_pos a ltac:(lia)) as Hda.
  pose proof (Zdigits2_pos b ltac:(lia)) as Hdb.
  assert (Hda53 : Zdigits2 a <= 53) by (apply Zdigits2_le; lia).
  assert (Hdb53 : Zdigits2 b <= 53) by (apply Zdigits2_le; lia).
  set (da := Zdigits2 a) in *. set (db := Zdigits2 b) in *.
  assert (0 < 2 ^ (53 - da)) by (apply Z.pow_pos_nonneg; lia).
  assert (0 < 2 ^ (53 - db)) by (apply Z.pow_pos_nonneg; lia).
  unfold SF64add, SFadd. cbv zeta. cbn [cond_Zopp].
  set (ez := Z.min (da - 53) (db - 53)).
  pose proof (shl_align_spec (Z.to_pos (a * 2 ^ (53 - da))) (da - 53) ez)
    as [Hma _].
  pose proof (shl_align_spec (Z.to_pos (b * 2 ^ (53 - db))) (db - 53) ez)
    as [Hmb _].
  rewrite Z2Pos.id in Hma, Hmb by lia.
  replace (Z.min (da - 53) ez) with ez in Hma by lia.
  replace (Z.min (db - 53) ez) with ez in Hmb by lia.
  rewrite <- Z.mul_assoc, <- Z.pow_add_r in Hma, Hmb by lia.
  replace (53 - da + (da - 53 - ez)) with (- ez) in Hma by lia.
  replace (53 - db + (db - 53 - ez)) with (- ez) in Hmb by lia.
  rewrite Hma, Hmb.
  assert (0 < 2 ^ (- ez)) by (apply Z.pow_pos_nonneg; lia).
  assert (Hs : a * 2 ^ (- ez) + b * 2 ^ (- ez) = (a + b) * 2 ^ (- ez)) by lia.
  rewrite Hs. unfold binary_normalize.
  destruct ((a + b) * 2 ^ (- ez)) as [|p|p] eqn:Ep; try lia.
  apply binary_round_whole; lia.
Qed.

Lemma Z2F_add_one (k : Z) :
  0 <= k -> k + 1 < 2 ^ 53 -> (Z2F k + 1)%float = Z2F (k + 1).
Proof.
  intros Hk Hlt. destruct (Z.eq_dec k 0) as [->|Hne]; [reflexivity|].
  change 1%float with (Z2F 1). apply Z2F_add; lia.
Qed.

Lemma fval_Z2F (k : Z) : 0 <= k < 2 ^ 53 -> fval (Z2F k) = k * 2 ^ 1074.
Proof.
  intros Hk. destruct (Z.eq_dec k 0) as [->|Hne]; [done|].
  unfold fval. rewrite Z2F_exact by lia. cbn [sfVal cond_Zopp].
  pose proof (Zdigits2_pos k ltac:(lia)) as Hd.
  assert (Hd53 : Zdigits2 k <= 53) by (apply Zdigits2_le; lia).
  assert (0 < 2 ^ (53 - Zdigits2 k)) by (apply Z.pow_pos_nonneg; lia).
  rewrite Z2Pos.id by lia.
  rewrite <- Z.mul_assoc, <- Z.pow_add_r by lia. do 2 f_equal. lia.
Qed.

Lemma Z2F_not_nan (k : Z) : 0 <= k < 2 ^ 53 -> is_nan (Z2F k) = false.
Proof.
  intros Hk. apply Nonneg_not_nan, Z2F_Nonneg.
  assert (2 ^ 53 < 2 ^ 63) by done. lia.
Qed.

(** A whole number is a loop radius. *)
Lemma wholeNumber_Z2F (k : Z) : 0 <= k < 2 ^ 53 -> wholeNumber (Z2F k) = Some k.
Proof.
  intros Hk. destruct (Z.eq_dec k 0) as [->|Hne]; [done|].
  unfold wholeNumber. rewrite Z2F_exact by lia.
  pose proof (Zdigits2_pos k ltac:(lia)) as Hd.
  assert (Hd53 : Zdigits2 k <= 53) by (apply Zdigits2_le; lia).
  set (d := Zdigits2 k) in *.
  assert (Hp : 0 < 2 ^ (53 - d)) by (apply Z.pow_pos_nonneg; lia).
  rewrite Z2Pos.id by lia. cbn [cond_Zopp].
  destruct (Z.leb_spec 0 (d - 53)).
  - replace (53 - d) with 0 by lia. replace (d - 53) with 0 by lia.
    f_equal. simpl. lia.
  - replace (- (d - 53)) with (53 - d) by lia.
    rewrite Z.mod_mul by lia. simpl. f_equal. apply Z.div_mul. lia.
Qed.

Lemma Math_max_one (k : Z) :
  1 <= k < 2 ^ 53 -> Math_max 1 (Z2F k) = Z2F k.
Proof.
  intros Hk. unfold Math_max.
  rewrite (Z2F_not_nan k) by lia. change (is_nan 1) with false. simpl.
  rewrite !ltb_val by (done || apply Z2F_not_nan; lia).
  change 1%float with (Z2F 1). rewrite !fval_Z2F by lia.
  assert (0 < 2 ^ 1074) by done.
  destruct (Z.ltb_spec (1 * 2 ^ 1074) (k * 2 ^ 1074)); [done|].
  assert (k = 1) by nia. subst k.
  destruct (Z.ltb_spec (1 * 2 ^ 1074) (1 * 2 ^ 1074)); [lia|]. reflexivity.
Qed.

End ExactSums.

Section FloatCommute.

Lemma SFmul_comm (x y : spec_float) :
  SFmul prec emax x y = SFmul prec emax y x.
Proof.
  destruct x as [s1|s1| |s1 m1 e1], y as [s2|s2| |s2 m2 e2]; simpl;
    try reflexivity; try (by rewrite xorb_comm).
  by rewrite xorb_comm, Pos.mul_comm, Z.add_comm.
Qed.

Lemma mul_comm (x y : float) : (x * y)%float = (y * x)%float.
Proof.
  apply Prim2SF_inj. rewrite !mul_spec. apply SFmul_comm.
Qed.

End FloatCommute.

Section Magnitudes.

Local Open Scope Z_scope.

(** The order of magnitude of a whole number. *)
Lemma Z2F_Above (k K : Z) :
  0 <= K -> 2 ^ K <= k < 2 ^ 53 -> Above (K + 1) (Z2F k).
Proof.
  intros HK Hk.
  assert (0 < k) by (pose proof (Z.pow_pos_nonneg 2 K); lia).
  unfold Above. rewrite Z2F_exact by lia. cbn [sfAbove]. apply Z.leb_le.
  pose proof (Zdigits2_pos k ltac:(lia)) as Hd.
  assert (Hd53 : Zdigits2 k <= 53) by (apply Zdigits2_le; lia).
  assert (0 < 2 ^ (53 - Zdigits2 k)) by (apply Z.pow_pos_nonneg; lia).
  pose proof (Zdigits2_mul_pow2 k (53 - Zdigits2 k) ltac:(lia) ltac:(lia))
    as Hm.
  destruct (k * 2 ^ (53 - Zdigits2 k)) as [|m|m] eqn:E; try lia.
  simpl Z.to_pos. cbn [Zdigits2] in Hm. rewrite Hm.
  pose proof (Zdigits2_ge k K HK ltac:(lia)). lia.
Qed.

Lemma Z2F_Below_exact (k K : Z) :
  0 <= K -> 0 <= k < 2 ^ K -> k < 2 ^ 53 -> Below K (Z2F k).
Proof.
  intros HK Hk H53. destruct (Z.eq_dec k 0) as [->|Hne]; [done|].
  unfold Below. rewrite Z2F_exact by lia. cbn [sfBelow]. apply Z.leb_le.
  pose proof (Zdigits2_pos k ltac:(lia)) as Hd.
  assert (Hd53 : Zdigits2 k <= 53) by (apply Zdigits2_le; lia).
  assert (0 < 2 ^ (53 - Zdigits2 k)) by (apply Z.pow_pos_nonneg; lia).
  pose proof (Zdigits2_mul_pow2 k (53 - Zdigits2 k) ltac:(lia) ltac:(lia))
    as Hm.
  destruct (k * 2 ^ (53 - Zdigits2 k)) as [|m|m] eqn:E; try lia.
  simpl Z.to_pos. cbn [Zdigits2] in Hm. rewrite Hm.
  pose proof (Zdigits2_le k K ltac:(lia) HK ltac:(lia)). lia.
Qed.

Lemma add_zero_Below (K : Z) (x : float) : Below K x -> Below K (x + 0).
Proof.
  unfold Below. rewrite add_spec. unfold SF64add, SFadd.
  change (Prim2SF 0) with (S754_zero false).
  destruct (Prim2SF x) as [s|s| |s m e]; try done. by destruct s.
Qed.

End Magnitudes.

(** ** Crop bounds *)

Section CropBounds.
Variables (mask : list float) (width height : Z).

Let hit := cropHit mask width.

Let scanStep (acc : Bounds.t) (p : Z * Z) : Bounds.t :=
  let value := numf (aget mask (p.2 * width + p.1)) in
  if belowThreshold value then acc
  else
    Bounds.mk
      (if p.2 <? Bounds.top acc then p.2 else Bounds.top acc)
      (if Bounds.bottom acc <? p.2 then p.2 else Bounds.bottom acc)
      (if p.1 <? Bounds.left acc then p.1 else Bounds.left acc)
      (if Bounds.right acc <? p.1 then p.1 else Bounds.right acc).

Let start := Bounds.mk height (-1) width (-1).

Lemma cropScan_pixels :
  cropScan mask width height = foldl scanStep start (pixels width height).
Proof.
  unfold cropScan.
  rewrite (foldl_pixels (fun acc x y => scanStep acc (x, y))).
  fold start. generalize start as acc.
  generalize (pixels width height) as ps.
  induction ps as [|[x y] ps IH]; intros acc; [done|].
  simpl. apply IH.
Qed.

(** What the scan knows after the pixels [ps]. *)
Let scanned (ps : list (Z * Z)) (b : Bounds.t) : Prop :=
  (forall x y, (x, y) ∈ ps -> hit x y ->
     Bounds.top b <= y <= Bounds.bottom b /\
     Bounds.left b <= x <= Bounds.right b) /\
  ((b = start /\ forall x y, (x, y) ∈ ps -> ~ hit x y) \/
   ((exists x, (x, Bounds.top b) ∈ ps /\ hit x (Bounds.top b)) /\
    (exists x, (x, Bounds.bottom b) ∈ ps /\ hit x (Bounds.bottom b)) /\
    (exists y, (Bounds.left b, y) ∈ ps /\ hit (Bounds.left b) y) /\
    (exists y, (Bounds.right b, y) ∈ ps /\ hit (Bounds.right b) y))).

Lemma scanned_foldl (ps : list (Z * Z)) :
  (forall x y, (x, y) ∈ ps -> 0 <= x < width /\ 0 <= y < height) ->
  scanned ps (foldl scanStep start ps).
Proof.
  induction ps as [|[x y] ps IH] using rev_ind; intros Hin.
  - split; [intros ? ? []%elem_of_nil|]. left. split; [done|].
    intros ? ? []%elem_of_nil.
  - rewrite foldl_snoc.
    destruct IH as [Hbox Hatt].
    { intros ? ? ?. apply Hin, elem_of_app. by left. }
    destruct (Hin x y) as [Hx Hy]; [apply elem_of_app; right; by left|].
    set (b := foldl scanStep start ps) in *.
    assert (Hmem : forall x' y', (x', y') ∈ ps ++ [(x, y)] <->
                     (x', y') ∈ ps \/ (x' = x /\ y' = y)).
    { intros. rewrite elem_of_app, list_elem_of_singleton.
      split; (intros [?|E]; [by left|right]); [by inversion E|].
      destruct E; by subst. }
    unfold scanStep; simpl.
    destruct (belowThreshold _) eqn:Hv.
    + assert (Hnot : ~ hit x y) by (unfold hit, cropHit, pixelIndex; congruence).
      split.
      * intros x' y' [H'|[-> ->]]%Hmem Hh; [eauto|done].
      * destruct Hatt as [[-> Hno]|(Ht & Hb & Hl & Hr)].
        -- left. split; [done|].
           intros x' y' [H'|[-> ->]]%Hmem; [eauto|done].
        -- right. repeat split.
           ++ destruct Ht as (x' & ? & ?). exists x'. rewrite Hmem. auto.
           ++ destruct Hb as (x' & ? & ?). exists x'. rewrite Hmem. auto.
           ++ destruct Hl as (y' & ? & ?). exists y'. rewrite Hmem. auto.
           ++ destruct Hr as (y' & ? & ?). exists y'. rewrite Hmem. auto.
    + assert (Hyes : hit x y) by (unfold hit, cropHit, pixelIndex; congruence).
      split.
      * simpl. intros x' y' [H'|[-> ->]]%Hmem Hh.
        -- specialize (Hbox _ _ H' Hh).
           repeat match goal with |- context [if ?a <? ?b then _ else _] =>
             destruct (Z.ltb_spec a b) end; lia.
        -- repeat match goal with |- context [if ?a <? ?b then _ else _] =>
             destruct (Z.ltb_spec a b) end; lia.
      * right. simpl.
        assert (Hcases :
          (b = start /\ forall x y, (x, y) ∈ ps -> ~ hit x y) \/
          ((exists x, (x, Bounds.top b) ∈ ps /\ hit x (Bounds.top b)) /\
           (exists x, (x, Bounds.bottom b) ∈ ps /\ hit x (Bounds.bottom b)) /\
           (exists y, (Bounds.left b, y) ∈ ps /\ hit (Bounds.left b) y) /\
           (exists y, (Bounds.right b, y) ∈ ps /\ hit (Bounds.right b) y)))
          by exact Hatt.
        destruct Hcases as [[Hb0 Hno]|(Ht & Hb & Hl & Hr)].
        -- rewrite Hb0. unfold start. simpl.
           destruct (Z.ltb_spec y height); [|lia].
           destruct (Z.ltb_spec (-1) y); [|lia].
           destruct (Z.ltb_spec x width); [|lia].
           destruct (Z.ltb_spec (-1) x); [|lia].
           repeat split; eexists; (split; [apply Hmem; right; done|done]).
        -- repeat split.
           ++ destruct (Z.ltb_spec y (Bounds.top b)).
              ** exists x. split; [apply Hmem; auto|done].
              ** destruct Ht as (x' & ? & ?). exists x'.
                 split; [apply Hmem; auto|done].
           ++ destruct (Z.ltb_spec (Bounds.bottom b) y).
              ** exists x. split; [apply Hmem; auto|done].
              ** destruct Hb as (x' & ? & ?). exists x'.
                 split; [apply Hmem; auto|done].
           ++ destruct (Z.ltb_spec x (Bounds.left b)).
              ** exists y. split; [apply Hmem; auto|done].
              ** destruct Hl as (y' & ? & ?). exists y'.
                 split; [apply Hmem; auto|done].
           ++ destruct (Z.ltb_spec (Bounds.right b) x).
              ** exists y. split; [apply Hmem; auto|done].
              ** destruct Hr as (y' & ? & ?). exists y'.
                 split; [apply Hmem; auto|done].
Qed.

Lemma computeCropBoundsFromMask_hits :
  0 <= width -> 0 <= height ->
  match computeCropBoundsFromMask mask width height with
  | None => forall x y, 0 <= x < width -> 0 <= y < height -> ~ hit x y
  | Some b => tightBox hit width height b
  end.
Proof.
  intros Hw Hh. unfold computeCropBoundsFromMask. rewrite cropScan_pixels.
  destruct (scanned_foldl (pixels width height)) as [Hbox Hatt].
  { intros x y. by rewrite elem_of_pixels. }
  set (b := foldl scanStep start (pixels width height)) in *.
  destruct Hatt as [[Hb Hno]|(Ht & Hb & Hl & Hr)].
  - rewrite Hb. unfold start. simpl.
    destruct (Z.ltb_spec (-1) height); [|lia]. simpl.
    intros x y Hx Hy. apply Hno, elem_of_pixels. lia.
  - destruct Ht as (xt & Ht1%elem_of_pixels & Ht2).
    destruct Hb as (xb & Hb1%elem_of_pixels & Hb2).
    destruct Hl as (yl & Hl1%elem_of_pixels & Hl2).
    destruct Hr as (yr & Hr1%elem_of_pixels & Hr2).
    assert (Ht3 : (xt, Bounds.top b) ∈ pixels width height)
      by (apply elem_of_pixels; lia).
    assert (Hl3 : (Bounds.left b, yl) ∈ pixels width height)
      by (apply elem_of_pixels; lia).
    pose proof (Hbox _ _ Ht3 Ht2). pose proof (Hbox _ _ Hl3 Hl2).
    destruct (Z.ltb_spec (Bounds.bottom b) (Bounds.top b)); [lia|].
    destruct (Z.ltb_spec (Bounds.right b) (Bounds.left b)); [lia|]. simpl.
    repeat split; try lia.
    + apply (Hbox x y); [apply elem_of_pixels; lia|done].
    + apply (Hbox x y); [apply elem_of_pixels; lia|done].
    + apply (Hbox x y); [apply elem_of_pixels; lia|done].
    + apply (Hbox x y); [apply elem_of_pixels; lia|done].
    + exists xt. split; [lia|]. split; [lia|done].
    + exists xb. split; [lia|]. split; [lia|done].
    + exists yl. split; [lia|]. split; [lia|done].
    + exists yr. split; [lia|]. split; [lia|done].
Qed.

End CropBounds.

Lemma belowThreshold_strict (v : float) :
  is_nan v = false ->
  belowThreshold v = false <-> PrimFloat.ltb 0.08 v = true.
Proof.
  intros Hv. unfold belowThreshold.
  rewrite (leb_false_ltb v 0.08 Hv eq_refl).
  destruct (PrimFloat.ltb 0.08 v); simpl; split; congruence.
Qed.

Lemma tightBox_ext (hit hit' : Z -> Z -> Prop) (width height : Z)
  (b : Bounds.t) :
  (forall x y, 0 <= x < width -> 0 <= y < height -> hit x y <-> hit' x y) ->
  tightBox hit width height b -> tightBox hit' width height b.
Proof.
  intros E (H1 & H2 & Hbox & Ht & Hb & Hl & Hr).
  repeat split; try done.
  1-4: apply (Hbox x y); [done..|by apply E].
  - destruct Ht as (x & ? & ? & ?). exists x. rewrite <- E; done.
  - destruct Hb as (x & ? & ? & ?). exists x. rewrite <- E; done.
  - destruct Hl as (y & ? & ? & ?). exists y. rewrite <- E; done.
  - destruct Hr as (y & ? & ? & ?). exists y. rewrite <- E; done.
Qed.

Lemma aget_rectangleMatte (width height x y : Z) :
  0 <= x < width -> 0 <= y < height ->
  aget (rectangleMatte width height) (pixelIndex width x y)
  = Some (if (10 <=? x) && (x <=? 50) && (10 <=? y) && (y <=? 40)
          then 1%float else 0%float).
Proof.
  intros Hx Hy. unfold rectangleMatte. apply aget_fill2; [done..|].
  unfold fzeros. rewrite length_replicate.
  pose proof (pixelIndex_bounds width height x y Hx Hy). lia.
Qed.

(** C3: a pixel counts exactly when its matte value is strictly greater
    than 0.08; the result is the tight bounding box of the counted pixels,
    with [top <= bottom] and [left <= right], and [null] when no pixel
    counts; on a matte that is 1 on the rectangle (10,10)-(50,40) and 0
    elsewhere it is [{top: 10, bottom: 40, left: 10, right: 50}]. *)
Theorem computeCropBoundsFromMask_spec :
  (forall v, is_nan v = false ->
     belowThreshold v = false <-> PrimFloat.ltb 0.08 v = true) /\
  (forall mask width height,
     0 <= width -> 0 <= height ->
     Z.of_nat (length mask) = width * height ->
     Forall (fun v => is_nan v = false) mask ->
     match computeCropBoundsFromMask mask width height with
     | None =>
         forall x y, 0 <= x < width -> 0 <= y < height ->
           ~ qualifies mask width x y
     | Some b => tightBox (qualifies mask width) width height b
     end) /\
  (forall mask width height,
     50 < width -> 40 < height ->
     (forall x y, 0 <= x < width -> 0 <= y < height ->
        aget mask (pixelIndex width x y)
        = Some (if (10 <=? x) && (x <=? 50) && (10 <=? y) && (y <=? 40)
                then 1%float else 0%float)) ->
     computeCropBoundsFromMask mask width height
     = Some (Bounds.mk 10 40 10 50)).
Proof.
  split; [exact belowThreshold_strict|]. split.
  - intros mask width height Hw Hh Hlen Hnan.
    assert (E : forall x y, 0 <= x < width -> 0 <= y < height ->
                  cropHit mask width x y <-> qualifies mask width x y).
    { intros x y Hx Hy. unfold cropHit, qualifies.
      apply belowThreshold_strict.
      pose proof (pixelIndex_bounds width height x y Hx Hy) as Hb.
      destruct (proj1 (aget_is_Some mask (pixelIndex width x y)))
        as [v Hv]; [lia|].
      rewrite Hv. simpl. rewrite Forall_forall in Hnan. apply Hnan.
      rewrite aget_lookup in Hv by lia.
      eapply list_elem_of_lookup_2, Hv. }
    pose proof (computeCropBoundsFromMask_hits mask width height Hw Hh) as H.
    destruct (computeCropBoundsFromMask mask width height) as [b|].
    + eapply tightBox_ext; [exact E|exact H].
    + intros x y Hx Hy Hq. apply (H x y Hx Hy). by apply E.
  - intros mask width height Hw Hh Hval.
    assert (E : forall x y, 0 <= x < width -> 0 <= y < height ->
                  cropHit mask width x y <->
                  (10 <= x <= 50 /\ 10 <= y <= 40)).
    { intros x y Hx Hy. unfold cropHit. rewrite (Hval x y Hx Hy).
      destruct (Z.leb_spec 10 x), (Z.leb_spec x 50), (Z.leb_spec 10 y),
        (Z.leb_spec y 40); simpl;
        (split; [intros Hc; try discriminate Hc|]);
        try lia; try reflexivity; intros; exfalso; lia. }
    pose proof (computeCropBoundsFromMask_hits mask width height
                  ltac:(lia) ltac:(lia)) as H.
    destruct (computeCropBoundsFromMask mask width height) as [b|].
    + destruct H as (_ & _ & Hbox & Ht & Hb & Hl & Hr).
      destruct Ht as (xt & ? & ? & Ht%E); [|lia..].
      destruct Hb as (xb & ? & ? & Hb%E); [|lia..].
      destruct Hl as (yl & ? & ? & Hl%E); [|lia..].
      destruct Hr as (yr & ? & ? & Hr%E); [|lia..].
      pose proof (Hbox 10 10 ltac:(lia) ltac:(lia)
                    (proj2 (E 10 10 ltac:(lia) ltac:(lia)) ltac:(lia))).
      pose proof (Hbox 50 40 ltac:(lia) ltac:(lia)
                    (proj2 (E 50 40 ltac:(lia) ltac:(lia)) ltac:(lia))).
      destruct b as [t bo l r]; simpl in *. f_equal. f_equal; lia.
    + exfalso. apply (H 10 10); [lia..|]. apply E; lia.
Qed.

Lemma computeCropBoundsFromMask_spec_witness :
  (belowThreshold 1 = false <-> PrimFloat.ltb 0.08 1 = true) /\
  match computeCropBoundsFromMask (rectangleMatte 2 2) 2 2 with
  | None => forall x y, 0 <= x < 2 -> 0 <= y < 2 ->
              ~ qualifies (rectangleMatte 2 2) 2 x y
  | Some b => tightBox (qualifies (rectangleMatte 2 2) 2) 2 2 b
  end /\
  computeCropBoundsFromMask (rectangleMatte 64 48) 64 48
  = Some (Bounds.mk 10 40 10 50).
Proof.
  split; [|split].
  - apply (proj1 computeCropBoundsFromMask_spec). reflexivity.
  - apply (proj1 (proj2 computeCropBoundsFromMask_spec)).
    + lia.
    + lia.
    + reflexivity.
    + vm_compute. repeat constructor.
  - apply (proj2 (proj2 computeCropBoundsFromMask_spec)).
    + lia.
    + lia.
    + intros x y Hx Hy. apply aget_rectangleMatte; lia.
Defined.

(** ** The constructor *)

(** C10: a [featherAmount] option of 0 is replaced by the default 2 (the
    [||] operator treats 0 as absent), so the blur radius is 3 and not the
    1 that a feather amount of 0 would give; every strictly positive
    feather amount is stored as given. *)
Theorem constructor_featherAmount :
  (forall o, opt_featherAmount o = Some 0%float ->
     featherAmount (constructor o) = 2%float /\
     blurRadius (constructor o) = 3%float /\
     Math_max 1 (0 + 1)%float = 1%float) /\
  (forall o x, opt_featherAmount o = Some x -> PrimFloat.ltb 0 x = true ->
     featherAmount (constructor o) = x).
Proof.
  split.
  - intros o Ho. unfold blurRadius, constructor; simpl. rewrite Ho.
    repeat split; reflexivity.
  - intros o x Ho Hx. unfold constructor; simpl. rewrite Ho. simpl.
    rewrite (ltb_0_truthy x Hx). reflexivity.
Qed.

Lemma constructor_featherAmount_witness :
  (featherAmount (constructor (Build_Options None (Some 0%float) None None))
   = 2%float /\
   blurRadius (constructor (Build_Options None (Some 0%float) None None))
   = 3%float /\
   Math_max 1 (0 + 1)%float = 1%float) /\
  featherAmount (constructor (Build_Options None (Some 5%float) None None))
  = 5%float.
Proof.
  split.
  - apply (proj1 constructor_featherAmount). reflexivity.
  - apply (proj2 constructor_featherAmount); reflexivity.
Defined.

(** ** The background model on a buffer thinner than the border band *)

(** C1 (the code departs from it): on a 1x1 opaque white image the border
    band of thickness 6 reads rows outside the buffer; the samples read
    there are [undefined], their alpha passes the [a < 16] test, and the
    tolerances come out as [NaN], for which
    [expansionTolerance >= tolerance] is false. *)
Theorem estimateBackgroundModel_1x1 :
  let model := estimateBackgroundModel [255; 255; 255; 255] 1 1 in
  length (snd (borderSamples [255; 255; 255; 255] 1 1)) = 12%nat /\
  is_nan (Model.tolerance model) = true /\
  is_nan (Model.expansionTolerance model) = true /\
  PrimFloat.leb (Model.tolerance model) (Model.expansionTolerance model)
  = false.
Proof. vm_compute. repeat split. Qed.

(** ** The flood-fill loop *)

Section Grid.
Variables width height : Z.
Hypothesis Hw : 0 < width.
Hypothesis Hh : 0 < height.

Lemma index_coords (i : Z) :
  0 <= i < width * height ->
  i = pixelIndex width (Z.rem i width) (i / width) /\
  0 <= Z.rem i width < width /\ 0 <= i / width < height.
Proof.
  intros Hi. destruct (pixelIndex_decompose width i) as (E & Hx & Hy);
    [lia..|].
  repeat split; try lia.
  apply Z.div_lt_upper_bound; lia.
Qed.

Lemma neighbours_bounds (i n : Z) :
  0 <= i < width * height -> n ∈ neighbours width height i ->
  0 <= n < width * height.
Proof.
  intros Hi. destruct (index_coords i Hi) as (E & Hx & Hy).
  unfold neighbours. unfold pixelIndex in E.
  set (x := Z.rem i width) in *. set (y := i / width) in *.
  assert (0 <= y * width) by (apply Z.mul_nonneg_nonneg; lia).
  assert (0 <= (height - 1 - y) * width)
    by (apply Z.mul_nonneg_nonneg; lia).
  rewrite !elem_of_app.
  destruct (Z.ltb_spec 0 x), (Z.ltb_spec x (width - 1)),
    (Z.ltb_spec 0 y), (Z.ltb_spec y (height - 1));
    rewrite ?list_elem_of_singleton, ?elem_of_nil; intros Hn;
    repeat match goal with H : _ \/ _ |- _ => destruct H end;
    try done; subst n;
    try assert (0 <= (y - 1) * width) by (apply Z.mul_nonneg_nonneg; lia);
    try assert (0 <= (height - 2 - y) * width)
      by (apply Z.mul_nonneg_nonneg; lia);
    lia.
Qed.

Lemma neighbours_adjacent4 (i n : Z) :
  0 <= i < width * height ->
  n ∈ neighbours width height i <-> adjacent4 width height i n.
Proof.
  intros Hi. destruct (index_coords i Hi) as (E & Hx & Hy).
  unfold neighbours.
  set (x := Z.rem i width) in *. set (y := i / width) in *.
  rewrite !elem_of_app. split.
  - intros Hn.
    assert (Hc : (0 < x /\ n = pixelIndex width (x - 1) y)
                 \/ (x < width - 1 /\ n = pixelIndex width (x + 1) y)
                 \/ (0 < y /\ n = pixelIndex width x (y - 1))
                 \/ (y < height - 1 /\ n = pixelIndex width x (y + 1))).
    { unfold pixelIndex in *.
      destruct (Z.ltb_spec 0 x), (Z.ltb_spec x (width - 1)),
        (Z.ltb_spec 0 y), (Z.ltb_spec y (height - 1));
        rewrite ?list_elem_of_singleton, ?elem_of_nil in Hn;
        repeat match goal with H : _ \/ _ |- _ => destruct H end;
        try done; subst n; lia. }
    destruct Hc as [[? ->]|[[? ->]|[[? ->]|[? ->]]]].
    + exists x, y, (x - 1), y. repeat split; try lia; done.
    + exists x, y, (x + 1), y. repeat split; try lia; done.
    + exists x, y, x, (y - 1). repeat split; try lia; done.
    + exists x, y, x, (y + 1). repeat split; try lia; done.
  - intros (x0 & y0 & x' & y' & Hx0 & Hy0 & Hx' & Hy' & Ei & En & Hd).
    rewrite E in Ei. clearbody x y.
    apply pixelIndex_inj in Ei as [Ex Ey]; [|lia..]. subst x0 y0 n.
    unfold pixelIndex in *.
    assert (Hc : (x' = x - 1 /\ y' = y) \/ (x' = x + 1 /\ y' = y)
                 \/ (x' = x /\ y' = y - 1) \/ (x' = x /\ y' = y + 1))
      by lia.
    destruct (Z.ltb_spec 0 x), (Z.ltb_spec x (width - 1)),
      (Z.ltb_spec 0 y), (Z.ltb_spec y (height - 1));
      rewrite ?list_elem_of_singleton, ?elem_of_nil;
      destruct Hc as [[-> ->]|[[-> ->]|[[-> ->]|[-> ->]]]];
      try lia; auto 6 with lia.
Qed.

Lemma adjacent4_sym (i j : Z) :
  adjacent4 width height i j -> adjacent4 width height j i.
Proof.
  intros (x & y & x' & y' & ? & ? & ? & ? & ? & ? & ?).
  exists x', y', x, y. repeat split; try lia; done.
Qed.

Lemma adjacent4_bounds (i j : Z) :
  adjacent4 width height i j ->
  0 <= i < width * height /\ 0 <= j < width * height.
Proof.
  intros (x & y & x' & y' & ? & ? & ? & ? & -> & -> & ?).
  split; apply pixelIndex_bounds; lia.
Qed.

End Grid.

Lemma NoDup_bounded_length (l : list Z) (n : Z) :
  0 <= n -> NoDup l -> (forall i, i ∈ l -> 0 <= i < n) ->
  Z.of_nat (length l) <= n.
Proof.
  intros Hn Hnd Hb.
  assert (H : l ⊆+ seqZ 0 n).
  { apply NoDup_submseteq; [done|]. intros i Hi. apply elem_of_seqZ.
    specialize (Hb i Hi). lia. }
  apply submseteq_length in H. rewrite length_seqZ in H. lia.
Qed.

Section BfsLoop.
Context {A : Type}.
Variables (rejected : list Z -> Z -> Z -> bool) (mark : Z)
  (visit : A -> Z -> A).
Variables (width height : Z).
Variable blocked : Z -> Z -> bool.
Variable m0 : list Z.
Variable R : Z -> Prop.
Hypothesis Hw : 0 < width.
Hypothesis Hh : 0 < height.
Hypothesis mark_nonzero : mark <> 0.
Hypothesis rejected_spec : forall marks n p v,
  aget marks n = Some v -> rejected marks n p = negb (v =? 0) || blocked n p.
Hypothesis R_step : forall p n,
  R p -> 0 <= p < width * height -> n ∈ neighbours width height p ->
  blocked n p = false -> aget m0 n = Some 0 -> R n.

Abbreviation inv := (BfsSpec.inv (A:=A) width height mark m0 R).
Abbreviation closed := (BfsSpec.closed (A:=A) width height blocked).
Abbreviation queued := (BfsSpec.queued (A:=A)).
Abbreviation processed := (BfsSpec.processed (A:=A)).
Abbreviation marked := BfsSpec.marked.
Abbreviation tryPush := (Bfs.tryPush (A:=A) rejected mark).
Abbreviation enqueue := (Bfs.enqueue (A:=A) mark).
Abbreviation step := (Bfs.step rejected mark visit width height).
Abbreviation run := (Bfs.run rejected mark visit width height).

Implicit Type st : Bfs.state A.

Lemma length_queued st :
  0 <= Bfs.tail st <= Z.of_nat (length (Bfs.queue st)) ->
  Z.of_nat (length (queued st)) = Bfs.tail st.
Proof.
  intros H. unfold BfsSpec.queued. rewrite length_take. lia.
Qed.

Lemma queued_enqueue st n :
  0 <= Bfs.tail st < Z.of_nat (length (Bfs.queue st)) ->
  queued (enqueue st n) = queued st ++ [n].
Proof.
  intros H. unfold BfsSpec.queued, Bfs.enqueue, aset. simpl.
  destruct (Z.ltb_spec (Bfs.tail st) 0); [lia|].
  replace (Z.to_nat (Bfs.tail st + 1)) with (S (Z.to_nat (Bfs.tail st)))
    by lia.
  rewrite (take_S_r _ _ n) by (apply list_lookup_insert_eq; lia).
  by rewrite take_insert_ge.
Qed.

Lemma processed_queued st :
  0 <= Bfs.head st <= Bfs.tail st ->
  processed st = take (Z.to_nat (Bfs.head st)) (queued st).
Proof.
  intros H. unfold BfsSpec.processed, BfsSpec.queued.
  rewrite take_take. f_equal. lia.
Qed.

Lemma inv_not_queued st n :
  inv st -> aget (Bfs.marks st) n = Some 0 -> n ∉ queued st.
Proof.
  intros Hinv Hn Hq.
  destruct (BfsSpec.inv_queued _ _ _ _ _ _ Hinv n Hq) as (_ & Hm & _).
  congruence.
Qed.

Lemma enqueue_inv st n :
  inv st -> 0 <= n < width * height ->
  aget (Bfs.marks st) n = Some 0 -> R n ->
  inv (enqueue st n).
Proof.
  intros Hinv Hn Hm HR. pose proof (inv_not_queued st n Hinv Hm) as Hnq.
  destruct Hinv as [Hml Hql Hhd Htl Hnd Hq Ho].
  assert (Hlen : Z.of_nat (length (queued st)) = Bfs.tail st)
    by (apply length_queued; lia).
  assert (Hnd' : NoDup (queued st ++ [n])).
  { apply NoDup_app. split; [done|]. split; [|apply NoDup_singleton].
    intros i Hi ->%list_elem_of_singleton. done. }
  assert (Hroom : Bfs.tail st < width * height).
  { pose proof (NoDup_bounded_length _ (width * height) ltac:(lia) Hnd')
      as Hb.
    rewrite length_app in Hb. simpl in Hb.
    assert (Z.of_nat (length (queued st) + 1) <= width * height); [|lia].
    apply Hb. intros i [Hi| ->%list_elem_of_singleton]%elem_of_app; [|done].
    by apply Hq. }
  assert (Hqe : queued (enqueue st n) = queued st ++ [n])
    by (apply queued_enqueue; lia).
  split; simpl; rewrite ?length_aset; try lia.
  - by rewrite Hqe.
  - rewrite Hqe. intros i [Hi| ->%list_elem_of_singleton]%elem_of_app.
    + destruct (Hq i Hi) as (? & ? & ? & ?).
      rewrite aget_aset_ne by (intros ->; done). done.
    + rewrite aget_aset_eq by lia.
      split; [lia|]. split; [done|]. split; [|done].
      rewrite <- (Ho n Hnq). done.
  - rewrite Hqe. intros i Hi. rewrite aget_aset_ne; [apply Ho|].
    + intros Hi'. apply Hi, elem_of_app. by left.
    + intros ->. apply Hi, elem_of_app. right. by apply list_elem_of_singleton.
Qed.

(** What one [tryPush] does to a state that satisfies the invariant. *)
Lemma tryPush_core st n p :
  inv st -> 0 <= n < width * height ->
  (blocked n p = false -> aget m0 n = Some 0 -> R n) ->
  let st' := tryPush st n p in
  inv st' /\
  (exists l, queued st' = queued st ++ l) /\
  Bfs.head st' = Bfs.head st /\ Bfs.acc st' = Bfs.acc st /\
  (blocked n p = false -> marked (Bfs.marks st') n) /\
  (forall n', marked (Bfs.marks st) n' -> marked (Bfs.marks st') n').
Proof.
  intros Hinv Hnb HR.
  destruct (proj1 (aget_is_Some (Bfs.marks st) n)) as [v Hv].
  { rewrite (BfsSpec.inv_marks_len _ _ _ _ _ _ Hinv). done. }
  unfold Bfs.tryPush. rewrite (rejected_spec _ _ p _ Hv).
  destruct (Z.eqb_spec v 0) as [->|Hv0]; simpl.
  - destruct (blocked n p) eqn:Hb.
    + split_and!; try done. exists []. by rewrite app_nil_r.
    + assert (Hnq : n ∉ queued st) by (by apply inv_not_queued).
      assert (Hm0 : aget m0 n = Some 0)
        by (by rewrite <- (BfsSpec.inv_other _ _ _ _ _ _ Hinv n Hnq)).
      assert (HRn : R n) by (by apply HR).
      split_and!; [by apply enqueue_inv| |done|done| |].
      * exists [n]. apply queued_enqueue.
        pose proof (BfsSpec.inv_tail _ _ _ _ _ _
                      (enqueue_inv st n Hinv Hnb Hv HRn)) as Ht.
        simpl in Ht. destruct Hinv. lia.
      * intros _. exists mark. split; [|done]. simpl.
        apply aget_aset_eq. destruct Hinv. lia.
      * intros n' (v' & Hv' & Hne). exists v'. split; [|done]. simpl.
        rewrite aget_aset_ne; [done|]. intros ->. congruence.
  - split_and!; try done.
    + exists []. by rewrite app_nil_r.
    + intros _. by exists v.
Qed.

Lemma tryPush_spec st n p :
  inv st -> p ∈ queued st -> n ∈ neighbours width height p ->
  let st' := tryPush st n p in
  inv st' /\
  (exists l, queued st' = queued st ++ l) /\
  Bfs.head st' = Bfs.head st /\ Bfs.acc st' = Bfs.acc st /\
  (blocked n p = false -> marked (Bfs.marks st') n) /\
  (forall n', marked (Bfs.marks st) n' -> marked (Bfs.marks st') n').
Proof.
  intros Hinv Hp Hn.
  destruct (BfsSpec.inv_queued _ _ _ _ _ _ Hinv p Hp) as (Hpb & _ & _ & HRp).
  pose proof (neighbours_bounds width height Hw p n Hpb Hn) as Hnb.
  apply tryPush_core; [done..|]. intros. by apply (R_step p n).
Qed.

(** The seeding loops: [tryPush] on each index of a list. *)
Lemma foldl_seed_spec (seeds : list Z) st :
  inv st ->
  (forall n, n ∈ seeds -> 0 <= n < width * height /\
     (blocked n n = false -> aget m0 n = Some 0 -> R n)) ->
  let st' := foldl (fun st n => tryPush st n n) st seeds in
  inv st' /\
  (exists l, queued st' = queued st ++ l) /\
  Bfs.head st' = Bfs.head st /\ Bfs.acc st' = Bfs.acc st /\
  (forall n, n ∈ seeds -> blocked n n = false -> marked (Bfs.marks st') n) /\
  (forall n', marked (Bfs.marks st) n' -> marked (Bfs.marks st') n').
Proof.
  revert st. induction seeds as [|n ns IH]; intros st Hinv Hns; simpl.
  - split_and!; try done.
    + exists []. by rewrite app_nil_r.
    + intros ? []%elem_of_nil.
  - destruct (Hns n) as [Hnb HRn]; [by left|].
    destruct (tryPush_core st n n Hinv Hnb HRn)
      as (Hi1 & [l1 Hq1] & Hh1 & Ha1 & Hm1 & Hmono1).
    destruct (IH (tryPush st n n)) as (Hi2 & [l2 Hq2] & Hh2 & Ha2 & Hm2 & Hmono2).
    { done. }
    { intros. apply Hns. by right. }
    split_and!; try congruence.
    + exists (l1 ++ l2). rewrite Hq2, Hq1. by rewrite app_assoc.
    + intros n' [->|Hn']%elem_of_cons Hb; [|by apply Hm2].
      by apply Hmono2, Hm1.
    + intros n' Hn'. by apply Hmono2, Hmono1.
Qed.

Lemma foldl_tryPush_spec (ns : list Z) st p :
  inv st -> p ∈ queued st ->
  (forall n, n ∈ ns -> n ∈ neighbours width height p) ->
  let st' := foldl (fun st n => tryPush st n p) st ns in
  inv st' /\
  (exists l, queued st' = queued st ++ l) /\
  Bfs.head st' = Bfs.head st /\ Bfs.acc st' = Bfs.acc st /\
  (forall n, n ∈ ns -> blocked n p = false -> marked (Bfs.marks st') n) /\
  (forall n', marked (Bfs.marks st) n' -> marked (Bfs.marks st') n').
Proof.
  revert st. induction ns as [|n ns IH]; intros st Hinv Hp Hns; simpl.
  - split_and!; try done.
    + exists []. by rewrite app_nil_r.
    + intros ? []%elem_of_nil.
  - destruct (tryPush_spec st n p Hinv Hp) as (Hi1 & [l1 Hq1] & Hh1 & Ha1 & Hm1 & Hmono1).
    { apply Hns. by left. }
    destruct (IH (tryPush st n p)) as (Hi2 & [l2 Hq2] & Hh2 & Ha2 & Hm2 & Hmono2).
    { done. }
    { rewrite Hq1. apply elem_of_app. by left. }
    { intros. apply Hns. by right. }
    split_and!; try congruence.
    + exists (l1 ++ l2). rewrite Hq2, Hq1. by rewrite app_assoc.
    + intros n' [->|Hn']%elem_of_cons Hb; [|by apply Hm2].
      by apply Hmono2, Hm1.
    + intros n' Hn'. by apply Hmono2, Hmono1.
Qed.

Lemma step_neighbours st idx :
  aget (Bfs.queue st) (Bfs.head st) = Some idx ->
  step st
  = foldl (fun st n => tryPush st n idx)
      (Bfs.mk (Bfs.marks st) (Bfs.queue st) (Bfs.head st + 1) (Bfs.tail st)
         (visit (Bfs.acc st) idx))
      (neighbours width height idx).
Proof.
  intros Hq. unfold Bfs.step, neighbours. rewrite Hq.
  destruct (0 <? Z.rem idx width), (Z.rem idx width <? width - 1),
    (0 <? idx / width), (idx / width <? height - 1); reflexivity.
Qed.

Lemma lookup_queued st (k : nat) idx :
  queued st !! k = Some idx <->
  (Z.of_nat k < Bfs.tail st /\ Bfs.queue st !! k = Some idx).
Proof.
  unfold BfsSpec.queued. rewrite lookup_take_Some. split; intros [? ?]; split;
    try done; lia.
Qed.

Lemma step_spec st :
  inv st -> closed st -> Bfs.head st < Bfs.tail st ->
  let st' := step st in
  inv st' /\ closed st' /\ Bfs.head st' = Bfs.head st + 1 /\
  (exists l, queued st' = queued st ++ l) /\
  (exists idx, queued st !! Z.to_nat (Bfs.head st) = Some idx /\
     Bfs.acc st' = visit (Bfs.acc st) idx).
Proof.
  intros Hinv Hcl Hlt.
  pose proof (BfsSpec.inv_head _ _ _ _ _ _ Hinv) as Hhd.
  pose proof (BfsSpec.inv_tail _ _ _ _ _ _ Hinv) as Htl.
  pose proof (BfsSpec.inv_queue_len _ _ _ _ _ _ Hinv) as Hql.
  destruct (proj1 (aget_is_Some (Bfs.queue st) (Bfs.head st))) as [idx Hidx];
    [lia|].
  assert (Hk : queued st !! Z.to_nat (Bfs.head st) = Some idx).
  { apply lookup_queued. split; [lia|]. by rewrite <- aget_lookup by lia. }
  assert (Hin : idx ∈ queued st) by (eapply list_elem_of_lookup_2, Hk).
  set (st1 := Bfs.mk (Bfs.marks st) (Bfs.queue st) (Bfs.head st + 1)
                (Bfs.tail st) (visit (Bfs.acc st) idx)).
  assert (Hinv1 : inv st1).
  { destruct Hinv. split; simpl; try done. lia. }
  destruct (foldl_tryPush_spec (neighbours width height idx) st1 idx Hinv1)
    as (Hi & [l Hq] & Hh' & Ha & Hm & Hmono); [done..|].
  simpl. rewrite (step_neighbours st idx Hidx). fold st1.
  set (st' := foldl _ st1 _) in *.
  change (queued st1) with (queued st) in Hq.
  change (Bfs.head st1) with (Bfs.head st + 1) in Hh'.
  split; [done|]. split; [|split; [done|split; [by exists l|by exists idx]]].
  intros p n Hp Hn Hb.
  rewrite processed_queued in Hp
    by (rewrite Hh'; pose proof (BfsSpec.inv_tail _ _ _ _ _ _ Hi);
        pose proof (BfsSpec.inv_head _ _ _ _ _ _ Hi); lia).
  rewrite Hh', Hq in Hp.
  replace (Z.to_nat (Bfs.head st + 1)) with (S (Z.to_nat (Bfs.head st)))
    in Hp by lia.
  rewrite take_app_le in Hp
    by (pose proof (length_queued st ltac:(lia)); lia).
  rewrite (take_S_r _ _ idx Hk) in Hp.
  apply elem_of_app in Hp as [Hp| ->%list_elem_of_singleton].
  - apply Hmono, (Hcl p n); [|done..].
    rewrite processed_queued by lia. done.
  - by apply Hm.
Qed.

(** The loop empties the queue within the fuel it is given, and what it
    accumulates is the fold of [visit] over the indices it took out. *)
Lemma run_spec (fuel : nat) st :
  inv st -> closed st -> width * height <= Z.of_nat fuel + Bfs.head st ->
  let st' := run fuel st in
  inv st' /\ closed st' /\ Bfs.head st' = Bfs.tail st' /\
  (exists l, queued st' = queued st ++ l) /\
  Bfs.acc st'
  = foldl visit (Bfs.acc st) (drop (Z.to_nat (Bfs.head st)) (queued st')).
Proof.
  revert st. induction fuel as [|fuel IH]; intros st Hinv Hcl Hfuel.
  - simpl. pose proof (BfsSpec.inv_head _ _ _ _ _ _ Hinv).
    pose proof (BfsSpec.inv_tail _ _ _ _ _ _ Hinv).
    assert (Bfs.head st = Bfs.tail st) by lia.
    split_and!; try done.
    + exists []. by rewrite app_nil_r.
    + rewrite drop_ge; [done|].
      pose proof (length_queued st) as Hl.
      pose proof (BfsSpec.inv_queue_len _ _ _ _ _ _ Hinv). lia.
  - simpl. destruct (Z.ltb_spec (Bfs.head st) (Bfs.tail st)) as [Hlt|Hge].
    + destruct (step_spec st Hinv Hcl Hlt)
        as (Hi & Hc & Hh' & [l Hq] & idx & Hk & Ha).
      destruct (IH (step st) Hi Hc) as (Hi2 & Hc2 & Hh2 & [l2 Hq2] & Ha2);
        [lia|].
      split_and!; try done.
      * exists (l ++ l2). by rewrite Hq2, Hq, app_assoc.
      * rewrite Ha2, Ha, Hh'.
        pose proof (BfsSpec.inv_head _ _ _ _ _ _ Hinv).
        replace (Z.to_nat (Bfs.head st + 1))
          with (S (Z.to_nat (Bfs.head st))) by lia.
        assert (Hk2 : queued (run fuel (step st)) !! Z.to_nat (Bfs.head st)
                      = Some idx).
        { rewrite Hq2, Hq, <- app_assoc. apply lookup_app_l_Some. done. }
        rewrite (drop_S _ _ _ Hk2). done.
    + pose proof (BfsSpec.inv_head _ _ _ _ _ _ Hinv).
      assert (Bfs.head st = Bfs.tail st) by lia.
      split_and!; try done.
      * exists []. by rewrite app_nil_r.
      * rewrite drop_ge; [done|].
        pose proof (length_queued st) as Hl.
        pose proof (BfsSpec.inv_queue_len _ _ _ _ _ _ Hinv).
        pose proof (BfsSpec.inv_tail _ _ _ _ _ _ Hinv). lia.
Qed.

(** The invariant holds after any number of iterations. *)
Lemma run_inv (fuel : nat) st :
  inv st -> closed st ->
  inv (run fuel st) /\ closed (run fuel st) /\
  (exists l, queued (run fuel st) = queued st ++ l).
Proof.
  revert st. induction fuel as [|fuel IH]; intros st Hinv Hcl; simpl.
  - split_and!; try done. exists []. by rewrite app_nil_r.
  - destruct (Z.ltb_spec (Bfs.head st) (Bfs.tail st)) as [Hlt|Hge].
    + destruct (step_spec st Hinv Hcl Hlt) as (Hi & Hc & _ & [l Hq] & _).
      destruct (IH (step st) Hi Hc) as (Hi2 & Hc2 & [l2 Hq2]).
      split_and!; try done. exists (l ++ l2). by rewrite Hq2, Hq, app_assoc.
    + split_and!; try done. exists []. by rewrite app_nil_r.
Qed.

(** When the loop is over, the marked pixels outside the initial marks
    are the queued ones, and the queue is closed under admissible steps. *)
Lemma run_closed (fuel : nat) st p n :
  inv st -> closed st -> width * height <= Z.of_nat fuel + Bfs.head st ->
  p ∈ queued (run fuel st) -> n ∈ neighbours width height p ->
  blocked n p = false -> marked (Bfs.marks (run fuel st)) n.
Proof.
  intros Hinv Hcl Hfuel Hp Hn Hb.
  destruct (run_spec fuel st Hinv Hcl Hfuel) as (Hi & Hc & Hht & _ & _).
  apply (Hc p n); [|done..].
  unfold BfsSpec.processed. rewrite Hht. exact Hp.
Qed.

End BfsLoop.

Lemma inv_init {A : Type} (width height mark : Z) (R : Z -> Prop) (a : A) :
  0 <= width * height ->
  BfsSpec.inv width height mark (zeros (width * height)) R
    (Bfs.mk (zeros (width * height)) (zeros (width * height)) 0 0 a).
Proof.
  intros Hn. split; simpl; unfold BfsSpec.queued, zeros; simpl;
    rewrite ?length_replicate; try lia; try done.
  - apply NoDup_nil_2.
  - intros ? []%elem_of_nil.
Qed.

Lemma closed_init {A : Type} (width height : Z) (blocked : Z -> Z -> bool)
  (st : Bfs.state A) :
  Bfs.head st = 0 -> BfsSpec.closed width height blocked st.
Proof.
  intros H p n Hp. unfold BfsSpec.processed in Hp. rewrite H in Hp.
  simpl in Hp. by apply elem_of_nil in Hp.
Qed.

Lemma aget_zeros (n i : Z) : 0 <= i < n -> aget (zeros n) i = Some 0.
Proof.
  intros H. rewrite aget_lookup by lia. unfold zeros.
  apply lookup_replicate_2. lia.
Qed.

Lemma marked_zeros_queued {A : Type} (width height mark : Z) (R : Z -> Prop)
  (st : Bfs.state A) (i : Z) :
  BfsSpec.inv width height mark (zeros (width * height)) R st ->
  BfsSpec.marked (Bfs.marks st) i -> i ∈ BfsSpec.queued st.
Proof.
  intros Hinv (v & Hv & Hne).
  destruct (decide (i ∈ BfsSpec.queued st)) as [|Hnq]; [done|].
  rewrite (BfsSpec.inv_other _ _ _ _ _ _ Hinv i Hnq) in Hv.
  pose proof (aget_Some_bounds _ _ _ Hv) as Hb.
  unfold zeros in Hb. rewrite length_replicate in Hb.
  rewrite aget_zeros in Hv by lia. congruence.
Qed.


(** ** Hole filling *)

Lemma foldl_bind {S B C : Type} (f : S -> C -> S) (g : B -> list C)
  (l : list B) (s : S) :
  foldl f s (l ≫= g) = foldl (fun s x => foldl f s (g x)) s l.
Proof.
  revert s. induction l as [|x l IH]; intros s; [done|].
  simpl. rewrite foldl_app. apply IH.
Qed.

Lemma foldl_ext {S B : Type} (f g : S -> B -> S) (l : list B) (s : S) :
  (forall s x, f s x = g s x) -> foldl f s l = foldl g s l.
Proof.
  intros E. revert s. induction l as [|x l IH]; intros s; [done|].
  simpl. by rewrite E, IH.
Qed.

(** Conditional writes of one value along a loop. *)
Section CondWrites.
Context {K : Type}.
Variables (idx : K -> Z) (c : K -> bool) (v : Z).

Let body (res : list Z) (k : K) : list Z :=
  if c k then aset res (idx k) v else res.

Lemma length_foldl_cond (ks : list K) (arr : list Z) :
  length (foldl body arr ks) = length arr.
Proof.
  revert arr. induction ks as [|k ks IH]; intros arr; [done|].
  simpl. rewrite IH. unfold body. destruct (c k); [apply length_aset|done].
Qed.

Lemma aget_foldl_cond_keep (ks : list K) (arr : list Z) (i : Z) :
  aget arr i = Some v -> aget (foldl body arr ks) i = Some v.
Proof.
  revert arr. induction ks as [|k ks IH]; intros arr H; [done|].
  simpl. apply IH. unfold body. destruct (c k); [|done].
  destruct (decide (idx k = i)) as [<-|Hne].
  - apply aget_aset_eq. by eapply aget_Some_bounds.
  - by rewrite aget_aset_ne.
Qed.

Lemma aget_foldl_cond_hit (ks : list K) (arr : list Z) (k : K) :
  k ∈ ks -> c k = true -> 0 <= idx k < Z.of_nat (length arr) ->
  aget (foldl body arr ks) (idx k) = Some v.
Proof.
  revert arr. induction ks as [|k' ks IH]; intros arr Hk Hc Hb.
  - by apply elem_of_nil in Hk.
  - simpl. apply elem_of_cons in Hk as [<-|Hk].
    + apply aget_foldl_cond_keep. unfold body. rewrite Hc.
      by apply aget_aset_eq.
    + apply IH; [done..|]. unfold body.
      destruct (c k'); [by rewrite length_aset|done].
Qed.

Lemma aget_foldl_cond_miss (ks : list K) (arr : list Z) (i : Z) :
  (forall k, k ∈ ks -> c k = true -> idx k <> i) ->
  aget (foldl body arr ks) i = aget arr i.
Proof.
  revert arr. induction ks as [|k ks IH]; intros arr H; [done|].
  simpl. rewrite IH by (intros; apply H; [by right|done]).
  unfold body. destruct (c k) eqn:Hc; [|done].
  apply aget_aset_ne, H; [by left|done].
Qed.

End CondWrites.

Section FillMaskHoles.
Variables (mask : list Z) (width height : Z).
Hypothesis Hw : 0 < width.
Hypothesis Hh : 0 < height.
Hypothesis Hlen : Z.of_nat (length mask) = width * height.
Hypothesis Hbin : binaryMask mask.

Let total := width * height.
Let rejected := fun (visited : list Z) (nIdx _ : Z) =>
  holeRejected mask visited nIdx.
Let blocked := fun (n _ : Z) =>
  match aget mask n with Some 1 => true | _ => false end.
Let R := borderReachable mask width height.
Let start : Bfs.state unit := Bfs.mk (zeros total) (zeros total) 0 0 tt.
Let final := Bfs.run rejected 1 (fun a _ => a) width height
               (Z.to_nat total) (borderQueue mask width height).

Lemma total_pos : 0 < total.
Proof. unfold total. apply Z.mul_pos_pos; done. Qed.

Lemma mask_value (i : Z) :
  0 <= i < total -> aget mask i = Some 0 \/ aget mask i = Some 1.
Proof.
  intros Hi. destruct (proj1 (aget_is_Some mask i)) as [v Hv]; [lia|].
  rewrite Hv. unfold binaryMask in Hbin. rewrite Forall_forall in Hbin.
  destruct (Hbin v) as [->| ->]; auto.
  rewrite aget_lookup in Hv by lia. eapply list_elem_of_lookup_2, Hv.
Qed.

Lemma blocked_false (n p : Z) :
  0 <= n < total -> blocked n p = false <-> aget mask n = Some 0.
Proof.
  intros Hn. unfold blocked.
  destruct (mask_value n Hn) as [-> | ->]; split; congruence.
Qed.

Lemma hole_rejected_spec (marks : list Z) (n p v : Z) :
  aget marks n = Some v ->
  rejected marks n p = negb (v =? 0) || blocked n p.
Proof. intros H. unfold rejected, holeRejected, blocked. by rewrite H. Qed.

Lemma hole_R_step (p n : Z) :
  R p -> 0 <= p < width * height -> n ∈ neighbours width height p ->
  blocked n p = false -> aget (zeros total) n = Some 0 -> R n.
Proof.
  intros HR Hp Hn Hb _.
  pose proof (neighbours_bounds width height Hw p n Hp Hn) as Hnb.
  apply (reach_step _ _ _ _ p n HR).
  - by apply neighbours_adjacent4.
  - by apply (blocked_false n p).
Qed.

Lemma borderQueue_list :
  borderQueue mask width height
  = foldl (fun st n => Bfs.tryPush rejected 1 st n n) start
      (borderList width height).
Proof.
  unfold borderQueue, borderList. rewrite foldl_app, !foldl_bind. done.
Qed.

Lemma elem_of_borderList (i : Z) :
  i ∈ borderList width height <-> onBorder width height i.
Proof.
  unfold borderList, onBorder. rewrite elem_of_app, !list_elem_of_bind.
  split.
  - intros [(x & Hi & Hx%elem_of_range_1)|(y & Hi & Hy%elem_of_range_1)].
    + apply elem_of_cons in Hi as [->|Hi].
      * exists x, 0. unfold pixelIndex. split_and!; lia.
      * apply list_elem_of_singleton in Hi as ->.
        exists x, (height - 1). unfold pixelIndex. split_and!; lia.
    + apply elem_of_cons in Hi as [->|Hi].
      * exists 0, y. unfold pixelIndex. split_and!; lia.
      * apply list_elem_of_singleton in Hi as ->.
        exists (width - 1), y. unfold pixelIndex. split_and!; lia.
  - intros (x & y & Hx & Hy & -> & Hc). unfold pixelIndex.
    destruct Hc as [->|[->|[->| ->]]].
    + right. exists y. split; [|apply elem_of_range_1; lia].
      rewrite elem_of_cons, list_elem_of_singleton. lia.
    + right. exists y. split; [|apply elem_of_range_1; lia].
      rewrite elem_of_cons, list_elem_of_singleton. lia.
    + left. exists x. split; [|apply elem_of_range_1; lia].
      rewrite elem_of_cons, list_elem_of_singleton. lia.
    + left. exists x. split; [|apply elem_of_range_1; lia].
      rewrite elem_of_cons, list_elem_of_singleton. lia.
Qed.

Lemma onBorder_bounds (i : Z) : onBorder width height i -> 0 <= i < total.
Proof.
  intros (x & y & Hx & Hy & -> & _). by apply pixelIndex_bounds.
Qed.

Lemma borderQueue_spec :
  let st := borderQueue mask width height in
  BfsSpec.inv width height 1 (zeros total) R st /\ Bfs.head st = 0 /\
  (forall b, onBorder width height b -> aget mask b = Some 0 ->
     b ∈ BfsSpec.queued st).
Proof.
  simpl. rewrite borderQueue_list.
  destruct (foldl_seed_spec rejected 1 width height blocked (zeros total) R
              Hw Hh ltac:(done) hole_rejected_spec
              (borderList width height) start)
    as (Hi & _ & Hh' & _ & Hm & _).
  { apply inv_init. pose proof total_pos. unfold total in *. lia. }
  { intros n Hn%elem_of_borderList. split; [by apply onBorder_bounds|].
    intros Hb _. apply reach_start. split; [done|].
    apply (blocked_false n n); [by apply onBorder_bounds|done]. }
  split_and!; [done|done|].
  intros b Hb Hm0. eapply marked_zeros_queued; [exact Hi|].
  apply Hm; [by apply elem_of_borderList|].
  apply blocked_false; [by apply onBorder_bounds|done].
Qed.

Lemma final_spec :
  BfsSpec.inv width height 1 (zeros total) R final /\
  Bfs.head final = Bfs.tail final /\
  (forall i, R i -> i ∈ BfsSpec.queued final).
Proof.
  destruct borderQueue_spec as (Hi & Hh0 & Hseed).
  pose proof (closed_init width height blocked _ Hh0) as Hc.
  destruct (run_spec rejected 1 (fun a _ => a) width height blocked
              (zeros total) R Hw Hh ltac:(done) hole_rejected_spec
              hole_R_step
              (Z.to_nat total) _ Hi Hc)
    as (Hi' & Hc' & Hht & [l Hq] & _).
  { pose proof total_pos. rewrite Hh0. unfold total in *. lia. }
  fold final in Hi', Hc', Hht, Hq.
  split_and!; [done..|].
  intros i HRi. induction HRi as [b [Hb Hm]|p n HRp IH Hadj Hedge].
  - rewrite Hq. apply elem_of_app. left. by apply Hseed.
  - destruct (adjacent4_bounds width height p n Hadj) as [Hpb Hnb].
    eapply marked_zeros_queued; [exact Hi'|].
    apply (Hc' p n).
    + unfold BfsSpec.processed. rewrite Hht. exact IH.
    + by apply neighbours_adjacent4.
    + by apply blocked_false.
Qed.

(** The pixels reached by the fill are the border-reachable ones. *)
Lemma reachedFromBorder_spec (i : Z) :
  0 <= i < total ->
  truthyZ (aget (reachedFromBorder mask width height) i) = true <-> R i.
Proof.
  intros Hi. destruct final_spec as (Hinv & _ & Hcomplete).
  change (reachedFromBorder mask width height) with (Bfs.marks final).
  split.
  - intros Ht. destruct (aget (Bfs.marks final) i) as [v|] eqn:Hv; [|done].
    simpl in Ht. apply negb_true_iff, Z.eqb_neq in Ht.
    assert (Hq : i ∈ BfsSpec.queued final)
      by (eapply marked_zeros_queued; [exact Hinv|by exists v]).
    by destruct (BfsSpec.inv_queued _ _ _ _ _ _ Hinv i Hq) as (_ & _ & _ & ?).
  - intros HR. specialize (Hcomplete i HR).
    destruct (BfsSpec.inv_queued _ _ _ _ _ _ Hinv i Hcomplete)
      as (_ & -> & _). done.
Qed.

Lemma length_fillMaskHoles :
  length (fillMaskHoles mask width height) = length mask.
Proof.
  unfold fillMaskHoles.
  pose proof (length_foldl_cond (fun i : Z => i)
    (fun i => match aget mask i with
              | Some 0 =>
                  negb (truthyZ (aget (reachedFromBorder mask width height) i))
              | _ => false
              end) 1 (range 0 (width * height) 1) mask) as H.
  rewrite <- H. f_equal. apply foldl_ext. intros res i.
  destruct (aget mask i) as [[| |]|]; try done.
  by destruct (truthyZ _).
Qed.

Lemma aget_fillMaskHoles (i : Z) :
  0 <= i < total ->
  aget (fillMaskHoles mask width height) i
  = match aget mask i with
    | Some 0 =>
        if truthyZ (aget (reachedFromBorder mask width height) i)
        then Some 0 else Some 1
    | other => other
    end.
Proof.
  intros Hi. unfold fillMaskHoles.
  set (c := fun i : Z =>
    match aget mask i with
    | Some 0 => negb (truthyZ (aget (reachedFromBorder mask width height) i))
    | _ => false
    end).
  assert (E : forall ks arr,
    foldl (fun result i =>
             match aget mask i with
             | Some 0 =>
                 if truthyZ (aget (reachedFromBorder mask width height) i)
                 then result else aset result i 1
             | _ => result
             end) arr ks
    = foldl (fun res k => if c k then aset res k 1 else res) arr ks).
  { intros ks arr. apply foldl_ext. intros res k. unfold c.
    destruct (aget mask k) as [[| |]|]; try done. by destruct (truthyZ _). }
  rewrite E. destruct (c i) eqn:Hc.
  - rewrite (aget_foldl_cond_hit (fun i : Z => i) c 1 _ _ i);
      [|apply elem_of_range_1; unfold total in Hi; lia|done|lia].
    unfold c in Hc. destruct (aget mask i) as [[| |]|]; try done.
    by destruct (truthyZ _).
  - rewrite (aget_foldl_cond_miss (fun i : Z => i) c 1).
    + unfold c in Hc. destruct (aget mask i) as [[| |]|]; try done.
      by destruct (truthyZ _).
    + intros k _ Hk ->. congruence.
Qed.

End FillMaskHoles.

Lemma reach_zero (mask : list Z) (width height i : Z) :
  borderReachable mask width height i -> aget mask i = Some 0.
Proof. intros [b [_ Hb]|p n _ _ Hn]; done. Qed.

(** A set of pixels that stays off the border and whose 0-valued
    neighbours all belong to it cannot be reached from the border. *)
Lemma enclosed_not_reachable (mask : list Z) (width height : Z)
  (H : Z -> Prop) :
  0 < width -> 0 < height ->
  (forall i, H i -> ~ onBorder width height i) ->
  (forall i n, H i -> adjacent4 width height i n ->
     aget mask n = Some 0 -> H n) ->
  forall i, H i -> ~ borderReachable mask width height i.
Proof.
  intros Hw Hh Hoff Hclosed i Hi Hr. revert Hi.
  induction Hr as [b [Hb _]|p n Hp IH Hadj Hn]; intros Hi.
  - by apply (Hoff b).
  - apply IH. apply (Hclosed n p Hi).
    + by apply adjacent4_sym.
    + by apply (reach_zero mask width height).
Qed.

Lemma fill2_values {A : Type} (P : A -> Prop) (out : list A)
  (width height : Z) (f : Z -> Z -> A) :
  0 < width -> 0 < height -> Z.of_nat (length out) = width * height ->
  (forall x y, P (f x y)) -> Forall P (fill2 out width height f).
Proof.
  intros Hw Hh Hlen HP. apply Forall_lookup. intros k v Hk.
  pose proof (lookup_lt_Some _ _ _ Hk) as Hlt. rewrite length_fill2 in Hlt.
  destruct (index_coords width height Hw (Z.of_nat k)) as (E & Hx & Hy);
    [lia|].
  pose proof (aget_fill2 out width height f _ _ Hx Hy) as Hg.
  rewrite <- E in Hg. rewrite aget_lookup, Nat2Z.id in Hg by lia.
  rewrite Hg in Hk by lia. inversion Hk. apply HP.
Qed.

Lemma square_sum_bound (a b r : Z) :
  0 <= r -> a * a + b * b <= r * r -> - r <= a <= r.
Proof.
  intros Hr H. pose proof (Z.square_nonneg b).
  destruct (Z.le_gt_cases a r) as [Hle|Hgt].
  - split; [|done]. destruct (Z.le_gt_cases (- r) a) as [|Hlt]; [done|].
    assert (r * r < (- a) * (- a))
      by (apply Z.mul_lt_mono_nonneg; lia).
    lia.
  - assert (r * r < a * a) by (apply Z.mul_lt_mono_nonneg; lia). lia.
Qed.

Section DiskWithHole.
Variables width height cx cy r : Z.
Hypothesis Hr : 3 <= r.
Hypothesis Hcx : r <= cx /\ cx + r < width.
Hypothesis Hcy : r <= cy /\ cy + r < height.

Let disk := diskWithHole width height cx cy r.

Lemma disk_area : 0 <= width * height.
Proof. apply Z.mul_nonneg_nonneg; lia. Qed.

Lemma disk_length : Z.of_nat (length disk) = width * height.
Proof.
  unfold disk, diskWithHole. rewrite length_fill2. unfold zeros.
  rewrite length_replicate. pose proof disk_area. lia.
Qed.

Lemma disk_binary : binaryMask disk.
Proof.
  apply fill2_values; [lia|lia| |].
  - unfold zeros. rewrite length_replicate. pose proof disk_area. lia.
  - intros x y. destruct (_ && _); auto.
Qed.

Lemma aget_disk (x y : Z) :
  0 <= x < width -> 0 <= y < height ->
  aget disk (pixelIndex width x y)
  = Some (if inDisk cx cy r x y && negb (inHole cx cy x y) then 1 else 0).
Proof.
  intros Hx Hy. apply aget_fill2; [done..|].
  unfold zeros. rewrite length_replicate.
  pose proof (pixelIndex_bounds width height x y Hx Hy). lia.
Qed.

Lemma inDisk_bounds (x y : Z) :
  inDisk cx cy r x y = true -> 0 <= x < width /\ 0 <= y < height.
Proof.
  unfold inDisk. intros H%Z.leb_le.
  pose proof (square_sum_bound (x - cx) (y - cy) r ltac:(lia) H).
  pose proof (square_sum_bound (y - cy) (x - cx) r ltac:(lia) ltac:(lia)).
  lia.
Qed.

Lemma near_hole_inDisk (x y : Z) :
  Z.abs (x - cx) + Z.abs (y - cy) <= 3 -> Z.abs (x - cx) <= 2 ->
  Z.abs (y - cy) <= 2 -> inDisk cx cy r x y = true.
Proof.
  unfold inDisk. intros H1 H2 H3. apply Z.leb_le.
  assert (9 <= r * r) by nia.
  assert (Ha : x - cx = -2 \/ x - cx = -1 \/ x - cx = 0 \/ x - cx = 1
               \/ x - cx = 2) by lia.
  assert (Hb : y - cy = -2 \/ y - cy = -1 \/ y - cy = 0 \/ y - cy = 1
               \/ y - cy = 2) by lia.
  destruct Ha as [->|[->|[->|[->| ->]]]],
    Hb as [Hb|[Hb|[Hb|[Hb|Hb]]]]; rewrite Hb in *; lia.
Qed.

(** After hole filling no pixel of the disk is background. *)
Lemma fillMaskHoles_disk (x y : Z) :
  inDisk cx cy r x y = true ->
  aget (fillMaskHoles disk width height) (pixelIndex width x y) = Some 1.
Proof.
  intros Hd. destruct (inDisk_bounds x y Hd) as [Hx Hy].
  pose proof (pixelIndex_bounds width height x y Hx Hy) as Hb.
  rewrite (aget_fillMaskHoles disk width height disk_length) by done.
  rewrite (aget_disk x y Hx Hy), Hd. simpl.
  destruct (inHole cx cy x y) eqn:Hhole; simpl; [|done].
  destruct (truthyZ _) eqn:Ht; [|done]. exfalso.
  apply (reachedFromBorder_spec disk width height ltac:(lia) ltac:(lia)
           disk_length disk_binary) in Ht; [|done].
  revert Ht.
  apply (enclosed_not_reachable disk width height
           (fun i => exists x y, 0 <= x < width /\ 0 <= y < height /\
              inHole cx cy x y = true /\ i = pixelIndex width x y));
    [lia|lia| | |by exists x, y].
  - intros i (x1 & y1 & Hx1 & Hy1 & Hh1 & ->) (x2 & y2 & Hx2 & Hy2 & E & Hc).
    apply pixelIndex_inj in E as [-> ->]; [|lia..].
    unfold inHole in Hh1. apply andb_true_iff in Hh1 as [H1%Z.leb_le H2%Z.leb_le].
    lia.
  - intros i n (x1 & y1 & Hx1 & Hy1 & Hh1 & ->)
      (x2 & y2 & x3 & y3 & Hx2 & Hy2 & Hx3 & Hy3 & E & -> & Hd3) Hn.
    apply pixelIndex_inj in E as [-> ->]; [|lia..].
    exists x3, y3. split_and!; try lia; try done.
    rewrite (aget_disk x3 y3 Hx3 Hy3) in Hn.
    unfold inHole in Hh1. apply andb_true_iff in Hh1 as [H1%Z.leb_le H2%Z.leb_le].
    rewrite (near_hole_inDisk x3 y3) in Hn by lia. simpl in Hn.
    destruct (inHole cx cy x3 y3); [done|]. simpl in Hn. congruence.
Qed.

End DiskWithHole.

(** C5: on a binary mask, a pixel of the result is 1 exactly when it was 1
    in the input or it was 0 and no 4-connected path of 0-valued pixels
    joins it to a border pixel; hence every 0-valued pixel of the result
    is joined to the border through 0-valued pixels of the result, and a
    solid disk with a 3x3 hole at its centre has no background pixel left
    inside the disk. *)
Theorem fillMaskHoles_spec :
  (forall mask width height,
     0 < width -> 0 < height ->
     Z.of_nat (length mask) = width * height -> binaryMask mask ->
     let out := fillMaskHoles mask width height in
     length out = length mask /\
     (forall i, 0 <= i < width * height ->
        (aget out i = Some 1 <->
         aget mask i = Some 1 \/
         (aget mask i = Some 0 /\ ~ borderReachable mask width height i)) /\
        (aget out i = Some 0 \/ aget out i = Some 1)) /\
     (forall i, aget out i = Some 0 -> borderReachable out width height i)) /\
  (forall width height cx cy r x y,
     3 <= r -> r <= cx /\ cx + r < width -> r <= cy /\ cy + r < height ->
     inDisk cx cy r x y = true ->
     aget (fillMaskHoles (diskWithHole width height cx cy r) width height)
       (pixelIndex width x y) = Some 1).
Proof.
  split; [|intros; by apply fillMaskHoles_disk].
  intros mask width height Hw Hh Hlen Hbin out.
  assert (Hout : forall i, 0 <= i < width * height ->
            (aget out i = Some 0 /\ aget mask i = Some 0 /\
             borderReachable mask width height i) \/
            (aget out i = Some 1 /\
             ~ (aget mask i = Some 0 /\ borderReachable mask width height i))).
  { intros i Hi. unfold out.
    rewrite (aget_fillMaskHoles mask width height Hlen i Hi).
    pose proof (reachedFromBorder_spec mask width height Hw Hh Hlen Hbin i Hi)
      as Hr.
    destruct (mask_value mask width height Hlen Hbin i Hi) as [E|E];
      rewrite E.
    - destruct (truthyZ _).
      + left. split_and!; try done. by apply Hr.
      + right. split; [done|]. intros [_ Hd%Hr]. done.
    - right. split; [done|]. intros [? _]. done. }
  split; [apply length_fillMaskHoles|]. split.
  - intros i Hi.
    destruct (Hout i Hi) as [(Ho & Hm & Hr)|(Ho & Hn)]; rewrite Ho.
    + split; [|by left]. rewrite Hm. split; [done|].
      intros [?|[_ ?]]; done.
    + split; [|by right]. split; [|done]. intros _.
      destruct (mask_value mask width height Hlen Hbin i Hi) as [E|E];
        [right|by left].
      split; [done|]. intros Hr. by apply Hn.
  - intros i Hi.
    assert (Hb : 0 <= i < width * height).
    { pose proof (aget_Some_bounds _ _ _ Hi) as Hb. unfold out in Hb.
      rewrite length_fillMaskHoles in Hb. lia. }
    destruct (Hout i Hb) as [(_ & _ & Hr)|(Ho & _)]; [|congruence].
    clear Hi Hb.
    assert (Hzero : forall j, borderReachable mask width height j ->
              0 <= j < width * height -> aget out j = Some 0).
    { intros j Hj Hjb.
      destruct (Hout j Hjb) as [(Ho & _)|(_ & Hn)]; [done|].
      exfalso. apply Hn. split; [|done].
      by apply (reach_zero mask width height). }
    induction Hr as [b [Hb Hm]|p n Hp IH Hadj Hn].
    + apply reach_start. split; [done|]. apply Hzero.
      * apply reach_start. by split.
      * destruct Hb as (x & y & Hx & Hy & -> & _).
        by apply pixelIndex_bounds.
    + apply (reach_step _ _ _ _ p n IH Hadj).
      destruct (adjacent4_bounds width height p n Hadj) as [_ Hnb].
      apply Hzero; [|done]. by apply (reach_step _ _ _ _ p n).
Qed.

Lemma fillMaskHoles_spec_witness :
  aget (fillMaskHoles (diskWithHole 9 9 4 4 3) 9 9) (pixelIndex 9 4 4)
  = Some 1 /\
  let out := fillMaskHoles [0; 0; 0; 0; 1; 0; 0; 0; 0] 3 3 in
  length out = 9%nat /\
  (forall i, 0 <= i < 3 * 3 ->
     (aget out i = Some 1 <->
      aget [0; 0; 0; 0; 1; 0; 0; 0; 0] i = Some 1 \/
      (aget [0; 0; 0; 0; 1; 0; 0; 0; 0] i = Some 0 /\
       ~ borderReachable [0; 0; 0; 0; 1; 0; 0; 0; 0] 3 3 i)) /\
     (aget out i = Some 0 \/ aget out i = Some 1)) /\
  (forall i, aget out i = Some 0 -> borderReachable out 3 3 i).
Proof.
  split.
  - apply (proj2 fillMaskHoles_spec); [lia|lia|lia|reflexivity].
  - apply (proj1 fillMaskHoles_spec [0; 0; 0; 0; 1; 0; 0; 0; 0] 3 3);
      [lia|lia|reflexivity|].
    unfold binaryMask.
    repeat (apply Forall_cons; split; [lia|]). apply Forall_nil_2.
Defined.

(** ** Region growing *)

Section Grow.
Variables (data : list Z) (width height : Z) (model : Model.t)
  (gradient : list float) (seeds : list Z).
Hypothesis Hw : 0 < width.
Hypothesis Hh : 0 < height.
Hypothesis Hseeds : forall s, s ∈ seeds -> 0 <= s < width * height.

Let total := width * height.
Let rejected := growRejected data model gradient.
Let blocked := fun n p : Z => negb (shouldExpand data model gradient n p).
Let R := grown data width height model gradient seeds.

Lemma shouldExpand_admissible (n p : Z) :
  shouldExpand data model gradient n p = admissible data model gradient n p.
Proof. reflexivity. Qed.

Lemma grow_rejected_spec (marks : list Z) (n p v : Z) :
  aget marks n = Some v ->
  rejected marks n p = negb (v =? 0) || blocked n p.
Proof. intros H. unfold rejected, growRejected, blocked. by rewrite H. Qed.

Lemma grow_R_step (p n : Z) :
  R p -> 0 <= p < width * height -> n ∈ neighbours width height p ->
  blocked n p = false -> aget (zeros total) n = Some 0 -> R n.
Proof.
  intros HR Hp Hn Hb _. apply (reach_step _ _ _ _ p n HR).
  - by apply neighbours_adjacent4.
  - unfold blocked in Hb. apply negb_false_iff in Hb.
    by rewrite <- shouldExpand_admissible.
Qed.

Lemma seedQueue_tryPush :
  seedQueue total seeds
  = foldl (fun st n =>
             Bfs.tryPush (fun marks n _ => truthyZ (aget marks n)) 1 st n n)
      (Bfs.mk (zeros total) (zeros total) 0 0 tt) seeds.
Proof. reflexivity. Qed.

Lemma total_nonneg : 0 <= total.
Proof. unfold total. apply Z.mul_nonneg_nonneg; lia. Qed.

Lemma seedQueue_spec :
  let st := seedQueue total seeds in
  BfsSpec.inv width height 1 (zeros total) R st /\ Bfs.head st = 0 /\
  (forall s, s ∈ seeds -> s ∈ BfsSpec.queued st).
Proof.
  simpl. rewrite seedQueue_tryPush.
  destruct (foldl_seed_spec (fun marks n _ => truthyZ (aget marks n)) 1
              width height (fun _ _ => false) (zeros total) R
              Hw Hh ltac:(done)
              ltac:(by intros marks n p v H; simpl; rewrite H, orb_false_r)
              seeds (Bfs.mk (zeros total) (zeros total) 0 0 tt))
    as (Hi & _ & Hh' & _ & Hm & _).
  { apply inv_init. apply total_nonneg. }
  { intros s Hs. split; [by apply Hseeds|]. intros _ _. by apply reach_start. }
  split_and!; [done|done|].
  intros s Hs. eapply marked_zeros_queued; [exact Hi|]. by apply Hm.
Qed.

(** After any number of iterations: the queue holds each pixel at most
    once, within its capacity, and holds exactly the visited pixels. *)
Lemma growAfter_inv (k : nat) :
  let st := growAfter k data width height model gradient seeds in
  0 <= Bfs.head st <= Bfs.tail st /\ Bfs.tail st <= width * height /\
  Z.of_nat (length (Bfs.queue st)) = width * height /\
  NoDup (BfsSpec.queued st) /\
  (forall i, aget (Bfs.marks st) i = Some 1 <-> i ∈ BfsSpec.queued st) /\
  (forall i, 0 <= i < width * height ->
     aget (Bfs.marks st) i = Some 0 \/ aget (Bfs.marks st) i = Some 1) /\
  (forall i, i ∈ BfsSpec.queued st -> R i).
Proof.
  destruct seedQueue_spec as (Hi & Hh0 & _).
  pose proof (closed_init width height blocked _ Hh0) as Hc.
  destruct (run_inv rejected 1 (fun a _ => a) width height blocked
              (zeros total) R Hw Hh ltac:(done) grow_rejected_spec
              grow_R_step k _ Hi Hc) as (Hinv & _ & _).
  fold (growAfter k data width height model gradient seeds) in Hinv.
  simpl. set (st := growAfter k data width height model gradient seeds) in *.
  pose proof Hinv as [Hml Hql Hhd Htl Hnd Hq Ho].
  split; [exact Hhd|]. split; [exact Htl|]. split; [exact Hql|].
  split; [exact Hnd|]. split; [|split].
  - intros i. split.
    + intros Hm. eapply marked_zeros_queued; [exact Hinv|]. by exists 1.
    + intros Hin. by destruct (Hq i Hin) as (_ & ? & _).
  - intros i Hib. destruct (decide (i ∈ BfsSpec.queued st)) as [Hin|Hnin].
    + right. by destruct (Hq i Hin) as (_ & ? & _).
    + left. etransitivity; [apply (Ho i Hnin)|by apply aget_zeros].
  - intros i Hin. by destruct (Hq i Hin) as (_ & _ & _ & ?).
Qed.

(** The loop of [growBackgroundRegion] empties its queue, and the region
    it returns is the set of pixels reachable from the seeds by admissible
    steps. *)
Lemma growState_final :
  let st := growState data width height model gradient seeds in
  Bfs.head st = Bfs.tail st /\
  (forall i, aget (Bfs.marks st) i = Some 1 <-> R i).
Proof.
  destruct seedQueue_spec as (Hi & Hh0 & Hseed).
  pose proof (closed_init width height blocked _ Hh0) as Hc.
  destruct (run_spec rejected 1 (fun a _ => a) width height blocked
              (zeros total) R Hw Hh ltac:(done) grow_rejected_spec
              grow_R_step (length seeds + Z.to_nat total) _ Hi Hc)
    as (Hinv & Hcl & Hht & [l Hq] & _).
  { pose proof total_nonneg. rewrite Hh0. unfold total in *. lia. }
  fold total in Hinv, Hcl, Hht, Hq.
  change (Bfs.run rejected 1 (fun a _ => a) width height
            (length seeds + Z.to_nat total) (seedQueue total seeds))
    with (growState data width height model gradient seeds) in *.
  simpl. set (st := growState data width height model gradient seeds) in *.
  split; [done|]. intros i. split.
  - intros Hm.
    assert (Hin : i ∈ BfsSpec.queued st)
      by (eapply marked_zeros_queued; [exact Hinv|by exists 1]).
    by destruct (BfsSpec.inv_queued _ _ _ _ _ _ Hinv i Hin) as (_ & _ & _ & ?).
  - intros HR.
    assert (Hin : i ∈ BfsSpec.queued st).
    { induction HR as [s Hs|p n HRp IH Hadj Hedge].
      - rewrite Hq. apply elem_of_app. left. by apply Hseed.
      - destruct (adjacent4_bounds width height p n Hadj) as [Hpb Hnb].
        eapply marked_zeros_queued; [exact Hinv|].
        apply (Hcl p n).
        + unfold BfsSpec.processed. rewrite Hht. exact IH.
        + by apply neighbours_adjacent4.
        + unfold blocked. rewrite shouldExpand_admissible, Hedge. done. }
    by destruct (BfsSpec.inv_queued _ _ _ _ _ _ Hinv i Hin) as (_ & ? & _).
Qed.

End Grow.

(** C2: an in-bounds, not yet visited neighbour [n] of the dequeued pixel
    [p] is admitted exactly when the three conditions hold, and it is
    marked visited as it is enqueued; each iteration tries the in-grid
    4-neighbours of the pixel it dequeues; at every point of the loop the
    queue holds every pixel at most once and never more than
    [width * height] entries, which are exactly the visited pixels, and
    the loop ends with an empty queue. *)
Theorem growBackgroundRegion_spec :
  (forall data model gradient (st : Bfs.state unit) n p,
     aget (Bfs.marks st) n = Some 0 ->
     let st' := Bfs.tryPush (growRejected data model gradient) 1 st n p in
     if admissible data model gradient n p
     then st' = Bfs.enqueue 1 st n /\ aget (Bfs.marks st') n = Some 1
          /\ Bfs.queue st' = aset (Bfs.queue st) (Bfs.tail st) n
          /\ Bfs.tail st' = Bfs.tail st + 1
     else st' = st) /\
  (forall data model gradient width height (st : Bfs.state unit) p,
     0 < width -> 0 < height -> 0 <= p < width * height ->
     aget (Bfs.queue st) (Bfs.head st) = Some p ->
     Bfs.step (growRejected data model gradient) 1 (fun a _ => a)
       width height st
     = foldl (fun st n =>
                Bfs.tryPush (growRejected data model gradient) 1 st n p)
         (Bfs.mk (Bfs.marks st) (Bfs.queue st) (Bfs.head st + 1)
            (Bfs.tail st) (Bfs.acc st))
         (neighbours width height p)
     /\ forall n, n ∈ neighbours width height p <->
                  adjacent4 width height p n) /\
  (forall data width height model gradient seeds,
     0 < width -> 0 < height ->
     (forall s, s ∈ seeds -> 0 <= s < width * height) ->
     (forall k,
        let st := growAfter k data width height model gradient seeds in
        Bfs.tail st <= width * height /\
        Z.of_nat (length (Bfs.queue st)) = width * height /\
        NoDup (BfsSpec.queued st) /\
        (forall i, aget (Bfs.marks st) i = Some 1 <->
                   i ∈ BfsSpec.queued st)) /\
     let st := growState data width height model gradient seeds in
     Bfs.head st = Bfs.tail st /\
     forall i, aget (growBackgroundRegion data width height model gradient
                       seeds) i = Some 1 <->
               grown data width height model gradient seeds i).
Proof.
  split_and!.
  - intros data model gradient st n p Hn. simpl.
    unfold Bfs.tryPush, growRejected. rewrite Hn. simpl.
    change (shouldExpand data model gradient n p)
      with (admissible data model gradient n p).
    destruct (admissible data model gradient n p); simpl; [|done].
    split_and!; try done.
    apply aget_aset_eq. by eapply aget_Some_bounds.
  - intros data model gradient width height st p Hw Hh Hp Hq. split.
    + exact (step_neighbours (growRejected data model gradient) 1
               (fun a _ => a) width height st p Hq).
    + intros n. by apply neighbours_adjacent4.
  - intros data width height model gradient seeds Hw Hh Hseeds. split.
    + intros k.
      destruct (growAfter_inv data width height model gradient seeds
                  Hw Hh Hseeds k) as (_ & Ht & Hl & Hnd & Hm & _).
      done.
    + apply (growState_final data width height model gradient seeds
               Hw Hh Hseeds).
Qed.

Lemma growBackgroundRegion_spec_witness :
  (let st : Bfs.state unit := Bfs.mk [1; 0] [0; 0] 0 1 tt in
   let st' :=
     Bfs.tryPush (growRejected [9; 9; 9; 255; 9; 9; 9; 255]
                    (Model.mk 9 9 9 24 32) [0; 0]%float) 1 st 1 0 in
   st' = Bfs.enqueue 1 st 1 /\ aget (Bfs.marks st') 1 = Some 1
   /\ Bfs.queue st' = aset (Bfs.queue st) (Bfs.tail st) 1
   /\ Bfs.tail st' = Bfs.tail st + 1) /\
  (forall n, n ∈ neighbours 2 1 0 <-> adjacent4 2 1 0 n) /\
  Bfs.head (growState [9; 9; 9; 255; 9; 9; 9; 255] 2 1
              (Model.mk 9 9 9 24 32) [0; 0]%float [0])
  = Bfs.tail (growState [9; 9; 9; 255; 9; 9; 9; 255] 2 1
                (Model.mk 9 9 9 24 32) [0; 0]%float [0]).
Proof.
  split_and!.
  - apply (proj1 growBackgroundRegion_spec
             [9; 9; 9; 255; 9; 9; 9; 255] (Model.mk 9 9 9 24 32)
             [0; 0]%float (Bfs.mk [1; 0] [0; 0] 0 1 tt) 1 0).
    reflexivity.
  - apply (proj1 (proj2 growBackgroundRegion_spec)
             [9; 9; 9; 255; 9; 9; 9; 255] (Model.mk 9 9 9 24 32)
             [0; 0]%float 2 1 (Bfs.mk [1; 0] [0; 0] 0 1 tt) 0);
      [lia|lia|lia|reflexivity].
  - apply (proj2 (proj2 growBackgroundRegion_spec)
             [9; 9; 9; 255; 9; 9; 9; 255] 2 1 (Model.mk 9 9 9 24 32)
             [0; 0]%float [0]); [lia|lia|].
    intros s Hs%list_elem_of_singleton. lia.
Defined.
(** * The gradient map *)

Section GradientMap.

Lemma lumaTerms_bytes : forallb lumaTermsBounded (seqZ 0 256) = true.
Proof. vm_compute. reflexivity. Qed.

Lemma lumaTerm_byte (c : float) (v : Z) :
  c ∈ [0.299; 0.587; 0.114]%float -> isByte v ->
  Below 8 (c * Z2F v) /\ Nonneg (c * Z2F v).
Proof.
  intros Hc Hv. pose proof lumaTerms_bytes as H.
  rewrite forallb_forall in H.
  specialize (H v). unfold lumaTermsBounded in H.
  rewrite forallb_forall in H.
  assert (Hin : In v (seqZ 0 256)).
  { apply list_elem_of_In, elem_of_seqZ. unfold isByte in Hv. lia. }
  specialize (H Hin c (proj1 (list_elem_of_In _ _) Hc)).
  apply andb_true_iff in H. exact H.
Qed.

Context (data : list Z) (width height : Z).
Hypothesis Hbuf : pixelBuffer data width height.

Lemma buffer_byte (j : Z) :
  0 <= j < width * height * 4 -> exists v, aget data j = Some v /\ isByte v.
Proof.
  destruct Hbuf as (_ & _ & Hlen & Hall). intros Hj.
  destruct (proj1 (aget_is_Some data j) ltac:(lia)) as [v Hv].
  exists v. split; [done|].
  rewrite aget_lookup in Hv by lia.
  eapply Forall_lookup_1; eauto.
Qed.

Lemma lumaOf_Below (i : Z) :
  0 <= i < width * height -> Below 15 (lumaOf data i).
Proof.
  intros Hi. unfold lumaOf. cbv zeta.
  destruct (buffer_byte (i * 4) ltac:(lia)) as (r & -> & Hr).
  destruct (buffer_byte (i * 4 + 1) ltac:(lia)) as (g & -> & Hg).
  destruct (buffer_byte (i * 4 + 2) ltac:(lia)) as (b & -> & Hb).
  simpl num.
  destruct (lumaTerm_byte 0.299 r ltac:(apply list_elem_of_In; simpl; auto) Hr) as [Br _].
  destruct (lumaTerm_byte 0.587 g ltac:(apply list_elem_of_In; simpl; auto) Hg) as [Bg _].
  destruct (lumaTerm_byte 0.114 b ltac:(apply list_elem_of_In; simpl; auto) Hb) as [Bb _].
  pose proof (add_Below 8 8 _ _ Br Bg ltac:(lia) ltac:(lia)) as B1.
  pose proof (add_Below _ 8 _ _ B1 Bb ltac:(lia) ltac:(lia)) as B2.
  apply (fround_Below _ _) in B2; [|lia].
  eapply Below_mono; [|exact B2]. lia.
Qed.

Lemma length_lumaMap (total : Z) :
  length (lumaMap data total) = Z.to_nat total.
Proof.
  unfold lumaMap.
  rewrite (length_foldl_aset (fun i => i) (lumaOf data)).
  unfold fzeros. by rewrite length_replicate.
Qed.

Lemma aget_lumaMap (total i : Z) :
  0 <= i < total -> aget (lumaMap data total) i = Some (lumaOf data i).
Proof.
  intros Hi. unfold lumaMap.
  apply (aget_foldl_aset (fun i => i) (lumaOf data)).
  - rewrite list_fmap_id. apply NoDup_range_1.
  - apply elem_of_range_1. lia.
  - unfold fzeros. rewrite length_replicate. lia.
Qed.

Lemma gradientAt_clamped (x y : Z) :
  0 <= x < width -> 0 <= y < height ->
  gradientAt (lumaMap data (width * height)) width height x y
  = clampedGradient data width height x y.
Proof.
  intros Hx Hy. unfold gradientAt, clampedGradient. cbv zeta.
  unfold horizontalDifference, verticalDifference.
  assert (Hin : forall x' y', 0 <= x' < width -> 0 <= y' < height ->
            numf (aget (lumaMap data (width * height)) (pixelIndex width x' y'))
            = lumaOf data (pixelIndex width x' y')).
  { intros x' y' Hx' Hy'. rewrite aget_lumaMap; [done|].
    by apply pixelIndex_bounds. }
  rewrite <- !Hin by lia.
  repeat f_equal; unfold pixelIndex;
    repeat case_match; try lia;
    repeat match goal with
           | H : (_ <? _) = true |- _ => apply Z.ltb_lt in H
           | H : (_ <? _) = false |- _ => apply Z.ltb_ge in H
           end; try lia;
    first [rewrite Z.min_l by lia | rewrite Z.min_r by lia
          | rewrite Z.max_l by lia | rewrite Z.max_r by lia];
    first [lia | repeat f_equal; lia].
Qed.

Lemma horizontalDifference_Below (x y : Z) :
  0 <= x < width -> 0 <= y < height ->
  Below 17 (horizontalDifference data width x y)
  /\ Nonneg (horizontalDifference data width x y).
Proof.
  intros Hx Hy. unfold horizontalDifference.
  assert (B : Below 17
    (lumaOf data (pixelIndex width (Z.min (x + 1) (width - 1)) y)
     - lumaOf data (pixelIndex width (Z.max (x - 1) 0) y))).
  { apply (sub_Below 15 15); try lia;
      apply lumaOf_Below, pixelIndex_bounds; lia. }
  split; [by apply abs_Below|].
  eapply abs_Nonneg, Below_not_nan, B.
Qed.

Lemma verticalDifference_Below (x y : Z) :
  0 <= x < width -> 0 <= y < height ->
  Below 17 (verticalDifference data width height x y)
  /\ Nonneg (verticalDifference data width height x y).
Proof.
  intros Hx Hy. unfold verticalDifference.
  assert (B : Below 17
    (lumaOf data (pixelIndex width x (Z.min (y + 1) (height - 1)))
     - lumaOf data (pixelIndex width x (Z.max (y - 1) 0)))).
  { apply (sub_Below 15 15); try lia;
      apply lumaOf_Below, pixelIndex_bounds; lia. }
  split; [by apply abs_Below|].
  eapply abs_Nonneg, Below_not_nan, B.
Qed.

Lemma clampedGradient_Nonneg (x y : Z) :
  0 <= x < width -> 0 <= y < height ->
  Nonneg (clampedGradient data width height x y).
Proof.
  intros Hx Hy. apply fround_Nonneg, add_Nonneg.
  - by apply horizontalDifference_Below.
  - by apply verticalDifference_Below.
Qed.

Lemma clampedGradient_Below (x y : Z) :
  0 <= x < width -> 0 <= y < height ->
  Below 22 (clampedGradient data width height x y).
Proof.
  intros Hx Hy.
  destruct (horizontalDifference_Below x y Hx Hy) as [B1 _].
  destruct (verticalDifference_Below x y Hx Hy) as [B2 _].
  pose proof (add_Below 17 17 _ _ B1 B2 ltac:(lia) ltac:(lia)) as B.
  apply (fround_Below _ _) in B; [|lia]. exact B.
Qed.

Lemma horizontalDifference_single (x y : Z) :
  width = 1 -> 0 <= x < width -> 0 <= y < height ->
  isPosZero (horizontalDifference data width x y).
Proof.
  intros Hw Hx Hy. unfold horizontalDifference.
  replace (Z.min (x + 1) (width - 1)) with 0 by lia.
  replace (Z.max (x - 1) 0) with 0 by lia.
  eapply abs_zero, sub_diag_zero, lumaOf_Below, pixelIndex_bounds; lia.
Qed.

Lemma verticalDifference_single (x y : Z) :
  height = 1 -> 0 <= x < width -> 0 <= y < height ->
  isPosZero (verticalDifference data width height x y).
Proof.
  intros Hh Hx Hy. unfold verticalDifference.
  replace (Z.min (y + 1) (height - 1)) with 0 by lia.
  replace (Z.max (y - 1) 0) with 0 by lia.
  eapply abs_zero, sub_diag_zero, lumaOf_Below, pixelIndex_bounds; lia.
Qed.

Lemma aget_computeGradientMap (x y : Z) :
  0 <= x < width -> 0 <= y < height ->
  aget (computeGradientMap data width height) (pixelIndex width x y)
  = Some (clampedGradient data width height x y).
Proof.
  intros Hx Hy. unfold computeGradientMap. cbv zeta.
  rewrite aget_fill2; try done.
  - by rewrite gradientAt_clamped.
  - unfold fzeros. rewrite length_replicate.
    pose proof (pixelIndex_bounds width height x y Hx Hy). lia.
Qed.

End GradientMap.

(** C6, as stated, fails: in a buffer of one black and one white pixel both
    pixels lie on the first and last row and on the first or last column,
    and the gradient is 255 at both. *)
Lemma computeGradientMap_edge_nonzero :
  pixelBuffer blackWhite 2 1 /\
  computeGradientMap blackWhite 2 1 = [255; 255]%float /\
  ~ (forall x y, 0 <= x < 2 -> 0 <= y < 1 ->
       x = 0 \/ x = 2 - 1 \/ y = 0 \/ y = 1 - 1 ->
       exists g, aget (computeGradientMap blackWhite 2 1) (pixelIndex 2 x y)
                 = Some g /\ PrimFloat.eqb g 0 = true).
Proof.
  assert (E : computeGradientMap blackWhite 2 1 = [255; 255]%float)
    by (vm_compute; reflexivity).
  split_and!.
  - unfold pixelBuffer, blackWhite. split_and!; try done.
    repeat (apply Forall_cons; split; [unfold isByte; lia|]).
    apply Forall_nil_2.
  - exact E.
  - intros H. destruct (H 0 0) as (g & Hg & Hz); try lia.
    rewrite E in Hg. vm_compute in Hg. injection Hg as <-.
    vm_compute in Hz. discriminate Hz.
Qed.

(** C6, amended: for every pixel buffer, [computeGradientMap] returns one
    number per pixel; the number of pixel [(x, y)] is not negative and is
    the rounded sum of the absolute luma differences along the row and
    along the column, where a neighbour outside the buffer is replaced by
    the pixel itself.  A difference is zero where both neighbours are
    replaced (a buffer one pixel wide, or one pixel high), and the gradient
    of a buffer of one pixel is zero. *)
Theorem computeGradientMap_spec (data : list Z) (width height : Z) :
  pixelBuffer data width height ->
  let gradient := computeGradientMap data width height in
  Z.of_nat (length gradient) = width * height /\
  forall x y, 0 <= x < width -> 0 <= y < height ->
    exists g,
      aget gradient (pixelIndex width x y) = Some g /\
      PrimFloat.leb 0 g = true /\
      g = fround (horizontalDifference data width x y
                  + verticalDifference data width height x y) /\
      (width = 1 -> horizontalDifference data width x y = 0%float) /\
      (height = 1 -> verticalDifference data width height x y = 0%float) /\
      (width = 1 -> height = 1 -> g = 0%float).
Proof.
  intros Hbuf gradient. split.
  - unfold gradient, computeGradientMap. cbv zeta.
    rewrite length_fill2. unfold fzeros. rewrite length_replicate.
    destruct Hbuf as (Hw & Hh & _). nia.
  - intros x y Hx Hy. exists (clampedGradient data width height x y).
    split_and!.
    + by apply aget_computeGradientMap.
    + by apply Nonneg_leb_0, clampedGradient_Nonneg.
    + done.
    + intros Hw. by eapply isPosZero_eq, horizontalDifference_single.
    + intros Hh. by eapply isPosZero_eq, verticalDifference_single.
    + intros Hw Hh. apply isPosZero_eq, fround_zero, add_zero.
      * by eapply horizontalDifference_single.
      * by eapply verticalDifference_single.
Qed.

Lemma computeGradientMap_spec_witness :
  let gradient := computeGradientMap blackWhite 2 1 in
  Z.of_nat (length gradient) = 2 * 1 /\
  forall x y, 0 <= x < 2 -> 0 <= y < 1 ->
    exists g,
      aget gradient (pixelIndex 2 x y) = Some g /\
      PrimFloat.leb 0 g = true /\
      g = fround (horizontalDifference blackWhite 2 x y
                  + verticalDifference blackWhite 2 1 x y) /\
      (2 = 1 -> horizontalDifference blackWhite 2 x y = 0%float) /\
      (1 = 1 -> verticalDifference blackWhite 2 1 x y = 0%float) /\
      (2 = 1 -> 1 = 1 -> g = 0%float).
Proof.
  apply (computeGradientMap_spec blackWhite 2 1).
  unfold pixelBuffer, blackWhite. split_and!; try done.
  repeat (apply Forall_cons; split; [unfold isByte; lia|]).
  apply Forall_nil_2.
Defined.
(** * Softening the mask *)

Section WindowMean.

Context (src : list float) (pos bound : Z) (at_ : Z -> Z).

Lemma window_sum_zero (l : list Z) (count : Z) :
  (forall d, d ∈ l -> 0 <= pos + d < bound ->
     numf (aget src (at_ (pos + d))) = 0%float) ->
  exists count',
    foldl (windowStep src pos bound at_) (0%float, count) l = (0%float, count') /\
    count <= count' <= count + Z.of_nat (length l) /\
    (0 ∈ l -> 0 <= pos < bound -> count + 1 <= count').
Proof.
  revert count. induction l as [|d l IH]; intros count Hz.
  - exists count. simpl. split; [done|]. split; [lia|].
    intros H. by apply elem_of_nil in H.
  - assert (Hs : windowStep src pos bound at_ (0%float, count) d
                 = if (pos + d <? 0) || (bound <=? pos + d)
                   then (0%float, count)
                   else ((0 + numf (aget src (at_ (pos + d))))%float,
                         count + 1)) by reflexivity.
    cbn [foldl]. rewrite Hs. clear Hs.
    destruct ((pos + d <? 0) || (bound <=? pos + d)) eqn:E.
    + destruct (IH count) as (c & -> & Hc & H0).
      { intros d' Hd'. apply Hz. by right. }
      exists c. split; [done|]. split; [simpl length; lia|].
      intros [Hd|H]%elem_of_cons Hp; [subst d|by apply H0].
        apply orb_true_iff in E as [E|E]; [apply Z.ltb_lt in E|
                                           apply Z.leb_le in E]; lia.
    + apply orb_false_iff in E as [E1%Z.ltb_ge E2%Z.leb_gt].
      rewrite Hz by (first [by left | lia]).
      change (0 + 0)%float with 0%float.
      destruct (IH (count + 1)) as (c & -> & Hc & H0).
      { intros d' Hd'. apply Hz. by right. }
      exists c. split; [done|]. split; [simpl length; lia|].
      intros _ _. lia.
Qed.

Lemma windowMean_zero (radius : Z) :
  0 <= radius < 2 ^ 61 -> 0 <= pos < bound ->
  (forall n, 0 <= n < bound -> Z.abs (n - pos) <= radius ->
     numf (aget src (at_ n)) = 0%float) ->
  windowMean src radius pos bound at_ = 0%float.
Proof.
  intros Hr Hp Hz. unfold windowMean.
  destruct (window_sum_zero (range (- radius) (radius + 1) 1) 0)
    as (c & E & Hc & H0).
  { intros d Hd%elem_of_range_1 Hn. apply Hz; lia. }
  rewrite E.
  rewrite range_1, length_seqZ in Hc.
  specialize (H0 ltac:(apply elem_of_range_1; lia) Hp).
  apply isPosZero_eq, fround_zero, div_0_Z2F.
  assert (2 ^ 61 * 4 = 2 ^ 63) by done. lia.
Qed.

End WindowMean.

Section Soften.

Context (mask : list Z) (width height : Z).
Hypothesis Hw : 1 <= width.
Hypothesis Hh : 1 <= height.
Hypothesis Hlen : Z.of_nat (length mask) = width * height.
Hypothesis Hbin : binaryMask mask.

Lemma aget_floatMask (i : Z) :
  aget ((fun v => fround (Z2F v)) <$> mask) i
  = (fun v => fround (Z2F v)) <$> aget mask i.
Proof. unfold aget. case_match; [done|]. apply list_lookup_fmap. Qed.

Lemma mask_bit (x y : Z) :
  0 <= x < width -> 0 <= y < height ->
  aget mask (pixelIndex width x y) = Some 0
  \/ aget mask (pixelIndex width x y) = Some 1.
Proof.
  intros Hx Hy. pose proof (pixelIndex_bounds width height x y Hx Hy) as Hb.
  destruct (proj1 (aget_is_Some mask (pixelIndex width x y)) ltac:(lia))
    as [v Hv].
  rewrite Hv. rewrite aget_lookup in Hv by lia.
  destruct (Forall_lookup_1 _ _ _ _ Hbin Hv) as [->| ->]; auto.
Qed.

(** A window without foreground blurs to zero. *)
Lemma boxBlur_zero (radius x y : Z) :
  0 <= radius < 2 ^ 61 -> 0 <= x < width -> 0 <= y < height ->
  ~ foregroundWithin mask width height radius x y ->
  aget (boxBlur ((fun v => fround (Z2F v)) <$> mask) width height radius)
    (pixelIndex width x y) = Some 0%float.
Proof.
  intros Hr Hx Hy Hnone. unfold boxBlur.
  rewrite length_fmap.
  rewrite aget_fill2; try done; cycle 1.
  { unfold fzeros. rewrite length_replicate.
    pose proof (pixelIndex_bounds width height x y Hx Hy). lia. }
  f_equal. apply windowMean_zero; try done.
  intros ny Hny Hdy.
  change (ny * width + x) with (pixelIndex width x ny).
  rewrite aget_fill2; try done; cycle 1.
  { unfold fzeros. rewrite length_replicate.
    pose proof (pixelIndex_bounds width height x ny Hx Hny). lia. }
  simpl numf. apply windowMean_zero; try done.
  intros nx Hnx Hdx.
  change (ny * width + nx) with (pixelIndex width nx ny).
  rewrite aget_floatMask.
  destruct (mask_bit nx ny Hnx Hny) as [->|E]; [done|].
  exfalso. apply Hnone. exists nx, ny. split_and!; try done; lia.
Qed.

Lemma length_softenBinaryMask (radius : Z) :
  length (softenBinaryMask mask width height radius) = length mask.
Proof.
  unfold softenBinaryMask. case_match; rewrite !length_fmap; [done|].
  unfold boxBlur. rewrite length_fill2. unfold fzeros.
  rewrite length_replicate, length_fmap. lia.
Qed.

Lemma softenBinaryMask_zero (radius x y : Z) :
  1 <= radius < 2 ^ 61 -> 0 <= x < width -> 0 <= y < height ->
  ~ foregroundWithin mask width height radius x y ->
  aget (softenBinaryMask mask width height radius) (pixelIndex width x y)
  = Some 0%float.
Proof.
  intros Hr Hx Hy Hnone. unfold softenBinaryMask.
  destruct (Z.leb_spec radius 0); [lia|].
  pose proof (pixelIndex_bounds width height x y Hx Hy) as Hb.
  rewrite aget_lookup by lia. rewrite list_lookup_fmap.
  rewrite <- aget_lookup by lia.
  rewrite boxBlur_zero; try done; lia.
Qed.

Lemma foregroundWithin_dec (radius x y : Z) :
  foregroundWithin mask width height radius x y
  \/ ~ foregroundWithin mask width height radius x y.
Proof.
  set (P := fun p : Z * Z =>
              Z.abs (p.1 - x) <= radius /\ Z.abs (p.2 - y) <= radius /\
              aget mask (pixelIndex width p.1 p.2) = Some 1).
  destruct (decide (Exists P (pixels width height))) as [H|H].
  - left. apply Exists_exists in H as ([x' y'] & Hin & H1 & H2 & H3).
    apply elem_of_pixels in Hin. exists x', y'. simpl in *. tauto.
  - right. intros (x' & y' & Hx' & Hy' & H1 & H2 & H3). apply H.
    apply Exists_exists. exists (x', y'). split.
    + by apply elem_of_pixels.
    + done.
Qed.

Lemma foregroundWithin_mono (r r' x y : Z) :
  r <= r' -> foregroundWithin mask width height r x y ->
  foregroundWithin mask width height r' x y.
Proof.
  intros Hr (x' & y' & ?). exists x', y'. split_and!; try tauto; lia.
Qed.

End Soften.

(** C7, as stated, fails: for the mask of 13 x 13 pixels whose foreground
    is a block of 2 x 3 pixels, the matte is not zero at pixel (6, 6) for
    feather amount 1 (radius 2) and is zero there for feather amount 2
    (radius 3): the block weighs 6/25 of the smaller window and 6/49 of
    the larger, and the remapping sends every mean up to 0.16 to zero. *)
Lemma softenBinaryMask_support_shrinks :
  let mask := blockMask 13 13 6 5 2 3 in
  let radius (f : float) :=
    toZ (blurRadius (constructor (Build_Options None (Some f) None None))) in
  binaryMask mask /\
  radius 1%float = featherRadius 1 /\ radius 2%float = featherRadius 2 /\
  exists v,
    aget (softenBinaryMask mask 13 13 (featherRadius 1)) (pixelIndex 13 6 6)
    = Some v /\ PrimFloat.eqb v 0 = false /\
    aget (softenBinaryMask mask 13 13 (featherRadius 2)) (pixelIndex 13 6 6)
    = Some 0%float.
Proof.
  intros mask radius. split_and!.
  - unfold binaryMask. apply (bool_decide_unpack _). vm_compute. exact I.
  - vm_compute. reflexivity.
  - vm_compute. reflexivity.
  - eexists. split_and!; vm_compute; reflexivity.
Qed.

(** C7, amended: for every binary mask and feather amounts [f1 <= f2], a
    pixel whose softened matte is not zero under the radius of [f1] has a
    foreground pixel of the mask in its window of that radius, hence in
    its window of the radius of [f2]: the region in which the matte can be
    non-zero never shrinks when the feather amount grows.  (The matte
    itself can fall to zero there.) *)
Theorem softenBinaryMask_support (mask : list Z) (width height f1 f2 x y : Z)
  (v : float) :
  1 <= width -> 1 <= height ->
  Z.of_nat (length mask) = width * height -> binaryMask mask ->
  f1 <= f2 < 2 ^ 60 ->
  0 <= x < width -> 0 <= y < height ->
  aget (softenBinaryMask mask width height (featherRadius f1))
    (pixelIndex width x y) = Some v ->
  PrimFloat.eqb v 0 = false ->
  foregroundWithin mask width height (featherRadius f1) x y /\
  foregroundWithin mask width height (featherRadius f2) x y.
Proof.
  intros Hw Hh Hlen Hbin Hf Hx Hy Hv Hnz.
  assert (Hr : 1 <= featherRadius f1 <= featherRadius f2
               /\ featherRadius f2 < 2 ^ 61).
  { unfold featherRadius. assert (2 ^ 60 * 2 = 2 ^ 61) by done. lia. }
  assert (H1 : foregroundWithin mask width height (featherRadius f1) x y).
  { destruct (foregroundWithin_dec mask width height (featherRadius f1) x y)
      as [H|H]; [done|].
    rewrite (softenBinaryMask_zero mask width height Hw Hh Hlen Hbin
               (featherRadius f1) x y) in Hv; try done; try lia.
    injection Hv as <-. vm_compute in Hnz. discriminate Hnz. }
  split; [done|].
  eapply foregroundWithin_mono; [|exact H1]. lia.
Qed.

Lemma softenBinaryMask_support_witness :
  foregroundWithin [0; 1; 1; 0; 1; 1; 0; 0; 0] 3 3 (featherRadius 1) 0 0 /\
  foregroundWithin [0; 1; 1; 0; 1; 1; 0; 0; 0] 3 3 (featherRadius 2) 0 0.
Proof.
  apply (softenBinaryMask_support [0; 1; 1; 0; 1; 1; 0; 0; 0] 3 3 1 2 0 0
           (numf (aget (softenBinaryMask [0; 1; 1; 0; 1; 1; 0; 0; 0] 3 3
                          (featherRadius 1)) (pixelIndex 3 0 0))));
    try lia; try (vm_compute; reflexivity).
  unfold binaryMask.
  repeat (apply Forall_cons; split; [lia|]). apply Forall_nil_2.
Defined.
(** * Border seeds *)

Lemma foldl_ext_init {S B : Type} (f g : S -> B -> S) (l : list B)
  (s s' : S) :
  (forall s x, f s x = g s x) -> s = s' -> foldl f s l = foldl g s' l.
Proof. intros E ->. by apply foldl_ext. Qed.

Section BorderSeeds.

Context (data : list Z) (width height : Z) (model : Model.t)
  (gradient : list float).

Local Abbreviation test := (seedTest data model gradient).
Local Abbreviation candidate := (candidateAt data model gradient).

Lemma consider_spec (st : list Candidate.t * list Z) (idx : Z) :
  consider data model gradient st idx
  = (st.1 ++ [candidate idx],
     st.2 ++ filter (fun i => test i = true) [idx]).
Proof.
  destruct st as [cs ss]. unfold consider. simpl. f_equal.
  rewrite filter_cons, filter_nil. unfold seedTest.
  destruct (_ && _); simpl; [done|]. by rewrite app_nil_r.
Qed.

Lemma foldl_consider (l : list Z) (st : list Candidate.t * list Z) :
  foldl (consider data model gradient) st l
  = (st.1 ++ (candidate <$> l),
     st.2 ++ filter (fun i => test i = true) l).
Proof.
  revert st. induction l as [|idx l IH]; intros st.
  - simpl. rewrite !app_nil_r. by destruct st.
  - simpl foldl. rewrite IH, consider_spec. simpl fst. simpl snd.
    rewrite fmap_cons, <- !app_assoc. f_equal.
    by rewrite <- filter_app.
Qed.

Lemma borderCandidates_band :
  borderCandidates data width height model gradient
  = (candidate <$> borderBand width height,
     filter (fun i => test i = true) (borderBand width height)).
Proof.
  unfold borderCandidates, borderBand. cbv zeta.
  fold (borderThickness width height).
  set (t := borderThickness width height).
  etransitivity; [|apply (foldl_consider _ ([], []))].
  symmetry. rewrite foldl_app, !foldl_bind.
  apply foldl_ext_init.
  - intros st x. by rewrite foldl_bind.
  - apply foldl_ext. intros st y. by rewrite foldl_bind.
Qed.

End BorderSeeds.

Section SeedRanking.

Context (data : list Z) (width height : Z) (model : Model.t)
  (gradient : list float).
Hypothesis Hbuf : pixelBuffer data width height.
Hypothesis Hsize : Z.min width height < 2 ^ 53.
Hypothesis Hmodel : definedColour model.
Hypothesis Hgrad : gradientMap gradient width height.

Local Abbreviation test := (seedTest data model gradient).
Local Abbreviation candidate := (candidateAt data model gradient).
Local Abbreviation band := (borderBand width height).

Lemma borderBand_bounds :
  Forall (fun idx => 0 <= idx < width * height) band.
Proof.
  destruct Hbuf as (Hw & Hh & _).
  pose proof (borderThickness_bounds width height Hw Hh Hsize) as Ht.
  apply Forall_forall. intros idx Hin. unfold borderBand in Hin.
  cbv zeta in Hin. set (t := borderThickness width height) in *.
  apply elem_of_app in Hin as [Hin|Hin];
    apply list_elem_of_bind in Hin as (a & Hin & Ha%elem_of_range_1);
    apply list_elem_of_bind in Hin as (b & Hin & Hb%elem_of_range_1);
    apply elem_of_cons in Hin as [->|Hin];
    try (apply elem_of_cons in Hin as [->|Hin];
         [|by apply elem_of_nil in Hin]).
  - apply (pixelIndex_bounds width height b a); lia.
  - apply (pixelIndex_bounds width height b (height - 1 - a)); lia.
  - apply (pixelIndex_bounds width height a b); lia.
  - apply (pixelIndex_bounds width height (width - 1 - a) b); lia.
Qed.

Lemma borderBand_nonempty : band <> [].
Proof.
  destruct Hbuf as (Hw & Hh & _).
  pose proof (borderThickness_bounds width height Hw Hh Hsize) as Ht.
  intros E. assert (Hin : 0 * width + 0 ∈ band); [|by rewrite E in Hin;
    apply elem_of_nil in Hin].
  unfold borderBand. cbv zeta. apply elem_of_app. left.
  apply list_elem_of_bind. exists 0. split; [|apply elem_of_range_1; lia].
  apply list_elem_of_bind. exists 0. split; [|apply elem_of_range_1; lia].
  by left.
Qed.

Lemma channel_Below (j : Z) :
  0 <= j < width * height * 4 -> Below 9 (num (aget data j)).
Proof.
  intros Hj. destruct (buffer_byte data width height Hbuf j Hj)
    as (v & -> & Hv). simpl. unfold isByte in Hv.
  apply (Z2F_Below v 8); [|lia]. change (2 ^ 8) with 256. lia.
Qed.

Lemma rgbDistance_Nonneg (r1 g1 b1 r2 g2 b2 : float) :
  Below 9 r1 -> Below 9 g1 -> Below 9 b1 ->
  is_nan r2 = false -> is_nan g2 = false -> is_nan b2 = false ->
  Nonneg (rgbDistance r1 g1 b1 r2 g2 b2).
Proof.
  intros R1 G1 B1 R2 G2 B2. unfold rgbDistance. cbv zeta.
  apply sqrt_Nonneg. repeat apply add_Nonneg;
    eapply mul_self_Nonneg, sub_Below_not_nan; eauto.
Qed.

Lemma candidateScore_Nonneg (idx : Z) :
  0 <= idx < width * height -> Nonneg (candidateScore (candidate idx)).
Proof.
  intros Hi. unfold candidateScore, candidateAt. simpl.
  destruct Hmodel as (Mr & Mg & Mb). destruct Hgrad as (Hlen & Hall).
  apply add_Nonneg.
  - unfold rgbDistanceAt. cbv zeta.
    apply rgbDistance_Nonneg; try done; apply channel_Below; lia.
  - destruct (proj1 (aget_is_Some gradient idx) ltac:(lia)) as [g Hg].
    rewrite Hg. simpl numf. rewrite aget_lookup in Hg by lia.
    apply mul_Nonneg; [eapply Forall_lookup_1; eauto|reflexivity| |];
      [right|left]; reflexivity.
Qed.

Lemma candidates_defined :
  Forall (fun c => is_nan (candidateScore c) = false) (candidate <$> band).
Proof.
  apply Forall_fmap. eapply Forall_impl; [apply borderBand_bounds|].
  intros idx Hi. simpl. by apply Nonneg_not_nan, candidateScore_Nonneg.
Qed.

End SeedRanking.
(** * Connected components of the foreground *)

Section Components.

Variables (mask : list Z) (width height : Z).
Hypothesis Hw : 0 < width.
Hypothesis Hh : 0 < height.
Hypothesis Hlen : Z.of_nat (length mask) = width * height.
Hypothesis Hbin : binaryMask mask.

Local Abbreviation total := (width * height).
Local Abbreviation rejected :=
  (fun (labels : list Z) (nIdx _ : Z) => labelRejected mask labels nIdx).
Local Abbreviation blocked :=
  (fun (n _ : Z) => negb (truthyZ (aget mask n))).
Local Abbreviation visit :=
  (fun '(area, touchesCenter) idx =>
     (area + 1, touchesCenter || inCenter width height idx)).

Lemma foreground_truthy (n : Z) :
  truthyZ (aget mask n) = true <-> aget mask n = Some 1.
Proof.
  split; [|by intros ->].
  destruct (aget mask n) as [v|] eqn:E; [|done].
  pose proof (aget_Some_bounds _ _ _ E) as Hb.
  destruct (mask_value mask width height Hlen Hbin n ltac:(lia)) as [H|H];
    rewrite E in H; injection H as ->; done.
Qed.

Lemma joined_foreground (root j : Z) :
  joined mask width height root j -> aget mask j = Some 1.
Proof. intros H. induction H as [b [-> Hb]|p n _ _ _ Hn]; done. Qed.

Lemma joined_bounds (root j : Z) :
  joined mask width height root j -> 0 <= j < total.
Proof.
  intros H%joined_foreground. apply aget_Some_bounds in H. lia.
Qed.

Lemma label_rejected_spec (marks : list Z) (n p v : Z) :
  aget marks n = Some v -> rejected marks n p = negb (v =? 0) || blocked n p.
Proof.
  intros H. unfold labelRejected. rewrite H, orb_comm. f_equal.
  destruct v; done.
Qed.

Lemma label_R_step (m0 : list Z) (root p n : Z) :
  joined mask width height root p -> 0 <= p < total ->
  n ∈ neighbours width height p -> blocked n p = false ->
  aget m0 n = Some 0 -> joined mask width height root n.
Proof.
  intros HR Hp Hn Hb _. apply (reach_step _ _ _ _ p n HR).
  - by apply neighbours_adjacent4.
  - apply foreground_truthy. by apply negb_false_iff in Hb.
Qed.

Lemma foldl_visit (l : list Z) (area : Z) (touches : bool) :
  foldl visit (area, touches) l
  = (area + Z.of_nat (length l), touches || touchesCenter width height l).
Proof.
  revert area touches. induction l as [|idx l IH]; intros area touches.
  - simpl. by rewrite Z.add_0_r, orb_false_r.
  - simpl foldl. rewrite IH. simpl length. simpl touchesCenter.
    rewrite orb_assoc. f_equal. lia.
Qed.

(** A pixel joined to a labelled pixel carries the same label. *)
Lemma labelled_closed (i : Z) (comps : list (list Z)) (st : Labelling.t)
  (k : nat) (c : list Z) (n p : Z) :
  labelled mask width height i comps st ->
  comps !! k = Some c -> n ∈ c -> adjacent4 width height n p ->
  aget mask p = Some 1 -> p ∈ c.
Proof.
  intros Hinv Hc Hn Hadj Hp.
  destruct (lab_comp _ _ _ _ _ _ Hinv k c Hc) as (_ & root & _ & Hroot).
  apply Hroot. apply (reach_step _ _ _ _ n p); [by apply Hroot|done..].
Qed.

Lemma labelFrom_rejected (i : Z) (comps : list (list Z)) (st : Labelling.t) :
  labelled mask width height i comps st -> 0 <= i < total ->
  labelRejected mask (Labelling.labels st) i = true ->
  labelled mask width height (i + 1) comps st.
Proof.
  intros Hinv Hi Hrej. destruct Hinv as [H1 H2 H3 H4 H5 H6 H7 H8 H9].
  split; try done.
  intros p Hp Hfg. destruct (decide (p = i)) as [->|Hne]; [|apply H9; [lia|done]].
  unfold labelRejected in Hrej. rewrite Hfg in Hrej. simpl in Hrej.
  intros E. by rewrite E in Hrej.
Qed.

Lemma labelFrom_fresh (i : Z) (comps : list (list Z)) (st : Labelling.t) :
  labelled mask width height i comps st -> 0 <= i < total ->
  labelRejected mask (Labelling.labels st) i = false ->
  exists c,
    labelled mask width height (i + 1) (comps ++ [c])
      (labelFrom mask width height st i).
Proof.
  intros Hinv Hi Hrej. unfold labelFrom. rewrite Hrej. cbv zeta.
  set (k := Labelling.componentId st + 1).
  set (R := joined mask width height i).
  set (m0 := Labelling.labels st).
  assert (Hfg : aget mask i = Some 1).
  { apply foreground_truthy. unfold labelRejected in Hrej.
    apply orb_false_iff in Hrej as [Hrej _]. by apply negb_false_iff. }
  assert (Hm0 : aget m0 i = Some 0).
  { unfold labelRejected in Hrej. apply orb_false_iff in Hrej as [_ Hrej].
    fold m0 in Hrej. destruct (aget m0 i) as [[| |]|]; done. }
  assert (Hk : k = Z.of_nat (length comps) + 1)
    by (unfold k; by rewrite (lab_id _ _ _ _ _ _ Hinv)).
  assert (Hk0 : k <> 0) by lia.
  set (empty := Bfs.mk m0 (Labelling.queue st) 0 0 (0, false)).
  assert (Hempty : BfsSpec.inv width height k m0 R empty).
  { split; simpl; unfold BfsSpec.queued; simpl.
    - apply (lab_len _ _ _ _ _ _ Hinv).
    - apply (lab_qlen _ _ _ _ _ _ Hinv).
    - lia.
    - lia.
    - apply NoDup_nil_2.
    - intros ? []%elem_of_nil.
    - done. }
  set (start := Bfs.mk (aset m0 i k) (aset (Labelling.queue st) 0 i) 0 1
                  (0, false)).
  assert (Hstart : BfsSpec.inv width height k m0 R start).
  { change start with (Bfs.enqueue k empty i).
    apply enqueue_inv; try done. apply reach_start. done. }
  assert (Hq0 : BfsSpec.queued start = [i]).
  { change start with (Bfs.enqueue k empty i).
    rewrite queued_enqueue; [done|]. simpl.
    rewrite (lab_qlen _ _ _ _ _ _ Hinv). lia. }
  destruct (run_spec rejected k visit width height blocked m0 R Hw Hh Hk0
              label_rejected_spec (label_R_step m0 i)
              (Z.to_nat total) start Hstart
              (closed_init width height blocked start eq_refl))
    as (Hfin & Hclosed & Hht & [l Hq] & Hacc).
  { simpl. lia. }
  set (fin := Bfs.run rejected k visit width height (Z.to_nat total)
                start) in *.
  rewrite Hq0 in Hq. simpl in Hacc. rewrite drop_0, foldl_visit in Hacc.
  simpl in Hacc. rewrite Hacc.
  set (c := BfsSpec.queued fin) in *.
  assert (Hcq : forall j, j ∈ c ->
            0 <= j < total /\ aget (Bfs.marks fin) j = Some k /\
            aget m0 j = Some 0 /\ R j)
    by apply (BfsSpec.inv_queued _ _ _ _ _ _ Hfin).
  assert (Hother : forall j, j ∉ c -> aget (Bfs.marks fin) j = aget m0 j)
    by apply (BfsSpec.inv_other _ _ _ _ _ _ Hfin).
  assert (Hcomplete : forall j, R j -> j ∈ c).
  { intros j HR. induction HR as [b [-> _]|p n HRp IH Hadj Hedge].
    - rewrite Hq. by left.
    - destruct (adjacent4_bounds width height p n Hadj) as [Hpb Hnb].
      destruct (Hclosed p n) as (v & Hv & Hv0).
      + unfold BfsSpec.processed. rewrite Hht. exact IH.
      + by apply neighbours_adjacent4.
      + apply negb_false_iff. by apply foreground_truthy.
      + destruct (decide (n ∈ c)) as [|Hnc]; [done|exfalso].
        rewrite (Hother n Hnc) in Hv.
        destruct (lab_value _ _ _ _ _ _ Hinv n Hnb)
          as (v' & Hv' & _ & Hvc).
        fold m0 in Hv'. rewrite Hv in Hv'. injection Hv' as <-.
        destruct (Hvc Hv0) as (c' & Hc' & Hnc').
        assert (Hpc' : p ∈ c').
        { eapply labelled_closed; eauto.
          - by apply adjacent4_sym.
          - by apply (joined_foreground i). }
        pose proof (lab_member _ _ _ _ _ _ Hinv _ _ _ Hc' Hpc') as Hlp.
        destruct (Hcq p IH) as (_ & _ & Hp0 & _).
        fold m0 in Hlp. rewrite Hp0 in Hlp. injection Hlp. lia. }
  exists c. destruct Hinv as [H1 H2 H3 H4 H5 H6 H7 H8 H9].
  split; simpl.
  - apply (BfsSpec.inv_marks_len _ _ _ _ _ _ Hfin).
  - apply (BfsSpec.inv_queue_len _ _ _ _ _ _ Hfin).
  - rewrite length_app. simpl. lia.
  - rewrite H4, fmap_app. simpl. done.
  - rewrite H5, fmap_app. simpl. done.
  - intros p Hp. destruct (decide (p ∈ c)) as [Hpc|Hpc].
    + destruct (Hcq p Hpc) as (_ & Hm & _). exists k.
      split; [done|]. rewrite length_app. simpl. split; [lia|].
      intros _. exists c. split; [|done].
      rewrite lookup_app_r by lia.
      replace (Z.to_nat (k - 1) - length comps)%nat with 0%nat by lia. done.
    + destruct (H6 p Hp) as (v & Hv & Hvr & Hvc). exists v.
      rewrite (Hother p Hpc). split; [done|].
      rewrite length_app. simpl. split; [lia|].
      intros Hv0. destruct (Hvc Hv0) as (c' & Hc' & Hpc').
      exists c'. split; [|done]. by apply lookup_app_l_Some.
  - intros k' c' p Hc' Hpc'.
    apply lookup_app_Some in Hc' as [Hc'|[Hge Hc']].
    + pose proof (H7 k' c' p Hc' Hpc') as Hl.
      rewrite Hother; [done|]. intros Hpc.
      destruct (Hcq p Hpc) as (_ & _ & Hp0 & _).
      fold m0 in Hl. rewrite Hp0 in Hl. injection Hl. lia.
    + apply list_lookup_singleton_Some in Hc' as [Hk' <-].
      destruct (Hcq p Hpc') as (_ & -> & _). f_equal. lia.
  - intros k' c' Hc'.
    apply lookup_app_Some in Hc' as [Hc'|[Hge Hc']]; [by eapply H8|].
    apply list_lookup_singleton_Some in Hc' as [_ <-].
    split; [apply (BfsSpec.inv_nodup _ _ _ _ _ _ Hfin)|].
    exists i. split; [rewrite Hq; by left|].
    intros j. split; [intros Hj; by apply Hcq|apply Hcomplete].
  - intros p Hp Hpfg. destruct (decide (p ∈ c)) as [Hpc|Hpc].
    + destruct (Hcq p Hpc) as (_ & -> & _). congruence.
    + rewrite (Hother p Hpc). destruct (decide (p = i)) as [->|Hne].
      * exfalso. apply Hpc. rewrite Hq. by left.
      * apply H9; [lia|done].
Qed.

Lemma labelFrom_inv (i : Z) (comps : list (list Z)) (st : Labelling.t) :
  labelled mask width height i comps st -> 0 <= i < total ->
  exists comps',
    labelled mask width height (i + 1) comps'
      (labelFrom mask width height st i).
Proof.
  intros Hinv Hi.
  destruct (labelRejected mask (Labelling.labels st) i) eqn:Hrej.
  - exists comps. unfold labelFrom. rewrite Hrej.
    by apply labelFrom_rejected.
  - destruct (labelFrom_fresh i comps st Hinv Hi Hrej) as [c Hc]. eauto.
Qed.

Lemma labelComponents_prefix (n : nat) :
  Z.of_nat n <= total ->
  exists comps,
    labelled mask width height (Z.of_nat n) comps
      (foldl (labelFrom mask width height)
         (Labelling.mk (zeros total) (zeros total) 0 [0] [false])
         (range 0 (Z.of_nat n) 1)).
Proof.
  induction n as [|n IH]; intros Hn.
  - exists []. rewrite range_1_nil by lia. simpl.
    assert (0 <= total) by (apply Z.mul_nonneg_nonneg; lia).
    split; simpl; unfold zeros; rewrite ?length_replicate; try lia; try done.
    intros p Hp. exists 0. split; [by apply aget_zeros|].
    split; [simpl; lia|done].
  - destruct IH as [comps Hc]; [lia|].
    replace (Z.of_nat (S n)) with (Z.of_nat n + 1) by lia.
    rewrite range_1_snoc by lia. rewrite foldl_app. simpl.
    apply (labelFrom_inv _ comps); [done|lia].
Qed.

Lemma labelComponents_labelled :
  exists comps,
    labelled mask width height total comps
      (labelComponents mask width height).
Proof.
  assert (0 <= total) by (apply Z.mul_nonneg_nonneg; lia).
  destruct (labelComponents_prefix (Z.to_nat total)) as [comps Hc]; [lia|].
  exists comps. unfold labelComponents. cbv zeta.
  by rewrite Z2Nat.id in Hc by done.
Qed.

Lemma labelled_components (comps : list (list Z)) (st : Labelling.t) :
  labelled mask width height total comps st ->
  components mask width height comps.
Proof.
  intros Hinv. split_and!.
  - apply (lab_comp _ _ _ _ _ _ Hinv).
  - intros p Hp. pose proof (aget_Some_bounds _ _ _ Hp) as Hb.
    destruct (lab_value _ _ _ _ _ _ Hinv p ltac:(lia))
      as (v & Hv & _ & Hvc).
    destruct Hvc as (c & Hc & Hpc).
    + intros ->. by apply (lab_done _ _ _ _ _ _ Hinv p ltac:(lia) Hp).
    + exists c. split; [|done]. eapply list_elem_of_lookup_2, Hc.
  - intros k1 k2 c1 c2 p H1 H2 Hp1 Hp2.
    pose proof (lab_member _ _ _ _ _ _ Hinv _ _ _ H1 Hp1) as E1.
    pose proof (lab_member _ _ _ _ _ _ Hinv _ _ _ H2 Hp2) as E2.
    rewrite E1 in E2. injection E2. lia.
Qed.

End Components.

(** ** Components as classes of joined pixels *)

Section Classes.

Variables (mask : list Z) (width height : Z).

Lemma joined_refl (i : Z) :
  aget mask i = Some 1 -> joined mask width height i i.
Proof. intros Hi. by apply reach_start. Qed.

Lemma joined_trans (i j k : Z) :
  joined mask width height i j -> joined mask width height j k ->
  joined mask width height i k.
Proof.
  intros Hij Hjk. induction Hjk as [b [-> Hb]|p n _ IH Hadj Hn]; [done|].
  by apply (reach_step _ _ _ _ p n).
Qed.

Lemma joined_sym (i j : Z) :
  joined mask width height i j -> joined mask width height j i.
Proof.
  intros Hij. induction Hij as [b [-> Hb]|p n Hp IH Hadj Hn].
  - by apply joined_refl.
  - apply (joined_trans n p i); [|done].
    apply (reach_step _ _ _ _ n p); [by apply joined_refl| |].
    + by apply adjacent4_sym.
    + by eapply joined_foreground.
Qed.

(** A set of pixels that no foreground step leaves holds everything
    joined to one of its pixels. *)
Lemma joined_closed (S : Z -> Prop) (root j : Z) :
  S root ->
  (forall p n, S p -> adjacent4 width height p n ->
     aget mask n = Some 1 -> S n) ->
  joined mask width height root j -> S j.
Proof.
  intros Hroot Hstep Hj.
  induction Hj as [b [-> Hb]|p n _ IH Hadj Hn]; [done|].
  by apply (Hstep p n).
Qed.

(** Two components with a pixel in common have the same pixels. *)
Lemma component_same (c1 c2 : list Z) (p : Z) :
  component mask width height c1 -> component mask width height c2 ->
  p ∈ c1 -> p ∈ c2 -> c1 ≡ₚ c2.
Proof.
  intros (Hnd1 & r1 & _ & H1) (Hnd2 & r2 & _ & H2) Hp1 Hp2.
  apply NoDup_Permutation; [done..|]. intros j.
  apply H1 in Hp1. apply H2 in Hp2. rewrite H1, H2. split; intros Hj.
  - apply (joined_trans r2 p j); [done|].
    apply (joined_trans p r1 j); [by apply joined_sym|done].
  - apply (joined_trans r1 p j); [done|].
    apply (joined_trans p r2 j); [by apply joined_sym|done].
Qed.

(** Two decompositions into components list the same components. *)
Lemma components_match (comps comps' : list (list Z)) (c : list Z) :
  components mask width height comps ->
  components mask width height comps' ->
  c ∈ comps -> exists c', c' ∈ comps' /\ c ≡ₚ c'.
Proof.
  intros (Hc & _ & _) (Hc' & Hcover & _) [k Hk]%list_elem_of_lookup.
  pose proof (Hc k c Hk) as Hcomp.
  destruct Hcomp as (Hnd & r & Hr & Hroot).
  assert (Hfg : aget mask r = Some 1).
  { eapply joined_foreground. by apply Hroot. }
  destruct (Hcover r Hfg) as (c' & Hin & Hr').
  exists c'. split; [done|].
  apply list_elem_of_lookup in Hin as [k' Hk'].
  apply (component_same c c' r); [by apply (Hc k)|by apply (Hc' k')|done..].
Qed.

(** The components of a decomposition are pairwise disjoint. *)
Lemma components_distinct (comps : list (list Z)) (c1 c2 : list Z) (p : Z) :
  components mask width height comps ->
  c1 ∈ comps -> c2 ∈ comps -> p ∈ c1 -> p ∈ c2 -> c1 = c2.
Proof.
  intros (_ & _ & Hd) [k1 H1]%list_elem_of_lookup
    [k2 H2]%list_elem_of_lookup Hp1 Hp2.
  pose proof (Hd k1 k2 c1 c2 p H1 H2 Hp1 Hp2) as ->. congruence.
Qed.

Lemma component_nonempty (c : list Z) :
  component mask width height c -> exists r, r ∈ c /\ aget mask r = Some 1.
Proof.
  intros (_ & r & Hr & Hroot). exists r. split; [done|].
  eapply joined_foreground. by apply Hroot.
Qed.

(** A list of pixels joined to its first pixel that no foreground step
    leaves is a component. *)
Lemma class_component (c : list Z) (root : Z) :
  NoDup c -> root ∈ c ->
  (forall j, j ∈ c -> joined mask width height root j) ->
  (forall p n, p ∈ c -> adjacent4 width height p n ->
     aget mask n = Some 1 -> n ∈ c) ->
  component mask width height c.
Proof.
  intros Hnd Hroot Hjoin Hstep. split; [done|]. exists root.
  split; [done|]. intros j. split; [apply Hjoin|].
  by apply (joined_closed (fun j => j ∈ c)).
Qed.

(** Two disjoint components that cover the foreground are a
    decomposition. *)
Lemma components_pair (a b : list Z) :
  component mask width height a -> component mask width height b ->
  (forall p, aget mask p = Some 1 -> p ∈ a \/ p ∈ b) ->
  (forall p, p ∈ a -> p ∈ b -> False) ->
  components mask width height [a; b].
Proof.
  intros Ha Hb Hcover Hdisj. split_and!.
  - intros [|[|k]] c Hk; simpl in Hk; try done; by injection Hk as <-.
  - intros p Hp. destruct (Hcover p Hp) as [H|H].
    + exists a. split; [by left|done].
    + exists b. split; [right; by left|done].
  - intros [|[|k1]] [|[|k2]] c1 c2 p H1 H2 Hp1 Hp2; simpl in H1, H2;
      try done; injection H1 as <-; injection H2 as <-; try done;
      exfalso; by eapply Hdisj.
Qed.

End Classes.
(** * The components that are kept *)

Lemma fval_Nonneg (x : float) : Nonneg x -> 0 <= fval x.
Proof.
  unfold Nonneg, fval.
  destruct (Prim2SF x) as [s|s| |s m e]; simpl; try done;
    intros ->%negb_true_iff; simpl.
  - apply Z.pow_nonneg. lia.
  - apply Z.mul_nonneg_nonneg; [lia|]. apply Z.pow_nonneg. lia.
Qed.

Section Argmax.

Variable f : Z -> float.

Local Abbreviation step :=
  (fun '(bestId, bestScore) id =>
     let score := f id in
     if PrimFloat.ltb bestScore score then (id, score)
     else (bestId, bestScore)).

Lemma argmax_inv (seen l : list Z) (b : Z) (s : float) :
  (forall id, id ∈ seen ++ l -> Nonneg (f id)) ->
  (seen = [] /\ s = (-1)%float) \/
  (b ∈ seen /\ s = f b /\ forall id, id ∈ seen -> fval (f id) <= fval (f b)) ->
  let r := foldl step (b, s) l in
  seen ++ l = [] \/
  (r.1 ∈ seen ++ l /\ r.2 = f r.1 /\
   forall id, id ∈ seen ++ l -> fval (f id) <= fval (f r.1)).
Proof.
  revert seen b s. induction l as [|id l IH]; intros seen b s Hf HJ.
  - simpl. rewrite app_nil_r. destruct HJ as [[-> ->]|HJ]; [by left|by right].
  - simpl foldl.
    assert (Hn : Nonneg (f id)).
    { apply Hf. apply elem_of_app. right. by left. }
    assert (Hseen : forall id', id' ∈ seen -> Nonneg (f id')).
    { intros id' Hid'. apply Hf. apply elem_of_app. by left. }
    replace (seen ++ id :: l) with ((seen ++ [id]) ++ l) in *
      by (by rewrite <- app_assoc).
    destruct HJ as [[-> ->]|(Hb & -> & Hmax)].
    + assert (E : PrimFloat.ltb (-1) (f id) = true).
      { rewrite ltb_val; [|done|by apply Nonneg_not_nan].
        apply Z.ltb_lt. pose proof (fval_Nonneg _ Hn).
        assert (fval (-1) < 0) by (vm_compute; reflexivity). lia. }
      cbv zeta. rewrite E. apply IH; [done|]. right. simpl.
      split; [by left|]. split; [done|].
      intros id' ->%list_elem_of_singleton. lia.
    + cbv zeta.
      rewrite ltb_val by (apply Nonneg_not_nan; auto).
      destruct (Z.ltb_spec (fval (f b)) (fval (f id))) as [Hlt|Hge].
      * apply IH; [done|]. right. split_and!.
        -- apply elem_of_app. right. by left.
        -- done.
        -- intros id' [Hid'| ->%list_elem_of_singleton]%elem_of_app; [|lia].
           specialize (Hmax id' Hid'). lia.
      * apply IH; [done|]. right. split_and!.
        -- apply elem_of_app. by left.
        -- done.
        -- intros id' [Hid'| ->%list_elem_of_singleton]%elem_of_app;
             [by apply Hmax|lia].
Qed.

Lemma argmax_spec (l : list Z) :
  l <> [] -> (forall id, id ∈ l -> Nonneg (f id)) ->
  let r := foldl step (1, (-1)%float) l in
  r.1 ∈ l /\
  forall id, id ∈ l -> PrimFloat.leb (f id) (f r.1) = true.
Proof.
  intros Hne Hf r.
  destruct (argmax_inv [] l 1 (-1)%float Hf ltac:(by left))
    as [E|(H1 & _ & H3)]; [done|].
  fold r in H1, H3. simpl in H1, H3. split; [done|].
  intros id Hid. rewrite leb_val by (apply Nonneg_not_nan; auto).
  apply Z.leb_le. by apply H3.
Qed.

End Argmax.

Lemma aget_cons_pos {A : Type} (x : A) (l : list A) (id : Z) :
  1 <= id -> aget (x :: l) id = l !! Z.to_nat (id - 1).
Proof.
  intros H. rewrite aget_lookup by lia.
  replace (Z.to_nat id) with (S (Z.to_nat (id - 1))) by lia. done.
Qed.

Section Selection.

Variables (mask : list Z) (width height : Z).
Hypothesis Hw : 0 < width.
Hypothesis Hh : 0 < height.
Hypothesis Hsize : width * height < 2 ^ 53.
Hypothesis Hlen : Z.of_nat (length mask) = width * height.
Hypothesis Hbin : binaryMask mask.
Variables (comps : list (list Z)) (lab : Labelling.t).
Hypothesis Hlab : labelled mask width height (width * height) comps lab.

Local Abbreviation total := (width * height).

Lemma component_length (c : list Z) :
  component mask width height c -> Z.of_nat (length c) <= total.
Proof.
  intros (Hnd & root & _ & Hroot).
  apply NoDup_bounded_length; [|done|].
  - apply Z.mul_nonneg_nonneg; lia.
  - intros j Hj. eapply joined_bounds; [done|]. by apply Hroot.
Qed.

Lemma component_id (id : Z) :
  1 <= id <= Z.of_nat (length comps) ->
  exists c, comps !! Z.to_nat (id - 1) = Some c /\ c ∈ comps /\
    component mask width height c.
Proof.
  intros Hid.
  destruct (lookup_lt_is_Some_2 comps (Z.to_nat (id - 1)) ltac:(lia))
    as [c Hc].
  exists c. split; [done|]. split; [eapply list_elem_of_lookup_2, Hc|].
  by apply (lab_comp _ _ _ _ _ _ Hlab _ _ Hc).
Qed.

Lemma componentScore_region (id : Z) (c : list Z) :
  1 <= id -> comps !! Z.to_nat (id - 1) = Some c ->
  componentScore lab total id = regionScore width height c.
Proof.
  intros Hid Hc. unfold componentScore, regionScore.
  rewrite (lab_areas _ _ _ _ _ _ Hlab), (lab_touch _ _ _ _ _ _ Hlab).
  rewrite !aget_cons_pos by done. rewrite !list_lookup_fmap, Hc. done.
Qed.

Lemma regionScore_Nonneg (c : list Z) :
  component mask width height c -> Nonneg (regionScore width height c).
Proof.
  intros Hc%component_length. unfold regionScore.
  assert (2 ^ 53 < 2 ^ 63) by done.
  assert (0 <= total) by (apply Z.mul_nonneg_nonneg; lia).
  apply add_Nonneg; [apply Z2F_Nonneg; lia|].
  destruct (touchesCenter width height c); [|done].
  apply mul_Nonneg; [apply Z2F_Nonneg; lia|reflexivity| |];
    [right|left]; reflexivity.
Qed.

Lemma bestComponent_spec :
  1 <= Z.of_nat (length comps) ->
  exists best,
    1 <= bestComponent lab total <= Z.of_nat (length comps) /\
    comps !! Z.to_nat (bestComponent lab total - 1) = Some best /\
    forall c, c ∈ comps ->
      PrimFloat.leb (regionScore width height c)
        (regionScore width height best) = true.
Proof.
  intros Hk. unfold bestComponent.
  rewrite (lab_id _ _ _ _ _ _ Hlab).
  set (k := Z.of_nat (length comps)) in *.
  destruct (argmax_spec (componentScore lab total) (range 1 (k + 1) 1))
    as [Hin Hmax].
  { intros E. assert (H1 : 1 ∈ range 1 (k + 1) 1)
      by (apply elem_of_range_1; lia).
    rewrite E in H1. by apply elem_of_nil in H1. }
  { intros id Hid%elem_of_range_1.
    destruct (component_id id ltac:(lia)) as (c & Hc & _ & Hcc).
    rewrite (componentScore_region id c) by (done || lia).
    by apply regionScore_Nonneg. }
  set (r := foldl _ _ _) in *.
  apply elem_of_range_1 in Hin.
  destruct (component_id r.1 ltac:(lia)) as (best & Hb & _ & _).
  exists best. split; [lia|]. split; [done|].
  intros c Hc. apply list_elem_of_lookup in Hc as [j Hj].
  pose proof (lookup_lt_Some _ _ _ Hj) as Hjl.
  specialize (Hmax (Z.of_nat j + 1) ltac:(apply elem_of_range_1; lia)).
  rewrite (componentScore_region _ c) in Hmax;
    [|lia|by replace (Z.to_nat (Z.of_nat j + 1 - 1)) with j by lia].
  rewrite (componentScore_region _ best) in Hmax by (done || lia).
  done.
Qed.

Lemma component_area (id : Z) (c : list Z) :
  1 <= id -> comps !! Z.to_nat (id - 1) = Some c ->
  default 0 (aget (Labelling.componentAreas lab) id) = Z.of_nat (length c)
  /\ default false (aget (Labelling.componentTouchesCenter lab) id)
     = touchesCenter width height c.
Proof.
  intros Hid Hc.
  rewrite (lab_areas _ _ _ _ _ _ Hlab), (lab_touch _ _ _ _ _ _ Hlab).
  rewrite !aget_cons_pos by done. rewrite !list_lookup_fmap, Hc. done.
Qed.

Lemma keptComponents_spec (best c : list Z) (id : Z) :
  1 <= bestComponent lab total <= Z.of_nat (length comps) ->
  comps !! Z.to_nat (bestComponent lab total - 1) = Some best ->
  1 <= id <= Z.of_nat (length comps) ->
  comps !! Z.to_nat (id - 1) = Some c ->
  aget (keptComponents lab total) id
  = Some (if (id =? bestComponent lab total)
             || (touchesCenter width height c
                 && (secondaryArea width height best <=? Z.of_nat (length c)))
          then 1 else 0).
Proof.
  intros Hbest Hb Hid Hc. unfold keptComponents. cbv zeta.
  set (bestId := bestComponent lab total) in *.
  rewrite (lab_id _ _ _ _ _ _ Hlab).
  set (k := Z.of_nat (length comps)) in *.
  destruct (component_area bestId best ltac:(lia) Hb) as [-> _].
  fold (secondaryArea width height best).
  set (cond := fun id =>
    negb (id =? bestId)
    && (default false (aget (Labelling.componentTouchesCenter lab) id)
        && (secondaryArea width height best
            <=? default 0 (aget (Labelling.componentAreas lab) id)))).
  rewrite (foldl_ext _ (fun keep id => if cond id then aset keep id 1
                                       else keep)).
  2: { intros keep j. unfold cond. by destruct (j =? bestId). }
  assert (Hbase : Z.of_nat (length (aset (zeros (k + 1)) bestId 1)) = k + 1).
  { rewrite length_aset. unfold zeros. rewrite length_replicate. lia. }
  destruct (Z.eqb_spec id bestId) as [->|Hne].
  - simpl. apply (aget_foldl_cond_keep (fun j => j) cond 1).
    apply aget_aset_eq. unfold zeros. rewrite length_replicate. lia.
  - simpl. destruct (component_area id c ltac:(lia) Hc) as [Ea Et].
    assert (Hcond : cond id
              = touchesCenter width height c
                && (secondaryArea width height best <=? Z.of_nat (length c))).
    { unfold cond. rewrite Ea, Et.
      destruct (Z.eqb_spec id bestId); [done|]. done. }
    rewrite <- Hcond. destruct (cond id) eqn:E.
    + apply (aget_foldl_cond_hit (fun j => j) cond 1); try done; [|lia].
      apply elem_of_range_1. lia.
    + rewrite (aget_foldl_cond_miss (fun j => j) cond 1).
      * rewrite aget_aset_ne by done. apply aget_zeros. lia.
      * intros j _ Hj ->. congruence.
Qed.

Lemma length_keepMain :
  2 <= Z.of_nat (length comps) ->
  lab = labelComponents mask width height ->
  Z.of_nat (length (keepMainForegroundRegions mask width height)) = total.
Proof.
  intros Hk El. unfold keepMainForegroundRegions. cbv zeta. rewrite <- El.
  rewrite (lab_id _ _ _ _ _ _ Hlab).
  destruct (Z.leb_spec (Z.of_nat (length comps)) 1); [lia|].
  rewrite (length_foldl_aset (fun i => i)
             (fun i => if (0 <? default 0 (aget (Labelling.labels lab) i))
                          && truthyZ (aget (keptComponents lab total)
                               (default 0 (aget (Labelling.labels lab) i)))
                       then 1 else 0)).
  unfold zeros. rewrite length_replicate.
  assert (0 <= total) by (apply Z.mul_nonneg_nonneg; lia). lia.
Qed.

Lemma aget_keepMain (i : Z) :
  2 <= Z.of_nat (length comps) ->
  lab = labelComponents mask width height ->
  0 <= i < total ->
  aget (keepMainForegroundRegions mask width height) i
  = Some (if (0 <? default 0 (aget (Labelling.labels lab) i))
             && truthyZ (aget (keptComponents lab total)
                           (default 0 (aget (Labelling.labels lab) i)))
          then 1 else 0).
Proof.
  intros Hk El Hi. unfold keepMainForegroundRegions. cbv zeta. rewrite <- El.
  rewrite (lab_id _ _ _ _ _ _ Hlab).
  destruct (Z.leb_spec (Z.of_nat (length comps)) 1); [lia|].
  apply (aget_foldl_aset (fun i => i)
           (fun i => if (0 <? default 0 (aget (Labelling.labels lab) i))
                        && truthyZ (aget (keptComponents lab total)
                             (default 0 (aget (Labelling.labels lab) i)))
                     then 1 else 0)).
  - rewrite list_fmap_id. apply NoDup_range_1.
  - apply elem_of_range_1. lia.
  - unfold zeros. rewrite length_replicate. lia.
Qed.

End Selection.

(** ** The central region *)

(** The engine's test of the central region, on an integer grid. *)
Lemma inCenter_central (width height p : Z) :
  0 < width < 2 ^ 51 -> 0 < height < 2 ^ 51 -> 0 <= p ->
  inCenter width height p = centralRegion width height p.
Proof.
  intros Hw Hh Hp. unfold inCenter, centralRegion. cbv zeta.
  assert (2 ^ 51 < 2 ^ 53) by done.
  rewrite !floor_quarter, !ceil_three_quarters by lia.
  rewrite Z.rem_mod_nonneg by lia. done.
Qed.

Lemma touchesCenter_meets (width height : Z) (c : list Z) :
  0 < width < 2 ^ 51 -> 0 < height < 2 ^ 51 ->
  (forall p, p ∈ c -> 0 <= p) ->
  touchesCenter width height c = meets (centralRegion width height) c.
Proof.
  intros Hw Hh. unfold touchesCenter, meets.
  induction c as [|p c IH]; intros Hc; [done|]. simpl.
  rewrite inCenter_central by (done || apply Hc; by left).
  rewrite IH; [done|]. intros q Hq. apply Hc. by right.
Qed.

Lemma meets_perm (region : Z -> bool) (c c' : list Z) :
  c ≡ₚ c' -> meets region c = meets region c'.
Proof.
  intros Hperm. unfold meets. apply eq_true_iff_eq.
  rewrite !existsb_exists. split; intros (x & Hx & Hr); exists x;
    (split; [|done]); apply list_elem_of_In; apply list_elem_of_In in Hx.
  - by rewrite <- Hperm.
  - by rewrite Hperm.
Qed.

Lemma mainScore_perm (region : Z -> bool) (width height : Z)
  (c c' : list Z) :
  c ≡ₚ c' -> mainScore region width height c = mainScore region width height c'.
Proof.
  intros Hperm. unfold mainScore.
  by rewrite (meets_perm region c c' Hperm), (Permutation_length Hperm).
Qed.

(** A component whose area lies above a power of two that the area of
    another, which has no pixel in the central region, lies below, has
    the greater score. *)
Lemma mainScore_separated (region : Z -> bool) (width height K : Z)
  (a b : list Z) :
  0 < width -> 0 < height -> width * height < 2 ^ 53 ->
  Z.of_nat (length b) < 2 ^ K <= Z.of_nat (length a) ->
  Z.of_nat (length a) < 2 ^ 53 ->
  meets region b = false ->
  PrimFloat.leb (mainScore region width height a)
    (mainScore region width height b) = false.
Proof.
  intros Hw Hh Hsize HK La Tb. unfold mainScore. rewrite Tb.
  assert (0 <= width * height) by (apply Z.mul_nonneg_nonneg; lia).
  assert (2 ^ 53 < 2 ^ 63) by done.
  assert (HK0 : 0 <= K).
  { destruct (Z.le_gt_cases 0 K) as [|Hneg]; [done|].
    rewrite Z.pow_neg_r in HK by lia. lia. }
  assert (HK53 : K < 53).
  { destruct (Z.lt_ge_cases K 53) as [|Hge]; [done|].
    assert (2 ^ 53 <= 2 ^ K) by (apply Z.pow_le_mono_r; lia). lia. }
  apply (leb_Above_Below K (K + 1)); [| |lia|lia].
  - apply add_Above; [apply Z2F_Above; lia| |lia].
    destruct (meets region a); [|done].
    apply mul_Nonneg; [reflexivity|apply Z2F_Nonneg; lia| |];
      [left|right]; reflexivity.
  - apply add_zero_Below, Z2F_Below_exact; lia.
Qed.

(** ** The rule of [keepMainForegroundRegions] *)

(** The rule in the terms of the labelling: for the components [comps]
    in the order of their labels. *)
Lemma keepMain_rule (mask : list Z) (width height : Z) :
  1 <= width -> 1 <= height -> width * height < 2 ^ 53 ->
  Z.of_nat (length mask) = width * height -> binaryMask mask ->
  exists comps,
    components mask width height comps /\
    let out := keepMainForegroundRegions mask width height in
    ((length comps <= 1)%nat -> out = mask) /\
    ((2 <= length comps)%nat ->
     exists best, best ∈ comps /\
       (forall c, c ∈ comps ->
          PrimFloat.leb (regionScore width height c)
            (regionScore width height best) = true) /\
       Z.of_nat (length out) = width * height /\
       forall i, 0 <= i < width * height ->
         (aget out i = Some 1 \/ aget out i = Some 0) /\
         (aget out i = Some 1 <->
          exists c, c ∈ comps /\ i ∈ c /\
            (c = best \/
             (touchesCenter width height c = true /\
              secondaryArea width height best <= Z.of_nat (length c))))).
Proof.
  intros Hw Hh Hsize Hlen Hbin.
  destruct (labelComponents_labelled mask width height
              ltac:(lia) ltac:(lia) Hlen Hbin) as [comps Hlab].
  set (lab := labelComponents mask width height) in *.
  exists comps. split; [by eapply labelled_components|].
  intros out. split.
  { intros Hk. unfold out, keepMainForegroundRegions. cbv zeta. fold lab.
    rewrite (lab_id _ _ _ _ _ _ Hlab).
    destruct (Z.leb_spec (Z.of_nat (length comps)) 1); [done|lia]. }
  intros Hk.
  destruct (bestComponent_spec mask width height ltac:(lia) ltac:(lia)
              Hsize Hlen comps lab Hlab ltac:(lia))
    as (best & Hbid & Hb & Hmax).
  set (bestId := bestComponent lab (width * height)) in *.
  exists best. split; [eapply list_elem_of_lookup_2, Hb|].
  split; [done|]. split.
  { apply (length_keepMain mask width height ltac:(lia) ltac:(lia)
             Hlen comps lab Hlab); [lia|done]. }
  intros i Hi. unfold out.
  rewrite (aget_keepMain mask width height ltac:(lia) ltac:(lia)
             comps lab Hlab i) by (done || lia).
  destruct (lab_value _ _ _ _ _ _ Hlab i Hi) as (v & Hv & Hvr & Hvc).
  rewrite Hv. simpl default.
  destruct (Z.ltb_spec 0 v) as [Hpos|Hzero].
  - destruct (Hvc ltac:(lia)) as (c & Hc & Hic).
    rewrite (keptComponents_spec mask width height comps lab Hlab best c v)
      by (done || lia).
    assert (Hsame : forall c', c' ∈ comps -> i ∈ c' -> c' = c).
    { intros c' [j Hj]%list_elem_of_lookup Hic'.
      pose proof (lab_member _ _ _ _ _ _ Hlab _ _ _ Hj Hic') as E.
      rewrite Hv in E. injection E as E.
      replace (Z.to_nat (v - 1)) with j in Hc by lia. congruence. }
    assert (Hbest : v = bestId <-> c = best).
    { split.
      - intros E. rewrite E in Hc. congruence.
      - intros ->.
        pose proof (lab_member _ _ _ _ _ _ Hlab _ _ _ Hb Hic) as E.
        rewrite Hv in E. injection E as E. lia. }
    fold bestId. simpl andb.
    destruct ((v =? bestId)
              || touchesCenter width height c
                 && (secondaryArea width height best
                     <=? Z.of_nat (length c))) eqn:E; simpl.
    + split; [by left|]. split; [|done]. intros _. exists c.
      split; [eapply list_elem_of_lookup_2, Hc|]. split; [done|].
      apply orb_true_iff in E as [E%Z.eqb_eq|E].
      * left. by apply Hbest.
      * right. apply andb_true_iff in E as [E1 E2%Z.leb_le]. done.
    + split; [by right|]. split; [done|].
      intros (c' & Hc' & Hic' & Hkeep). exfalso.
      rewrite (Hsame c' Hc' Hic') in Hkeep.
      apply orb_false_iff in E as [E1%Z.eqb_neq E2].
      destruct Hkeep as [Hk1|[Hk1 Hk2%Z.leb_le]].
      * by apply E1, Hbest.
      * by rewrite Hk1, Hk2 in E2.
  - assert (v = 0) by lia. subst v. simpl.
    split; [by right|]. split; [done|].
    intros (c' & [j Hj]%list_elem_of_lookup & Hic' & _). exfalso.
    pose proof (lab_member _ _ _ _ _ _ Hlab _ _ _ Hj Hic') as E.
    rewrite Hv in E. injection E. lia.
Qed.

Section Rule.

Variables (mask : list Z) (width height : Z).
Hypothesis Hw : 1 <= width.
Hypothesis Hh : 1 <= height.
Hypothesis Hsize : width * height < 2 ^ 51.
Hypothesis Hlen : Z.of_nat (length mask) = width * height.
Hypothesis Hbin : binaryMask mask.

Local Abbreviation central := (centralRegion width height).
Local Abbreviation out := (keepMainForegroundRegions mask width height).

Lemma grid_sides : 0 < width < 2 ^ 51 /\ 0 < height < 2 ^ 51.
Proof. nia. Qed.

Lemma component_meets (c : list Z) :
  component mask width height c ->
  touchesCenter width height c = meets central c.
Proof.
  intros (_ & r & _ & Hroot). destruct grid_sides.
  apply touchesCenter_meets; [done..|].
  intros p Hp%Hroot. apply (joined_bounds _ _ _ Hlen) in Hp. lia.
Qed.

Lemma component_score (c : list Z) :
  component mask width height c ->
  regionScore width height c = mainScore central width height c.
Proof.
  intros Hc. unfold regionScore, mainScore.
  by rewrite (component_meets c Hc), mul_comm.
Qed.

Lemma keepMain_central : keepsMainRegions central mask width height out.
Proof.
  assert (H51 : 2 ^ 51 < 2 ^ 53) by done.
  destruct (keepMain_rule mask width height Hw Hh ltac:(lia) Hlen Hbin)
    as (comps & Hcomps & H1 & H2).
  exists comps. split; [done|]. split; [exact H1|].
  intros Hk. destruct (H2 Hk) as (best & Hbest & Hmax & Hol & Hout).
  assert (Hc : forall c, c ∈ comps -> component mask width height c).
  { intros c [k Hc]%list_elem_of_lookup.
    by apply (proj1 Hcomps k). }
  exists best. split; [done|]. split.
  { intros c Hin. rewrite <- !component_score by auto. by apply Hmax. }
  split; [done|]. intros i Hi. destruct (Hout i Hi) as [Hval Hiff].
  split; [done|]. rewrite Hiff. unfold secondaryArea.
  split; intros (c & Hin & Hic & Hkeep); exists c;
    (split; [done|]); (split; [done|]);
    (destruct Hkeep as [->|[Ht Ha]]; [by left|right]).
  - by rewrite <- component_meets by auto.
  - by rewrite component_meets by auto.
Qed.

(** With two components, one without a pixel in the central region and
    with an area that a power of two separates from the area of the
    other, the result is the other component. *)
Lemma keepMain_two (comps : list (list Z)) (a b : list Z) (K i : Z) :
  components mask width height comps -> comps ≡ₚ [a; b] ->
  Z.of_nat (length b) < 2 ^ K <= Z.of_nat (length a) ->
  meets central b = false ->
  0 <= i < width * height ->
  aget out i = Some (if bool_decide (i ∈ a) then 1 else 0).
Proof.
  intros Hcomps Hperm HK Tb Hi.
  assert (H51 : 2 ^ 51 < 2 ^ 53) by done.
  destruct keepMain_central as (comps0 & Hcomps0 & H1 & H2).
  assert (Ha : a ∈ comps) by (rewrite Hperm; by left).
  assert (Hb : b ∈ comps) by (rewrite Hperm; right; by left).
  assert (Hca : component mask width height a).
  { apply list_elem_of_lookup in Ha as [k Hk]. by apply (proj1 Hcomps k). }
  assert (Hcb : component mask width height b).
  { apply list_elem_of_lookup in Hb as [k Hk]. by apply (proj1 Hcomps k). }
  assert (Hla : Z.of_nat (length a) < 2 ^ 53).
  { destruct Hca as (Hnd & r & _ & Hroot).
    assert (Z.of_nat (length a) <= width * height); [|lia].
    apply NoDup_bounded_length; [nia|done|].
    intros j Hj%Hroot. by apply (joined_bounds _ _ _ Hlen) in Hj. }
  assert (Hab : ~ a ≡ₚ b).
  { intros E. apply Permutation_length in E. lia. }
  destruct (components_match mask width height comps comps0 a
              Hcomps Hcomps0 Ha) as (a0 & Ha0 & Ea).
  destruct (components_match mask width height comps comps0 b
              Hcomps Hcomps0 Hb) as (b0 & Hb0 & Eb).
  assert (Hne : a0 <> b0).
  { intros E. apply Hab. by rewrite Ea, Eb, E. }
  assert (Hcases : forall c, c ∈ comps0 -> c ≡ₚ a \/ c ≡ₚ b).
  { intros c Hc.
    destruct (components_match mask width height comps0 comps c
                Hcomps0 Hcomps Hc) as (c' & Hc' & Ec).
    rewrite Hperm in Hc'. apply elem_of_cons in Hc' as [->|Hc']; [by left|].
    apply list_elem_of_singleton in Hc' as ->. by right. }
  assert (Hk : (2 <= length comps0)%nat).
  { destruct comps0 as [|x [|y l]]; simpl; [|exfalso|lia].
    - by apply elem_of_nil in Ha0.
    - apply list_elem_of_singleton in Ha0, Hb0. congruence. }
  destruct (H2 Hk) as (best & Hbest & Hmax & _ & Hout).
  assert (Ebest : best ≡ₚ a).
  { destruct (Hcases best Hbest) as [E|E]; [done|]. exfalso.
    specialize (Hmax a0 Ha0).
    rewrite (mainScore_perm _ _ _ _ _ E) in Hmax.
    rewrite <- (mainScore_perm _ _ _ _ _ Ea) in Hmax.
    rewrite (mainScore_separated central width height K a b) in Hmax;
      [done|lia|lia|lia|done..]. }
  destruct (Hout i Hi) as [Hval Hiff].
  destruct (bool_decide_reflect (i ∈ a)) as [Hia|Hia].
  - apply Hiff. exists best. split; [done|]. split; [by rewrite Ebest|].
    by left.
  - destruct Hval as [Hval|Hval]; [|done]. exfalso.
    apply Hiff in Hval as (c & Hc & Hic & Hkeep).
    destruct (Hcases c Hc) as [E|E]; [by rewrite E in Hic|].
    destruct Hkeep as [->|[Ht _]].
    + apply Hab. by rewrite <- Ebest, E.
    + rewrite (meets_perm _ _ _ E) in Ht. congruence.
Qed.

End Rule.

(** C4, amended: for a binary mask of fewer than [2^51] pixels the engine
    follows the stated rule with, as central region, the columns from
    [floor(width / 4)] to [ceil(3 * width / 4)] and the rows from
    [floor(height / 4)] to [ceil(3 * height / 4)], bounds included.  The
    foreground of the mask splits into its 4-connected components; with
    at most one the mask is returned as it is; with more, some component
    [best] has the greatest score
    [area + (touches the central region ? 0.2 * totalPixels : 0)] and
    the foreground of the result is [best] together with the components
    that have a pixel in the central region and at least
    [max(max(120, round(0.0018 * totalPixels)), round(0.12 * bestArea))]
    pixels.  When the components are two, one without a pixel in the
    central region and with an area below a power of two that the area
    of the other reaches (50 < 64 <= 10000), the result is the other
    component alone. *)
Theorem keepMainForegroundRegions_spec (mask : list Z) (width height : Z) :
  1 <= width -> 1 <= height -> width * height < 2 ^ 51 ->
  Z.of_nat (length mask) = width * height -> binaryMask mask ->
  let out := keepMainForegroundRegions mask width height in
  let central := centralRegion width height in
  keepsMainRegions central mask width height out /\
  (forall comps a b K,
     components mask width height comps -> comps ≡ₚ [a; b] ->
     Z.of_nat (length b) < 2 ^ K <= Z.of_nat (length a) ->
     meets central b = false ->
     forall i, 0 <= i < width * height ->
       aget out i = Some (if bool_decide (i ∈ a) then 1 else 0)).
Proof.
  intros Hw Hh Hsize Hlen Hbin out central. split.
  - by apply keepMain_central.
  - intros comps a b K Hcomps Hperm HK Tb i Hi.
    by apply (keepMain_two mask width height Hw Hh Hsize Hlen Hbin
                comps a b K i).
Qed.

(** Masks with a few foreground pixels: what is foreground, and what a
    step from a pixel reaches. *)
Lemma dots_foreground (mask : list Z) (dots : list Z) (n : Z) :
  forallb (fun i => implb (bool_decide (aget mask i = Some 1))
                      (bool_decide (i ∈ dots)))
    (seqZ 0 (Z.of_nat (length mask))) = true ->
  aget mask n = Some 1 -> n ∈ dots.
Proof.
  intros Hall Hn. pose proof (aget_Some_bounds _ _ _ Hn) as Hb.
  rewrite forallb_forall in Hall.
  specialize (Hall n ltac:(apply list_elem_of_In, elem_of_seqZ; lia)).
  rewrite (bool_decide_eq_true_2 _ Hn) in Hall. simpl in Hall.
  by apply bool_decide_eq_true_1 in Hall.
Qed.

Ltac list_cases H :=
  repeat (apply elem_of_cons in H as [H|H]);
  [..|by apply elem_of_nil in H].

Ltac decide_or_absurd :=
  first [ by apply (bool_decide_unpack _); vm_compute | exfalso; lia ].

Lemma threeDots_components :
  let mask := dotMask 100 [0; 1; 58] in
  components mask 10 10 [[0; 1]; [58]].
Proof.
  intros mask.
  assert (Hfg : forall n, aget mask n = Some 1 -> n ∈ [0; 1; 58]).
  { intros n. apply dots_foreground. vm_compute. reflexivity. }
  apply components_pair.
  - apply (class_component _ _ _ _ 0).
    + apply (bool_decide_unpack _). vm_compute. exact I.
    + by left.
    + intros j Hj. apply elem_of_cons in Hj as [->|Hj];
        [by apply joined_refl|].
      apply list_elem_of_singleton in Hj as ->.
      apply (reach_step _ _ _ _ 0 1); [by apply joined_refl| |done].
      exists 0, 0, 1, 0. repeat split; lia.
    + intros p n Hp (x & y & x' & y' & ? & ? & ? & ? & Ep & En & Hd) Hn.
      unfold pixelIndex in *. apply Hfg in Hn.
      list_cases Hp; list_cases Hn; rewrite Hn; decide_or_absurd.
  - apply (class_component _ _ _ _ 58).
    + apply (bool_decide_unpack _). vm_compute. exact I.
    + by left.
    + intros j ->%list_elem_of_singleton. by apply joined_refl.
    + intros p n Hp (x & y & x' & y' & ? & ? & ? & ? & Ep & En & Hd) Hn.
      unfold pixelIndex in *. apply Hfg in Hn.
      list_cases Hp; list_cases Hn; rewrite Hn; decide_or_absurd.
  - intros p Hp%Hfg. list_cases Hp; rewrite Hp;
      [left|left|right]; decide_or_absurd.
  - intros p Hp Hq. list_cases Hp; list_cases Hq; lia.
Qed.

Lemma centreDots_components :
  let mask := dotMask 64 [0; 27; 28] in
  components mask 8 8 [[27; 28]; [0]].
Proof.
  intros mask.
  assert (Hfg : forall n, aget mask n = Some 1 -> n ∈ [0; 27; 28]).
  { intros n. apply dots_foreground. vm_compute. reflexivity. }
  apply components_pair.
  - apply (class_component _ _ _ _ 27).
    + apply (bool_decide_unpack _). vm_compute. exact I.
    + by left.
    + intros j Hj. apply elem_of_cons in Hj as [->|Hj];
        [by apply joined_refl|].
      apply list_elem_of_singleton in Hj as ->.
      apply (reach_step _ _ _ _ 27 28); [by apply joined_refl| |done].
      exists 3, 3, 4, 3. repeat split; lia.
    + intros p n Hp (x & y & x' & y' & ? & ? & ? & ? & Ep & En & Hd) Hn.
      unfold pixelIndex in *. apply Hfg in Hn.
      list_cases Hp; list_cases Hn; rewrite Hn; decide_or_absurd.
  - apply (class_component _ _ _ _ 0).
    + apply (bool_decide_unpack _). vm_compute. exact I.
    + by left.
    + intros j ->%list_elem_of_singleton. by apply joined_refl.
    + intros p n Hp (x & y & x' & y' & ? & ? & ? & ? & Ep & En & Hd) Hn.
      unfold pixelIndex in *. apply Hfg in Hn.
      list_cases Hp; list_cases Hn; rewrite Hn; decide_or_absurd.
  - intros p Hp%Hfg. list_cases Hp; rewrite Hp;
      [right|left|left]; decide_or_absurd.
  - intros p Hp Hq. list_cases Hp; list_cases Hq; lia.
Qed.

(** C4, as stated, fails: the region the engine tests is wider than the
    central 50% x 50%.  On a 10 x 10 mask whose foreground is the pixels
    0 and 1 (one component, in the top left corner) and the pixel 58
    (column 8 of row 5), no component has a pixel in the central half of
    the grid, so the stated rule keeps the component of greatest area,
    the one of pixels 0 and 1.  The engine keeps pixel 58 alone: column 8
    is within [ceil(0.75 * 10) = 8] of its region. *)
Lemma keepMainForegroundRegions_central_half :
  let mask := dotMask 100 [0; 1; 58] in
  let out := keepMainForegroundRegions mask 10 10 in
  Z.of_nat (length mask) = 10 * 10 /\ binaryMask mask /\
  components mask 10 10 [[0; 1]; [58]] /\
  meets (centralHalf 10 10) [0; 1] = false /\
  meets (centralHalf 10 10) [58] = false /\
  meets (centralRegion 10 10) [58] = true /\
  out = dotMask 100 [58] /\
  ~ keepsMainRegions (centralHalf 10 10) mask 10 10 out.
Proof.
  intros mask out.
  pose proof threeDots_components as Hdots. cbv zeta in Hdots. fold mask in Hdots.
  split; [vm_compute; reflexivity|].
  split; [apply (bool_decide_unpack _); vm_compute; exact I|].
  split; [exact Hdots|].
  split; [vm_compute; reflexivity|].
  split; [vm_compute; reflexivity|].
  split; [vm_compute; reflexivity|].
  split; [vm_compute; reflexivity|].
  intros (comps & Hcomps & _ & H2).
  destruct (components_match mask 10 10 _ comps [0; 1] Hdots Hcomps
              ltac:(by left)) as (c0 & Hc0 & E0).
  destruct (components_match mask 10 10 _ comps [58] Hdots Hcomps
              ltac:(right; by left)) as (c1 & Hc1 & E1).
  assert (Hk : (2 <= length comps)%nat).
  { destruct comps as [|x [|y l]]; simpl; [|exfalso|lia].
    - by apply elem_of_nil in Hc0.
    - apply list_elem_of_singleton in Hc0, Hc1. subst.
      rewrite <- E1 in E0. by apply Permutation_length in E0. }
  destruct (H2 Hk) as (best & Hbest & Hmax & _ & Hout).
  destruct (components_match mask 10 10 comps _ best Hcomps Hdots Hbest)
    as (c' & Hc' & Eb).
  apply elem_of_cons in Hc' as [->|Hc'].
  - destruct (Hout 0 ltac:(lia)) as [_ Hiff].
    assert (H0 : aget out 0 = Some 1).
    { apply Hiff. exists best. split; [done|]. split; [|by left].
      rewrite Eb. by left. }
    vm_compute in H0. discriminate H0.
  - apply list_elem_of_singleton in Hc' as ->.
    specialize (Hmax c0 Hc0).
    rewrite <- (mainScore_perm _ _ _ _ _ E0) in Hmax.
    rewrite (mainScore_perm _ _ _ _ _ Eb) in Hmax.
    vm_compute in Hmax. discriminate Hmax.
Qed.

Lemma keepMainForegroundRegions_spec_witness :
  let mask := dotMask 64 [0; 27; 28] in
  let out := keepMainForegroundRegions mask 8 8 in
  keepsMainRegions (centralRegion 8 8) mask 8 8 out /\
  components mask 8 8 [[27; 28]; [0]] /\
  meets (centralRegion 8 8) [0] = false /\
  forall i, 0 <= i < 8 * 8 ->
    aget out i = Some (if bool_decide (i ∈ [27; 28]) then 1 else 0).
Proof.
  intros mask out.
  pose proof centreDots_components as Hdots. cbv zeta in Hdots.
  fold mask in Hdots.
  pose proof (keepMainForegroundRegions_spec mask 8 8) as H.
  cbv zeta in H. destruct H as [H1 H2]; [lia|lia|reflexivity|reflexivity| |].
  { apply (bool_decide_unpack _). vm_compute. exact I. }
  split; [exact H1|]. split; [exact Hdots|]. split; [reflexivity|].
  intros i Hi.
  apply (H2 [[27; 28]; [0]] [27; 28] [0] 1); [done|done|simpl; lia|
                                                reflexivity|done].
Defined.
(** * Inversion, dilation and erosion *)

Lemma list_eq_aget {A : Type} (l1 l2 : list A) :
  length l1 = length l2 ->
  (forall i, 0 <= i < Z.of_nat (length l1) -> aget l1 i = aget l2 i) ->
  l1 = l2.
Proof.
  intros Hlen H. apply list_eq. intros k.
  destruct (decide (k < length l1)%nat) as [Hk|Hk].
  - specialize (H (Z.of_nat k) ltac:(lia)).
    by rewrite !aget_lookup, Nat2Z.id in H by lia.
  - rewrite !lookup_ge_None_2; [done|lia..].
Qed.

Section Invert.

Lemma aget_invertBinaryMask (mask : list Z) (i : Z) :
  aget (invertBinaryMask mask) i
  = (fun v => if negb (v =? 0) then 0 else 1) <$> aget mask i.
Proof.
  unfold invertBinaryMask, aget. case_match; [done|]. apply list_lookup_fmap.
Qed.

Lemma invertBinaryMask_binary (mask : list Z) :
  binaryMask (invertBinaryMask mask).
Proof.
  apply Forall_fmap, Forall_forall. intros v _. simpl.
  destruct (v =? 0); auto.
Qed.

Lemma invertBinaryMask_twice (mask : list Z) :
  binaryMask mask -> invertBinaryMask (invertBinaryMask mask) = mask.
Proof.
  intros Hbin. unfold invertBinaryMask. rewrite <- list_fmap_compose.
  rewrite <- (list_fmap_id mask) at 2.
  apply Forall_fmap_ext_1. eapply Forall_impl; [exact Hbin|].
  intros v [-> | ->]; done.
Qed.

End Invert.

(** X1: [invertBinaryMask] keeps the length, gives a mask of 0s and 1s
    that is 1 exactly where the input is 0; inverting a binary mask twice
    gives it back, and on any mask three inversions are one. *)
Theorem invertBinaryMask_involutive :
  (forall mask,
     length (invertBinaryMask mask) = length mask /\
     binaryMask (invertBinaryMask mask) /\
     forall i v, aget mask i = Some v ->
       aget (invertBinaryMask mask) i = Some (if v =? 0 then 1 else 0)) /\
  (forall mask, binaryMask mask ->
     invertBinaryMask (invertBinaryMask mask) = mask) /\
  (forall mask,
     invertBinaryMask (invertBinaryMask (invertBinaryMask mask))
     = invertBinaryMask mask).
Proof.
  split_and!.
  - intros mask. split_and!.
    + unfold invertBinaryMask. by rewrite length_fmap.
    + apply invertBinaryMask_binary.
    + intros i v Hv. rewrite aget_invertBinaryMask, Hv. simpl.
      by destruct (v =? 0).
  - apply invertBinaryMask_twice.
  - intros mask. apply invertBinaryMask_twice, invertBinaryMask_binary.
Qed.

Lemma invertBinaryMask_involutive_witness :
  invertBinaryMask (invertBinaryMask [0; 1; 1; 0]) = [0; 1; 1; 0].
Proof.
  apply (proj1 (proj2 invertBinaryMask_involutive)).
  unfold binaryMask.
  repeat (apply Forall_cons; split; [lia|]). apply Forall_nil_2.
Defined.

Section Morphology.

Variables (mask : list Z) (width height radius : Z).
Hypothesis Hw : 0 < width.
Hypothesis Hh : 0 < height.
Hypothesis Hlen : Z.of_nat (length mask) = width * height.

Lemma window_rows (y ny : Z) :
  0 <= y < height ->
  ny ∈ range (Z.max 0 (y - radius)) (Z.min (height - 1) (y + radius) + 1) 1
  <-> 0 <= ny < height /\ Z.abs (ny - y) <= radius.
Proof. intros Hy. rewrite elem_of_range_1. lia. Qed.

Lemma window_columns (x nx : Z) :
  0 <= x < width ->
  nx ∈ range (Z.max 0 (x - radius)) (Z.min (width - 1) (x + radius) + 1) 1
  <-> 0 <= nx < width /\ Z.abs (nx - x) <= radius.
Proof. intros Hx. rewrite elem_of_range_1. lia. Qed.

Lemma windowAny_true (x y : Z) :
  0 <= x < width -> 0 <= y < height ->
  windowAny mask width height radius x y = true <->
  exists x' y', 0 <= x' < width /\ 0 <= y' < height /\
    Z.abs (x' - x) <= radius /\ Z.abs (y' - y) <= radius /\
    truthyZ (aget mask (pixelIndex width x' y')) = true.
Proof.
  intros Hx Hy. unfold windowAny. cbv zeta. rewrite existsb_exists. split.
  - intros (ny & Hny%list_elem_of_In & Hrow).
    apply (window_rows y ny Hy) in Hny.
    apply existsb_exists in Hrow as (nx & Hnx%list_elem_of_In & Ht).
    apply (window_columns x nx Hx) in Hnx.
    exists nx, ny. tauto.
  - intros (x' & y' & Hx' & Hy' & Hdx & Hdy & Ht). exists y'. split.
    + apply list_elem_of_In, window_rows; done.
    + apply existsb_exists. exists x'. split; [|done].
      apply list_elem_of_In, window_columns; done.
Qed.

Lemma windowAll_true (x y : Z) :
  0 <= x < width -> 0 <= y < height ->
  windowAll mask width height radius x y = true <->
  forall x' y', 0 <= x' < width -> 0 <= y' < height ->
    Z.abs (x' - x) <= radius -> Z.abs (y' - y) <= radius ->
    truthyZ (aget mask (pixelIndex width x' y')) = true.
Proof.
  intros Hx Hy. unfold windowAll. cbv zeta. rewrite forallb_forall. split.
  - intros H x' y' Hx' Hy' Hdx Hdy.
    specialize (H y' ltac:(apply list_elem_of_In, window_rows; done)).
    rewrite forallb_forall in H.
    apply (H x'). apply list_elem_of_In, window_columns; done.
  - intros H ny Hny%list_elem_of_In.
    apply (window_rows y ny Hy) in Hny.
    apply forallb_forall. intros nx Hnx%list_elem_of_In.
    apply (window_columns x nx Hx) in Hnx.
    apply H; tauto.
Qed.

Lemma aget_dilateBinary (x y : Z) :
  0 <= x < width -> 0 <= y < height ->
  aget (dilateBinary mask width height radius) (pixelIndex width x y)
  = Some (if windowAny mask width height radius x y then 1 else 0).
Proof.
  intros Hx Hy. unfold dilateBinary. apply aget_fill2; try done.
  unfold zeros. rewrite length_replicate.
  pose proof (pixelIndex_bounds width height x y Hx Hy). lia.
Qed.

Lemma aget_erodeBinary (x y : Z) :
  0 <= x < width -> 0 <= y < height ->
  aget (erodeBinary mask width height radius) (pixelIndex width x y)
  = Some (if windowAll mask width height radius x y then 1 else 0).
Proof.
  intros Hx Hy. unfold erodeBinary. apply aget_fill2; try done.
  unfold zeros. rewrite length_replicate.
  pose proof (pixelIndex_bounds width height x y Hx Hy). lia.
Qed.

Lemma length_dilateBinary :
  length (dilateBinary mask width height radius) = length mask.
Proof.
  unfold dilateBinary. rewrite length_fill2. unfold zeros.
  rewrite length_replicate. lia.
Qed.

Lemma length_erodeBinary :
  length (erodeBinary mask width height radius) = length mask.
Proof.
  unfold erodeBinary. rewrite length_fill2. unfold zeros.
  rewrite length_replicate. lia.
Qed.

Lemma dilateBinary_binary : binaryMask (dilateBinary mask width height radius).
Proof.
  apply fill2_values; try done.
  - unfold zeros. rewrite length_replicate. lia.
  - intros x y. destruct (windowAny _ _ _ _ _ _); auto.
Qed.

Lemma erodeBinary_binary : binaryMask (erodeBinary mask width height radius).
Proof.
  apply fill2_values; try done.
  - unfold zeros. rewrite length_replicate. lia.
  - intros x y. destruct (windowAll _ _ _ _ _ _); auto.
Qed.

End Morphology.

Section BinaryMorphology.

Variables (mask : list Z) (width height radius : Z).
Hypothesis Hw : 0 < width.
Hypothesis Hh : 0 < height.
Hypothesis Hlen : Z.of_nat (length mask) = width * height.
Hypothesis Hbin : binaryMask mask.

Lemma dilateBinary_within (x y : Z) :
  0 <= x < width -> 0 <= y < height ->
  aget (dilateBinary mask width height radius) (pixelIndex width x y) = Some 1
  <-> foregroundWithin mask width height radius x y.
Proof.
  intros Hx Hy. rewrite aget_dilateBinary by done.
  pose proof (windowAny_true mask width height radius Hw Hh x y Hx Hy) as H.
  unfold foregroundWithin.
  destruct (windowAny mask width height radius x y).
  - split; [intros _|done].
    destruct (proj1 H eq_refl) as (x' & y' & ? & ? & ? & ? & Ht).
    exists x', y'. do 4 (split; [done|]).
    by apply (proj1 (foreground_truthy mask width height Hlen Hbin _)).
  - split; [done|]. intros (x' & y' & ? & ? & ? & ? & Ht).
    assert (false = true); [|done]. apply H. exists x', y'.
    do 4 (split; [done|]).
    by apply (proj2 (foreground_truthy mask width height Hlen Hbin _)).
Qed.

Lemma erodeBinary_throughout (x y : Z) :
  0 <= x < width -> 0 <= y < height ->
  aget (erodeBinary mask width height radius) (pixelIndex width x y) = Some 1
  <-> foregroundThroughout mask width height radius x y.
Proof.
  intros Hx Hy. rewrite aget_erodeBinary by done.
  pose proof (windowAll_true mask width height radius Hw Hh x y Hx Hy) as H.
  unfold foregroundThroughout.
  destruct (windowAll mask width height radius x y).
  - split; [intros _|done]. intros x' y' ? ? ? ?.
    apply (proj1 (foreground_truthy mask width height Hlen Hbin _)).
    by apply (proj1 H eq_refl).
  - split; [done|]. intros Hall.
    assert (false = true); [|done]. apply H. intros x' y' ? ? ? ?.
    apply (proj2 (foreground_truthy mask width height Hlen Hbin _)).
    by apply Hall.
Qed.

End BinaryMorphology.

(** X2: on a binary mask, [dilateBinary] gives a binary mask of the same
    length whose pixel is 1 exactly when some foreground pixel lies in the
    square window of the given radius around it; with a radius that is not
    negative it never removes a foreground pixel. *)
Theorem dilateBinary_spec (mask : list Z) (width height radius : Z) :
  0 < width -> 0 < height ->
  Z.of_nat (length mask) = width * height -> binaryMask mask ->
  let out := dilateBinary mask width height radius in
  length out = length mask /\ binaryMask out /\
  forall x y, 0 <= x < width -> 0 <= y < height ->
    (aget out (pixelIndex width x y) = Some 1
     <-> foregroundWithin mask width height radius x y) /\
    (0 <= radius -> aget mask (pixelIndex width x y) = Some 1 ->
     aget out (pixelIndex width x y) = Some 1).
Proof.
  intros Hw Hh Hlen Hbin out. split_and!.
  - by apply length_dilateBinary.
  - by apply dilateBinary_binary.
  - intros x y Hx Hy. split; [by apply dilateBinary_within|].
    intros Hr Hm. apply dilateBinary_within; try done.
    exists x, y. do 4 (split; [lia|]). done.
Qed.

Lemma dilateBinary_spec_witness :
  let out := dilateBinary [0; 0; 0; 0; 1; 0; 0; 0; 0] 3 3 1 in
  length out = length [0; 0; 0; 0; 1; 0; 0; 0; 0] /\ binaryMask out /\
  forall x y, 0 <= x < 3 -> 0 <= y < 3 ->
    (aget out (pixelIndex 3 x y) = Some 1
     <-> foregroundWithin [0; 0; 0; 0; 1; 0; 0; 0; 0] 3 3 1 x y) /\
    (0 <= 1 -> aget [0; 0; 0; 0; 1; 0; 0; 0; 0] (pixelIndex 3 x y) = Some 1 ->
     aget out (pixelIndex 3 x y) = Some 1).
Proof.
  apply (dilateBinary_spec [0; 0; 0; 0; 1; 0; 0; 0; 0] 3 3 1);
    [lia|lia|reflexivity|].
  unfold binaryMask.
  repeat (apply Forall_cons; split; [lia|]). apply Forall_nil_2.
Defined.

(** X3: on a binary mask, [erodeBinary] gives a binary mask of the same
    length whose pixel is 1 exactly when every pixel of the grid in the
    square window of the given radius around it is foreground; with a
    radius that is not negative it never adds a foreground pixel. *)
Theorem erodeBinary_spec (mask : list Z) (width height radius : Z) :
  0 < width -> 0 < height ->
  Z.of_nat (length mask) = width * height -> binaryMask mask ->
  let out := erodeBinary mask width height radius in
  length out = length mask /\ binaryMask out /\
  forall x y, 0 <= x < width -> 0 <= y < height ->
    (aget out (pixelIndex width x y) = Some 1
     <-> foregroundThroughout mask width height radius x y) /\
    (0 <= radius -> aget out (pixelIndex width x y) = Some 1 ->
     aget mask (pixelIndex width x y) = Some 1).
Proof.
  intros Hw Hh Hlen Hbin out. split_and!.
  - by apply length_erodeBinary.
  - by apply erodeBinary_binary.
  - intros x y Hx Hy. split; [by apply erodeBinary_throughout|].
    intros Hr Ho. apply erodeBinary_throughout in Ho; try done.
    apply Ho; try done; lia.
Qed.

Lemma erodeBinary_spec_witness :
  let out := erodeBinary [1; 1; 1; 1; 1; 1; 1; 1; 0] 3 3 1 in
  length out = length [1; 1; 1; 1; 1; 1; 1; 1; 0] /\ binaryMask out /\
  forall x y, 0 <= x < 3 -> 0 <= y < 3 ->
    (aget out (pixelIndex 3 x y) = Some 1
     <-> foregroundThroughout [1; 1; 1; 1; 1; 1; 1; 1; 0] 3 3 1 x y) /\
    (0 <= 1 -> aget out (pixelIndex 3 x y) = Some 1 ->
     aget [1; 1; 1; 1; 1; 1; 1; 1; 0] (pixelIndex 3 x y) = Some 1).
Proof.
  apply (erodeBinary_spec [1; 1; 1; 1; 1; 1; 1; 1; 0] 3 3 1);
    [lia|lia|reflexivity|].
  unfold binaryMask.
  repeat (apply Forall_cons; split; [lia|]). apply Forall_nil_2.
Defined.

Section Duality.

Variables (mask : list Z) (width height radius : Z).
Hypothesis Hw : 0 < width.
Hypothesis Hh : 0 < height.
Hypothesis Hlen : Z.of_nat (length mask) = width * height.

Lemma truthy_invertBinaryMask (x y : Z) :
  0 <= x < width -> 0 <= y < height ->
  truthyZ (aget (invertBinaryMask mask) (pixelIndex width x y))
  = negb (truthyZ (aget mask (pixelIndex width x y))).
Proof.
  intros Hx Hy. rewrite aget_invertBinaryMask.
  pose proof (pixelIndex_bounds width height x y Hx Hy) as Hb.
  destruct (aget mask (pixelIndex width x y)) as [v|] eqn:E.
  - simpl. unfold truthyZ. by destruct (v =? 0).
  - apply aget_None in E. lia.
Qed.

Lemma windowAll_dual (x y : Z) :
  0 <= x < width -> 0 <= y < height ->
  windowAll mask width height radius x y
  = negb (windowAny (invertBinaryMask mask) width height radius x y).
Proof.
  intros Hx Hy. apply eq_true_iff_eq.
  rewrite negb_true_iff, <- not_true_iff_false.
  rewrite (windowAll_true mask width height radius Hw Hh x y Hx Hy).
  rewrite (windowAny_true (invertBinaryMask mask) width height radius
             Hw Hh x y Hx Hy).
  split.
  - intros Hall (x' & y' & Hx' & Hy' & Hdx & Hdy & Ht).
    rewrite truthy_invertBinaryMask in Ht by done.
    rewrite (Hall x' y' Hx' Hy' Hdx Hdy) in Ht. done.
  - intros Hno x' y' Hx' Hy' Hdx Hdy.
    destruct (truthyZ (aget mask (pixelIndex width x' y'))) eqn:E; [done|].
    destruct Hno. exists x', y'. do 4 (split; [done|]).
    rewrite truthy_invertBinaryMask by done. by rewrite E.
Qed.

Lemma windowAny_dual (x y : Z) :
  0 <= x < width -> 0 <= y < height ->
  windowAny mask width height radius x y
  = negb (windowAll (invertBinaryMask mask) width height radius x y).
Proof.
  intros Hx Hy. apply eq_true_iff_eq.
  rewrite negb_true_iff, <- not_true_iff_false.
  rewrite (windowAny_true mask width height radius Hw Hh x y Hx Hy).
  rewrite (windowAll_true (invertBinaryMask mask) width height radius
             Hw Hh x y Hx Hy).
  split.
  - intros (x' & y' & Hx' & Hy' & Hdx & Hdy & Ht) Hall.
    specialize (Hall x' y' Hx' Hy' Hdx Hdy).
    rewrite truthy_invertBinaryMask in Hall by done.
    rewrite Ht in Hall. done.
  - intros Hno.
    destruct (windowAny mask width height radius x y) eqn:E.
    + by apply (windowAny_true mask width height radius Hw Hh x y Hx Hy).
    + destruct Hno. intros x' y' Hx' Hy' Hdx Hdy.
      rewrite truthy_invertBinaryMask by done.
      destruct (truthyZ (aget mask (pixelIndex width x' y'))) eqn:Et; [|done].
      assert (false = true); [|done]. rewrite <- E.
      apply (windowAny_true mask width height radius Hw Hh x y Hx Hy).
      by exists x', y'.
Qed.

Lemma grid_eq (a b : list Z) :
  Z.of_nat (length a) = width * height ->
  Z.of_nat (length b) = width * height ->
  (forall x y, 0 <= x < width -> 0 <= y < height ->
     aget a (pixelIndex width x y) = aget b (pixelIndex width x y)) ->
  a = b.
Proof.
  intros Ha Hb H. apply list_eq_aget; [lia|].
  intros i Hi.
  destruct (pixelIndex_decompose width i Hw ltac:(lia)) as (E & Hx & Hy).
  rewrite E. apply H; [done|]. split; [done|].
  apply Z.div_lt_upper_bound; lia.
Qed.

Lemma length_invertBinaryMask (m : list Z) :
  length (invertBinaryMask m) = length m.
Proof. unfold invertBinaryMask. by rewrite length_fmap. Qed.

Lemma erodeBinary_dual :
  erodeBinary mask width height radius
  = invertBinaryMask
      (dilateBinary (invertBinaryMask mask) width height radius).
Proof.
  assert (Hli : Z.of_nat (length (invertBinaryMask mask)) = width * height)
    by (by rewrite length_invertBinaryMask).
  apply grid_eq.
  - by rewrite length_erodeBinary.
  - by rewrite length_invertBinaryMask, length_dilateBinary.
  - intros x y Hx Hy.
    rewrite aget_erodeBinary, aget_invertBinaryMask, aget_dilateBinary by done.
    rewrite windowAll_dual by done. simpl.
    by destruct (windowAny _ _ _ _ _ _).
Qed.

Lemma dilateBinary_dual :
  dilateBinary mask width height radius
  = invertBinaryMask
      (erodeBinary (invertBinaryMask mask) width height radius).
Proof.
  assert (Hli : Z.of_nat (length (invertBinaryMask mask)) = width * height)
    by (by rewrite length_invertBinaryMask).
  apply grid_eq.
  - by rewrite length_dilateBinary.
  - by rewrite length_invertBinaryMask, length_erodeBinary.
  - intros x y Hx Hy.
    rewrite aget_dilateBinary, aget_invertBinaryMask, aget_erodeBinary by done.
    rewrite windowAny_dual by done. simpl.
    by destruct (windowAll _ _ _ _ _ _).
Qed.

End Duality.

(** X4: erosion and dilation are dual under [invertBinaryMask]: eroding a
    mask is inverting the dilation of its inverse, and dilating it is
    inverting the erosion of its inverse, for any radius and any mask
    that covers the grid (its entries need not be 0 or 1). *)
Theorem erodeBinary_dilateBinary_dual (mask : list Z) (width height radius : Z) :
  0 < width -> 0 < height ->
  Z.of_nat (length mask) = width * height ->
  erodeBinary mask width height radius
  = invertBinaryMask
      (dilateBinary (invertBinaryMask mask) width height radius) /\
  dilateBinary mask width height radius
  = invertBinaryMask
      (erodeBinary (invertBinaryMask mask) width height radius).
Proof.
  intros Hw Hh Hlen. split.
  - by apply erodeBinary_dual.
  - by apply dilateBinary_dual.
Qed.

Lemma erodeBinary_dilateBinary_dual_witness :
  erodeBinary [1; 1; 1; 1; 7; 1; 1; 1; 0] 3 3 1
  = invertBinaryMask
      (dilateBinary (invertBinaryMask [1; 1; 1; 1; 7; 1; 1; 1; 0]) 3 3 1) /\
  dilateBinary [1; 1; 1; 1; 7; 1; 1; 1; 0] 3 3 1
  = invertBinaryMask
      (erodeBinary (invertBinaryMask [1; 1; 1; 1; 7; 1; 1; 1; 0]) 3 3 1).
Proof.
  apply (erodeBinary_dilateBinary_dual [1; 1; 1; 1; 7; 1; 1; 1; 0] 3 3 1);
    [lia|lia|reflexivity].
Defined.

Lemma aget_Some_grid (width height : Z) (m : list Z) (i v : Z) :
  0 < width ->
  Z.of_nat (length m) = width * height -> aget m i = Some v ->
  exists x y, 0 <= x < width /\ 0 <= y < height /\ i = pixelIndex width x y.
Proof.
  intros Hw Hm Hv. apply aget_Some_bounds in Hv.
  destruct (pixelIndex_decompose width i Hw ltac:(lia)) as (E & Hx & Hy).
  exists (Z.rem i width), (i / width). split; [done|]. split; [|done].
  split; [done|]. apply Z.div_lt_upper_bound; lia.
Qed.

Section OpenClose.

Variables (mask : list Z) (width height radius : Z).
Hypothesis Hw : 0 < width.
Hypothesis Hh : 0 < height.
Hypothesis Hlen : Z.of_nat (length mask) = width * height.
Hypothesis Hbin : binaryMask mask.

Lemma opening_subMask :
  subMask (dilateBinary (erodeBinary mask width height radius)
             width height radius) mask.
Proof.
  assert (Hle : Z.of_nat (length (erodeBinary mask width height radius))
                = width * height) by (by rewrite length_erodeBinary).
  assert (Hlo : Z.of_nat (length (dilateBinary
                  (erodeBinary mask width height radius) width height radius))
                = width * height) by (by rewrite length_dilateBinary).
  intros i Hi.
  destruct (aget_Some_grid width height _ i 1 Hw Hlo Hi)
    as (x & y & Hx & Hy & ->).
  apply dilateBinary_within in Hi; try done; [|by apply erodeBinary_binary].
  destruct Hi as (x' & y' & Hx' & Hy' & Hdx & Hdy & He).
  apply erodeBinary_throughout in He; try done.
  apply He; try done; lia.
Qed.

Lemma closing_subMask :
  subMask mask (erodeBinary (dilateBinary mask width height radius)
                  width height radius).
Proof.
  assert (Hld : Z.of_nat (length (dilateBinary mask width height radius))
                = width * height) by (by rewrite length_dilateBinary).
  intros i Hi.
  destruct (aget_Some_grid width height _ i 1 Hw Hlen Hi)
    as (x & y & Hx & Hy & ->).
  apply erodeBinary_throughout; try done; [by apply dilateBinary_binary|].
  intros x' y' Hx' Hy' Hdx Hdy.
  apply dilateBinary_within; try done.
  exists x, y. do 4 (split; [lia|]). done.
Qed.

End OpenClose.

(** X5: the two contour-stabilising steps of [buildLocalForegroundMask]
    bracket the mask: the opening (erode, then dilate) only removes
    foreground pixels and the closing (dilate, then erode) only adds
    them, for any radius. *)
Theorem opening_closing_bracket (mask : list Z) (width height radius : Z) :
  0 < width -> 0 < height ->
  Z.of_nat (length mask) = width * height -> binaryMask mask ->
  subMask (dilateBinary (erodeBinary mask width height radius)
             width height radius) mask /\
  subMask mask (erodeBinary (dilateBinary mask width height radius)
                  width height radius).
Proof.
  intros Hw Hh Hlen Hbin. split.
  - by apply opening_subMask.
  - by apply closing_subMask.
Qed.

Lemma opening_closing_bracket_witness :
  subMask (dilateBinary (erodeBinary [0; 1; 1; 0; 1; 1; 1; 0; 0] 3 3 1) 3 3 1)
    [0; 1; 1; 0; 1; 1; 1; 0; 0] /\
  subMask [0; 1; 1; 0; 1; 1; 1; 0; 0]
    (erodeBinary (dilateBinary [0; 1; 1; 0; 1; 1; 1; 0; 0] 3 3 1) 3 3 1).
Proof.
  apply (opening_closing_bracket [0; 1; 1; 0; 1; 1; 1; 0; 0] 3 3 1);
    [lia|lia|reflexivity|].
  unfold binaryMask.
  repeat (apply Forall_cons; split; [lia|]). apply Forall_nil_2.
Defined.
(** * Hole filling: fixed points *)

Section FillAgain.

Variables (mask : list Z) (width height : Z).
Hypothesis Hw : 0 < width.
Hypothesis Hh : 0 < height.
Hypothesis Hlen : Z.of_nat (length mask) = width * height.
Hypothesis Hbin : binaryMask mask.

Local Abbreviation out := (fillMaskHoles mask width height).

Lemma fillMaskHoles_cases (i : Z) :
  0 <= i < width * height ->
  (aget out i = Some 0 /\ aget mask i = Some 0 /\
   borderReachable mask width height i) \/
  (aget out i = Some 1 /\
   ~ (aget mask i = Some 0 /\ borderReachable mask width height i)).
Proof.
  intros Hi.
  rewrite (aget_fillMaskHoles mask width height Hlen i Hi).
  pose proof (reachedFromBorder_spec mask width height Hw Hh Hlen Hbin i Hi)
    as Hr.
  destruct (mask_value mask width height Hlen Hbin i Hi) as [E|E];
    rewrite E.
  - destruct (truthyZ _).
    + left. split; [done|]. split; [done|]. by apply Hr.
    + right. split; [done|]. intros [_ Hd%Hr]. done.
  - right. split; [done|]. intros [? _]. done.
Qed.

Lemma length_fillMaskHoles_grid :
  Z.of_nat (length out) = width * height.
Proof. by rewrite (length_fillMaskHoles mask width height). Qed.

Lemma fillMaskHoles_binary : binaryMask out.
Proof.
  apply Forall_forall. intros v Hv.
  apply list_elem_of_lookup in Hv as [k Hk].
  pose proof (lookup_lt_Some _ _ _ Hk) as Hlt.
  assert (Hi : 0 <= Z.of_nat k < width * height)
    by (rewrite <- length_fillMaskHoles_grid; lia).
  assert (Ha : aget out (Z.of_nat k) = Some v)
    by (by rewrite aget_lookup, Nat2Z.id by lia).
  destruct (fillMaskHoles_cases _ Hi) as [(Ho & _)|(Ho & _)];
    rewrite Ho in Ha; injection Ha as <-; auto.
Qed.

Lemma fillMaskHoles_keeps_reachable (j : Z) :
  borderReachable mask width height j -> borderReachable out width height j.
Proof.
  assert (Hzero : forall j, borderReachable mask width height j ->
            0 <= j < width * height -> aget out j = Some 0).
  { intros k Hk Hkb.
    destruct (fillMaskHoles_cases k Hkb) as [(Ho & _)|(_ & Hn)]; [done|].
    exfalso. apply Hn. split; [|done].
    by apply (reach_zero mask width height). }
  intros Hr. induction Hr as [b [Hb Hm]|p n Hp IH Hadj Hn].
  - apply reach_start. split; [done|]. apply Hzero.
    + apply reach_start. by split.
    + destruct Hb as (x & y & Hx & Hy & -> & _).
      by apply pixelIndex_bounds.
  - apply (reach_step _ _ _ _ p n IH Hadj).
    destruct (adjacent4_bounds width height p n Hadj) as [_ Hnb].
    apply Hzero; [|done]. by apply (reach_step _ _ _ _ p n).
Qed.

Lemma fillMaskHoles_zero_reachable (i : Z) :
  aget out i = Some 0 -> borderReachable out width height i.
Proof.
  intros Hi.
  assert (Hb : 0 <= i < width * height).
  { pose proof (aget_Some_bounds _ _ _ Hi) as Hb.
    rewrite length_fillMaskHoles_grid in Hb. lia. }
  destruct (fillMaskHoles_cases i Hb) as [(_ & _ & Hr)|(Ho & _)];
    [|congruence].
  by apply fillMaskHoles_keeps_reachable.
Qed.

(** The masks the fill leaves alone are those without enclosed
    background. *)
Lemma fillMaskHoles_fixed :
  out = mask <->
  (forall i, aget mask i = Some 0 -> borderReachable mask width height i).
Proof.
  split.
  - intros E i Hi. rewrite <- E in Hi |- *.
    by apply fillMaskHoles_zero_reachable.
  - intros Hall. apply list_eq_aget.
    + apply (length_fillMaskHoles mask width height).
    + intros i Hi. rewrite length_fillMaskHoles_grid in Hi.
      destruct (fillMaskHoles_cases i Hi) as [(Ho & Hm & _)|(Ho & Hn)];
        [congruence|].
      rewrite Ho.
      destruct (mask_value mask width height Hlen Hbin i Hi) as [E|E];
        [|done].
      destruct Hn. split; [done|]. by apply Hall.
Qed.

End FillAgain.

Lemma fillMaskHoles_again (mask : list Z) (width height : Z) :
  0 < width -> 0 < height ->
  Z.of_nat (length mask) = width * height -> binaryMask mask ->
  fillMaskHoles (fillMaskHoles mask width height) width height
  = fillMaskHoles mask width height.
Proof.
  intros Hw Hh Hlen Hbin.
  apply fillMaskHoles_fixed; try done.
  - by apply length_fillMaskHoles_grid.
  - by apply fillMaskHoles_binary.
  - intros i Hi. by apply fillMaskHoles_zero_reachable.
Qed.

(** X6: on a binary mask, [fillMaskHoles] returns a binary mask; it
    returns the mask unchanged exactly when every 0-valued pixel is joined
    to the border through 0-valued pixels, and filling a second time
    changes nothing. *)
Theorem fillMaskHoles_idempotent (mask : list Z) (width height : Z) :
  0 < width -> 0 < height ->
  Z.of_nat (length mask) = width * height -> binaryMask mask ->
  binaryMask (fillMaskHoles mask width height) /\
  (fillMaskHoles mask width height = mask <->
   forall i, aget mask i = Some 0 -> borderReachable mask width height i) /\
  fillMaskHoles (fillMaskHoles mask width height) width height
  = fillMaskHoles mask width height.
Proof.
  intros Hw Hh Hlen Hbin. split; [by apply fillMaskHoles_binary|].
  split; [by apply fillMaskHoles_fixed|by apply fillMaskHoles_again].
Qed.

Lemma fillMaskHoles_idempotent_witness :
  fillMaskHoles (fillMaskHoles [1; 1; 1; 1; 0; 1; 1; 1; 1] 3 3) 3 3
  = fillMaskHoles [1; 1; 1; 1; 0; 1; 1; 1; 1] 3 3.
Proof.
  apply (fillMaskHoles_idempotent [1; 1; 1; 1; 0; 1; 1; 1; 1] 3 3);
    [lia|lia|reflexivity|].
  unfold binaryMask.
  repeat (apply Forall_cons; split; [lia|]). apply Forall_nil_2.
Defined.

(** X7: on a grid at most two pixels wide or two pixels high every pixel
    lies on the border, so [fillMaskHoles] returns a binary mask as it
    is. *)
Theorem fillMaskHoles_thin (mask : list Z) (width height : Z) :
  0 < width -> 0 < height ->
  Z.of_nat (length mask) = width * height -> binaryMask mask ->
  width <= 2 \/ height <= 2 ->
  fillMaskHoles mask width height = mask.
Proof.
  intros Hw Hh Hlen Hbin Hthin. apply fillMaskHoles_fixed; try done.
  intros i Hi. apply reach_start. split; [|done].
  pose proof (aget_Some_bounds _ _ _ Hi) as Hb.
  destruct (pixelIndex_decompose width i Hw ltac:(lia)) as (E & Hx & Hy).
  exists (Z.rem i width), (i / width).
  assert (i / width < height) by (apply Z.div_lt_upper_bound; lia).
  split; [done|]. split; [lia|]. split; [done|]. lia.
Qed.

Lemma fillMaskHoles_thin_witness :
  fillMaskHoles [1; 0; 1; 1; 0; 1] 2 3 = [1; 0; 1; 1; 0; 1].
Proof.
  apply (fillMaskHoles_thin [1; 0; 1; 1; 0; 1] 2 3);
    [lia|lia|reflexivity| |lia].
  unfold binaryMask.
  repeat (apply Forall_cons; split; [lia|]). apply Forall_nil_2.
Defined.
(** * Region selection never adds and never empties *)

Lemma best_in_range (f : Z -> float) (l : list Z) (b : Z) (s : float) :
  (foldl (fun '(bestId, bestScore) id =>
            let score := f id in
            if PrimFloat.ltb bestScore score then (id, score)
            else (bestId, bestScore)) (b, s) l).1 ∈ b :: l.
Proof.
  revert b s. induction l as [|id l IH]; intros b s; [by left|].
  simpl foldl. cbv zeta. destruct (PrimFloat.ltb s (f id)).
  - right. apply IH.
  - specialize (IH b s). apply elem_of_cons in IH as [IH|IH].
    + apply elem_of_cons. left. exact IH.
    + apply elem_of_cons. right. apply elem_of_cons. right. exact IH.
Qed.

Section Kept.

Variables (mask : list Z) (width height : Z).
Hypothesis Hw : 0 < width.
Hypothesis Hh : 0 < height.
Hypothesis Hlen : Z.of_nat (length mask) = width * height.
Hypothesis Hbin : binaryMask mask.
Variables (comps : list (list Z)) (lab : Labelling.t).
Hypothesis Hlab : labelled mask width height (width * height) comps lab.
Hypothesis El : lab = labelComponents mask width height.

Local Abbreviation total := (width * height).
Local Abbreviation out := (keepMainForegroundRegions mask width height).

Lemma bestComponent_range :
  1 <= Z.of_nat (length comps) ->
  1 <= bestComponent lab total <= Z.of_nat (length comps).
Proof.
  intros Hk. unfold bestComponent.
  rewrite (lab_id _ _ _ _ _ _ Hlab).
  set (r := foldl _ _ _).
  assert (H : r.1 ∈ 1 :: range 1 (Z.of_nat (length comps) + 1) 1)
    by apply (best_in_range (componentScore lab total)).
  apply elem_of_cons in H as [H|H%elem_of_range_1]; lia.
Qed.

Lemma keepMain_few :
  Z.of_nat (length comps) <= 1 -> out = mask.
Proof.
  intros Hk. unfold keepMainForegroundRegions. cbv zeta. rewrite <- El.
  rewrite (lab_id _ _ _ _ _ _ Hlab).
  destruct (Z.leb_spec (Z.of_nat (length comps)) 1); [done|lia].
Qed.

Lemma keepMain_length : length out = length mask.
Proof.
  destruct (Z.le_gt_cases (Z.of_nat (length comps)) 1) as [Hk|Hk].
  - by rewrite keepMain_few.
  - pose proof (length_keepMain mask width height Hw Hh Hlen comps lab Hlab
                  ltac:(lia) El). lia.
Qed.

Lemma keepMain_binary : binaryMask out.
Proof.
  destruct (Z.le_gt_cases (Z.of_nat (length comps)) 1) as [Hk|Hk].
  - by rewrite keepMain_few.
  - apply Forall_forall. intros v Hv.
    apply list_elem_of_lookup in Hv as [k Hv].
    pose proof (lookup_lt_Some _ _ _ Hv) as Hlt.
    rewrite keepMain_length in Hlt.
    pose proof (aget_keepMain mask width height Hw Hh comps lab Hlab
                  (Z.of_nat k) ltac:(lia) El ltac:(lia)) as Ha.
    rewrite aget_lookup, Nat2Z.id, Hv in Ha by lia.
    injection Ha as ->. destruct (_ && _); auto.
Qed.

Lemma keepMain_subMask : subMask out mask.
Proof.
  destruct (Z.le_gt_cases (Z.of_nat (length comps)) 1) as [Hk|Hk].
  - rewrite keepMain_few by done. by intros i Hi.
  - intros i Hi. pose proof (aget_Some_bounds _ _ _ Hi) as Hb.
    rewrite keepMain_length in Hb.
    rewrite (aget_keepMain mask width height Hw Hh comps lab Hlab
               i ltac:(lia) El ltac:(lia)) in Hi.
    destruct (lab_value _ _ _ _ _ _ Hlab i ltac:(lia))
      as (v & Hv & _ & Hc).
    rewrite Hv in Hi. simpl in Hi.
    destruct (Z.ltb_spec 0 v) as [Hpos|]; [|done].
    destruct Hc as (c & Hc & Hic); [lia|].
    destruct (lab_comp _ _ _ _ _ _ Hlab _ _ Hc) as (_ & root & _ & Hroot).
    eapply joined_foreground. by apply Hroot.
Qed.

Lemma keepMain_hasForeground : hasForeground mask -> hasForeground out.
Proof.
  intros Hfg.
  destruct (Z.le_gt_cases (Z.of_nat (length comps)) 1) as [Hk|Hk].
  - by rewrite keepMain_few.
  - pose proof (bestComponent_range ltac:(lia)) as Hbest.
    set (bestId := bestComponent lab total) in *.
    destruct (lookup_lt_is_Some_2 comps (Z.to_nat (bestId - 1)) ltac:(lia))
      as [best Hb].
    destruct (lab_comp _ _ _ _ _ _ Hlab _ _ Hb) as (_ & root & Hroot & Hj).
    pose proof (proj1 (Hj root) Hroot) as Hrb%joined_bounds; [|done].
    exists root.
    rewrite (aget_keepMain mask width height Hw Hh comps lab Hlab
               root ltac:(lia) El Hrb).
    rewrite (lab_member _ _ _ _ _ _ Hlab _ _ _ Hb Hroot). simpl.
    replace (Z.of_nat (Z.to_nat (bestId - 1)) + 1) with bestId by lia.
    rewrite (keptComponents_spec mask width height comps lab Hlab
               best best bestId Hbest Hb Hbest Hb).
    fold bestId. rewrite Z.eqb_refl. simpl.
    destruct (Z.ltb_spec 0 bestId); [done|lia].
Qed.

End Kept.

Lemma keepMainForegroundRegions_shape (mask : list Z) (width height : Z) :
  0 < width -> 0 < height ->
  Z.of_nat (length mask) = width * height -> binaryMask mask ->
  length (keepMainForegroundRegions mask width height) = length mask /\
  binaryMask (keepMainForegroundRegions mask width height).
Proof.
  intros Hw Hh Hlen Hbin.
  destruct (labelComponents_labelled mask width height Hw Hh Hlen Hbin)
    as [comps Hlab].
  split; [by eapply keepMain_length|by eapply keepMain_binary].
Qed.

(** X8: on a binary mask over a grid of any size,
    [keepMainForegroundRegions] returns a binary mask of the same length
    that only removes foreground pixels, and it never removes all of
    them: if the mask has a foreground pixel, so has the result. *)
Theorem keepMainForegroundRegions_shrinks (mask : list Z) (width height : Z) :
  0 < width -> 0 < height ->
  Z.of_nat (length mask) = width * height -> binaryMask mask ->
  let out := keepMainForegroundRegions mask width height in
  length out = length mask /\ binaryMask out /\ subMask out mask /\
  (hasForeground mask -> hasForeground out).
Proof.
  intros Hw Hh Hlen Hbin out.
  destruct (labelComponents_labelled mask width height Hw Hh Hlen Hbin)
    as [comps Hlab].
  split; [by eapply keepMain_length|].
  split; [by eapply keepMain_binary|].
  split; [by eapply keepMain_subMask|by eapply keepMain_hasForeground].
Qed.

Lemma keepMainForegroundRegions_shrinks_witness :
  let out := keepMainForegroundRegions [1; 0; 1; 0; 0; 0; 1; 0; 0] 3 3 in
  length out = length [1; 0; 1; 0; 0; 0; 1; 0; 0] /\ binaryMask out /\
  subMask out [1; 0; 1; 0; 0; 0; 1; 0; 0] /\
  (hasForeground [1; 0; 1; 0; 0; 0; 1; 0; 0] -> hasForeground out).
Proof.
  apply (keepMainForegroundRegions_shrinks [1; 0; 1; 0; 0; 0; 1; 0; 0] 3 3);
    [lia|lia|reflexivity|].
  unfold binaryMask.
  repeat (apply Forall_cons; split; [lia|]). apply Forall_nil_2.
Defined.
(** * Automatic cropping *)

Lemma aget_fmap_range {A : Type} (f : Z -> A) (n i : Z) :
  0 <= i < n -> aget (f <$> range 0 n 1) i = Some (f i).
Proof.
  intros Hi. rewrite aget_lookup by lia.
  rewrite list_lookup_fmap, range_1, lookup_seqZ_lt by lia.
  simpl. f_equal. f_equal. lia.
Qed.

Lemma length_fmap_range {A : Type} (f : Z -> A) (n : Z) :
  0 <= n -> Z.of_nat (length (f <$> range 0 n 1)) = n.
Proof. intros Hn. rewrite length_fmap, range_1, length_seqZ. lia. Qed.

(** A property of bytes that holds on each of the 256 values. *)
Lemma byte_cases (P : Z -> bool) :
  forallb P (seqZ 0 256) = true -> forall a, isByte a -> P a = true.
Proof.
  intros H a Ha. rewrite forallb_forall in H. apply H.
  apply list_elem_of_In, elem_of_seqZ. unfold isByte in Ha. lia.
Qed.

(** The alpha bytes that pass the threshold of the crop scan. *)
Lemma alpha_threshold (a : Z) :
  isByte a -> belowThreshold (fround (Z2F a / 255)) = (a <? 21).
Proof.
  intros Ha.
  apply (byte_cases
           (fun a => Bool.eqb (belowThreshold (fround (Z2F a / 255)))
                       (a <? 21))) in Ha.
  - by apply eqb_prop in Ha.
  - vm_compute. reflexivity.
Qed.

Section Crop.

Variables (canvasWidth canvasHeight : Z) (b : Bounds.t) (margin : Z).
Hypothesis Hv : 0 <= Bounds.top b <= Bounds.bottom b /\
                Bounds.bottom b < canvasHeight.
Hypothesis Hh : 0 <= Bounds.left b <= Bounds.right b /\
                Bounds.right b < canvasWidth.
Hypothesis Hm : 0 <= margin.

Lemma cropCanvasWithBounds_rect :
  exists r, cropCanvasWithBounds canvasWidth canvasHeight b margin = Some r /\
    (0 <= Rect.left r /\ 0 <= Rect.top r /\
     Rect.left r + Rect.width r <= canvasWidth /\
     Rect.top r + Rect.height r <= canvasHeight) /\
    (forall x y, Bounds.left b <= x <= Bounds.right b ->
       Bounds.top b <= y <= Bounds.bottom b -> inRect r x y) /\
    (forall x y, inRect r x y ->
       Bounds.left b - margin <= x <= Bounds.right b + margin /\
       Bounds.top b - margin <= y <= Bounds.bottom b + margin) /\
    (margin = 0 ->
     r = Rect.mk (Bounds.left b) (Bounds.top b)
           (Bounds.right b - Bounds.left b + 1)
           (Bounds.bottom b - Bounds.top b + 1)).
Proof.
  unfold cropCanvasWithBounds. cbv zeta.
  set (top := Z.max 0 (Bounds.top b - margin)).
  set (left := Z.max 0 (Bounds.left b - margin)).
  set (bottom := Z.min (canvasHeight - 1) (Bounds.bottom b + margin)).
  set (right := Z.min (canvasWidth - 1) (Bounds.right b + margin)).
  destruct (Z.leb_spec (right - left + 1) 0); [lia|].
  destruct (Z.leb_spec (bottom - top + 1) 0); [lia|].
  simpl. eexists. split; [done|]. unfold inRect. simpl.
  split; [lia|]. split; [lia|]. split; [lia|].
  intros ->. f_equal; lia.
Qed.

End Crop.

(** X9: for bounds that lie inside the canvas and a margin that is not
    negative, [cropCanvasWithBounds] copies a rectangle that lies inside
    the canvas, contains the bounds and goes at most [margin] pixels
    beyond them on each side; it never falls back to the whole canvas.
    With the bounds [computeCropBoundsFromMask] finds, every pixel the
    scan counted is therefore kept by the crop. *)
Theorem cropCanvasWithBounds_spec :
  (forall canvasWidth canvasHeight b margin,
     0 <= Bounds.top b <= Bounds.bottom b /\ Bounds.bottom b < canvasHeight ->
     0 <= Bounds.left b <= Bounds.right b /\ Bounds.right b < canvasWidth ->
     0 <= margin ->
     exists r,
       cropCanvasWithBounds canvasWidth canvasHeight b margin = Some r /\
       (0 <= Rect.left r /\ 0 <= Rect.top r /\
        Rect.left r + Rect.width r <= canvasWidth /\
        Rect.top r + Rect.height r <= canvasHeight) /\
       (forall x y, Bounds.left b <= x <= Bounds.right b ->
          Bounds.top b <= y <= Bounds.bottom b -> inRect r x y) /\
       (forall x y, inRect r x y ->
          Bounds.left b - margin <= x <= Bounds.right b + margin /\
          Bounds.top b - margin <= y <= Bounds.bottom b + margin) /\
       (margin = 0 ->
        r = Rect.mk (Bounds.left b) (Bounds.top b)
              (Bounds.right b - Bounds.left b + 1)
              (Bounds.bottom b - Bounds.top b + 1))) /\
  (forall mask width height margin b,
     0 <= width -> 0 <= height -> 0 <= margin ->
     computeCropBoundsFromMask mask width height = Some b ->
     exists r,
       cropCanvasWithBounds width height b margin = Some r /\
       forall x y, 0 <= x < width -> 0 <= y < height ->
         cropHit mask width x y -> inRect r x y).
Proof.
  split; [intros; by apply cropCanvasWithBounds_rect|].
  intros mask width height margin b Hw Hh Hm Hb.
  pose proof (computeCropBoundsFromMask_hits mask width height Hw Hh) as H.
  rewrite Hb in H.
  destruct H as (H1 & H2 & Hbox & (xt & _ & Ht & _) & (xb & _ & Hbt & _)
                 & (yl & _ & Hl & _) & (yr & _ & Hr & _)).
  destruct (cropCanvasWithBounds_rect width height b margin)
    as (r & Er & _ & Hin & _); [lia..|].
  exists r. split; [done|]. intros x y Hx Hy Hhit.
  destruct (Hbox x y Hx Hy Hhit). by apply Hin.
Qed.

Lemma cropCanvasWithBounds_spec_witness :
  exists r,
    cropCanvasWithBounds 100 80 (Bounds.mk 10 40 5 50) 10 = Some r /\
    (0 <= Rect.left r /\ 0 <= Rect.top r /\
     Rect.left r + Rect.width r <= 100 /\
     Rect.top r + Rect.height r <= 80) /\
    (forall x y, 5 <= x <= 50 -> 10 <= y <= 40 -> inRect r x y) /\
    (forall x y, inRect r x y ->
       5 - 10 <= x <= 50 + 10 /\ 10 - 10 <= y <= 40 + 10) /\
    (10 = 0 -> r = Rect.mk 5 10 (50 - 5 + 1) (40 - 10 + 1)).
Proof.
  apply (proj1 cropCanvasWithBounds_spec 100 80 (Bounds.mk 10 40 5 50) 10);
    simpl; lia.
Defined.

Section AlphaMask.

Variables (data : list Z) (width height : Z).
Hypothesis Hbuf : pixelBuffer data width height.

Local Abbreviation alphaMask := (extractAlphaMaskFromCanvas data width height).

Lemma area_pos : 0 < width * height.
Proof. destruct Hbuf as (? & ? & _). nia. Qed.

Lemma length_extractAlphaMask :
  Z.of_nat (length alphaMask) = width * height.
Proof.
  unfold extractAlphaMaskFromCanvas. apply length_fmap_range.
  pose proof area_pos. lia.
Qed.

Lemma aget_extractAlphaMask (i : Z) :
  0 <= i < width * height ->
  exists a, aget data (i * 4 + 3) = Some a /\ isByte a /\
    aget alphaMask i = Some (fround (Z2F a / 255)).
Proof.
  intros Hi.
  destruct (buffer_byte data width height Hbuf (i * 4 + 3) ltac:(lia))
    as (a & Ea & Ha).
  exists a. split; [done|]. split; [done|].
  unfold extractAlphaMaskFromCanvas.
  rewrite aget_fmap_range by done. by rewrite Ea.
Qed.

Lemma cropHit_visible (x y : Z) :
  0 <= x < width -> 0 <= y < height ->
  cropHit alphaMask width x y <-> visibleAt data width x y.
Proof.
  intros Hx Hy.
  pose proof (pixelIndex_bounds width height x y Hx Hy) as Hb.
  destruct (aget_extractAlphaMask _ Hb) as (a & Ea & Ha & Em).
  unfold cropHit, visibleAt. rewrite Em, Ea. simpl.
  rewrite alpha_threshold by done.
  destruct (Z.ltb_spec a 21); split.
  - done.
  - intros (a' & [= <-] & ?). lia.
  - intros _. by exists a.
  - done.
Qed.

End AlphaMask.

(** X10: on the pixels of a canvas, [extractAlphaMaskFromCanvas] gives one
    matte value per pixel, the alpha byte divided by 255 as a
    [Float32Array] holds it; the crop scan counts a pixel of this matte
    exactly when its alpha byte is at least 21, so the bounds found are
    the tight box of these pixels ([null] when there is none), and the
    crop with a margin that is not negative keeps all of them. *)
Theorem extractAlphaMaskFromCanvas_spec (data : list Z) (width height : Z) :
  pixelBuffer data width height ->
  let mask := extractAlphaMaskFromCanvas data width height in
  Z.of_nat (length mask) = width * height /\
  (forall i, 0 <= i < width * height ->
     exists a, aget data (i * 4 + 3) = Some a /\
       aget mask i = Some (fround (Z2F a / 255)) /\
       (belowThreshold (fround (Z2F a / 255)) = false <-> 21 <= a)) /\
  match computeCropBoundsFromMask mask width height with
  | None =>
      forall x y, 0 <= x < width -> 0 <= y < height ->
        ~ visibleAt data width x y
  | Some b =>
      tightBox (visibleAt data width) width height b /\
      forall margin, 0 <= margin ->
        exists r, cropCanvasWithBounds width height b margin = Some r /\
          forall x y, 0 <= x < width -> 0 <= y < height ->
            visibleAt data width x y -> inRect r x y
  end.
Proof.
  intros Hbuf mask.
  assert (Hw : 0 <= width) by (destruct Hbuf as (? & _); lia).
  assert (Hh : 0 <= height) by (destruct Hbuf as (_ & ? & _); lia).
  split; [by apply length_extractAlphaMask|]. split.
  - intros i Hi.
    destruct (aget_extractAlphaMask data width height Hbuf i Hi)
      as (a & Ea & Ha & Em).
    exists a. split; [done|]. split; [done|].
    rewrite alpha_threshold by done. destruct (Z.ltb_spec a 21); split;
      (done || lia).
  - pose proof (computeCropBoundsFromMask_hits mask width height Hw Hh) as H.
    destruct (computeCropBoundsFromMask mask width height) as [b|].
    + assert (Hbox : tightBox (visibleAt data width) width height b).
      { eapply tightBox_ext; [|exact H].
        intros x y Hx Hy. by apply cropHit_visible. }
      split; [done|]. intros margin Hm.
      destruct Hbox as (H1 & H2 & Hin & (xt & _ & Ht & _) & (xb & _ & Hb & _)
                        & (yl & _ & Hl & _) & (yr & _ & Hr & _)).
      destruct (cropCanvasWithBounds_rect width height b margin)
        as (r & Er & _ & Hr' & _); [lia..|].
      exists r. split; [done|]. intros x y Hx Hy Hvis.
      destruct (Hin x y Hx Hy Hvis). by apply Hr'.
    + intros x y Hx Hy Hvis. apply (H x y Hx Hy).
      by apply (cropHit_visible data width height Hbuf).
Qed.

Lemma extractAlphaMaskFromCanvas_spec_witness :
  Z.of_nat (length (extractAlphaMaskFromCanvas
                      [9; 9; 9; 0; 9; 9; 9; 255] 2 1)) = 2 * 1.
Proof.
  apply (extractAlphaMaskFromCanvas_spec [9; 9; 9; 0; 9; 9; 9; 255] 2 1).
  split; [lia|]. split; [lia|]. split; [reflexivity|].
  repeat (apply Forall_cons; split; [unfold isByte; lia|]).
  apply Forall_nil_2.
Defined.
(** * Options: the constructor against [updateOptions] *)

Lemma or_default_given (v : option float) (d : float) :
  truthy d = true ->
  default d v = or_default v d <-> absentOrTruthy v.
Proof.
  intros Hd. destruct v as [x|]; simpl; [|done].
  destruct (truthy x) eqn:E; [done|]. split; [|done].
  intros ->. congruence.
Qed.

Lemma or_string_given (v : option string) :
  default "local"%string v = Engine.or_string v "local" <-> absentOrFilled v.
Proof. destruct v as [[|a s]|]; simpl; split; try done. Qed.

Lemma or_string_empty (v : option string) :
  default EmptyString v = Engine.or_string v EmptyString.
Proof. by destruct v as [[|a s]|]. Qed.

(** X11: [updateOptions] with the options [{}] changes nothing, and it
    never changes the progress callback.  Applied to a freshly built
    engine it gives what the constructor would have built from the same
    options exactly when each numeric option is absent or is a number
    other than 0 and [NaN], the provider is absent or not the empty
    string, and no progress callback is given: [updateOptions] stores a 0,
    a [NaN] or an empty provider as given, where the constructor falls
    back to its default, and it has no line for [onProgress].  In
    particular a feather amount of 0 is stored and gives a blur radius
    of 1.  On the properties the pipeline reads, the constructor is the
    one of the pipeline model. *)
Theorem updateOptions_constructor (F : Type) :
  (forall self : Engine.t F, Engine.updateOptions self emptyOptions = self) /\
  (forall (self : Engine.t F) o,
     Engine.onProgress (Engine.updateOptions self o)
     = Engine.onProgress self) /\
  (forall o : Engine.Options F,
     Engine.updateOptions (Engine.constructor emptyOptions) o
     = Engine.constructor o <->
     absentOrFilled (Engine.opt_provider o) /\
     absentOrTruthy (Engine.opt_threshold o) /\
     absentOrTruthy (Engine.opt_featherAmount o) /\
     absentOrTruthy (Engine.opt_maxProcessingSide o) /\
     Engine.opt_onProgress o = None) /\
  (forall (self : Engine.t F) o,
     Engine.opt_featherAmount o = Some 0%float ->
     Engine.featherAmount (Engine.updateOptions self o) = 0%float /\
     blurRadius (pipelineState (Engine.updateOptions self o)) = 1%float) /\
  (forall o : Engine.Options F,
     pipelineState (Engine.constructor o) = constructor (pipelineOptions o)).
Proof.
  split; [by intros []|]. split; [done|]. split; [|split; [|done]].
  - intros o. split.
    + intros E.
      pose proof (f_equal Engine.provider E) as E0.
      pose proof (f_equal Engine.threshold E) as E1.
      pose proof (f_equal Engine.featherAmount E) as E2.
      pose proof (f_equal Engine.maxProcessingSide E) as E3.
      pose proof (f_equal Engine.onProgress E) as E4.
      simpl in E0, E1, E2, E3, E4.
      apply or_string_given in E0.
      apply or_default_given in E1; [|reflexivity].
      apply or_default_given in E2; [|reflexivity].
      apply or_default_given in E3; [|reflexivity].
      split_and!; try done. by destruct (Engine.opt_onProgress o).
    + intros (H0 & H1 & H2 & H3 & H4).
      apply or_string_given in H0.
      apply (or_default_given _ 30) in H1; [|reflexivity].
      apply (or_default_given _ 2) in H2; [|reflexivity].
      apply (or_default_given _ 1200) in H3; [|reflexivity].
      unfold Engine.updateOptions, Engine.constructor. simpl in *.
      rewrite H0, H1, H2, H3, H4, or_string_empty. f_equal.
      * by destruct (Engine.opt_backgroundColor o) as [[]|].
      * by destruct (Engine.opt_autoCrop o) as [[]|].
  - intros self o Ho. unfold blurRadius, Engine.updateOptions. simpl.
    rewrite Ho. simpl. split; reflexivity.
Qed.
(** * Clamping *)

Lemma eqb_val (x y : float) :
  is_nan x = false -> is_nan y = false ->
  PrimFloat.eqb x y = (fval x =? fval y).
Proof.
  intros Hx Hy. rewrite FloatAxioms.eqb_spec. unfold SFeqb.
  change (SFcompare (Prim2SF x) (Prim2SF y)) with (fcompare x y).
  rewrite fcompare_val by done.
  destruct (Z.compare_spec (fval x) (fval y)); symmetry;
    [apply Z.eqb_eq|apply Z.eqb_neq..]; lia.
Qed.

Lemma Math_max_val (a b : float) :
  is_nan a = false -> is_nan b = false ->
  is_nan (Math_max a b) = false /\
  fval (Math_max a b) = Z.max (fval a) (fval b).
Proof.
  intros Ha Hb. unfold Math_max. rewrite Ha, Hb. simpl.
  rewrite !ltb_val by done.
  destruct (Z.ltb_spec (fval a) (fval b)); [split; [done|lia]|].
  destruct (Z.ltb_spec (fval b) (fval a)); [split; [done|lia]|].
  destruct (get_sign a); split; (done || lia).
Qed.

Lemma Math_min_val (a b : float) :
  is_nan a = false -> is_nan b = false ->
  is_nan (Math_min a b) = false /\
  fval (Math_min a b) = Z.min (fval a) (fval b).
Proof.
  intros Ha Hb. unfold Math_min. rewrite Ha, Hb. simpl.
  rewrite !ltb_val by done.
  destruct (Z.ltb_spec (fval a) (fval b)); [split; [done|lia]|].
  destruct (Z.ltb_spec (fval b) (fval a)); [split; [done|lia]|].
  destruct (get_sign a); split; (done || lia).
Qed.

Lemma Math_max_nan (a b : float) :
  is_nan a = true \/ is_nan b = true -> is_nan (Math_max a b) = true.
Proof.
  intros H. unfold Math_max.
  destruct (is_nan a), (is_nan b); try reflexivity. by destruct H.
Qed.

Lemma Math_min_nan (a b : float) :
  is_nan a = true \/ is_nan b = true -> is_nan (Math_min a b) = true.
Proof.
  intros H. unfold Math_min.
  destruct (is_nan a), (is_nan b); try reflexivity. by destruct H.
Qed.

Lemma clamp_val (v lo hi : float) :
  is_nan v = false -> is_nan lo = false -> is_nan hi = false ->
  is_nan (clamp v lo hi) = false /\
  fval (clamp v lo hi) = Z.max (fval lo) (Z.min (fval hi) (fval v)).
Proof.
  intros Hv Hlo Hhi. unfold clamp.
  destruct (Math_min_val hi v Hhi Hv) as [Hn E].
  destruct (Math_max_val lo _ Hlo Hn) as [Hn' E'].
  split; [done|]. by rewrite E', E.
Qed.

Lemma clamp_below (v lo hi : float) :
  PrimFloat.ltb v lo = true -> PrimFloat.leb lo hi = true ->
  clamp v lo hi = lo.
Proof.
  intros Hlt Hle.
  destruct (ltb_not_nan _ _ Hlt) as [Hv Hlo].
  destruct (leb_not_nan _ _ Hle) as [_ Hhi].
  rewrite ltb_val in Hlt by done. rewrite leb_val in Hle by done.
  apply Z.ltb_lt in Hlt. apply Z.leb_le in Hle.
  unfold clamp, Math_min. rewrite Hhi, Hv. simpl.
  rewrite !ltb_val by done.
  destruct (Z.ltb_spec (fval hi) (fval v)); [lia|].
  destruct (Z.ltb_spec (fval v) (fval hi)); [|lia].
  unfold Math_max. rewrite Hlo, Hv. simpl. rewrite !ltb_val by done.
  destruct (Z.ltb_spec (fval lo) (fval v)); [lia|].
  destruct (Z.ltb_spec (fval v) (fval lo)); [done|lia].
Qed.

(** [x == 1] only for the number 1. *)
Lemma eqb_one (x : float) : PrimFloat.eqb x 1 = true -> x = 1%float.
Proof.
  rewrite FloatAxioms.eqb_spec. intros H.
  rewrite <- (SF2Prim_Prim2SF x).
  assert (E : Prim2SF x = Prim2SF 1); [|by rewrite E].
  revert H. unfold SFeqb, SFcompare.
  change (Prim2SF 1) with (S754_finite false 4503599627370496 (-52)).
  destruct (Prim2SF x) as [s|s| |s m e]; try destruct s; try done.
  destruct (Z.compare_spec e (-52)) as [->| |]; try done.
  rewrite compare_cont_Eq.
  destruct (Pos.compare_spec m 4503599627370496) as [->| |]; done.
Qed.

(** The matte factor of a mask value that is at most 0 is [+0]. *)
Lemma clamp01_low (m : float) :
  PrimFloat.leb m 0 = true -> clamp m 0 1 = 0%float.
Proof.
  intros Hle. destruct (leb_not_nan _ _ Hle) as [Hm _].
  destruct (PrimFloat.ltb m 0) eqn:Hlt; [by apply clamp_below|].
  rewrite leb_val in Hle by done. rewrite ltb_val in Hlt by done.
  apply Z.leb_le in Hle. apply Z.ltb_ge in Hlt.
  change (fval 0) with 0 in *.
  unfold clamp, Math_min. rewrite Hm. simpl. rewrite !ltb_val by done.
  change (fval 1) with (2 ^ 1074) in *.
  assert (0 < 2 ^ 1074) by (apply Z.pow_pos_nonneg; lia).
  destruct (Z.ltb_spec (2 ^ 1074) (fval m)); [lia|].
  destruct (Z.ltb_spec (fval m) (2 ^ 1074)); [|lia].
  unfold Math_max. rewrite Hm. simpl. rewrite !ltb_val by done.
  change (fval 0) with 0.
  destruct (Z.ltb_spec 0 (fval m)); [lia|].
  destruct (Z.ltb_spec (fval m) 0); [lia|]. done.
Qed.

(** The matte factor of a mask value that is at least 1 is 1. *)
Lemma clamp01_high (m : float) :
  PrimFloat.leb 1 m = true -> clamp m 0 1 = 1%float.
Proof.
  intros Hle. destruct (leb_not_nan _ _ Hle) as [_ Hm].
  pose proof Hle as Hle'. rewrite leb_val in Hle' by done.
  apply Z.leb_le in Hle'.
  change (fval 1) with (2 ^ 1074) in *.
  assert (0 < 2 ^ 1074) by (apply Z.pow_pos_nonneg; lia).
  assert (E : Math_min 1 m = 1%float).
  { unfold Math_min. rewrite Hm. simpl. rewrite !ltb_val by done.
    change (fval 1) with (2 ^ 1074).
    destruct (Z.ltb_spec (2 ^ 1074) (fval m)); [done|].
    destruct (Z.ltb_spec (fval m) (2 ^ 1074)); [lia|].
    simpl. apply eqb_one. rewrite eqb_val by done.
    change (fval 1) with (2 ^ 1074). apply Z.eqb_eq. lia. }
  unfold clamp. rewrite E. reflexivity.
Qed.

Lemma clamp01_nan (m : float) : is_nan m = true -> clamp m 0 1 = nan.
Proof. intros Hm. unfold clamp, Math_min. rewrite Hm. reflexivity. Qed.

(** X12: [clamp] gives [NaN] as soon as one of its three arguments is
    [NaN].  For numbers with [min <= max] the result lies in
    [[min, max]]; it equals the value when the value lies in the range,
    is [min] when the value is below it and equals [max] when the value
    is above it. *)
Theorem clamp_spec :
  (forall v lo hi,
     is_nan v = true \/ is_nan lo = true \/ is_nan hi = true ->
     is_nan (clamp v lo hi) = true) /\
  (forall v lo hi,
     is_nan v = false -> PrimFloat.leb lo hi = true ->
     PrimFloat.leb lo (clamp v lo hi) = true /\
     PrimFloat.leb (clamp v lo hi) hi = true /\
     (PrimFloat.leb lo v = true -> PrimFloat.leb v hi = true ->
      PrimFloat.eqb (clamp v lo hi) v = true) /\
     (PrimFloat.ltb v lo = true -> clamp v lo hi = lo) /\
     (PrimFloat.ltb hi v = true ->
      PrimFloat.eqb (clamp v lo hi) hi = true)).
Proof.
  split.
  - intros v lo hi H. unfold clamp. apply Math_max_nan.
    destruct H as [H|[H|H]]; [right|by left|right];
      apply Math_min_nan; auto.
  - intros v lo hi Hv Hle.
    destruct (leb_not_nan _ _ Hle) as [Hlo Hhi].
    destruct (clamp_val v lo hi Hv Hlo Hhi) as [Hn E].
    pose proof Hle as Hle'. rewrite leb_val in Hle' by done.
    apply Z.leb_le in Hle'.
    split; [rewrite leb_val by done; apply Z.leb_le; lia|].
    split; [rewrite leb_val by done; apply Z.leb_le; lia|].
    split; [|split].
    + rewrite !leb_val, eqb_val by done.
      intros ?%Z.leb_le ?%Z.leb_le. apply Z.eqb_eq. lia.
    + intros Hlt. by apply clamp_below.
    + intros Hlt. rewrite ltb_val in Hlt by done. apply Z.ltb_lt in Hlt.
      rewrite eqb_val by done. apply Z.eqb_eq. lia.
Qed.
(** * Applying the matte to the image *)

(** ** [NaN] is absorbing *)

Lemma nan_eq (x : float) : is_nan x = true -> x = nan.
Proof.
  intros H%is_nan_spec. rewrite <- (SF2Prim_Prim2SF x), H. reflexivity.
Qed.

Lemma mul_nan_l (y : float) : (nan * y)%float = nan.
Proof.
  apply nan_eq, is_nan_spec. rewrite mul_spec.
  change (Prim2SF nan) with S754_nan. reflexivity.
Qed.

Lemma mul_nan_r (x : float) : (x * nan)%float = nan.
Proof.
  apply nan_eq, is_nan_spec. rewrite mul_spec.
  change (Prim2SF nan) with S754_nan. by destruct (Prim2SF x).
Qed.

Lemma add_nan_l (y : float) : (nan + y)%float = nan.
Proof.
  apply nan_eq, is_nan_spec. rewrite add_spec.
  change (Prim2SF nan) with S754_nan. reflexivity.
Qed.

Lemma sub_nan_r (x : float) : (x - nan)%float = nan.
Proof.
  apply nan_eq, is_nan_spec. rewrite sub_spec.
  change (Prim2SF nan) with S754_nan. by destruct (Prim2SF x).
Qed.

(** ** The bytes stored for the three kinds of mask value *)

Lemma posZerob_eq (x : float) : posZerob x = true -> x = 0%float.
Proof.
  unfold posZerob. intros H. apply isPosZero_eq. unfold isPosZero.
  by destruct (Prim2SF x) as [[]|[]| |].
Qed.

Lemma eqb_Z_cases (f g : Z -> Z) :
  forallb (fun a => f a =? g a) (seqZ 0 256) = true ->
  forall a, isByte a -> f a = g a.
Proof.
  intros H a Ha. apply Z.eqb_eq.
  by apply (byte_cases (fun a => f a =? g a)).
Qed.

Lemma matteOf_low (m : float) (a : Z) :
  isByte a -> PrimFloat.leb m 0 = true -> matteOf m a = 0%float.
Proof.
  intros Ha Hm. unfold matteOf. rewrite clamp01_low by done.
  apply (byte_cases (fun a => posZerob (0 * (Z2F a / 255)))) in Ha.
  - by apply posZerob_eq.
  - vm_compute. reflexivity.
Qed.

Lemma matteOf_nan (m : float) (a : Z) :
  is_nan m = true -> matteOf m a = nan.
Proof.
  intros Hm. unfold matteOf. rewrite clamp01_nan by done. apply mul_nan_l.
Qed.

Lemma alphaOut_low (m : float) (a : Z) :
  isByte a -> PrimFloat.leb m 0 = true -> alphaOut m a = 0.
Proof.
  intros Ha Hm. unfold alphaOut. by rewrite matteOf_low.
Qed.

Lemma alphaOut_nan (m : float) (a : Z) :
  is_nan m = true -> alphaOut m a = 0.
Proof.
  intros Hm. unfold alphaOut. rewrite matteOf_nan, mul_nan_r by done.
  reflexivity.
Qed.

Lemma alphaOut_high (m : float) (a : Z) :
  isByte a -> PrimFloat.leb 1 m = true -> alphaOut m a = a.
Proof.
  intros Ha Hm. unfold alphaOut, matteOf. rewrite clamp01_high by done.
  revert a Ha.
  apply (eqb_Z_cases
           (fun a => toUint8Clamp (Math_round (255 * (1 * (Z2F a / 255)))))
           (fun a => a)).
  vm_compute. reflexivity.
Qed.

Lemma blendOut_low (m : float) (a c bgc : Z) :
  isByte a -> isByte c -> isByte bgc -> PrimFloat.leb m 0 = true ->
  blendOut m a c (Z2F bgc) = bgc.
Proof.
  intros Ha Hc Hbg Hm. unfold blendOut. rewrite matteOf_low by done.
  assert (E : (Z2F c * 0)%float = 0%float).
  { apply (byte_cases (fun c => posZerob (Z2F c * 0))) in Hc.
    - by apply posZerob_eq.
    - vm_compute. reflexivity. }
  rewrite E. revert bgc Hbg.
  apply (eqb_Z_cases
           (fun bgc => toUint8Clamp (Math_round (0 + Z2F bgc * (1 - 0))))
           (fun bgc => bgc)).
  vm_compute. reflexivity.
Qed.

Lemma blendOut_nan (m : float) (a c : Z) (bgc : float) :
  is_nan m = true -> blendOut m a c bgc = 0.
Proof.
  intros Hm. unfold blendOut.
  rewrite matteOf_nan, mul_nan_r, add_nan_l by done. reflexivity.
Qed.

Lemma blendOut_high (m : float) (c bgc : Z) :
  isByte c -> isByte bgc -> PrimFloat.leb 1 m = true ->
  blendOut m 255 c (Z2F bgc) = c.
Proof.
  intros Hc Hbg Hm. unfold blendOut, matteOf. rewrite clamp01_high by done.
  change (1 * (Z2F 255 / 255))%float with 1%float.
  change (1 - 1)%float with 0%float.
  assert (E : (Z2F bgc * 0)%float = 0%float).
  { apply (byte_cases (fun c => posZerob (Z2F c * 0))) in Hbg.
    - by apply posZerob_eq.
    - vm_compute. reflexivity. }
  rewrite E. revert c Hc.
  apply (eqb_Z_cases
           (fun c => toUint8Clamp (Math_round (Z2F c * 1 + 0)))
           (fun c => c)).
  vm_compute. reflexivity.
Qed.

(** ** The loop *)

Section ApplyMask.

Variables (backgroundColor : option Color.t) (mask : list float).

Let step (data : list Z) (i : Z) : list Z :=
  let idx := i * 4 in
  let sourceAlpha := (num (aget data (idx + 3)) / 255)%float in
  let matte := (clamp (numf (aget mask i)) 0 1 * sourceAlpha)%float in
  match backgroundColor with
  | Some bg =>
      let blend := (1 - matte)%float in
      let data :=
        aset data idx
          (toUint8Clamp
             (Math_round (num (aget data idx) * matte + Color.r bg * blend)))
      in
      let data :=
        aset data (idx + 1)
          (toUint8Clamp
             (Math_round (num (aget data (idx + 1)) * matte
                          + Color.g bg * blend))) in
      let data :=
        aset data (idx + 2)
          (toUint8Clamp
             (Math_round (num (aget data (idx + 2)) * matte
                          + Color.b bg * blend))) in
      aset data (idx + 3) 255
  | None => aset data (idx + 3) (toUint8Clamp (Math_round (255 * matte)))
  end.

Local Abbreviation pixelOut := (pixelOut backgroundColor mask).

Lemma applyMaskToImage_foldl (data : list Z) (width height : Z) :
  applyMaskToImage backgroundColor data mask width height
  = foldl step data (range 0 (width * height) 1).
Proof. reflexivity. Qed.

Lemma step_length (data : list Z) (i : Z) :
  length (step data i) = length data.
Proof.
  unfold step. cbv zeta. destruct backgroundColor;
    by rewrite ?length_aset.
Qed.

Lemma step_other (data : list Z) (i j : Z) :
  j < i * 4 \/ i * 4 + 3 < j -> aget (step data i) j = aget data j.
Proof.
  intros Hj. unfold step. cbv zeta. destruct backgroundColor;
    rewrite ?aget_aset_ne by lia; done.
Qed.

Lemma step_pixel (data : list Z) (i r g b a : Z) :
  pixelAt data i r g b a ->
  let '(r', g', b', a') := pixelOut i r g b a in
  pixelAt (step data i) i r' g' b' a'.
Proof.
  intros (Hr & Hg & Hb & Ha).
  pose proof (aget_Some_bounds _ _ _ Hr).
  pose proof (aget_Some_bounds _ _ _ Hg).
  pose proof (aget_Some_bounds _ _ _ Hb).
  pose proof (aget_Some_bounds _ _ _ Ha).
  unfold pixelOut, step, pixelAt. cbv zeta.
  destruct backgroundColor as [bg|].
  - rewrite Ha, Hr.
    rewrite !(aget_aset_ne _ (i * 4) (i * 4 + 1)) by lia.
    rewrite !(aget_aset_ne _ (i * 4 + 1) (i * 4 + 2)) by lia.
    rewrite !(aget_aset_ne _ (i * 4) (i * 4 + 2)) by lia.
    rewrite Hg, Hb. simpl num.
    split_and!.
    + rewrite !aget_aset_ne by lia. apply aget_aset_eq. lia.
    + rewrite !aget_aset_ne by lia. apply aget_aset_eq.
      rewrite length_aset. lia.
    + rewrite !aget_aset_ne by lia. apply aget_aset_eq.
      rewrite !length_aset. lia.
    + apply aget_aset_eq. rewrite !length_aset. lia.
  - rewrite Ha. simpl num. split_and!.
    + by rewrite aget_aset_ne by lia.
    + by rewrite aget_aset_ne by lia.
    + by rewrite aget_aset_ne by lia.
    + apply aget_aset_eq. lia.
Qed.

Lemma pixelAt_step_other (data : list Z) (i0 i r g b a : Z) :
  i <> i0 -> pixelAt data i r g b a -> pixelAt (step data i0) i r g b a.
Proof.
  intros Hne (Hr & Hg & Hb & Ha). unfold pixelAt.
  rewrite !step_other by lia. done.
Qed.

Lemma foldl_step_out (ks : list Z) (data : list Z) (i r g b a : Z) :
  i ∉ ks -> pixelAt data i r g b a ->
  pixelAt (foldl step data ks) i r g b a.
Proof.
  revert data. induction ks as [|k ks IH]; intros data Hi Hp; [done|].
  simpl. apply not_elem_of_cons in Hi as [Hne Hi].
  apply IH; [done|]. by apply pixelAt_step_other.
Qed.

Lemma foldl_step_in (ks : list Z) (data : list Z) (i r g b a : Z) :
  NoDup ks -> i ∈ ks -> pixelAt data i r g b a ->
  let '(r', g', b', a') := pixelOut i r g b a in
  pixelAt (foldl step data ks) i r' g' b' a'.
Proof.
  revert data. induction ks as [|k ks IH]; intros data Hnd Hi Hp.
  - by apply elem_of_nil in Hi.
  - apply NoDup_cons in Hnd as [Hk Hnd]. simpl.
    destruct (decide (i = k)) as [->|Hne].
    + pose proof (step_pixel data k r g b a Hp) as Hs.
      destruct (pixelOut k r g b a) as [[[r' g'] b'] a'].
      by apply foldl_step_out.
    + apply elem_of_cons in Hi as [?|Hi]; [done|].
      apply IH; [done..|]. by apply pixelAt_step_other.
Qed.

Lemma length_applyMaskToImage (data : list Z) (width height : Z) :
  length (applyMaskToImage backgroundColor data mask width height)
  = length data.
Proof.
  rewrite applyMaskToImage_foldl.
  generalize (range 0 (width * height) 1). intros ks. revert data.
  induction ks as [|k ks IH]; intros data; [done|].
  simpl. by rewrite IH, step_length.
Qed.

Lemma pixelAt_applyMaskToImage (data : list Z) (width height i r g b a : Z) :
  0 <= i < width * height -> pixelAt data i r g b a ->
  let '(r', g', b', a') := pixelOut i r g b a in
  pixelAt (applyMaskToImage backgroundColor data mask width height)
    i r' g' b' a'.
Proof.
  intros Hi Hp. rewrite applyMaskToImage_foldl.
  apply foldl_step_in; [apply NoDup_range_1| |done].
  apply elem_of_range_1. lia.
Qed.

End ApplyMask.

Lemma buffer_pixel (data : list Z) (width height i : Z) :
  pixelBuffer data width height -> 0 <= i < width * height ->
  exists r g b a, pixelAt data i r g b a /\
    isByte r /\ isByte g /\ isByte b /\ isByte a.
Proof.
  intros Hbuf Hi.
  destruct (buffer_byte data width height Hbuf (i * 4) ltac:(lia))
    as (r & Hr & ?).
  destruct (buffer_byte data width height Hbuf (i * 4 + 1) ltac:(lia))
    as (g & Hg & ?).
  destruct (buffer_byte data width height Hbuf (i * 4 + 2) ltac:(lia))
    as (b & Hb & ?).
  destruct (buffer_byte data width height Hbuf (i * 4 + 3) ltac:(lia))
    as (a & Ha & ?).
  exists r, g, b, a.
  split; [exact (conj Hr (conj Hg (conj Hb Ha)))|auto].
Qed.

(** ** What is stored is a byte *)

Lemma fval_255 : fval 255 = 255 * 2 ^ 1074.
Proof. vm_compute. reflexivity. Qed.

Lemma toZ_floor_byte (v : float) :
  0 < fval v < 255 * 2 ^ 1074 -> 0 <= toZ (Math_floor v) <= 254.
Proof.
  unfold fval, Math_floor. intros Hv.
  assert (HP : 0 < 2 ^ 1074) by (apply Z.pow_pos_nonneg; lia).
  destruct (Prim2SF v) as [s|s| |s m e] eqn:E; simpl in Hv; try lia.
  - destruct s; simpl in Hv.
    + assert (0 < 2 ^ 3000) by (apply Z.pow_pos_nonneg; lia). lia.
    + assert (2 ^ 8 * 2 ^ 1074 < 2 ^ 3000).
      { rewrite <- Z.pow_add_r by lia. apply Z.pow_lt_mono_r; lia. }
      assert (255 < 2 ^ 8) by done. nia.
  - destruct (valid_finite v s m e E) as (He & _).
    assert (0 < 2 ^ (e + 1074)) by (apply Z.pow_pos_nonneg; lia).
    destruct s; simpl in Hv; [lia|].
    destruct (Z.leb_spec 0 e).
    + unfold toZ. rewrite E. destruct (Z.leb_spec 0 e); [|lia].
      cbn [cond_Zopp].
      rewrite Z.pow_add_r in Hv by lia.
      assert (0 < 2 ^ e) by (apply Z.pow_pos_nonneg; lia).
      split; [lia|].
      assert (Zpos m * 2 ^ e < 255); [|lia].
      apply (Z.mul_lt_mono_pos_r (2 ^ 1074)); [done|]. lia.
    + cbn [cond_Zopp].
      assert (Hp : 0 < 2 ^ (- e)) by (apply Z.pow_pos_nonneg; lia).
      assert (Hr : 0 <= Zpos m / 2 ^ (- e) < 255).
      { split; [apply Z.div_pos; lia|].
        apply Z.div_lt_upper_bound; [done|].
        apply (Z.mul_lt_mono_pos_r (2 ^ (e + 1074))); [done|].
        replace (2 ^ (- e) * 255 * 2 ^ (e + 1074))
          with (255 * (2 ^ (- e) * 2 ^ (e + 1074))) by lia.
        rewrite <- Z.pow_add_r by lia.
        replace (- e + (e + 1074)) with 1074 by lia. lia. }
      match goal with
      | |- context [?q =? 0] => change q with (Zpos m / 2 ^ (- e))
      end.
      set (r := Zpos m / 2 ^ (- e)) in *.
      destruct (Z.eqb_spec r 0) as [Hz|Hne];
        [by change (toZ zero) with 0|].
      assert (Er : toZ (Z2F r) = r).
      { apply (eqb_Z_cases (fun r => toZ (Z2F r)) (fun r => r));
          [vm_compute; reflexivity|unfold isByte; lia]. }
      lia.
Qed.

Lemma toUint8Clamp_byte (v : float) : isByte (toUint8Clamp v).
Proof.
  unfold toUint8Clamp, isByte.
  destruct (is_nan v) eqn:Hn; [lia|].
  destruct (PrimFloat.leb v 0) eqn:H0; [lia|].
  destruct (PrimFloat.leb 255 v) eqn:H255; [lia|].
  rewrite leb_val in H0, H255 by done.
  apply Z.leb_gt in H0, H255. change (fval 0) with 0 in H0.
  rewrite fval_255 in H255.
  pose proof (toZ_floor_byte v ltac:(lia)).
  cbv zeta.
  destruct (PrimFloat.ltb _ v); [lia|].
  destruct (PrimFloat.ltb v _); [lia|].
  destruct (Z.even _); lia.
Qed.

Lemma alphaOut_byte (m : float) (a : Z) : isByte (alphaOut m a).
Proof. apply toUint8Clamp_byte. Qed.

Lemma blendOut_byte (m : float) (a c : Z) (bgc : float) :
  isByte (blendOut m a c bgc).
Proof. apply toUint8Clamp_byte. Qed.


Lemma pixelOut_bytes (backgroundColor : option Color.t) (mask : list float)
  (i r g b a : Z) :
  isByte r -> isByte g -> isByte b ->
  let '(r', g', b', a') := pixelOut backgroundColor mask i r g b a in
  isByte r' /\ isByte g' /\ isByte b' /\ isByte a'.
Proof.
  intros Hr Hg Hb. unfold pixelOut. destruct backgroundColor as [bg|].
  - split_and!; try apply blendOut_byte. unfold isByte. lia.
  - split_and!; try done. apply alphaOut_byte.
Qed.

Lemma applyMaskToImage_buffer (backgroundColor : option Color.t)
  (mask : list float) (data : list Z) (width height : Z) :
  pixelBuffer data width height ->
  pixelBuffer (applyMaskToImage backgroundColor data mask width height)
    width height.
Proof.
  intros Hbuf. pose proof Hbuf as (Hw & Hh & Hlen & _).
  split; [done|]. split; [done|].
  split; [by rewrite length_applyMaskToImage|].
  apply Forall_lookup. intros j v Hv.
  pose proof (lookup_lt_Some _ _ _ Hv) as Hj.
  rewrite length_applyMaskToImage in Hj.
  set (i := Z.of_nat j / 4).
  assert (Hi : 0 <= i < width * height).
  { unfold i. split; [apply Z.div_pos; lia|].
    apply Z.div_lt_upper_bound; lia. }
  destruct (buffer_pixel data width height i Hbuf Hi)
    as (r & g & b & a & Hp & Hr & Hg & Hb & Ha).
  pose proof (pixelAt_applyMaskToImage backgroundColor mask data
                width height i r g b a Hi Hp) as Hout.
  pose proof (pixelOut_bytes backgroundColor mask i r g b a Hr Hg Hb)
    as Hbytes.
  destruct (pixelOut backgroundColor mask i r g b a)
    as [[[r' g'] b'] a'].
  destruct Hout as (Hr' & Hg' & Hb' & Ha').
  destruct Hbytes as (? & ? & ? & ?).
  assert (Ej : aget (applyMaskToImage backgroundColor data mask width height)
                 (Z.of_nat j) = Some v)
    by (by rewrite aget_lookup, Nat2Z.id by lia).
  pose proof (Z.div_mod (Z.of_nat j) 4 ltac:(lia)) as Hdm.
  pose proof (Z.mod_pos_bound (Z.of_nat j) 4 ltac:(lia)) as Hm.
  fold i in Hdm.
  assert (Hk : Z.of_nat j = i * 4 \/ Z.of_nat j = i * 4 + 1 \/
               Z.of_nat j = i * 4 + 2 \/ Z.of_nat j = i * 4 + 3) by lia.
  destruct Hk as [Hk|[Hk|[Hk|Hk]]]; rewrite Hk in Ej; congruence.
Qed.

(** X13: without a background colour, [applyMaskToImage] leaves a pixel
    buffer a pixel buffer and never touches the colour channels; it only
    rewrites the alpha byte, which becomes 0 where the mask value is at
    most 0, is [NaN] or is missing, and keeps its value where the mask
    value is at least 1. *)
Theorem applyMaskToImage_transparent (data : list Z) (mask : list float)
  (width height : Z) :
  pixelBuffer data width height ->
  let out := applyMaskToImage None data mask width height in
  pixelBuffer out width height /\
  forall i r g b a, 0 <= i < width * height -> pixelAt data i r g b a ->
    let m := numf (aget mask i) in
    exists a', pixelAt out i r g b a' /\
      (PrimFloat.leb m 0 = true \/ is_nan m = true -> a' = 0) /\
      (PrimFloat.leb 1 m = true -> a' = a).
Proof.
  intros Hbuf out. split; [by apply applyMaskToImage_buffer|].
  intros i r g b a Hi Hp m.
  pose proof (pixelAt_applyMaskToImage None mask data width height
                i r g b a Hi Hp) as Hout.
  simpl in Hout. fold m in Hout.
  assert (Ha : isByte a).
  { destruct (buffer_pixel data width height i Hbuf Hi)
      as (r0 & g0 & b0 & a0 & (_ & _ & _ & Ea) & _ & _ & _ & Ha).
    destruct Hp as (_ & _ & _ & Ea'). congruence. }
  exists (alphaOut m a). split; [done|]. split.
  - intros [Hm|Hm]; [by apply alphaOut_low|by apply alphaOut_nan].
  - intros Hm. by apply alphaOut_high.
Qed.

Lemma applyMaskToImage_transparent_witness :
  pixelBuffer
    (applyMaskToImage None [10; 20; 30; 255; 40; 50; 60; 128]
       [0%float; 1%float] 2 1) 2 1.
Proof.
  apply (applyMaskToImage_transparent [10; 20; 30; 255; 40; 50; 60; 128]
           [0%float; 1%float] 2 1).
  split; [lia|]. split; [lia|]. split; [reflexivity|].
  repeat (apply Forall_cons; split; [unfold isByte; lia|]).
  apply Forall_nil_2.
Defined.

(** X14: with a background colour whose channels are bytes,
    [applyMaskToImage] leaves a pixel buffer a pixel buffer and makes
    every pixel opaque.  A pixel whose mask value is at most 0 takes the
    background colour, an opaque pixel whose mask value is at least 1
    keeps its colour, and a pixel whose mask value is [NaN] or missing
    becomes black. *)
Theorem applyMaskToImage_on_color (bg : Color.t) (data : list Z)
  (mask : list float) (width height : Z) :
  pixelBuffer data width height -> byteColor bg ->
  let out := applyMaskToImage (Some bg) data mask width height in
  pixelBuffer out width height /\
  forall i r g b a, 0 <= i < width * height -> pixelAt data i r g b a ->
    let m := numf (aget mask i) in
    exists r' g' b', pixelAt out i r' g' b' 255 /\
      (PrimFloat.leb m 0 = true ->
       Color.mk (Z2F r') (Z2F g') (Z2F b') = bg) /\
      (PrimFloat.leb 1 m = true -> a = 255 ->
       r' = r /\ g' = g /\ b' = b) /\
      (is_nan m = true -> r' = 0 /\ g' = 0 /\ b' = 0).
Proof.
  intros Hbuf (br & bg' & bb & Hbr & Hbg & Hbb & ->) out.
  split; [by apply applyMaskToImage_buffer|].
  intros i r g b a Hi Hp m.
  pose proof (pixelAt_applyMaskToImage (Some (Color.mk (Z2F br) (Z2F bg')
                (Z2F bb))) mask data width height i r g b a Hi Hp) as Hout.
  simpl in Hout. fold m in Hout.
  destruct (buffer_pixel data width height i Hbuf Hi)
    as (r0 & g0 & b0 & a0 & Hp0 & Hr & Hg & Hb & Ha).
  assert (r0 = r /\ g0 = g /\ b0 = b /\ a0 = a) as (-> & -> & -> & ->).
  { destruct Hp as (? & ? & ? & ?), Hp0 as (? & ? & ? & ?).
    split_and!; congruence. }
  eexists _, _, _. split; [exact Hout|]. split; [|split].
  - intros Hm. by rewrite !blendOut_low.
  - intros Hm ->. by rewrite !blendOut_high.
  - intros Hm. by rewrite !blendOut_nan.
Qed.

Lemma applyMaskToImage_on_color_witness :
  pixelBuffer
    (applyMaskToImage (Some (Color.mk (Z2F 255) (Z2F 255) (Z2F 255)))
       [10; 20; 30; 255; 40; 50; 60; 128] [0%float; 1%float] 2 1) 2 1.
Proof.
  apply (applyMaskToImage_on_color (Color.mk (Z2F 255) (Z2F 255) (Z2F 255))
           [10; 20; 30; 255; 40; 50; 60; 128] [0%float; 1%float] 2 1).
  - split; [lia|]. split; [lia|]. split; [reflexivity|].
    repeat (apply Forall_cons; split; [unfold isByte; lia|]).
    apply Forall_nil_2.
  - exists 255, 255, 255. unfold isByte. split_and!; try lia. reflexivity.
Defined.
(** * The pipeline keeps one value per pixel *)

Section MarksLength.

Context {A : Type}.
Variables (rejected : list Z -> Z -> Z -> bool) (mark : Z)
  (visit : A -> Z -> A) (width height : Z).

Lemma length_marks_tryPush (st : Bfs.state A) (n p : Z) :
  length (Bfs.marks (Bfs.tryPush rejected mark st n p))
  = length (Bfs.marks st).
Proof.
  unfold Bfs.tryPush. destruct (rejected _ _ _); [done|].
  simpl. apply length_aset.
Qed.

Lemma length_marks_step (st : Bfs.state A) :
  length (Bfs.marks (Bfs.step rejected mark visit width height st))
  = length (Bfs.marks st).
Proof.
  unfold Bfs.step. destruct (aget (Bfs.queue st) (Bfs.head st)); [|done].
  cbv zeta.
  repeat match goal with
         | |- context [if ?c then _ else _] => destruct c
         end;
    rewrite ?length_marks_tryPush; done.
Qed.

Lemma length_marks_run (fuel : nat) (st : Bfs.state A) :
  length (Bfs.marks (Bfs.run rejected mark visit width height fuel st))
  = length (Bfs.marks st).
Proof.
  revert st. induction fuel as [|fuel IH]; intros st; [done|].
  simpl. destruct (Bfs.head st <? Bfs.tail st); [|done].
  by rewrite IH, length_marks_step.
Qed.

End MarksLength.

Lemma length_growBackgroundRegion (data : list Z) (width height : Z)
  (model : Model.t) (gradient : list float) (seeds : list Z) :
  length (growBackgroundRegion data width height model gradient seeds)
  = Z.to_nat (width * height).
Proof.
  unfold growBackgroundRegion, growState. rewrite length_marks_run.
  unfold seedQueue. generalize (width * height). intros total.
  assert (H : forall st : Bfs.state unit,
            length (Bfs.marks
                      (foldl (fun st seed =>
                                if truthyZ (aget (Bfs.marks st) seed) then st
                                else Bfs.enqueue 1 st seed) st seeds))
            = length (Bfs.marks st)).
  { induction seeds as [|s l IH]; intros st; [done|].
    simpl. rewrite IH. destruct (truthyZ _); [done|].
    simpl. apply length_aset. }
  rewrite H. simpl. unfold zeros. apply length_replicate.
Qed.

(** The blur radius of a whole feather amount. *)
Lemma loopRadius_blur (self : BackgroundRemover) (f : Z) :
  featherAmount self = Z2F f -> 0 <= f -> f + 1 < 2 ^ 53 ->
  loopRadius (blurRadius self) = Some (f + 1).
Proof.
  intros Hf H0 Hlt. unfold loopRadius, blurRadius.
  rewrite Hf, Z2F_add_one, Math_max_one, wholeNumber_Z2F by lia.
  destruct (Z.leb_spec (Z.abs (f + 1)) (2 ^ 53)); [done|lia].
Qed.

(** X15: on the ECMAScript host, for an engine whose feather amount is a
    whole number [f] of pixels, [0 <= f < 2^53 - 1], and a grid with at
    least one pixel, [buildLocalForegroundMask] returns a matte, blurred
    with radius [f + 1], that has exactly one value per pixel, whatever
    the pixel data. *)
Theorem buildLocalForegroundMask_length (self : BackgroundRemover)
  (data : list Z) (width height f : Z) :
  0 < width -> 0 < height ->
  featherAmount self = Z2F f -> 0 <= f -> f + 1 < 2 ^ 53 ->
  loopRadius (blurRadius self) = Some (f + 1) /\
  exists matte,
    @buildLocalForegroundMask ecmascript self data width height = Some matte /\
    Z.of_nat (length matte) = width * height.
Proof.
  intros Hw Hh Hf H0 Hlt.
  pose proof (loopRadius_blur self f Hf H0 Hlt) as Hr.
  split; [done|].
  unfold buildLocalForegroundMask. cbv zeta. rewrite Hr.
  eexists. split; [reflexivity|].
  assert (Ht : 0 < width * height) by (apply Z.mul_pos_pos; done).
  set (grown := growBackgroundRegion _ _ _ _ _ _).
  assert (H1 : Z.of_nat (length (invertBinaryMask grown)) = width * height).
  { rewrite length_invertBinaryMask. unfold grown.
    rewrite length_growBackgroundRegion. lia. }
  pose proof (invertBinaryMask_binary grown) as B1.
  destruct (keepMainForegroundRegions_shape _ width height Hw Hh H1 B1)
    as [H2 B2].
  rewrite <- H2 in H1.
  set (kept := keepMainForegroundRegions _ _ _) in *.
  assert (H3 : Z.of_nat (length (fillMaskHoles kept width height))
               = width * height)
    by (by rewrite length_fillMaskHoles).
  set (filled := fillMaskHoles _ _ _) in *.
  assert (H4 : Z.of_nat (length (erodeBinary filled width height 1))
               = width * height) by (by rewrite length_erodeBinary).
  assert (H5 : Z.of_nat (length (dilateBinary
                 (erodeBinary filled width height 1) width height 1))
               = width * height) by (by rewrite length_dilateBinary).
  set (opened := dilateBinary _ _ _ _) in *.
  assert (H6 : Z.of_nat (length (dilateBinary opened width height 1))
               = width * height) by (by rewrite length_dilateBinary).
  assert (H7 : Z.of_nat (length (erodeBinary
                 (dilateBinary opened width height 1) width height 1))
               = width * height) by (by rewrite length_erodeBinary).
  rewrite length_softenBinaryMask; [done|lia|lia|done].
Qed.

Lemma buildLocalForegroundMask_length_witness :
  loopRadius (blurRadius (constructor noOptions)) = Some (2 + 1) /\
  exists matte,
    @buildLocalForegroundMask ecmascript (constructor noOptions)
      [10; 20; 30; 255; 40; 50; 60; 128] 2 1 = Some matte /\
    Z.of_nat (length matte) = 2 * 1.
Proof.
  apply (buildLocalForegroundMask_length (constructor noOptions)
           [10; 20; 30; 255; 40; 50; 60; 128] 2 1 2);
    [lia|lia|reflexivity|lia|reflexivity].
Defined.
(** * The background model: where the samples are read *)

Lemma elem_of_range (lo hi step i : Z) :
  i ∈ range lo hi step -> lo <= i < hi.
Proof.
  unfold range. destruct (Z.leb_spec step 0) as [|Hs].
  - by intros ?%elem_of_nil.
  - intros (k & -> & Hk%elem_of_seqZ)%list_elem_of_fmap.
    assert (Hn : 0 < (hi - lo + step - 1) / step) by lia.
    pose proof (Z.mul_div_le (hi - lo + step - 1) step Hs). nia.
Qed.

Lemma foldl_invariant {S B : Type} (P : S -> Prop) (f : S -> B -> S)
  (l : list B) (s : S) :
  P s -> (forall s x, x ∈ l -> P s -> P (f s x)) -> P (foldl f s l).
Proof.
  revert s. induction l as [|x l IH]; intros s Hs Hf; [done|].
  simpl. apply IH.
  - apply Hf; [by left|done].
  - intros s' x' Hx'. apply Hf. by right.
Qed.

Lemma sampleBorder_le (m : Z) : 6 <= m -> 6 <= sampleBorder m <= m.
Proof.
  intros Hm. unfold sampleBorder. split; [lia|].
  destruct (Z.le_gt_cases 18 m) as [|Hlt]; [lia|].
  assert (H : forallb (fun m => sampleBorder m <=? m) (seqZ 6 12) = true)
    by (vm_compute; reflexivity).
  rewrite forallb_forall in H.
  specialize (H m ltac:(apply list_elem_of_In, elem_of_seqZ; lia)).
  apply Z.leb_le in H. exact H.
Qed.

Lemma transparent_alpha (a : Z) :
  isByte a -> PrimFloat.ltb (Z2F a) 16 = (a <? 16).
Proof.
  intros Ha.
  apply (byte_cases
           (fun a => Bool.eqb (PrimFloat.ltb (Z2F a) 16) (a <? 16))) in Ha.
  - by apply eqb_prop in Ha.
  - vm_compute. reflexivity.
Qed.

Section Sampling.

Variables (data : list Z) (width height : Z).
Hypothesis Hbuf : pixelBuffer data width height.

(** What the sampler may do to its state. *)
Variable P : list (BinKey * Bin.t) * list Sample -> Prop.
Hypothesis P_sample : forall bins samples x y r g b a,
  0 <= x < width -> 0 <= y < height ->
  pixelAt data (pixelIndex width x y) r g b a ->
  16 <= a ->
  P (bins, samples) ->
  P (bins_add bins (shr4 (Some r), shr4 (Some g), shr4 (Some b))
       (Z2F r) (Z2F g) (Z2F b),
     samples ++ [(Some r, Some g, Some b)]).

Lemma addSample_inv (st : list (BinKey * Bin.t) * list Sample) (x y : Z) :
  0 <= x < width -> 0 <= y < height -> P st -> P (addSample data width st x y).
Proof.
  intros Hx Hy Hst. destruct st as [bins samples].
  pose proof (pixelIndex_bounds width height x y Hx Hy) as Hi.
  destruct (buffer_pixel data width height _ Hbuf Hi)
    as (r & g & b & a & Hp & Hr & Hg & Hb & Ha).
  pose proof Hp as (Er & Eg & Eb & Ea).
  unfold pixelIndex in Er, Eg, Eb, Ea.
  unfold addSample. cbv zeta. rewrite Ea. simpl num.
  rewrite transparent_alpha by done.
  destruct (Z.ltb_spec a 16); [done|].
  rewrite Er, Eg, Eb. simpl num. by apply (P_sample _ _ x y r g b a).
Qed.

Lemma borderSamples_inv :
  6 <= width -> 6 <= height -> P ([], []) ->
  P (borderSamples data width height).
Proof.
  intros Hw Hh H0. unfold borderSamples. cbv zeta.
  fold (sampleBorder (Z.min width height)).
  pose proof (sampleBorder_le (Z.min width height) ltac:(lia)) as Hb.
  set (border := sampleBorder (Z.min width height)) in *.
  set (step := Z.max 1 _).
  apply foldl_invariant.
  - apply foldl_invariant; [done|].
    intros st y Hy%elem_of_range Hst.
    apply foldl_invariant; [done|].
    intros st' x Hx%elem_of_range Hst'.
    apply addSample_inv; [lia..|]. apply addSample_inv; [lia..|done].
  - intros st x Hx%elem_of_range Hst.
    apply foldl_invariant; [done|].
    intros st' y Hy%elem_of_range Hst'.
    apply addSample_inv; [lia..|]. apply addSample_inv; [lia..|done].
Qed.

End Sampling.

(** X16: on a pixel buffer at least 6 pixels wide and 6 pixels high,
    [estimateBackgroundModel] reads every border sample inside the
    buffer: each sample is three bytes.  When every pixel has an alpha
    below 16 there is no sample and the model is the fixed near-white
    one, on any host. *)
Theorem estimateBackgroundModel_samples (data : list Z) (width height : Z) :
  pixelBuffer data width height -> 6 <= width -> 6 <= height ->
  Forall definedSample (borderSamples data width height).2 /\
  ((forall i a, 0 <= i < width * height ->
      aget data (i * 4 + 3) = Some a -> a < 16) ->
   forall H : Host,
     estimateBackgroundModel data width height
     = Model.mk 245 245 245 30 42).
Proof.
  intros Hbuf Hw Hh. split.
  - apply (borderSamples_inv data width height Hbuf
             (fun st => Forall definedSample st.2)); try done.
    intros bins samples x y r g b a Hx Hy Hp Ha Hst. simpl in *.
    apply Forall_app. split; [done|]. apply Forall_singleton.
    pose proof (pixelIndex_bounds width height x y Hx Hy) as Hi.
    destruct (buffer_pixel data width height _ Hbuf Hi)
      as (r0 & g0 & b0 & a0 & Hp0 & Hr & Hg & Hb & _).
    destruct Hp as (? & ? & ? & _), Hp0 as (? & ? & ? & _).
    exists r, g, b. split; [done|].
    assert (r0 = r) by congruence. assert (g0 = g) by congruence.
    assert (b0 = b) by congruence. subst. done.
  - intros Halpha H.
    assert (E : borderSamples data width height = ([], [])).
    { apply (borderSamples_inv data width height Hbuf
               (fun st => st = ([], []))); try done.
      intros bins samples x y r g b a Hx Hy Hp Ha _.
      pose proof (pixelIndex_bounds width height x y Hx Hy) as Hi.
      destruct Hp as (_ & _ & _ & Ea).
      specialize (Halpha _ a Hi Ea). lia. }
    unfold estimateBackgroundModel. by rewrite E.
Qed.

Lemma estimateBackgroundModel_samples_witness :
  estimateBackgroundModel (replicate 144 0) 6 6
  = Model.mk 245 245 245 30 42.
Proof.
  apply (estimateBackgroundModel_samples (replicate 144 0) 6 6);
    [|lia|lia|].
  - split; [lia|]. split; [lia|]. split; [reflexivity|].
    apply Forall_replicate. unfold isByte. lia.
  - intros i a Hi Ha. apply aget_Some_bounds in Ha as Hb.
    rewrite aget_lookup in Ha by lia.
    apply lookup_replicate in Ha as [-> _]. lia.
Defined.
(** * Softening: where the matte is saturated *)

(** Counting to 255 in binary64 is exact. *)
Lemma Z2F_succ (k : Z) : 0 <= k < 255 -> (Z2F k + 1)%float = Z2F (k + 1).
Proof.
  intros Hk.
  assert (Hs : forallb (fun k => match Prim2SF (Z2F k + 1),
                                       Prim2SF (Z2F (k + 1)) with
                                 | S754_finite s1 m1 e1,
                                   S754_finite s2 m2 e2 =>
                                     Bool.eqb s1 s2 && (m1 =? m2)%positive
                                     && (e1 =? e2)
                                 | _, _ => false
                                 end) (seqZ 0 255) = true)
    by (vm_compute; reflexivity).
  rewrite forallb_forall in Hs.
  specialize (Hs k ltac:(apply list_elem_of_In, elem_of_seqZ; lia)).
  rewrite <- (SF2Prim_Prim2SF (Z2F k + 1)), <- (SF2Prim_Prim2SF (Z2F (k + 1))).
  f_equal.
  destruct (Prim2SF (Z2F k + 1)) as [| | |s1 m1 e1]; try done.
  destruct (Prim2SF (Z2F (k + 1))) as [| | |s2 m2 e2]; try done.
  apply andb_true_iff in Hs as [[Hs1 Hs2]%andb_true_iff Hs3].
  apply eqb_prop in Hs1. apply Pos.eqb_eq in Hs2. apply Z.eqb_eq in Hs3.
  by subst.
Qed.

Lemma mean_of_ones (k : Z) :
  1 <= k <= 255 -> fround (Z2F k / Z2F k) = 1%float.
Proof.
  intros Hk. apply eqb_one.
  assert (H : (k =? 0) || PrimFloat.eqb (fround (Z2F k / Z2F k)) 1 = true).
  { apply (byte_cases
             (fun k => (k =? 0) || PrimFloat.eqb (fround (Z2F k / Z2F k)) 1)).
    - vm_compute. reflexivity.
    - unfold isByte. lia. }
  apply orb_true_iff in H as [H%Z.eqb_eq|H]; [lia|done].
Qed.

Section WindowOnes.

Context (src : list float) (pos bound : Z) (at_ : Z -> Z).

Lemma window_sum_one (l : list Z) (count : Z) :
  0 <= count -> count + Z.of_nat (length l) <= 255 ->
  (forall d, d ∈ l -> 0 <= pos + d < bound ->
     numf (aget src (at_ (pos + d))) = 1%float) ->
  exists count',
    foldl (windowStep src pos bound at_) (Z2F count, count) l
    = (Z2F count', count') /\
    count <= count' <= count + Z.of_nat (length l) /\
    (0 ∈ l -> 0 <= pos < bound -> count + 1 <= count').
Proof.
  revert count. induction l as [|d l IH]; intros count Hc Hlen Hone.
  - exists count. simpl. split; [done|]. split; [lia|].
    intros H. by apply elem_of_nil in H.
  - assert (Hs : windowStep src pos bound at_ (Z2F count, count) d
                 = if (pos + d <? 0) || (bound <=? pos + d)
                   then (Z2F count, count)
                   else ((Z2F count + numf (aget src (at_ (pos + d))))%float,
                         count + 1)) by reflexivity.
    cbn [foldl]. rewrite Hs. clear Hs. simpl length in Hlen.
    destruct ((pos + d <? 0) || (bound <=? pos + d)) eqn:E.
    + destruct (IH count) as (c & -> & Hc' & H0); [lia..| |].
      { intros d' Hd'. apply Hone. by right. }
      exists c. split; [done|]. split; [simpl length; lia|].
      intros [Hd|H]%elem_of_cons Hp; [subst d|by apply H0].
      apply orb_true_iff in E as [E|E]; [apply Z.ltb_lt in E|
                                         apply Z.leb_le in E]; lia.
    + apply orb_false_iff in E as [E1%Z.ltb_ge E2%Z.leb_gt].
      rewrite Hone by (first [by left | lia]).
      rewrite Z2F_succ by lia.
      destruct (IH (count + 1)) as (c & -> & Hc' & H0); [lia..| |].
      { intros d' Hd'. apply Hone. by right. }
      exists c. split; [done|]. split; [simpl length; lia|].
      intros _ _. lia.
Qed.

Lemma windowMean_one (radius : Z) :
  0 <= radius <= 127 -> 0 <= pos < bound ->
  (forall n, 0 <= n < bound -> Z.abs (n - pos) <= radius ->
     numf (aget src (at_ n)) = 1%float) ->
  windowMean src radius pos bound at_ = 1%float.
Proof.
  intros Hr Hp Hone. unfold windowMean.
  assert (Hl : Z.of_nat (length (range (- radius) (radius + 1) 1))
               = 2 * radius + 1)
    by (rewrite range_1, length_seqZ; lia).
  destruct (window_sum_one (range (- radius) (radius + 1) 1) 0)
    as (c & E & Hc & H0); [lia..| |].
  { intros d Hd%elem_of_range_1 Hn. apply Hone; lia. }
  change (Z2F 0) with 0%float in E. rewrite E.
  specialize (H0 ltac:(apply elem_of_range_1; lia) Hp).
  apply mean_of_ones. lia.
Qed.

End WindowOnes.

Section Saturated.

Context (mask : list Z) (width height : Z).
Hypothesis Hw : 1 <= width.
Hypothesis Hh : 1 <= height.
Hypothesis Hlen : Z.of_nat (length mask) = width * height.
Hypothesis Hbin : binaryMask mask.

(** A window full of foreground blurs to one. *)
Lemma boxBlur_one (radius x y : Z) :
  0 <= radius <= 127 -> 0 <= x < width -> 0 <= y < height ->
  foregroundThroughout mask width height radius x y ->
  aget (boxBlur ((fun v => fround (Z2F v)) <$> mask) width height radius)
    (pixelIndex width x y) = Some 1%float.
Proof.
  intros Hr Hx Hy Hall. unfold boxBlur.
  rewrite length_fmap.
  rewrite aget_fill2; try done; cycle 1.
  { unfold fzeros. rewrite length_replicate.
    pose proof (pixelIndex_bounds width height x y Hx Hy). lia. }
  f_equal. apply windowMean_one; try done.
  intros ny Hny Hdy.
  change (ny * width + x) with (pixelIndex width x ny).
  rewrite aget_fill2; try done; cycle 1.
  { unfold fzeros. rewrite length_replicate.
    pose proof (pixelIndex_bounds width height x ny Hx Hny). lia. }
  simpl numf. apply windowMean_one; try done.
  intros nx Hnx Hdx.
  change (ny * width + nx) with (pixelIndex width nx ny).
  rewrite (aget_floatMask mask).
  rewrite (Hall nx ny Hnx Hny Hdx Hdy). reflexivity.
Qed.

Lemma softenBinaryMask_one (radius x y : Z) :
  1 <= radius <= 127 -> 0 <= x < width -> 0 <= y < height ->
  foregroundThroughout mask width height radius x y ->
  aget (softenBinaryMask mask width height radius) (pixelIndex width x y)
  = Some 1%float.
Proof.
  intros Hr Hx Hy Hall. unfold softenBinaryMask.
  destruct (Z.leb_spec radius 0); [lia|].
  pose proof (pixelIndex_bounds width height x y Hx Hy) as Hb.
  rewrite aget_lookup by lia. rewrite list_lookup_fmap.
  rewrite <- aget_lookup by lia.
  rewrite boxBlur_one; try done; lia.
Qed.

Lemma softenBinaryMask_hard (radius x y : Z) :
  radius <= 0 -> 0 <= x < width -> 0 <= y < height ->
  aget (softenBinaryMask mask width height radius) (pixelIndex width x y)
  = Some (if truthyZ (aget mask (pixelIndex width x y))
          then 1%float else 0%float).
Proof.
  intros Hr Hx Hy. unfold softenBinaryMask.
  destruct (Z.leb_spec radius 0); [|lia].
  rewrite (aget_floatMask mask).
  by destruct (mask_bit mask width height Hlen Hbin x y Hx Hy)
    as [-> | ->].
Qed.

End Saturated.

(** X18: the softened matte of a binary mask is saturated away from the
    contour: for a blur radius from 1 to 127 it is exactly 1 at a pixel
    whose whole window of that radius is foreground and exactly 0 at a
    pixel whose window holds no foreground; with a radius of 0 or less
    nothing is blurred and the matte is the mask itself, as 0s and 1s. *)
Theorem softenBinaryMask_saturated (mask : list Z) (width height radius x y : Z) :
  1 <= width -> 1 <= height ->
  Z.of_nat (length mask) = width * height -> binaryMask mask ->
  0 <= x < width -> 0 <= y < height ->
  let matte := aget (softenBinaryMask mask width height radius)
                 (pixelIndex width x y) in
  (1 <= radius <= 127 ->
   (foregroundThroughout mask width height radius x y ->
    matte = Some 1%float) /\
   (~ foregroundWithin mask width height radius x y ->
    matte = Some 0%float)) /\
  (radius <= 0 ->
   matte = Some (if truthyZ (aget mask (pixelIndex width x y))
                 then 1%float else 0%float)).
Proof.
  intros Hw Hh Hlen Hbin Hx Hy matte. split.
  - intros Hr. split.
    + intros Hall. by apply softenBinaryMask_one.
    + intros Hnone. apply softenBinaryMask_zero; try done.
      assert (2 ^ 7 < 2 ^ 61) by (apply Z.pow_lt_mono_r; lia).
      assert (127 < 2 ^ 7) by done. lia.
  - intros Hr. by apply softenBinaryMask_hard.
Qed.

Lemma softenBinaryMask_saturated_witness :
  aget (softenBinaryMask [1; 1; 1; 1; 1; 1; 1; 1; 1] 3 3 1) (pixelIndex 3 1 1)
  = Some 1%float.
Proof.
  assert (Hbin : binaryMask [1; 1; 1; 1; 1; 1; 1; 1; 1]).
  { unfold binaryMask.
    repeat (apply Forall_cons; split; [lia|]). apply Forall_nil_2. }
  apply (proj1 (softenBinaryMask_saturated [1; 1; 1; 1; 1; 1; 1; 1; 1]
                  3 3 1 1 1 ltac:(lia) ltac:(lia) eq_refl Hbin
                  ltac:(lia) ltac:(lia))); [lia|].
  intros x' y' Hx' Hy' _ _.
  assert (Hc : (x' = 0 \/ x' = 1 \/ x' = 2) /\
               (y' = 0 \/ y' = 1 \/ y' = 2)) by lia.
  destruct Hc as [[-> | [-> | ->]] [-> | [-> | ->]]]; reflexivity.
Defined.
(** * From the binary mask to the output pixels *)

Section Compose.

Variables (data : list Z) (mask : list Z) (width height radius : Z).
Hypothesis Hbuf : pixelBuffer data width height.
Hypothesis Hlen : Z.of_nat (length mask) = width * height.
Hypothesis Hbin : binaryMask mask.
Hypothesis Hr : 1 <= radius <= 127.

Local Abbreviation matte := (softenBinaryMask mask width height radius).

Lemma dims : 1 <= width /\ 1 <= height.
Proof. by destruct Hbuf as (? & ? & _). Qed.

Lemma matte_inside (x y : Z) :
  0 <= x < width -> 0 <= y < height ->
  foregroundThroughout mask width height radius x y ->
  numf (aget matte (pixelIndex width x y)) = 1%float.
Proof.
  intros Hx Hy Hall. destruct dims.
  by rewrite (softenBinaryMask_one mask width height).
Qed.

Lemma matte_outside (x y : Z) :
  0 <= x < width -> 0 <= y < height ->
  ~ foregroundWithin mask width height radius x y ->
  numf (aget matte (pixelIndex width x y)) = 0%float.
Proof.
  intros Hx Hy Hnone. destruct dims.
  assert (2 ^ 7 < 2 ^ 61) by (apply Z.pow_lt_mono_r; lia).
  assert (127 < 2 ^ 7) by done.
  rewrite (softenBinaryMask_zero mask width height); try done; lia.
Qed.

End Compose.

(** X19: softening a binary mask with a blur radius from 1 to 127 and
    applying the matte without a background colour leaves a pixel whose
    whole window is foreground exactly as it was, alpha included, and
    makes a pixel whose window holds no foreground fully transparent,
    keeping its colour bytes.  The crop bounds computed from the same
    matte contain every pixel of the first kind, and there is none when
    no bounds are found. *)
Theorem softened_matte_applied (data mask : list Z) (width height radius : Z) :
  pixelBuffer data width height ->
  Z.of_nat (length mask) = width * height -> binaryMask mask ->
  1 <= radius <= 127 ->
  let matte := softenBinaryMask mask width height radius in
  let out := applyMaskToImage None data matte width height in
  (forall x y r g b a, 0 <= x < width -> 0 <= y < height ->
     pixelAt data (pixelIndex width x y) r g b a ->
     (foregroundThroughout mask width height radius x y ->
      pixelAt out (pixelIndex width x y) r g b a) /\
     (~ foregroundWithin mask width height radius x y ->
      pixelAt out (pixelIndex width x y) r g b 0)) /\
  match computeCropBoundsFromMask matte width height with
  | None =>
      forall x y, 0 <= x < width -> 0 <= y < height ->
        ~ foregroundThroughout mask width height radius x y
  | Some b =>
      forall x y, 0 <= x < width -> 0 <= y < height ->
        foregroundThroughout mask width height radius x y ->
        Bounds.top b <= y <= Bounds.bottom b /\
        Bounds.left b <= x <= Bounds.right b
  end.
Proof.
  intros Hbuf Hlen Hbin Hr matte out.
  pose proof Hbuf as (Hw & Hh & _). split.
  - intros x y r g b a Hx Hy Hp.
    pose proof (pixelIndex_bounds width height x y Hx Hy) as Hi.
    pose proof (pixelAt_applyMaskToImage None matte data width height
                  _ r g b a Hi Hp) as Hout.
    simpl in Hout.
    assert (Ha : isByte a).
    { destruct (buffer_pixel data width height _ Hbuf Hi)
        as (r0 & g0 & b0 & a0 & (_ & _ & _ & Ea) & _ & _ & _ & Ha).
      destruct Hp as (_ & _ & _ & Ea'). congruence. }
    split.
    + intros Hall. unfold matte in Hout.
      rewrite (matte_inside data mask width height radius Hbuf Hlen Hr)
        in Hout by done.
      by rewrite alphaOut_high in Hout.
    + intros Hnone. unfold matte in Hout.
      rewrite (matte_outside data mask width height radius Hbuf Hlen Hbin Hr)
        in Hout by done.
      by rewrite alphaOut_low in Hout.
  - pose proof (computeCropBoundsFromMask_hits matte width height
                  ltac:(lia) ltac:(lia)) as H.
    assert (Hhit : forall x y, 0 <= x < width -> 0 <= y < height ->
              foregroundThroughout mask width height radius x y ->
              cropHit matte width x y).
    { intros x y Hx Hy Hall. unfold cropHit, matte.
      by rewrite (matte_inside data mask width height radius
                    Hbuf Hlen Hr). }
    destruct (computeCropBoundsFromMask matte width height) as [b|].
    + intros x y Hx Hy Hall.
      destruct H as (_ & _ & Hbox & _). apply Hbox; auto.
    + intros x y Hx Hy Hall. apply (H x y Hx Hy). auto.
Qed.

Lemma softened_matte_applied_witness :
  pixelAt
    (applyMaskToImage None (replicate 36 200)
       (softenBinaryMask [1; 1; 1; 1; 1; 1; 1; 1; 1] 3 3 1) 3 3)
    (pixelIndex 3 1 1) 200 200 200 200.
Proof.
  assert (Hbin : binaryMask [1; 1; 1; 1; 1; 1; 1; 1; 1]).
  { unfold binaryMask.
    repeat (apply Forall_cons; split; [lia|]). apply Forall_nil_2. }
  assert (Hbuf : pixelBuffer (replicate 36 200) 3 3).
  { split; [lia|]. split; [lia|]. split; [reflexivity|].
    apply Forall_replicate. unfold isByte. lia. }
  pose proof (softened_matte_applied (replicate 36 200)
                [1; 1; 1; 1; 1; 1; 1; 1; 1] 3 3 1 Hbuf eq_refl Hbin
                ltac:(lia)) as H.
  cbv zeta in H. destruct H as [H _].
  apply (H 1 1 200 200 200 200).
  - lia.
  - lia.
  - unfold pixelAt. split_and!; reflexivity.
  - intros x' y' Hx' Hy' _ _.
    assert (Hc : (x' = 0 \/ x' = 1 \/ x' = 2) /\
                 (y' = 0 \/ y' = 1 \/ y' = 2)) by lia.
    destruct Hc as [[-> | [-> | ->]] [-> | [-> | ->]]]; reflexivity.
Defined.
(** * The colour distance *)

Section Swap.

Lemma binary_round_aux_opp (s : bool) (mx ex : Z) (lx : location) :
  binary_round_aux prec emax (negb s) mx ex lx
  = SFopp (binary_round_aux prec emax s mx ex lx).
Proof.
  unfold binary_round_aux.
  destruct (shr_fexp prec emax mx ex lx) as [mrs1 e1].
  destruct (shr_fexp prec emax _ e1 loc_Exact) as [mrs2 e2].
  destruct (shr_m mrs2); try done. by destruct (_ <=? _).
Qed.

Lemma binary_normalize_opp (m e : Z) :
  m <> 0 ->
  binary_normalize prec emax (- m) e false
  = SFopp (binary_normalize prec emax m e false).
Proof.
  intros Hm. destruct m as [|p|p]; [done| |]; simpl;
    unfold binary_round; destruct (shl_align _ _ _) as [mz ez].
  - apply (binary_round_aux_opp false).
  - apply (binary_round_aux_opp true).
Qed.

(** Swapping the terms of a difference flips its sign (a difference that
    is zero may keep it). *)
Lemma SFsub_swap (a b : spec_float) :
  SFsub prec emax b a = SFopp (SFsub prec emax a b) \/
  exists s s', SFsub prec emax a b = S754_zero s /\
               SFsub prec emax b a = S754_zero s'.
Proof.
  destruct a as [sa|sa| |sa ma ea], b as [sb|sb| |sb mb eb];
    try (by left);
    try (left; destruct sa, sb; reflexivity);
    try (right; destruct sa, sb; simpl; eauto; fail).
  unfold SFsub. cbv zeta. rewrite (Z.min_comm eb ea).
  set (A := cond_Zopp sa _). set (B := cond_Zopp sb _).
  destruct (Z.eq_dec (A - B) 0) as [E|E].
  - right. exists false, false.
    rewrite E. replace (B - A) with 0 by lia. done.
  - left. replace (B - A) with (- (A - B)) by lia.
    by apply binary_normalize_opp.
Qed.

Lemma SFmul_self_opp (z : spec_float) :
  SFmul prec emax (SFopp z) (SFopp z) = SFmul prec emax z z.
Proof. destruct z as [s|s| |s m e]; try done; by destruct s. Qed.

Lemma sq_sub_sym (x y : float) :
  ((x - y) * (x - y))%float = ((y - x) * (y - x))%float.
Proof.
  rewrite <- (SF2Prim_Prim2SF ((x - y) * (x - y))).
  rewrite <- (SF2Prim_Prim2SF ((y - x) * (y - x))).
  f_equal. rewrite !mul_spec, !sub_spec. unfold SF64mul, SF64sub.
  destruct (SFsub_swap (Prim2SF x) (Prim2SF y)) as [E|(s & s' & E1 & E2)].
  - by rewrite E, SFmul_self_opp.
  - rewrite E1, E2. by destruct s, s'.
Qed.

End Swap.

Lemma add_nan_r (x : float) : (x + nan)%float = nan.
Proof.
  apply nan_eq, is_nan_spec. rewrite add_spec.
  change (Prim2SF nan) with S754_nan. by destruct (Prim2SF x).
Qed.

Lemma rgbDistance_sym (r1 g1 b1 r2 g2 b2 : float) :
  rgbDistance r1 g1 b1 r2 g2 b2 = rgbDistance r2 g2 b2 r1 g1 b1.
Proof.
  unfold rgbDistance. cbv zeta.
  by rewrite (sq_sub_sym r1 r2), (sq_sub_sym g1 g2), (sq_sub_sym b1 b2).
Qed.

Lemma rgbDistance_sign (r1 g1 b1 r2 g2 b2 : float) :
  is_nan (rgbDistance r1 g1 b1 r2 g2 b2) = true \/
  Nonneg (rgbDistance r1 g1 b1 r2 g2 b2).
Proof.
  unfold rgbDistance. cbv zeta.
  destruct (is_nan (r1 - r2)) eqn:Er.
  { left. rewrite (nan_eq _ Er), mul_nan_l, !add_nan_l. reflexivity. }
  destruct (is_nan (g1 - g2)) eqn:Eg.
  { left. rewrite (nan_eq _ Eg), mul_nan_l, add_nan_r, add_nan_l.
    reflexivity. }
  destruct (is_nan (b1 - b2)) eqn:Eb.
  { left. rewrite (nan_eq _ Eb), mul_nan_l, add_nan_r. reflexivity. }
  right. apply sqrt_Nonneg.
  repeat apply add_Nonneg; by apply mul_self_Nonneg.
Qed.

(** X17: the colour distance does not depend on the order of the two
    colours, whatever the numbers, and is never negative: it is [NaN] or
    at least 0.  Hence the distance between two pixels of a buffer is
    the same in both directions, and it is 0 from a pixel of a pixel
    buffer to itself. *)
Theorem rgbDistance_metric :
  (forall r1 g1 b1 r2 g2 b2,
     rgbDistance r1 g1 b1 r2 g2 b2 = rgbDistance r2 g2 b2 r1 g1 b1) /\
  (forall r1 g1 b1 r2 g2 b2,
     is_nan (rgbDistance r1 g1 b1 r2 g2 b2) = true \/
     PrimFloat.leb 0 (rgbDistance r1 g1 b1 r2 g2 b2) = true) /\
  (forall data i j,
     rgbDistanceBetweenIndices data i j
     = rgbDistanceBetweenIndices data j i) /\
  (forall data width height i,
     pixelBuffer data width height -> 0 <= i < width * height ->
     rgbDistanceBetweenIndices data i i = 0%float).
Proof.
  split; [exact rgbDistance_sym|]. split; [|split].
  - intros r1 g1 b1 r2 g2 b2.
    destruct (rgbDistance_sign r1 g1 b1 r2 g2 b2) as [H|H]; [by left|].
    right. by apply Nonneg_leb_0.
  - intros data i j. unfold rgbDistanceBetweenIndices. cbv zeta.
    apply rgbDistance_sym.
  - intros data width height i Hbuf Hi.
    unfold rgbDistanceBetweenIndices, rgbDistance. cbv zeta.
    rewrite (isPosZero_eq _ (sub_diag_zero 9 _
               (channel_Below data width height Hbuf (i * 4) ltac:(lia)))).
    rewrite (isPosZero_eq _ (sub_diag_zero 9 _
               (channel_Below data width height Hbuf (i * 4 + 1)
                  ltac:(lia)))).
    rewrite (isPosZero_eq _ (sub_diag_zero 9 _
               (channel_Below data width height Hbuf (i * 4 + 2)
                  ltac:(lia)))).
    reflexivity.
Qed.
(** * The gradient of flat regions *)

Lemma lumaOf_sameColour (data data' : list Z) (i j : Z) :
  sameColour data data' i j -> lumaOf data i = lumaOf data' j.
Proof.
  intros (Hr & Hg & Hb). unfold lumaOf. cbv zeta. by rewrite Hr, Hg, Hb.
Qed.

Section Flat.

Context (data : list Z) (width height : Z).
Hypothesis Hbuf : pixelBuffer data width height.

Lemma horizontalDifference_flat (x y : Z) :
  0 <= x < width -> 0 <= y < height ->
  sameColour data data (pixelIndex width (Z.min (x + 1) (width - 1)) y)
    (pixelIndex width (Z.max (x - 1) 0) y) ->
  isPosZero (horizontalDifference data width x y).
Proof.
  intros Hx Hy Hs. unfold horizontalDifference.
  rewrite (lumaOf_sameColour _ _ _ _ Hs).
  eapply abs_zero, sub_diag_zero, lumaOf_Below, pixelIndex_bounds;
    [done|lia..].
Qed.

Lemma verticalDifference_flat (x y : Z) :
  0 <= x < width -> 0 <= y < height ->
  sameColour data data (pixelIndex width x (Z.min (y + 1) (height - 1)))
    (pixelIndex width x (Z.max (y - 1) 0)) ->
  isPosZero (verticalDifference data width height x y).
Proof.
  intros Hx Hy Hs. unfold verticalDifference.
  rewrite (lumaOf_sameColour _ _ _ _ Hs).
  eapply abs_zero, sub_diag_zero, lumaOf_Below, pixelIndex_bounds;
    [done|lia..].
Qed.

Lemma computeGradientMap_flat_at (x y : Z) :
  0 <= x < width -> 0 <= y < height ->
  sameColour data data (pixelIndex width (Z.min (x + 1) (width - 1)) y)
    (pixelIndex width (Z.max (x - 1) 0) y) ->
  sameColour data data (pixelIndex width x (Z.min (y + 1) (height - 1)))
    (pixelIndex width x (Z.max (y - 1) 0)) ->
  aget (computeGradientMap data width height) (pixelIndex width x y)
  = Some 0%float.
Proof.
  intros Hx Hy Hh Hv.
  rewrite (aget_computeGradientMap data width height x y Hx Hy).
  f_equal. apply isPosZero_eq, fround_zero, add_zero.
  - by apply horizontalDifference_flat.
  - by apply verticalDifference_flat.
Qed.

End Flat.

Lemma clampedGradient_colour (data data' : list Z) (width height x y : Z) :
  0 < width -> 0 < height -> 0 <= x < width -> 0 <= y < height ->
  (forall i, 0 <= i < width * height -> sameColour data data' i i) ->
  clampedGradient data width height x y
  = clampedGradient data' width height x y.
Proof.
  intros Hw Hh Hx Hy Hs.
  assert (El : forall x' y', 0 <= x' < width -> 0 <= y' < height ->
            lumaOf data (pixelIndex width x' y')
            = lumaOf data' (pixelIndex width x' y')).
  { intros x' y' Hx' Hy'. apply lumaOf_sameColour, Hs.
    by apply pixelIndex_bounds. }
  unfold clampedGradient, horizontalDifference, verticalDifference.
  by rewrite !El by lia.
Qed.

(** X20: the gradient map reads the colour bytes only.  At a pixel whose
    two neighbours along the row have the same colour, and whose two
    neighbours along the column have the same colour (a neighbour outside
    the buffer being replaced by the pixel itself), the gradient is
    exactly 0, so the gradient of a buffer of one colour is 0 everywhere;
    and two pixel buffers that differ in their alpha bytes only have the
    same gradient map. *)
Theorem computeGradientMap_flat (data : list Z) (width height : Z) :
  pixelBuffer data width height ->
  (forall x y, 0 <= x < width -> 0 <= y < height ->
     sameColour data data (pixelIndex width (Z.min (x + 1) (width - 1)) y)
       (pixelIndex width (Z.max (x - 1) 0) y) ->
     sameColour data data (pixelIndex width x (Z.min (y + 1) (height - 1)))
       (pixelIndex width x (Z.max (y - 1) 0)) ->
     aget (computeGradientMap data width height) (pixelIndex width x y)
     = Some 0%float) /\
  ((forall i j, 0 <= i < width * height -> 0 <= j < width * height ->
      sameColour data data i j) ->
   forall i, 0 <= i < width * height ->
     aget (computeGradientMap data width height) i = Some 0%float) /\
  (forall data', pixelBuffer data' width height ->
     (forall i, 0 <= i < width * height -> sameColour data data' i i) ->
     computeGradientMap data' width height
     = computeGradientMap data width height).
Proof.
  intros Hbuf. pose proof Hbuf as (Hw & Hh & _).
  split; [intros; by apply computeGradientMap_flat_at|]. split.
  - intros Hall i Hi.
    destruct (pixelIndex_decompose width i ltac:(lia) ltac:(lia))
      as (E & Hx & Hy).
    assert (i / width < height) by (apply Z.div_lt_upper_bound; lia).
    rewrite E.
    apply computeGradientMap_flat_at; try done; try lia;
      apply Hall; apply pixelIndex_bounds; lia.
  - intros data' Hbuf' Hs.
    assert (Hl : forall d, pixelBuffer d width height ->
              Z.of_nat (length (computeGradientMap d width height))
              = width * height).
    { intros d _. unfold computeGradientMap. cbv zeta.
      rewrite length_fill2. unfold fzeros. rewrite length_replicate. nia. }
    apply list_eq_aget; [pose proof (Hl data Hbuf); pose proof (Hl data' Hbuf');
                         lia|].
    intros i Hi. rewrite (Hl data' Hbuf') in Hi.
    destruct (pixelIndex_decompose width i ltac:(lia) ltac:(lia))
      as (E & Hx & Hy).
    assert (i / width < height) by (apply Z.div_lt_upper_bound; lia).
    rewrite E.
    rewrite (aget_computeGradientMap data' width height)
      by (done || lia).
    rewrite (aget_computeGradientMap data width height)
      by (done || lia).
    f_equal. symmetry. apply clampedGradient_colour; try lia. done.
Qed.

Lemma computeGradientMap_flat_witness :
  aget (computeGradientMap (replicate 16 7) 2 2) 3 = Some 0%float.
Proof.
  assert (Hbuf : pixelBuffer (replicate 16 7) 2 2).
  { split; [lia|]. split; [lia|]. split; [reflexivity|].
    apply Forall_replicate. unfold isByte. lia. }
  apply (proj1 (proj2 (computeGradientMap_flat (replicate 16 7) 2 2 Hbuf)));
    [|lia].
  intros i j Hi Hj. unfold sameColour.
  rewrite !aget_lookup by lia.
  rewrite !lookup_replicate_2 by lia. done.
Defined.
(** * Opening and closing are filters *)

Section Filters.

Variables (width height radius : Z).
Hypothesis Hw : 0 < width.
Hypothesis Hh : 0 < height.

(** A binary mask over the grid. *)
Let gridMask (m : list Z) : Prop :=
  Z.of_nat (length m) = width * height /\ binaryMask m.

Local Abbreviation dilate := (fun m => dilateBinary m width height radius).
Local Abbreviation erode := (fun m => erodeBinary m width height radius).

Lemma gridMask_dilate (m : list Z) : gridMask m -> gridMask (dilate m).
Proof.
  intros [Hl Hb]. split.
  - by rewrite length_dilateBinary.
  - by apply dilateBinary_binary.
Qed.

Lemma gridMask_erode (m : list Z) : gridMask m -> gridMask (erode m).
Proof.
  intros [Hl Hb]. split.
  - by rewrite length_erodeBinary.
  - by apply erodeBinary_binary.
Qed.

Lemma subMask_trans (a b c : list Z) :
  subMask a b -> subMask b c -> subMask a c.
Proof. intros H1 H2 i Hi. by apply H2, H1. Qed.

Lemma subMask_antisym (a b : list Z) :
  gridMask a -> gridMask b -> subMask a b -> subMask b a -> a = b.
Proof.
  intros [La Ba] [Lb Bb] Hab Hba. apply list_eq_aget; [lia|].
  intros i Hi. rewrite La in Hi.
  destruct (mask_value a width height La Ba i Hi) as [Ea|Ea],
           (mask_value b width height Lb Bb i Hi) as [Eb|Eb];
    try congruence.
  - apply Hba in Eb. congruence.
  - apply Hab in Ea. congruence.
Qed.

Lemma dilate_mono (a b : list Z) :
  gridMask a -> gridMask b -> subMask a b -> subMask (dilate a) (dilate b).
Proof.
  intros [La Ba] [Lb Bb] Hab i Hi.
  assert (Hl : Z.of_nat (length (dilate a)) = width * height)
    by (by rewrite length_dilateBinary).
  destruct (aget_Some_grid width height (dilate a) i 1 Hw Hl Hi)
    as (x & y & Hx & Hy & ->).
  apply dilateBinary_within in Hi; try done.
  apply dilateBinary_within; try done.
  destruct Hi as (x' & y' & ? & ? & ? & ? & Hm).
  exists x', y'. do 4 (split; [done|]). by apply Hab.
Qed.

Lemma erode_mono (a b : list Z) :
  gridMask a -> gridMask b -> subMask a b -> subMask (erode a) (erode b).
Proof.
  intros [La Ba] [Lb Bb] Hab i Hi.
  assert (Hl : Z.of_nat (length (erode a)) = width * height)
    by (by rewrite length_erodeBinary).
  destruct (aget_Some_grid width height (erode a) i 1 Hw Hl Hi)
    as (x & y & Hx & Hy & ->).
  apply erodeBinary_throughout in Hi; try done.
  apply erodeBinary_throughout; try done.
  intros x' y' ? ? ? ?. by apply Hab, Hi.
Qed.

Lemma opening_le (m : list Z) : gridMask m -> subMask (dilate (erode m)) m.
Proof. intros [Hl Hb]. by apply opening_subMask. Qed.

Lemma closing_ge (m : list Z) : gridMask m -> subMask m (erode (dilate m)).
Proof. intros [Hl Hb]. by apply closing_subMask. Qed.

Lemma erode_dilate_erode (m : list Z) :
  gridMask m -> erode (dilate (erode m)) = erode m.
Proof.
  intros Hm. apply subMask_antisym.
  - by apply gridMask_erode, gridMask_dilate, gridMask_erode.
  - by apply gridMask_erode.
  - apply erode_mono; [by apply gridMask_dilate, gridMask_erode|done|].
    by apply opening_le.
  - by apply closing_ge, gridMask_erode.
Qed.

Lemma dilate_erode_dilate (m : list Z) :
  gridMask m -> dilate (erode (dilate m)) = dilate m.
Proof.
  intros Hm. apply subMask_antisym.
  - by apply gridMask_dilate, gridMask_erode, gridMask_dilate.
  - by apply gridMask_dilate.
  - by apply opening_le, gridMask_dilate.
  - apply dilate_mono; [done|by apply gridMask_erode, gridMask_dilate|].
    by apply closing_ge.
Qed.

Lemma gridMask_opening (m : list Z) :
  gridMask m -> gridMask (opening m width height radius).
Proof. intros Hm. by apply gridMask_dilate, gridMask_erode. Qed.

Lemma gridMask_closing (m : list Z) :
  gridMask m -> gridMask (closing m width height radius).
Proof. intros Hm. by apply gridMask_erode, gridMask_dilate. Qed.

Lemma opening_idem (m : list Z) :
  gridMask m ->
  opening (opening m width height radius) width height radius
  = opening m width height radius.
Proof.
  intros Hm. unfold opening. by rewrite erode_dilate_erode.
Qed.

Lemma closing_idem (m : list Z) :
  gridMask m ->
  closing (closing m width height radius) width height radius
  = closing m width height radius.
Proof.
  intros Hm. unfold closing. by rewrite dilate_erode_dilate.
Qed.

Lemma opening_mono (a b : list Z) :
  gridMask a -> gridMask b -> subMask a b ->
  subMask (opening a width height radius) (opening b width height radius).
Proof.
  intros Ha Hb Hab. apply dilate_mono; try by apply gridMask_erode.
  by apply erode_mono.
Qed.

Lemma closing_mono (a b : list Z) :
  gridMask a -> gridMask b -> subMask a b ->
  subMask (closing a width height radius) (closing b width height radius).
Proof.
  intros Ha Hb Hab. apply erode_mono; try by apply gridMask_dilate.
  by apply dilate_mono.
Qed.

Lemma stabilised_idem (m : list Z) :
  gridMask m ->
  stabilised (stabilised m width height radius) width height radius
  = stabilised m width height radius.
Proof.
  intros Hm. unfold stabilised.
  set (g := opening m width height radius).
  assert (Hg : gridMask g) by (by apply gridMask_opening).
  set (s := closing g width height radius).
  assert (Hs : gridMask s) by (by apply gridMask_closing).
  apply subMask_antisym.
  - by apply gridMask_closing, gridMask_opening.
  - done.
  - unfold s at 2. rewrite <- (closing_idem g Hg). fold s.
    apply closing_mono; [by apply gridMask_opening|done|].
    by apply opening_le.
  - apply closing_mono; [done|by apply gridMask_opening|].
    unfold g at 1. rewrite <- (opening_idem m Hm). fold g.
    apply opening_mono; [done..|]. by apply closing_ge.
Qed.

End Filters.

(** X21: on a binary mask, the opening (erode, then dilate) and the
    closing (dilate, then erode) are idempotent, for any radius, and so
    is the contour stabilisation of [buildLocalForegroundMask], the
    opening followed by the closing: stabilising a second time changes
    nothing. *)
Theorem stabilised_idempotent (mask : list Z) (width height radius : Z) :
  0 < width -> 0 < height ->
  Z.of_nat (length mask) = width * height -> binaryMask mask ->
  opening (opening mask width height radius) width height radius
  = opening mask width height radius /\
  closing (closing mask width height radius) width height radius
  = closing mask width height radius /\
  stabilised (stabilised mask width height radius) width height radius
  = stabilised mask width height radius.
Proof.
  intros Hw Hh Hlen Hbin. split_and!.
  - by apply opening_idem.
  - by apply closing_idem.
  - by apply stabilised_idem.
Qed.

Lemma stabilised_idempotent_witness :
  stabilised (stabilised [0; 1; 1; 0; 1; 1; 1; 0; 0] 3 3 1) 3 3 1
  = stabilised [0; 1; 1; 0; 1; 1; 1; 0; 0] 3 3 1.
Proof.
  apply (stabilised_idempotent [0; 1; 1; 0; 1; 1; 1; 0; 0] 3 3 1);
    [lia|lia|reflexivity|].
  unfold binaryMask.
  repeat (apply Forall_cons; split; [lia|]). apply Forall_nil_2.
Defined.
(** * The grown region as a function of the seeds *)

Section Region.

Variables (data : list Z) (width height : Z) (model : Model.t)
  (gradient : list float).
Hypothesis Hw : 0 < width.
Hypothesis Hh : 0 < height.

Local Abbreviation region :=
  (growBackgroundRegion data width height model gradient).
Local Abbreviation reached := (grown data width height model gradient).

(** The seeds lie in the grid. *)
Let inGrid (seeds : list Z) : Prop :=
  forall s, s ∈ seeds -> 0 <= s < width * height.

Lemma region_grown (seeds : list Z) (i : Z) :
  inGrid seeds -> aget (region seeds) i = Some 1 <-> reached seeds i.
Proof.
  intros Hs.
  by destruct (growState_final data width height model gradient seeds
                 Hw Hh Hs) as [_ H].
Qed.

Lemma region_length (seeds : list Z) :
  Z.of_nat (length (region seeds)) = width * height.
Proof.
  rewrite length_growBackgroundRegion.
  assert (0 <= width * height) by (apply Z.mul_nonneg_nonneg; lia). lia.
Qed.

Lemma region_binary (seeds : list Z) :
  inGrid seeds -> binaryMask (region seeds).
Proof.
  intros Hs. apply Forall_lookup. intros k v Hv.
  pose proof (lookup_lt_Some _ _ _ Hv) as Hk.
  pose proof (region_length seeds) as Hl.
  destruct (growAfter_inv data width height model gradient seeds Hw Hh Hs
              (length seeds + Z.to_nat (width * height)))
    as (_ & _ & _ & _ & _ & Hb & _).
  specialize (Hb (Z.of_nat k) ltac:(lia)).
  change (Bfs.marks (growAfter _ data width height model gradient seeds))
    with (region seeds) in Hb.
  rewrite aget_lookup, Nat2Z.id, Hv in Hb by lia.
  destruct Hb as [[= ->]|[= ->]]; auto.
Qed.

Lemma reached_mono (seeds seeds' : list Z) (i : Z) :
  (forall s, s ∈ seeds -> s ∈ seeds') ->
  reached seeds i -> reached seeds' i.
Proof.
  intros Hsub H. induction H as [s Hs|p n _ IH Hadj He].
  - apply reach_start. by apply Hsub.
  - by apply (reach_step _ _ _ _ p n).
Qed.

Lemma reached_app (seeds seeds' : list Z) (i : Z) :
  reached (seeds ++ seeds') i <-> reached seeds i \/ reached seeds' i.
Proof.
  split.
  - intros H. induction H as [s Hs|p n _ IH Hadj He].
    + apply elem_of_app in Hs as [Hs|Hs]; [left|right];
        by apply reach_start.
    + destruct IH as [IH|IH]; [left|right];
        by apply (reach_step _ _ _ _ p n).
  - intros [H|H]; eapply reached_mono; try exact H;
      intros s Hs; apply elem_of_app; auto.
Qed.

Lemma region_ext (seeds seeds' : list Z) :
  inGrid seeds -> inGrid seeds' ->
  (forall s, s ∈ seeds <-> s ∈ seeds') -> region seeds = region seeds'.
Proof.
  intros Hs Hs' Heq.
  pose proof (region_length seeds) as Hl.
  pose proof (region_length seeds') as Hl'.
  apply list_eq_aget; [lia|]. intros i Hi. rewrite Hl in Hi.
  destruct (mask_value _ width height Hl (region_binary seeds Hs) i Hi)
    as [E|E],
    (mask_value _ width height Hl' (region_binary seeds' Hs') i Hi)
    as [E'|E']; try congruence.
  - apply region_grown in E'; [|done].
    apply (reached_mono seeds' seeds) in E'; [|by intros s ?%Heq].
    apply region_grown in E'; [|done]. congruence.
  - apply region_grown in E; [|done].
    apply (reached_mono seeds seeds') in E; [|by intros s ?%Heq].
    apply region_grown in E; [|done]. congruence.
Qed.

End Region.

(** X22: for seeds inside the grid, [growBackgroundRegion] returns a
    binary mask with one entry per pixel in which every seed is marked.
    The region depends on the set of seeds only, not on their order or
    repetition; it grows with the set of seeds, and the region of two
    lists of seeds together is the union of their regions. *)
Theorem growBackgroundRegion_seeds (data : list Z) (width height : Z)
  (model : Model.t) (gradient : list float) (seeds seeds' : list Z) :
  0 < width -> 0 < height ->
  (forall s, s ∈ seeds -> 0 <= s < width * height) ->
  (forall s, s ∈ seeds' -> 0 <= s < width * height) ->
  let region := growBackgroundRegion data width height model gradient in
  Z.of_nat (length (region seeds)) = width * height /\
  binaryMask (region seeds) /\
  (forall s, s ∈ seeds -> aget (region seeds) s = Some 1) /\
  ((forall s, s ∈ seeds <-> s ∈ seeds') -> region seeds = region seeds') /\
  ((forall s, s ∈ seeds -> s ∈ seeds') ->
   subMask (region seeds) (region seeds')) /\
  (forall i, aget (region (seeds ++ seeds')) i = Some 1 <->
             aget (region seeds) i = Some 1 \/
             aget (region seeds') i = Some 1).
Proof.
  intros Hw Hh Hs Hs' region.
  assert (Hss : forall s, s ∈ seeds ++ seeds' -> 0 <= s < width * height).
  { intros s [?|?]%elem_of_app; auto. }
  split; [by apply region_length|].
  split; [by apply region_binary|]. split; [|split; [|split]].
  - intros s Hin. apply region_grown; try done. by apply reach_start.
  - intros Heq. by apply region_ext.
  - intros Hsub i Hi. apply region_grown; try done.
    apply (reached_mono data width height model gradient seeds seeds');
      [done|].
    by apply region_grown in Hi.
  - intros i. unfold region. rewrite !region_grown by done.
    apply reached_app.
Qed.

Lemma growBackgroundRegion_seeds_witness :
  growBackgroundRegion (replicate 16 10) 2 2 (Model.mk 10 10 10 30 42)
    (computeGradientMap (replicate 16 10) 2 2) [0; 3]
  = growBackgroundRegion (replicate 16 10) 2 2 (Model.mk 10 10 10 30 42)
      (computeGradientMap (replicate 16 10) 2 2) [3; 0; 3].
Proof.
  apply (growBackgroundRegion_seeds (replicate 16 10) 2 2
           (Model.mk 10 10 10 30 42)
           (computeGradientMap (replicate 16 10) 2 2) [0; 3] [3; 0; 3]);
    try lia.
  - intros s Hs. apply list_elem_of_In in Hs. simpl in Hs. lia.
  - intros s Hs. apply list_elem_of_In in Hs. simpl in Hs. lia.
  - intros s. rewrite !list_elem_of_In. simpl. tauto.
Defined.
(** * Border seeds: the rule *)

Section FloatNan.

Lemma sub_nan_l (y : float) : (nan - y)%float = nan.
Proof.
  apply nan_eq, is_nan_spec. rewrite sub_spec.
  change (Prim2SF nan) with S754_nan. reflexivity.
Qed.

End FloatNan.

(** Where no comparison asks for an exchange, the order is kept. *)
Lemma sort_ties {A : Type} (cmp : A -> A -> float) (l : list A) :
  (forall a b, a ∈ l -> b ∈ l -> PrimFloat.ltb 0 (cmp a b) = false) ->
  Js.sort cmp l = l.
Proof.
  induction l as [|x l IH]; intros Hties; [done|].
  unfold Js.sort in *. simpl. rewrite IH.
  - destruct l as [|y l]; [done|]. simpl.
    rewrite Hties; [done|by left|right; by left].
  - intros a b Ha Hb. apply Hties; by right.
Qed.

Section SeedScores.

Context (data : list Z) (model : Model.t) (gradient : list float).

Lemma rankingScore_candidate (idx : Z) :
  rankingScore data model gradient idx
  = candidateScore (candidateAt data model gradient idx).
Proof.
  unfold rankingScore, candidateScore, candidateAt. simpl.
  by rewrite mul_comm.
Qed.

(** Against a colour with a [NaN] channel every score is [NaN]. *)
Lemma rankingScore_nan (idx : Z) :
  ~ definedColour model ->
  is_nan (rankingScore data model gradient idx) = true.
Proof.
  intros Hm. unfold rankingScore, rgbDistanceAt, rgbDistance. cbv zeta.
  assert (Hcase : is_nan (Model.r model) = true \/
                  is_nan (Model.g model) = true \/
                  is_nan (Model.b model) = true).
  { unfold definedColour in Hm.
    destruct (is_nan (Model.r model)); [by left|].
    destruct (is_nan (Model.g model)); [right; by left|].
    destruct (is_nan (Model.b model)); [right; by right|].
    by destruct Hm. }
  destruct Hcase as [E|[E|E]]; rewrite (nan_eq _ E), sub_nan_r, mul_nan_l.
  - by rewrite !add_nan_l.
  - by rewrite add_nan_r, !add_nan_l.
  - by rewrite add_nan_r, add_nan_l.
Qed.

End SeedScores.

(** C8: for a pixel buffer, a gradient map and every background model,
    the pixels of the border band lie in the buffer.  When some pixel of
    the band passes the test (distance to the model at most the tolerance
    and gradient at most 85), the seeds are exactly the pixels of the
    band that pass it.  When none passes, the seeds are
    [max(40, round(min(w, h) * 0.3))] pixels of the band (all of them
    when there are fewer) and no pixel left out has a smaller score
    [distance + 0.2 * gradient] than a pixel taken: when the colour of
    the model is made of numbers every pixel taken has a score at most
    that of every pixel left out, and when it is not (all scores are
    [NaN]) the pixels taken are the first of the scan.  The seeds are
    never empty. *)
Theorem collectBorderSeeds_spec (data : list Z) (width height : Z)
  (model : Model.t) (gradient : list float) :
  pixelBuffer data width height -> Z.min width height < 2 ^ 53 ->
  gradientMap gradient width height ->
  let seeds := collectBorderSeeds data width height model gradient in
  let band := borderBand width height in
  let test := seedTest data model gradient in
  let score := rankingScore data model gradient in
  let count :=
    Z.min (fallbackCount width height) (Z.of_nat (length band)) in
  Forall (fun idx => 0 <= idx < width * height) band /\
  ((exists idx, idx ∈ band /\ test idx = true) ->
   forall idx, idx ∈ seeds <-> idx ∈ band /\ test idx = true) /\
  ((forall idx, idx ∈ band -> test idx = false) ->
   exists rest,
     band ≡ₚ seeds ++ rest /\
     Z.of_nat (length seeds) = count /\
     (forall i j, i ∈ seeds -> j ∈ rest ->
        PrimFloat.ltb (score j) (score i) = false) /\
     (definedColour model ->
      forall i j, i ∈ seeds -> j ∈ rest ->
        PrimFloat.leb (score i) (score j) = true) /\
     (~ definedColour model -> seeds = take (Z.to_nat count) band)) /\
  seeds <> [].
Proof.
  intros Hbuf Hsize Hgrad seeds band test score count.
  pose proof (borderBand_nonempty data width height Hbuf Hsize) as Hne.
  fold band in Hne.
  set (cands := candidateAt data model gradient <$> band) in *.
  set (cmp := fun a b : Candidate.t =>
                (candidateScore a - candidateScore b)%float).
  assert (Hlen : length (Js.sort cmp cands) = length band).
  { rewrite length_sort. unfold cands. by rewrite length_fmap. }
  set (n := Z.to_nat count).
  assert (Hseeds : seeds
    = if 0 <? Z.of_nat (length (filter (fun i => test i = true) band))
      then filter (fun i => test i = true) band
      else Candidate.idx <$> take n (Js.sort cmp cands)).
  { unfold seeds, collectBorderSeeds. rewrite borderCandidates_band.
    simpl array_sort. fold band cands cmp.
    unfold n, count, fallbackCount. by rewrite Hlen. }
  assert (Hf : 40 <= fallbackCount width height)
    by (unfold fallbackCount; lia).
  assert (Hb : (1 <= length band)%nat)
    by (destruct band; [done|simpl; lia]).
  assert (Hn : (1 <= n <= length band)%nat) by (unfold n, count; lia).
  assert (Hempty : (forall idx, idx ∈ band -> test idx = false) ->
            filter (fun i => test i = true) band = []).
  { intros Hnone.
    destruct (filter (fun i => test i = true) band) as [|s0 l0] eqn:E;
      [done|].
    assert (Hin : s0 ∈ filter (fun i => test i = true) band)
      by (rewrite E; by left).
    apply list_elem_of_filter in Hin as [Ht Hin].
    rewrite (Hnone s0 Hin) in Ht. discriminate Ht. }
  assert (Hidx : Candidate.idx <$> cands = band).
  { unfold cands. rewrite <- list_fmap_compose. apply list_fmap_id. }
  assert (Hcand : forall c, c ∈ Js.sort cmp cands ->
            candidateScore c = score (Candidate.idx c)).
  { intros c Hc. rewrite (sort_perm cmp cands) in Hc.
    apply list_elem_of_fmap in Hc as (i & -> & _).
    unfold score. by rewrite rankingScore_candidate. }
  assert (Hnan : ~ definedColour model -> Js.sort cmp cands = cands).
  { intros Hm. apply sort_ties. intros a b Ha Hb'.
    apply list_elem_of_fmap in Ha as (i & -> & _).
    unfold cmp. rewrite <- (rankingScore_candidate data model gradient i).
    rewrite (nan_eq _ (rankingScore_nan data model gradient i Hm)).
    by rewrite sub_nan_l. }
  split_and!.
  - by apply (borderBand_bounds data).
  - intros (i0 & Hi0 & Ht0) idx. rewrite Hseeds.
    assert (Hin : i0 ∈ filter (fun i => test i = true) band)
      by (by apply list_elem_of_filter).
    destruct (filter (fun i => test i = true) band) as [|s0 l0] eqn:E;
      [by apply elem_of_nil in Hin|].
    simpl length. destruct (Z.ltb_spec 0 (Z.of_nat (S (length l0)))); [|lia].
    rewrite <- E, list_elem_of_filter. tauto.
  - intros Hnone. rewrite (Hempty Hnone) in Hseeds. simpl in Hseeds.
    exists (Candidate.idx <$> drop n (Js.sort cmp cands)).
    assert (Hpair : forall i j, i ∈ seeds ->
              j ∈ Candidate.idx <$> drop n (Js.sort cmp cands) ->
              exists c c', c ∈ take n (Js.sort cmp cands) /\
                c' ∈ drop n (Js.sort cmp cands) /\
                score i = candidateScore c /\ score j = candidateScore c').
    { intros i j Hi Hj. rewrite Hseeds in Hi.
      apply list_elem_of_fmap in Hi as (c & -> & Hc).
      apply list_elem_of_fmap in Hj as (c' & -> & Hc').
      exists c, c'. split_and!; try done; symmetry; apply Hcand.
      - by eapply subseteq_take.
      - by eapply subseteq_drop. }
    assert (Hdef : definedColour model ->
              forall i j, i ∈ seeds ->
                j ∈ Candidate.idx <$> drop n (Js.sort cmp cands) ->
                PrimFloat.leb (score i) (score j) = true).
    { intros Hmodel i j Hi Hj.
      pose proof (candidates_defined data width height model gradient
                    Hbuf Hsize Hmodel Hgrad) as Hd.
      fold band cands in Hd.
      destruct (Hpair i j Hi Hj) as (c & c' & Hc & Hc' & -> & ->).
      assert (Hperm : Forall (fun c => is_nan (candidateScore c) = false)
                        (Js.sort cmp cands)).
      { rewrite (sort_perm cmp cands). exact Hd. }
      assert (Nc : is_nan (candidateScore c) = false).
      { exact (proj1 (Forall_forall _ _) Hperm c (subseteq_take _ _ _ Hc)). }
      assert (Nc' : is_nan (candidateScore c') = false).
      { exact (proj1 (Forall_forall _ _) Hperm c' (subseteq_drop _ _ _ Hc')). }
      rewrite leb_val by done. apply Z.leb_le.
      apply (sort_take_smallest cmp (fun c => fval (candidateScore c))
               (fun c => is_nan (candidateScore c) = false))
        with (l := cands) (n := n); try done.
      intros a b Ha Hb'. unfold cmp. by apply sub_sign. }
    split_and!.
    + rewrite Hseeds, <- fmap_app, take_drop, <- Hidx.
      apply fmap_Permutation. symmetry. apply sort_perm.
    + rewrite Hseeds, length_fmap, length_take. unfold n, count in *. lia.
    + intros i j Hi Hj.
      destruct (is_nan (Model.r model)) eqn:Er;
        [|destruct (is_nan (Model.g model)) eqn:Eg;
          [|destruct (is_nan (Model.b model)) eqn:Eb]].
      4: { assert (Hmodel : definedColour model) by done.
           pose proof (Hdef Hmodel i j Hi Hj) as Hle.
           destruct (PrimFloat.ltb (score j) (score i)) eqn:Hlt; [|done].
           rewrite ltb_spec in Hlt. rewrite leb_spec in Hle.
           unfold SFltb in Hlt. unfold SFleb in Hle.
           pose proof (SFcompare_antisym (Prim2SF (score j))
                         (Prim2SF (score i))) as Ha.
           destruct (SFcompare (Prim2SF (score j)) (Prim2SF (score i)))
             as [[]|]; try done.
           rewrite Ha in Hle. done. }
      all: assert (Hm : ~ definedColour model)
             by (intros (? & ? & ?); congruence).
      all: unfold score;
        rewrite (nan_eq _ (rankingScore_nan data model gradient i Hm));
        rewrite ltb_spec; change (Prim2SF nan) with S754_nan;
        unfold SFltb; by destruct (Prim2SF _).
    + exact Hdef.
    + intros Hm. rewrite Hseeds, (Hnan Hm), fmap_take, Hidx. done.
  - rewrite Hseeds.
    destruct (filter (fun i => test i = true) band) as [|s0 l0] eqn:E.
    + simpl. destruct (Js.sort cmp cands) as [|c0 l0] eqn:Es;
        [simpl in Hlen; lia|].
      destruct n as [|n']; [lia|]. done.
    + simpl length.
      destruct (Z.ltb_spec 0 (Z.of_nat (S (length l0)))); [done|lia].
Qed.

Lemma collectBorderSeeds_spec_witness :
  let data := shaded 12 12 in
  let model := Model.mk 245 245 245 30 42 in
  let gradient := computeGradientMap data 12 12 in
  let seeds := collectBorderSeeds data 12 12 model gradient in
  let band := borderBand 12 12 in
  let score := rankingScore data model gradient in
  (forall idx, idx ∈ band -> seedTest data model gradient idx = false) /\
  length band = 44%nat /\
  exists rest,
    band ≡ₚ seeds ++ rest /\
    Z.of_nat (length seeds)
    = Z.min (fallbackCount 12 12) (Z.of_nat (length band)) /\
    (forall i j, i ∈ seeds -> j ∈ rest ->
       PrimFloat.ltb (score j) (score i) = false) /\
    (definedColour model ->
     forall i j, i ∈ seeds -> j ∈ rest ->
       PrimFloat.leb (score i) (score j) = true) /\
    (~ definedColour model ->
     seeds = take (Z.to_nat (Z.min (fallbackCount 12 12)
                               (Z.of_nat (length band)))) band).
Proof.
  intros data model gradient seeds band score.
  assert (Hnone : forall idx, idx ∈ band ->
            seedTest data model gradient idx = false).
  { assert (H : forallb (fun i => negb (seedTest data model gradient i)) band
                = true) by (vm_compute; reflexivity).
    rewrite forallb_forall in H. intros idx Hin%list_elem_of_In.
    by apply negb_true_iff, H. }
  split; [exact Hnone|]. split; [vm_compute; reflexivity|].
  pose proof (collectBorderSeeds_spec data 12 12 model gradient) as H.
  cbv zeta in H. destruct H as (_ & _ & H & _).
  - unfold pixelBuffer. split_and!; try done.
    apply (bool_decide_unpack _). vm_compute. exact I.
  - reflexivity.
  - split; [vm_compute; reflexivity|].
    unfold Nonneg. apply (bool_decide_unpack _). vm_compute. exact I.
  - exact (H Hnone).
Defined.
(** * Determinism and the host *)

(** ** A stable sort has one result *)

Section StableSort.

Context {A : Type} (key : A -> Z).

Local Abbreviation class k := (filter (fun a => key a = k)).
Local Abbreviation ordered := (StronglySorted (fun a b => key a <= key b)).

(** Two lists in the order of the keys that hold the same elements of
    each key, in the same order, are equal. *)
Lemma sorted_classes_eq (l1 l2 : list A) :
  ordered l1 -> ordered l2 -> (forall k, class k l1 = class k l2) -> l1 = l2.
Proof.
  revert l2. induction l1 as [|a l1 IH]; intros l2 H1 H2 Hf.
  { destruct l2 as [|b l2]; [done|]. specialize (Hf (key b)).
    rewrite filter_nil, filter_cons_True in Hf by done. discriminate Hf. }
  destruct l2 as [|b l2].
  { specialize (Hf (key a)).
    rewrite filter_cons_True, filter_nil in Hf by done. discriminate Hf. }
  apply StronglySorted_cons in H1 as [Ha H1].
  apply StronglySorted_cons in H2 as [Hb H2].
  assert (Hb1 : b ∈ a :: l1).
  { assert (Hin : b ∈ class (key b) (b :: l2))
      by (rewrite filter_cons_True by done; by left).
    rewrite <- Hf in Hin. by apply list_elem_of_filter in Hin as [_ Hin]. }
  assert (Ha2 : a ∈ b :: l2).
  { assert (Hin : a ∈ class (key a) (a :: l1))
      by (rewrite filter_cons_True by done; by left).
    rewrite Hf in Hin. by apply list_elem_of_filter in Hin as [_ Hin]. }
  assert (Hab : key a = key b).
  { apply Z.le_antisymm.
    - apply elem_of_cons in Hb1 as [->|Hb1]; [done|].
      by apply (proj1 (Forall_forall _ _) Ha).
    - apply elem_of_cons in Ha2 as [->|Ha2]; [done|].
      by apply (proj1 (Forall_forall _ _) Hb). }
  pose proof (Hf (key a)) as Hk.
  rewrite !filter_cons_True in Hk by done. injection Hk as -> Hk.
  f_equal. apply IH; [done..|]. intros k.
  destruct (decide (key b = k)) as [<-|Hne]; [done|].
  specialize (Hf k). by rewrite !filter_cons_False in Hf.
Qed.

Context (cmp : A -> A -> float).

Lemma sort_insert_class (x : A) (l : list A) (k : Z) :
  (forall y, y ∈ l -> PrimFloat.ltb 0 (cmp x y) = (key y <? key x)) ->
  class k (sort_insert cmp x l) = class k (x :: l).
Proof.
  induction l as [|y l IH]; intros Hx; [done|]. simpl.
  rewrite (Hx y) by (by left).
  destruct (Z.ltb_spec (key y) (key x)) as [Hlt|Hge]; [|done].
  rewrite (filter_cons _ y), IH by (intros z Hz; apply Hx; by right).
  rewrite !(filter_cons _ x), (filter_cons _ y).
  destruct (decide (key y = k)), (decide (key x = k)); try done. lia.
Qed.

Lemma sort_class (l : list A) (k : Z) :
  consistentComparator cmp key l -> class k (Js.sort cmp l) = class k l.
Proof.
  induction l as [|x l IH]; intros Hc; [done|].
  unfold Js.sort in *. simpl.
  rewrite sort_insert_class.
  - rewrite !(filter_cons _ x), IH; [done|].
    intros a b Ha Hb. apply Hc; by right.
  - intros y Hy. apply Hc; [by left|right].
    fold (Js.sort cmp l) in Hy. by rewrite (sort_perm cmp l) in Hy.
Qed.

Lemma sort_ordered (l : list A) :
  consistentComparator cmp key l -> ordered (Js.sort cmp l).
Proof.
  intros Hc. apply (sort_sorted cmp key (fun a => a ∈ l)).
  - intros a b Ha Hb. by apply Hc.
  - by apply Forall_forall.
Qed.

(** On a host that sorts stably, a sort with a consistent comparator
    gives the list that stable insertion gives. *)
Lemma stableSort_insertion (H : Host) (l : list A) :
  stableSort H -> consistentComparator cmp key l ->
  @array_sort H A cmp l = Js.sort cmp l.
Proof.
  intros Hs Hc. destruct (Hs A cmp key l Hc) as [Ho Hf].
  apply sorted_classes_eq; [done|by apply sort_ordered|].
  intros k. by rewrite Hf, sort_class.
Qed.

End StableSort.

Lemma ecmascript_stableSort : stableSort ecmascript.
Proof.
  intros A cmp key l Hc. split; [by apply sort_ordered|].
  intros k. by apply sort_class.
Qed.

Section Signs.

Lemma ltb_opp_r (z : float) : PrimFloat.ltb 0 (- z) = PrimFloat.ltb z 0.
Proof.
  rewrite !ltb_spec, opp_spec. change (Prim2SF 0) with (S754_zero false).
  by destruct (Prim2SF z) as [[]|[]| |[] m e].
Qed.

Lemma ltb_opp_l (z : float) : PrimFloat.ltb (- z) 0 = PrimFloat.ltb 0 z.
Proof.
  rewrite !ltb_spec, opp_spec. change (Prim2SF 0) with (S754_zero false).
  by destruct (Prim2SF z) as [[]|[]| |[] m e].
Qed.

(** The sign of a difference, on the negative side. *)
Lemma sub_sign_neg (x y : float) :
  is_nan x = false -> is_nan y = false ->
  PrimFloat.ltb (x - y) 0 = (fval x <? fval y).
Proof.
  intros Hx Hy. rewrite <- (sub_sign y x) by done.
  rewrite !ltb_spec, !sub_spec. unfold SF64sub.
  change (Prim2SF 0) with (S754_zero false).
  destruct (SFsub_swap (Prim2SF x) (Prim2SF y)) as [E|(s & s' & E1 & E2)].
  - rewrite E. by destruct (SFsub prec emax (Prim2SF x) (Prim2SF y))
      as [[]|[]| |[] m e].
  - rewrite E1, E2. by destruct s, s'.
Qed.

End Signs.

Lemma mirrored_stableSort : stableSort mirrored.
Proof.
  intros A cmp key l Hc.
  assert (Hc' : consistentComparator (fun x y => (- cmp y x)%float) key l).
  { intros a b Ha Hb. destruct (Hc b a Hb Ha) as [H1 H2].
    by rewrite ltb_opp_r, ltb_opp_l. }
  split; [by apply sort_ordered|]. intros k. by apply sort_class.
Qed.

(** ** The comparators of the pipeline are consistent *)

(** The comparator [(a, b) => f(a) - f(b)] is consistent on elements
    whose values are all numbers, and on elements whose values are all
    [NaN]. *)
Lemma difference_consistent {A : Type} (f : A -> float) (l : list A) :
  (forall a, a ∈ l -> is_nan (f a) = false) \/
  (forall a, a ∈ l -> is_nan (f a) = true) ->
  exists key, consistentComparator (fun a b => (f a - f b)%float) key l.
Proof.
  intros [Hnum|Hnan].
  - exists (fun a => fval (f a)). intros a b Ha Hb. split.
    + apply sub_sign; auto.
    + apply sub_sign_neg; auto.
  - exists (fun _ => 0). intros a b Ha Hb.
    rewrite (nan_eq _ (Hnan a Ha)), sub_nan_l. done.
Qed.

Lemma rgbDistance_nan (r1 g1 b1 r2 g2 b2 : float) :
  is_nan r2 = true \/ is_nan g2 = true \/ is_nan b2 = true ->
  is_nan (rgbDistance r1 g1 b1 r2 g2 b2) = true.
Proof.
  unfold rgbDistance. cbv zeta.
  intros [E|[E|E]]; rewrite (nan_eq _ E), sub_nan_r, mul_nan_l.
  - by rewrite !add_nan_l.
  - by rewrite add_nan_r, !add_nan_l.
  - by rewrite add_nan_r.
Qed.

(** The distances from the samples read inside the buffer to a colour are
    all numbers or all [NaN]. *)
Lemma sampleDistance_uniform (center : Color.t) :
  (forall s, definedSample s -> is_nan (sampleDistance s center) = false) \/
  (forall s, definedSample s -> is_nan (sampleDistance s center) = true).
Proof.
  destruct (is_nan (Color.r center)) eqn:Er;
    [|destruct (is_nan (Color.g center)) eqn:Eg;
      [|destruct (is_nan (Color.b center)) eqn:Eb]].
  4: { left. intros s (r & g & b & -> & Hr & Hg & Hb).
       unfold sampleDistance. simpl num. unfold isByte in *.
       apply Nonneg_not_nan, rgbDistance_Nonneg; try done;
         apply (Z2F_Below _ 8); (done || change (2 ^ 8) with 256; lia). }
  all: right; intros s (r & g & b & -> & _); unfold sampleDistance;
    apply rgbDistance_nan; auto.
Qed.

Lemma div_nan_l (y : float) : (nan / y)%float = nan.
Proof.
  apply nan_eq, is_nan_spec. rewrite div_spec.
  change (Prim2SF nan) with S754_nan. reflexivity.
Qed.

Section Samples.

Context (data : list Z) (width height : Z).
Hypothesis Hbuf : pixelBuffer data width height.

(** Whatever pixel it is asked for, the sampler reads three bytes or
    three [undefined]. *)
Lemma addSample_read (st : list (BinKey * Bin.t) * list Sample) (x y : Z) :
  Forall readSample st.2 ->
  Forall readSample (addSample data width st x y).2.
Proof.
  intros Hst. destruct st as [bins samples]. unfold addSample. cbv zeta.
  destruct (PrimFloat.ltb _ 16); [done|]. simpl.
  apply Forall_app. split; [done|]. apply Forall_singleton.
  set (k := y * width + x).
  destruct (Z.lt_ge_cases k 0) as [Hneg|Hpos];
    [|destruct (Z.lt_ge_cases k (width * height)) as [Hin|Hout]].
  - right. rewrite !aget_neg by lia. done.
  - left.
    destruct (buffer_pixel data width height k Hbuf ltac:(lia))
      as (r & g & b & a & (Er & Eg & Eb & _) & Hr & Hg & Hb & _).
    exists r, g, b. by rewrite Er, Eg, Eb.
  - right. destruct Hbuf as (_ & _ & Hlen & _).
    rewrite !(proj2 (aget_None data _)) by lia. done.
Qed.

Lemma borderSamples_read :
  Forall readSample (borderSamples data width height).2.
Proof.
  unfold borderSamples. cbv zeta.
  apply (foldl_invariant (fun st => Forall readSample st.2)).
  - apply (foldl_invariant (fun st => Forall readSample st.2)); [done|].
    intros st y _ Hst.
    apply (foldl_invariant (fun st => Forall readSample st.2)); [done|].
    intros st' x _ Hst'. by do 2 apply addSample_read.
  - intros st x _ Hst.
    apply (foldl_invariant (fun st => Forall readSample st.2)); [done|].
    intros st' y _ Hst'. by do 2 apply addSample_read.
Qed.

End Samples.

Lemma samples_cases (pool : list Sample) :
  Forall readSample pool ->
  Forall definedSample pool \/ (None, None, None) ∈ pool.
Proof.
  induction 1 as [|s pool [Hs | ->] _ [IH | IH]].
  - by left.
  - left. by apply Forall_cons.
  - right. by right.
  - right. by left.
  - right. by left.
Qed.

Section Sums.

Local Abbreviation add :=
  (fun '(r, g, b) '(sr, sg, sb) =>
     ((r + num sr)%float, (g + num sg)%float, (b + num sb)%float)).

Lemma sums_from_nan (l : list Sample) :
  foldl add (nan, nan, nan) l = (nan, nan, nan).
Proof.
  induction l as [|[[sr sg] sb] l IH]; [done|].
  simpl. by rewrite !add_nan_l.
Qed.

Lemma sums_undefined (l : list Sample) (acc : float * float * float) :
  (None, None, None) ∈ l -> foldl add acc l = (nan, nan, nan).
Proof.
  revert acc. induction l as [|s l IH]; intros [[r g] b] Hin.
  - by apply elem_of_nil in Hin.
  - apply elem_of_cons in Hin as [<-|Hin].
    + simpl. rewrite !add_nan_r. apply sums_from_nan.
    + simpl. destruct s as [[sr sg] sb]. by apply IH.
Qed.

(** The average of samples of which one was read outside the buffer. *)
Lemma averageColor_undefined (pool : list Sample) :
  (None, None, None) ∈ pool -> averageColor pool = Color.mk nan nan nan.
Proof.
  intros Hin. unfold averageColor.
  destruct pool as [|s pool]; [by apply elem_of_nil in Hin|].
  rewrite (sums_undefined _ _ Hin). by rewrite !div_nan_l.
Qed.

End Sums.

(** The distances from the samples to their average are all numbers or
    all [NaN]. *)
Lemma poolDistances_uniform (pool : list Sample) :
  Forall readSample pool ->
  (forall s, s ∈ pool ->
     is_nan (sampleDistance s (averageColor pool)) = false) \/
  (forall s, s ∈ pool ->
     is_nan (sampleDistance s (averageColor pool)) = true).
Proof.
  intros [Hdef|Hun]%samples_cases.
  - destruct (sampleDistance_uniform (averageColor pool)) as [Hu|Hu];
      [left|right]; intros s Hs; apply Hu;
      by apply (proj1 (Forall_forall _ _) Hdef).
  - right. intros [[r g] b] _. rewrite (averageColor_undefined _ Hun).
    unfold sampleDistance. apply rgbDistance_nan. by left.
Qed.

Section Pipeline.

Context (data : list Z) (width height : Z).
Hypothesis Hbuf : pixelBuffer data width height.

Lemma computeGradientMap_gradientMap :
  gradientMap (computeGradientMap data width height) width height.
Proof.
  destruct Hbuf as (Hw & Hh & _).
  assert (Hlen : Z.of_nat (length (computeGradientMap data width height))
                 = width * height).
  { unfold computeGradientMap. cbv zeta.
    rewrite length_fill2. unfold fzeros. rewrite length_replicate. nia. }
  split; [done|]. apply Forall_lookup. intros i g Hg.
  pose proof (lookup_lt_Some _ _ _ Hg) as Hi.
  set (x := Z.of_nat i mod width). set (y := Z.of_nat i / width).
  assert (Hx : 0 <= x < width) by (apply Z.mod_pos_bound; lia).
  assert (Hy : 0 <= y < height).
  { split; [apply Z.div_pos; lia|].
    apply Z.div_lt_upper_bound; [lia|]. nia. }
  pose proof (aget_computeGradientMap data width height x y Hx Hy) as E.
  assert (Ei : pixelIndex width x y = Z.of_nat i).
  { unfold pixelIndex, x, y. pose proof (Z.div_mod (Z.of_nat i) width). lia. }
  rewrite Ei, aget_lookup, Nat2Z.id, Hg in E by lia. injection E as ->.
  by apply clampedGradient_Nonneg.
Qed.

Context (H : Host).
Hypothesis Hmap : insertionOrdered H.
Hypothesis Hsort : stableSort H.

(** The sort of the distances: the samples are read inside the buffer, or
    one of them is not and their average is [NaN]; either way the
    comparator [a - b] is consistent on the distances. *)
Lemma estimateBackgroundModel_host :
  @estimateBackgroundModel H data width height
  = @estimateBackgroundModel ecmascript data width height.
Proof.
  pose proof (borderSamples_read data width height Hbuf) as Hread.
  unfold estimateBackgroundModel.
  destruct (borderSamples data width height) as [bins samples].
  simpl in Hread. rewrite Hmap. simpl map_values.
  destruct samples as [|s samples]; [done|].
  destruct (dominantBin (map snd bins)) as [d|]; [|done].
  cbv zeta.
  set (near := filter _ (s :: samples)).
  set (pool := if 50 <=? Z.of_nat (length near) then near else s :: samples).
  assert (Hpool : Forall readSample pool).
  { unfold pool. destruct (50 <=? _); [|done].
    apply Forall_forall. intros t Ht. unfold near in Ht.
    apply list_elem_of_filter in Ht as [_ Ht].
    by apply (proj1 (Forall_forall _ _) Hread). }
  set (center := averageColor pool).
  destruct (difference_consistent (fun a : float => a)
              (map (fun sample => sampleDistance sample center) pool))
    as [key Hkey].
  { destruct (poolDistances_uniform pool Hpool) as [Hu|Hu]; [left|right];
      intros a Ha%list_elem_of_In; apply in_map_iff in Ha as (t & <- & Ht);
      apply Hu; by apply list_elem_of_In in Ht. }
  cbv beta in Hkey.
  by rewrite (stableSort_insertion key _ H _ Hsort Hkey).
Qed.

(** The sort of the candidates: their scores are all numbers or all
    [NaN], so the comparator is consistent. *)
Lemma collectBorderSeeds_host (model : Model.t) (gradient : list float) :
  Z.min width height < 2 ^ 53 -> gradientMap gradient width height ->
  @collectBorderSeeds H data width height model gradient
  = @collectBorderSeeds ecmascript data width height model gradient.
Proof.
  intros Hsize Hgrad. unfold collectBorderSeeds.
  rewrite borderCandidates_band.
  destruct (0 <? _); [done|].
  set (cands := candidateAt data model gradient <$> borderBand width height).
  destruct (difference_consistent candidateScore cands) as [key Hkey].
  { destruct (is_nan (Model.r model)) eqn:Er;
      [|destruct (is_nan (Model.g model)) eqn:Eg;
        [|destruct (is_nan (Model.b model)) eqn:Eb]].
    4: { left. intros c Hc.
         pose proof (candidates_defined data width height model gradient
                       Hbuf Hsize ltac:(done) Hgrad) as Hd.
         by apply (proj1 (Forall_forall _ _) Hd). }
    all: right; intros c (i & -> & _)%list_elem_of_fmap;
      rewrite <- rankingScore_candidate; apply rankingScore_nan;
      intros (? & ? & ?); congruence. }
  cbv beta in Hkey.
  by rewrite (stableSort_insertion key _ H _ Hsort Hkey).
Qed.

Lemma buildLocalForegroundMask_host (self : BackgroundRemover) :
  Z.min width height < 2 ^ 53 ->
  @buildLocalForegroundMask H self data width height
  = @buildLocalForegroundMask ecmascript self data width height.
Proof.
  intros Hsize. unfold buildLocalForegroundMask.
  rewrite estimateBackgroundModel_host.
  by rewrite (collectBorderSeeds_host _ _ Hsize
                computeGradientMap_gradientMap).
Qed.

End Pipeline.


